(** * primidi: the additive-synthesis engine, voice and partial allocation

    A shallow embedding of [audio/web-audio-engine/additive-synth.js]:
    the [PartialPool] object pool, the [AdditiveSynth] voice manager
    ([selectPartials], [noteOn], [noteOff], [cleanupNote],
    [stealVoiceFromQuietestSustainedNote]), the harmonic evolution
    scheduler ([updateHarmonicEvolution]), the per-note volume control,
    the spectral profiles with their cache, the [PerformanceMonitor] and
    the [PolySynthWrapper] the page plays notes through, with the note
    names of the main script.  The acoustic-model modules
    [piano-envelope-model.js], [odd-even-harmonic-balance.js] and
    [time-varying-brightness.js] are embedded as well; [Math.pow],
    [Math.log2], [Math.sin] and [Math.exp] are parameters wherever their
    value is not rational.

    Conventions of the embedding.
    - JavaScript numbers that carry gains, amplitudes, frequencies and
      times are rationals ([Q]); the rounding of IEEE doubles is modelled
      where a number is rounded to an integer count, in the adaptive
      limit of [noteOn], and not elsewhere.  Counts and MIDI velocities
      are integers.
    - A partial object lives in the pool array and is shared by reference
      between the pool, the voices and the pending timeouts; a reference
      to a partial is its position in the pool array, and every read or
      write of a partial goes through that store.
    - The per-note gain nodes created by [noteOn] live in a heap
      ([gainNodes]); the handle returned to the caller is a heap address.
    - [setTimeout] callbacks are entries of a timer queue; a JavaScript
      function runs to completion, so no timer fires inside a call.
    - The Web Audio [AudioParam] is an external interface: the model keeps
      its live [value] and the list of scheduled automation events.  The
      live values are written by the audio thread, which is a step of its
      own in a run.  A call the interface refuses throws; the functions
      of the engine are embedded as they run when no call is refused, and
      [accepted] says of which arguments that is so. *)

From Stdlib Require Import String Ascii DecimalString.
From Stdlib Require DecimalPos.
From Stdlib Require Import QArith Qpower Qround Qminmax Qabs ZArith List Lia Lqa Bool Sorted
  Permutation.
From stdpp Require Import base list.

Local Close Scope Q_scope.
Local Open Scope nat_scope.

(** ** Numbers *)

Definition Qltb (a b : Q) : bool := negb (Qle_bool b a).

(** [Math.round]: the nearest integer, halves rounded up. *)
Definition Math_round (x : Q) : Z := Qfloor (x + (1 # 2))%Q.

(** ** Doubles (IEEE 754 binary64)

    The adaptive limit of [noteOn] is rounded to an integer, so there the
    rounding of the double arithmetic decides the result; it is computed
    with the correctly rounded operations of binary64: round to nearest,
    ties to even, 53 bits of significand, subnormals below 2^-1022.
    There is no overflow to model: the values are ratios of array
    lengths and their products with the configured maximum. *)

(** [floor (log2 x)] for a positive rational. *)
Definition binade (x : Q) : Z :=
  let L := (Z.log2 (Qnum x) - Z.log2 (Zpos (Qden x)))%Z in
  if Qle_bool (2 ^ L) x then L else (L - 1)%Z.

(** The nearest integer, ties to the even one. *)
Definition roundHalfEven (x : Q) : Z :=
  let f := Qfloor x in
  let r := (x - inject_Z f)%Q in
  if Qltb r (1 # 2) then f
  else if Qltb (1 # 2) r then (f + 1)%Z
  else if Z.even f then f else (f + 1)%Z.

(** The double nearest to a rational. *)
Definition double (x : Q) : Q :=
  if Qeq_bool x 0 then 0%Q
  else
    let a := Qabs x in
    let e := Z.max (binade a - 52) (-1074) in
    let r := (inject_Z (roundHalfEven (a / 2 ^ e)) * 2 ^ e)%Q in
    if Qltb x 0 then (- r)%Q else r.

(** The exponent of the unit in the last place of the double nearest to a
    positive rational. *)
Definition doubleExp (x : Q) : Z := Z.max (binade x - 52) (-1074).

(** ** The outcome of a call: a value, or an uncaught exception *)

Inductive Outcome (A : Type) : Type :=
| Returned (a : A)
| Threw.
Arguments Returned {A} a.
Arguments Threw {A}.

#[global] Instance Outcome_bind : MBind Outcome := fun A B k m =>
  match m with
  | Returned a => k a
  | Threw => Threw
  end.

(** ** AudioParam (Web Audio interface) *)

Inductive AutomationEvent : Type :=
| SetValueAtTime (v t : Q)
| LinearRampToValueAtTime (v t : Q)
| ExponentialRampToValueAtTime (v t : Q).

Definition eventTime (e : AutomationEvent) : Q :=
  match e with
  | SetValueAtTime _ t => t
  | LinearRampToValueAtTime _ t => t
  | ExponentialRampToValueAtTime _ t => t
  end.

Record AudioParam : Type := mkParam {
  value : Q;                       (* param.value, the live value *)
  events : list AutomationEvent    (* scheduled automation, in call order *)
}.

(** [param.cancelScheduledValues(t)] drops every event scheduled at or
    after [t]. *)
Definition cancelScheduledValues (t : Q) (p : AudioParam) : AudioParam :=
  mkParam (value p) (List.filter (fun e => Qltb (eventTime e) t) (events p)).

Definition schedule (e : AutomationEvent) (p : AudioParam) : AudioParam :=
  mkParam (value p) (events p ++ [e]).

(** [param.value = v]. *)
Definition setValue (v : Q) (p : AudioParam) : AudioParam :=
  mkParam v (events p).

(** No event scheduled at or after time [t] is left on the param. *)
Definition nothingScheduledFrom (t : Q) (p : AudioParam) : Prop :=
  Forall (fun e => (eventTime e < t)%Q) (events p).

(** *** The calls Web Audio rejects

    [schedule] and [cancelScheduledValues] above record what a call does
    when it is accepted.  The interface rejects, with a RangeError, a
    negative time in [setValueAtTime], [linearRampToValueAtTime],
    [exponentialRampToValueAtTime] and [cancelScheduledValues], and a
    target of 0 in [exponentialRampToValueAtTime]; a value is passed as a
    [float], and the call is rejected with a TypeError when the value is
    too large for a float.  The functions of the engine are embedded as
    they behave when every call is accepted; the theorems that depend on
    a call returning for arguments chosen by the caller assume
    [accepted] of them. *)

(** The value rounds to a finite float: it is below the midpoint of the
    largest float and 2^128. *)
Definition floatRange (v : Q) : bool := Qltb (Qabs v) (2 ^ 128 - 2 ^ 103)%Q.

(** The value rounds to the float 0: it is at most half the smallest
    positive float, 2^-149. *)
Definition floatZero (v : Q) : bool := Qle_bool (Qabs v) (2 ^ (-150))%Q.

Definition accepted (e : AutomationEvent) : bool :=
  match e with
  | SetValueAtTime v t => floatRange v && Qle_bool 0 t
  | LinearRampToValueAtTime v t => floatRange v && Qle_bool 0 t
  | ExponentialRampToValueAtTime v t => floatRange v && negb (floatZero v) && Qle_bool 0 t
  end.

(** ** Partial and PartialPool *)

Record Partial : Type := mkPartial {
  index : nat;            (* position in pool.pool *)
  inUse : bool;
  oscFrequency : Q;       (* osc.frequency.value *)
  gain : AudioParam;      (* gain.gain *)
  connected : bool        (* osc -> filter -> gain -> note gain is wired *)
}.

Definition withInUse (b : bool) (p : Partial) : Partial :=
  mkPartial (index p) b (oscFrequency p) (gain p) (connected p).
Definition withGain (g : AudioParam) (p : Partial) : Partial :=
  mkPartial (index p) (inUse p) (oscFrequency p) g (connected p).
Definition withFrequency (f : Q) (p : Partial) : Partial :=
  mkPartial (index p) (inUse p) f (gain p) (connected p).
Definition withConnected (c : bool) (p : Partial) : Partial :=
  mkPartial (index p) (inUse p) (oscFrequency p) (gain p) c.

Record PartialPool : Type := mkPool {
  pool : list Partial;      (* this.pool *)
  available : list nat      (* this.available, a stack whose top is the last element *)
}.

(** The object pushed by the constructor loop at iteration [i]; a fresh
    oscillator runs at the Web Audio default of 440 Hz. *)
Definition freshPartial (i : nat) : Partial :=
  mkPartial i false 440%Q (mkParam 0%Q []) false.

(** [new PartialPool(size, ctx)] *)
Definition PartialPool_new (size : nat) : PartialPool :=
  mkPool (map freshPartial (seq 0 size)) (seq 0 size).

(** [Array.prototype.pop] *)
Definition pop (l : list nat) : option (nat * list nat) :=
  match last l with
  | Some x => Some (x, removelast l)
  | None => None
  end.

(** [PartialPool.acquire()].  [None] is JavaScript's [null].  Reading a
    field of [this.pool[idx]] when that slot is [undefined] raises a
    TypeError. *)
Definition acquire (pp : PartialPool) : Outcome (option nat * PartialPool) :=
  match pop (available pp) with
  | None => Returned (None, pp)
  | Some (idx, rest) =>
      match pool pp !! idx with
      | None => Threw
      | Some partial =>
          let partial := withInUse true partial in
          let partial := withGain (setValue 0%Q (cancelScheduledValues 0%Q (gain partial))) partial in
          Returned (Some idx, mkPool (<[idx := partial]> (pool pp)) rest)
      end
  end.

(** [PartialPool.release(partial)].  The argument is [None] for a falsy
    value; a reference that denotes no pool slot is treated the same way. *)
Definition release (r : option nat) (pp : PartialPool) : PartialPool :=
  match r with
  | None => pp
  | Some ref =>
      match pool pp !! ref with
      | None => pp
      | Some partial =>
          if negb (inUse partial) then pp
          else
            let idx := index partial in
            let partial := withInUse false partial in
            let partial := withGain (setValue 0%Q (cancelScheduledValues 0%Q (gain partial))) partial in
            let partial := withConnected false partial in
            mkPool (<[ref := partial]> (pool pp)) (available pp ++ [idx])
      end
  end.

(** Sequences of pool calls. *)
Inductive PoolOp : Type :=
| OpAcquire
| OpRelease (r : option nat).

Definition runOp (op : PoolOp) (pp : PartialPool) : Outcome PartialPool :=
  match op with
  | OpAcquire => '(_, pp') ← acquire pp; Returned pp'
  | OpRelease r => Returned (release r pp)
  end.

Fixpoint runOps (ops : list PoolOp) (pp : PartialPool) : Outcome PartialPool :=
  match ops with
  | [] => Returned pp
  | op :: rest => pp' ← runOp op pp; runOps rest pp'
  end.

Definition inUseCount (pp : PartialPool) : nat :=
  length (List.filter inUse (pool pp)).

Definition freeCount (pp : PartialPool) : nat :=
  length (List.filter (fun p => negb (inUse p)) (pool pp)).

(** ** Spectral profile entries and partial selection *)

Record PartialConfig : Type := mkConfig {
  freq : Q;
  amp : Q;
  decay : Q;
  harmonicNum : Z
}.

Definition ampThreshold : Q := 0.001%Q.
Definition maxFreq : Q := 24000%Q.

(** The filter of [selectPartials]:
    [configs[i].amp > ampThreshold && configs[i].freq <= maxFreq]. *)
Definition passesFilter (c : PartialConfig) : bool :=
  Qltb ampThreshold (amp c) && Qle_bool (freq c) maxFreq.

(** A candidate is the object [{ index: i, amp: configs[i].amp }]. *)
Definition Candidate : Type := (nat * Q)%type.

Fixpoint collectCandidates (i : nat) (configs : list PartialConfig) : list Candidate :=
  match configs with
  | [] => []
  | c :: rest =>
      if passesFilter c then (i, amp c) :: collectCandidates (S i) rest
      else collectCandidates (S i) rest
  end.

(** [candidates.sort((a, b) => b.amp - a.amp)]: a stable sort, loudest
    first; a candidate is placed before the first one that is not louder. *)
Fixpoint insertLoudest (c : Candidate) (l : list Candidate) : list Candidate :=
  match l with
  | [] => [c]
  | d :: rest => if Qltb (snd c) (snd d) then d :: insertLoudest c rest else c :: l
  end.

Definition sortLoudestFirst (l : list Candidate) : list Candidate :=
  foldr insertLoudest [] l.

(** [array.slice(0, limit)] for an integer [limit]; a negative [limit]
    counts from the end. *)
Definition slice0 {A : Type} (limit : Z) (l : list A) : list A :=
  if (limit <? 0)%Z
  then take (Z.to_nat (Z.max (Z.of_nat (length l) + limit) 0)) l
  else take (Z.to_nat limit) l.

(** [selectPartials(configs, maxPartials = null)], with [thisMaxPartials]
    for [this.maxPartials]; [maxPartials || this.maxPartials] falls back
    on [null] and on [0]. *)
Definition selectPartials (thisMaxPartials : Z) (configs : list PartialConfig)
    (maxPartials : option Z) : list PartialConfig :=
  let limit := match maxPartials with
               | Some m => if (m =? 0)%Z then thisMaxPartials else m
               | None => thisMaxPartials
               end in
  let candidates := sortLoudestFirst (collectCandidates 0 configs) in
  omap (fun c : Candidate => configs !! fst c) (slice0 limit candidates).

(** [1 - (poolAvailable / poolTotal)], for a pool array that is not
    empty: a division and a subtraction of doubles. *)
Definition poolUsageRatio (pp : PartialPool) : Q :=
  double (1 - double (inject_Z (Z.of_nat (length (available pp)))
                      / inject_Z (Z.of_nat (length (pool pp)))))%Q.

(** [this.maxPartials * (1 - (poolUsageRatio - 0.7) / 0.3)], operation by
    operation in doubles; [0.7] and [0.3] are the doubles nearest to
    them. *)
Definition scaledLimit (thisMaxPartials : Z) (usage : Q) : Q :=
  double (inject_Z thisMaxPartials
          * double (1 - double (double (usage - double 0.7) / double 0.3)))%Q.

(** The limit computed at the top of [noteOn].  With an empty pool array
    the ratio is not a number and the comparison with 0.7 is false. *)
Definition adaptiveMaxPartials (thisMaxPartials : Z) (pp : PartialPool) : Z :=
  if length (pool pp) =? 0 then thisMaxPartials
  else
    if Qltb (double 0.7%Q) (poolUsageRatio pp)
    then Z.max 6 (Math_round (scaledLimit thisMaxPartials (poolUsageRatio pp)))
    else thisMaxPartials.

(** ** Voices, timers and the synthesizer state *)

Record GainNode : Type := mkGainNode {
  gainParam : AudioParam;     (* node.gain *)
  gainConnected : bool        (* connected to the master gain *)
}.

Record Note : Type := mkNote {
  partials : list nat;                  (* references into the pool *)
  gainNode : nat;                       (* address of the note's gain node *)
  frequency : Q;
  velocity : Z;
  startTime : Q;
  keyDown : bool;
  pedalDown : bool;
  initialAmplitudes : list (Z * Q);     (* { harmonicNum, initialAmp } *)
  lastUpdateTime : Q
}.

(** The four closures handed to [setTimeout]. *)
Inductive TimerAction : Type :=
| ReleaseTimeout (noteId : nat)     (* noteOff: cleanupNote, then pendingCleanups.delete *)
| DecayedTimeout (noteId : nat)     (* updateHarmonicEvolution: re-check silence, then cleanupNote *)
| PartialTimeout (partial : nat)    (* cleanupNote: disconnect and partialPool.release *)
| GainTimeout (node : nat).         (* cleanupNote: note.gainNode.disconnect *)

Record Timer : Type := mkTimer {
  timerId : nat;
  due : Q;                 (* milliseconds on the clock of the state *)
  action : TimerAction
}.

Record AdditiveSynth : Type := mkSynth {
  currentTime : Q;                        (* audioCtx.currentTime, seconds *)
  partialPool : PartialPool;
  activeNotes : list (nat * Note);        (* a Map, in insertion order *)
  pendingCleanups : list (nat * nat);     (* a Map: noteId -> timeout id *)
  maxPartials : Z;
  gainNodes : list GainNode;              (* heap of per-note gain nodes *)
  timers : list Timer;                    (* pending setTimeout callbacks *)
  nextTimerId : nat
}.

Definition withPool (pp : PartialPool) (s : AdditiveSynth) : AdditiveSynth :=
  mkSynth (currentTime s) pp (activeNotes s) (pendingCleanups s) (maxPartials s)
          (gainNodes s) (timers s) (nextTimerId s).
Definition withNotes (m : list (nat * Note)) (s : AdditiveSynth) : AdditiveSynth :=
  mkSynth (currentTime s) (partialPool s) m (pendingCleanups s) (maxPartials s)
          (gainNodes s) (timers s) (nextTimerId s).
Definition withPending (m : list (nat * nat)) (s : AdditiveSynth) : AdditiveSynth :=
  mkSynth (currentTime s) (partialPool s) (activeNotes s) m (maxPartials s)
          (gainNodes s) (timers s) (nextTimerId s).
Definition withGainNodes (h : list GainNode) (s : AdditiveSynth) : AdditiveSynth :=
  mkSynth (currentTime s) (partialPool s) (activeNotes s) (pendingCleanups s) (maxPartials s)
          h (timers s) (nextTimerId s).
Definition withTimers (t : list Timer) (n : nat) (s : AdditiveSynth) : AdditiveSynth :=
  mkSynth (currentTime s) (partialPool s) (activeNotes s) (pendingCleanups s) (maxPartials s)
          (gainNodes s) t n.
Definition withCurrentTime (t : Q) (s : AdditiveSynth) : AdditiveSynth :=
  mkSynth t (partialPool s) (activeNotes s) (pendingCleanups s) (maxPartials s)
          (gainNodes s) (timers s) (nextTimerId s).

(** *** JavaScript [Map] with numeric keys, in insertion order *)

Fixpoint Map_get {V : Type} (k : nat) (m : list (nat * V)) : option V :=
  match m with
  | [] => None
  | (k', v) :: rest => if k =? k' then Some v else Map_get k rest
  end.

Definition Map_has {V : Type} (k : nat) (m : list (nat * V)) : bool :=
  match Map_get k m with Some _ => true | None => false end.

(** [set] keeps the position of a key that is already present. *)
Fixpoint Map_set {V : Type} (k : nat) (v : V) (m : list (nat * V)) : list (nat * V) :=
  match m with
  | [] => [(k, v)]
  | (k', v') :: rest => if k =? k' then (k, v) :: rest else (k', v') :: Map_set k v rest
  end.

Definition Map_delete {V : Type} (k : nat) (m : list (nat * V)) : list (nat * V) :=
  List.filter (fun e => negb (k =? fst e)) m.

(** *** Timers *)

(** [setTimeout(callback, delay)]; a negative delay counts as zero. *)
Definition setTimeout (a : TimerAction) (delay : Q) (s : AdditiveSynth) : nat * AdditiveSynth :=
  let id := nextTimerId s in
  (id, withTimers (timers s ++ [mkTimer id (currentTime s * 1000 + Qmax 0 delay)%Q a]) (S id) s).

Definition clearTimeout (id : nat) (s : AdditiveSynth) : AdditiveSynth :=
  withTimers (List.filter (fun t => negb (timerId t =? id)) (timers s)) (nextTimerId s) s.

(** *** Access to the shared partials and gain nodes *)

Definition updatePartial (ref : nat) (f : Partial -> Partial) (s : AdditiveSynth) : AdditiveSynth :=
  withPool (mkPool (alter f ref (pool (partialPool s))) (available (partialPool s))) s.

Definition updateGainParam (ref : nat) (f : AudioParam -> AudioParam) (s : AdditiveSynth) : AdditiveSynth :=
  updatePartial ref (fun p => withGain (f (gain p)) p) s.

(** [partial.gain.gain.value] *)
Definition partialGainValue (s : AdditiveSynth) (ref : nat) : Q :=
  match pool (partialPool s) !! ref with
  | Some p => value (gain p)
  | None => 0%Q
  end.

(** [note.gainNode ? note.gainNode.gain.value : 1.0] *)
Definition noteGainValue (s : AdditiveSynth) (note : Note) : Q :=
  match gainNodes s !! gainNode note with
  | Some g => value (gainParam g)
  | None => 1%Q
  end.

Definition updateNoteGain (node : nat) (f : GainNode -> GainNode) (s : AdditiveSynth) : AdditiveSynth :=
  withGainNodes (alter f node (gainNodes s)) s.

(** [Math.max(...note.partials.map(p => p.gain.gain.value))]; [None] is
    the [-Infinity] of an empty argument list. *)
Definition maxPartialAmp (s : AdditiveSynth) (note : Note) : option Q :=
  fold_left (fun acc ref =>
               match acc with
               | None => Some (partialGainValue s ref)
               | Some m => Some (Qmax m (partialGainValue s ref))
               end) (partials note) None.

Definition belowThreshold (m : option Q) (threshold : Q) : bool :=
  match m with
  | None => true
  | Some v => Qltb v threshold
  end.

(** ** The acoustic model (external collaborator)

    The spectral profile and the evolution curves are pure functions
    supplied by the acoustic-model modules through [window]; the engine
    only consumes their results. *)
Record AcousticModel : Type := mkModel {
  (* this.getSpectralProfile(frequency).getConfigs(velocity) *)
  profileConfigs : Q -> Z -> list PartialConfig;
  (* harmonicRates[harmonicNum] || 1.0, for a note at an elapsed time *)
  harmonicRate : Note -> Q -> Z -> Q;
  (* getHarmonicTimeVaryingBrightness, 1 when absent *)
  brightnessMultiplier : Note -> Q -> Z -> Q;
  (* addKarplusStyleNoiseBurst, 1 when absent *)
  noiseBurst : Note -> Q -> Z -> Q
}.

(** ** The engine *)

(** The state built by the constructor over a pool of [size] partials;
    [new AdditiveSynth(ctx)] uses 128. *)
Definition synthWithPool (size : nat) : AdditiveSynth :=
  mkSynth 0%Q (PartialPool_new size) [] [] 12%Z [] [] 0.

Definition AdditiveSynth_new : AdditiveSynth := synthWithPool 128.

(** The audio clock and the timer clock advance together. *)
Definition advanceClock (seconds : Q) (s : AdditiveSynth) : AdditiveSynth :=
  withCurrentTime (currentTime s + seconds)%Q s.

(** The audio thread publishes the automation's current value of every
    partial gain in [param.value]; [renderNoteGains] below does the same
    for the note gains. *)
Definition audioRender (live : nat -> Q) (s : AdditiveSynth) : AdditiveSynth :=
  withPool (mkPool (map (fun p => withGain (setValue (live (index p)) (gain p)) p)
                        (pool (partialPool s)))
                   (available (partialPool s))) s.

(** The audio thread publishes the automation's current value of every
    note gain in [param.value]: what [setNoteVolume] and [rampNoteVolume]
    scheduled becomes the value [noteOff], [rampNoteVolume] and the voice
    stealer read. *)
Definition renderNoteGains (live : nat -> Q) (s : AdditiveSynth) : AdditiveSynth :=
  withGainNodes (imap (fun i g => mkGainNode (setValue (live i) (gainParam g))
                                             (gainConnected g))
                      (gainNodes s)) s.

(** [applyEnvelope(gainNode, velocity, decayTime, startTime)], as a
    transformer of [gainNode.gain]; [currentTime] is read when
    [startTime] is falsy. *)
Definition applyEnvelope (velocity : Z) (decayTime startTime current : Q)
    (g : AudioParam) : AudioParam :=
  let normalizedVel := Qmax 0.001 (inject_Z velocity / 127)%Q in
  let attackTime := (0.01 + 0.02 * (1 - normalizedVel))%Q in
  let sustainLevel := Qmax 0.001 (0.3 + normalizedVel * 0.2)%Q in
  let now := if Qeq_bool startTime 0 then current else startTime in
  let g := cancelScheduledValues now g in
  let velocityScale := (normalizedVel ^ 2)%Q in
  let attackStart := 0.001%Q in
  let attackTarget := Qmax 0.001 velocityScale in
  let g := schedule (SetValueAtTime attackStart now) g in
  let g := schedule (ExponentialRampToValueAtTime attackTarget (now + attackTime)%Q) g in
  let sustainTarget := Qmax 0.001 (sustainLevel * velocityScale)%Q in
  let g := schedule (ExponentialRampToValueAtTime sustainTarget (now + attackTime + decayTime)%Q) g in
  schedule (SetValueAtTime sustainTarget (now + attackTime + decayTime)%Q) g.

(** The calls of [applyEnvelope] are accepted: [cancelScheduledValues(now)]
    and the four events it schedules. *)
Definition envelopeAccepted (velocity : Z) (decayTime startTime current : Q) : bool :=
  let now := if Qeq_bool startTime 0 then current else startTime in
  Qle_bool 0 now
  && forallb accepted
       (events (applyEnvelope velocity decayTime startTime current (mkParam 0 []))).

(** The calls [noteOn] makes for the configs it activates are accepted,
    at a clock that is not negative: the frequency written to the
    oscillator and the envelope written to the gain. *)
Definition noteOnAccepted (velocity : Z) (now : Q) (configs : list PartialConfig) : bool :=
  Qle_bool 0 now
  && forallb (fun c => floatRange (freq c) && envelopeAccepted velocity (decay c) now now)
             configs.

(** [if (this.pendingCleanups.has(noteId)) { clearTimeout(...); delete }] *)
Definition cancelPendingCleanup (noteId : nat) (s : AdditiveSynth) : AdditiveSynth :=
  match Map_get noteId (pendingCleanups s) with
  | Some timeoutId =>
      let s := clearTimeout timeoutId s in
      withPending (Map_delete noteId (pendingCleanups s)) s
  | None => s
  end.

(** The body of [note.partials.forEach] in [cleanupNote]. *)
Definition cleanupPartial (now : Q) (s : AdditiveSynth) (partial : nat) : AdditiveSynth :=
  let currentValue := partialGainValue s partial in
  let s := updateGainParam partial (cancelScheduledValues now) s in
  let s :=
    if Qltb 0.001 currentValue
    then updateGainParam partial
           (fun g => schedule (ExponentialRampToValueAtTime 0.001 (now + 0.01)%Q)
                       (schedule (SetValueAtTime currentValue now) g)) s
    else updateGainParam partial (schedule (SetValueAtTime 0 now)) s in
  snd (setTimeout (PartialTimeout partial) 15 s).

(** [cleanupNote(noteId)] *)
Definition cleanupNote (noteId : nat) (s : AdditiveSynth) : AdditiveSynth :=
  match Map_get noteId (activeNotes s) with
  | None => s
  | Some note =>
      let s := cancelPendingCleanup noteId s in
      let now := currentTime s in
      let s := fold_left (cleanupPartial now) (partials note) s in
      let s :=
        match gainNodes s !! gainNode note with
        | None => s
        | Some g =>
            let currentGainValue := value (gainParam g) in
            let s := updateNoteGain (gainNode note)
                       (fun g => mkGainNode (cancelScheduledValues now (gainParam g)) (gainConnected g)) s in
            if Qltb 0.001 currentGainValue
            then
              let s := updateNoteGain (gainNode note)
                         (fun g => mkGainNode
                                     (schedule (ExponentialRampToValueAtTime 0.001 (now + 0.01)%Q)
                                        (schedule (SetValueAtTime currentGainValue now) (gainParam g)))
                                     (gainConnected g)) s in
              snd (setTimeout (GainTimeout (gainNode note)) 15 s)
            else
              updateNoteGain (gainNode note)
                (fun g => mkGainNode (schedule (SetValueAtTime 0 now) (gainParam g)) false) s
        end in
      withNotes (Map_delete noteId (activeNotes s)) s
  end.

(** The release ramp chosen by [noteOff] for a gain param. *)
Definition releaseRamp (now safeReleaseTime : Q) : AutomationEvent :=
  if Qltb safeReleaseTime 0.15
  then LinearRampToValueAtTime 0.001 (now + safeReleaseTime)%Q
  else ExponentialRampToValueAtTime 0.001 (now + safeReleaseTime)%Q.

(** The body of [note.partials.forEach] in [noteOff]. *)
Definition releasePartial (now safeReleaseTime : Q) (s : AdditiveSynth) (partial : nat) : AdditiveSynth :=
  let currentPartialValue := partialGainValue s partial in
  updateGainParam partial
    (fun g => schedule (releaseRamp now safeReleaseTime)
                (schedule (SetValueAtTime currentPartialValue now)
                   (cancelScheduledValues now g))) s.

(** [noteOff(noteId, releaseTime, immediateCleanup)] *)
Definition noteOff (noteId : nat) (releaseTime : Q) (immediateCleanup : bool)
    (s : AdditiveSynth) : AdditiveSynth :=
  match Map_get noteId (activeNotes s) with
  | None => s
  | Some note =>
      let s := cancelPendingCleanup noteId s in
      let now := currentTime s in
      let safeReleaseTime := Qmax 0.1 releaseTime in
      let masterGainValue := noteGainValue s note in
      let s := fold_left (releasePartial now safeReleaseTime) (partials note) s in
      let s :=
        if Qltb masterGainValue 0.99
        then updateNoteGain (gainNode note)
               (fun g => mkGainNode
                           (schedule (releaseRamp now safeReleaseTime)
                              (schedule (SetValueAtTime masterGainValue now)
                                 (cancelScheduledValues now (gainParam g))))
                           (gainConnected g)) s
        else s in
      if immediateCleanup
      then cleanupNote noteId s
      else
        let '(timeoutId, s) := setTimeout (ReleaseTimeout noteId) (releaseTime * 1000 + 100)%Q s in
        withPending (Map_set noteId timeoutId (pendingCleanups s)) s
  end.

(** [updateNoteState(noteId, keyDown, pedalDown)] *)
Definition updateNoteState (noteId : nat) (kd pd : bool) (s : AdditiveSynth) : AdditiveSynth :=
  match Map_get noteId (activeNotes s) with
  | Some note =>
      withNotes (Map_set noteId
                   (mkNote (partials note) (gainNode note) (frequency note) (velocity note)
                           (startTime note) kd pd (initialAmplitudes note) (lastUpdateTime note))
                   (activeNotes s)) s
  | None => s
  end.

(** *** Voice stealing *)

(** A voice the scan of [stealVoiceFromQuietestSustainedNote] considers:
    [!note.keyDown && note.partials.length > 0]. *)
Definition stealable (note : Note) : bool :=
  negb (keyDown note) && (0 <? length (partials note)).

(** [effectiveVolume / (1 + age * 0.1)].  A voice starts at the clock
    value of its [noteOn], so [age] is never negative and the divisor is
    at least 1. *)
Definition stealScore (s : AdditiveSynth) (note : Note) : Q :=
  let masterGain := noteGainValue s note in
  let avgPartialGain :=
    (fold_left (fun sum p => sum + partialGainValue s p) (partials note) 0
     / inject_Z (Z.of_nat (length (partials note))))%Q in
  let effectiveVolume := (masterGain * avgPartialGain)%Q in
  let age := (currentTime s - startTime note)%Q in
  (effectiveVolume / (1 + age * 0.1))%Q.

(** The scan over [this.activeNotes]; [quietestVolume] starts at
    [Infinity], here [None]. *)
Fixpoint scanQuietest (s : AdditiveSynth) (notes : list (nat * Note))
    (quietestNoteId : option nat) (quietestVolume : option Q) : option nat * option Q :=
  match notes with
  | [] => (quietestNoteId, quietestVolume)
  | (noteId, note) :: rest =>
      if stealable note then
        let score := stealScore s note in
        let lower := match quietestVolume with
                     | None => true
                     | Some q => Qltb score q
                     end in
        if lower then scanQuietest s rest (Some noteId) (Some score)
        else scanQuietest s rest quietestNoteId quietestVolume
      else scanQuietest s rest quietestNoteId quietestVolume
  end.

Definition quietestSustainedNote (s : AdditiveSynth) : option nat :=
  fst (scanQuietest s (activeNotes s) None None).

(** [stealVoiceFromQuietestSustainedNote()] *)
Definition stealVoiceFromQuietestSustainedNote (s : AdditiveSynth) : option nat * AdditiveSynth :=
  match quietestSustainedNote s with
  | Some quietestNoteId =>
      match Map_get quietestNoteId (activeNotes s) with
      | Some _ => (Some quietestNoteId, noteOff quietestNoteId 0.05 false s)
      | None => (None, s)
      end
  | None => (None, s)
  end.

(** *** noteOn *)

Definition poolAcquire (s : AdditiveSynth) : Outcome (option nat * AdditiveSynth) :=
  '(r, pp) ← acquire (partialPool s); Returned (r, withPool pp s).

(** The [if (partial) { ... }] block of the acquisition loop. *)
Definition configurePartial (config : PartialConfig) (vel : Z) (now : Q)
    (partial : nat) (s : AdditiveSynth) : AdditiveSynth :=
  updatePartial partial
    (fun p => withConnected true
                (withGain (applyEnvelope vel (decay config) now (currentTime s) (gain p))
                   (withFrequency (freq config) p))) s.

(** The loop [for (const config of partialConfigs)], threading the state
    and the two arrays [partials] and [initialAmplitudes]. *)
Fixpoint acquireLoop (configs : list PartialConfig) (vel : Z) (now : Q)
    (s : AdditiveSynth) (acquired : list nat) (amps : list (Z * Q))
    : Outcome (AdditiveSynth * list nat * list (Z * Q)) :=
  match configs with
  | [] => Returned (s, acquired, amps)
  | config :: rest =>
      if Qltb 24000 (freq config) then acquireLoop rest vel now s acquired amps
      else
        '(partial, s) ← poolAcquire s;
        match partial with
        | Some p =>
            acquireLoop rest vel now (configurePartial config vel now p s)
              (acquired ++ [p]) (amps ++ [(harmonicNum config, amp config)])
        | None =>
            let '(stolenNoteId, s) := stealVoiceFromQuietestSustainedNote s in
            match stolenNoteId with
            | Some _ =>
                '(partial, s) ← poolAcquire s;
                match partial with
                | Some p =>
                    acquireLoop rest vel now (configurePartial config vel now p s)
                      (acquired ++ [p]) (amps ++ [(harmonicNum config, amp config)])
                | None => Returned (s, acquired, amps)
                end
            | None => Returned (s, acquired, amps)
            end
        end
  end.

Section Engine.

Variable model : AcousticModel.

(** The configs [noteOn] asks the pool for. *)
Definition requestedConfigs (freq0 : Q) (vel : Z) (s : AdditiveSynth) : list PartialConfig :=
  selectPartials (maxPartials s) (profileConfigs model freq0 vel)
    (Some (adaptiveMaxPartials (maxPartials s) (partialPool s))).

(** [noteOn(noteId, frequency, velocity, keyDown, pedalDown)]; the result
    is the address of the note's gain node. *)
Definition noteOn (noteId : nat) (freq0 : Q) (vel : Z) (kd pd : bool)
    (s : AdditiveSynth) : Outcome (nat * AdditiveSynth) :=
  let partialConfigs := requestedConfigs freq0 vel s in
  let noteGain := length (gainNodes s) in
  let s := withGainNodes (gainNodes s ++ [mkGainNode (mkParam 1 []) true]) s in
  let now := currentTime s in
  '(s, acquired, amps) ← acquireLoop partialConfigs vel now s [] [];
  Returned (noteGain,
            withNotes (Map_set noteId
                         (mkNote acquired noteGain freq0 vel now kd pd amps now)
                         (activeNotes s)) s).

(** *** The harmonic evolution scheduler *)

Definition minAmp : Q := 0.0001%Q.

(** [Math.abs(currentValue - clampedAmp) / Math.max(currentValue, minAmp)] *)
Definition changeRatio (currentValue clampedAmp : Q) : Q :=
  (Qabs (currentValue - clampedAmp) / Qmax currentValue minAmp)%Q.

(** The target of one partial on a tick. *)
Definition clampedTarget (note : Note) (elapsed : Q) (info : Z * Q) : Q :=
  let decayRate := harmonicRate model note elapsed (fst info) in
  let targetAmp := (snd info * decayRate)%Q in
  let targetAmp := (targetAmp * brightnessMultiplier model note elapsed (fst info))%Q in
  let targetAmp := (targetAmp * noiseBurst model note elapsed (fst info))%Q in
  Qmax minAmp targetAmp.

(** The three calls issued when the change is significant. *)
Definition issueRamp (now currentValue clampedAmp : Q) (g : AudioParam) : AudioParam :=
  schedule (ExponentialRampToValueAtTime clampedAmp (now + 0.2)%Q)
    (schedule (SetValueAtTime (Qmax minAmp currentValue) now)
       (cancelScheduledValues now g)).

(** The body of [note.partials.forEach((partial, index) => ...)]. *)
Definition evolvePartial (now : Q) (note : Note) (s : AdditiveSynth)
    (entry : nat * nat) : AdditiveSynth :=
  let '(i, partial) := entry in
  match initialAmplitudes note !! i with
  | None => s
  | Some harmonicInfo =>
      let elapsed := (now - startTime note)%Q in
      let clampedAmp := clampedTarget note elapsed harmonicInfo in
      let currentValue := partialGainValue s partial in
      if Qltb 0.05 (changeRatio currentValue clampedAmp)
      then updateGainParam partial (issueRamp now currentValue clampedAmp) s
      else s
  end.

(** One iteration of [for (const [noteId, note] of this.activeNotes)]. *)
Definition evolveNote (now : Q) (s : AdditiveSynth) (entry : nat * Note) : AdditiveSynth :=
  let '(noteId, note) := entry in
  let elapsed := (now - startTime note)%Q in
  let s := fold_left (evolvePartial now note) (imap pair (partials note)) s in
  let s :=
    if belowThreshold (maxPartialAmp s note) 0.0005 && Qltb 0.5 elapsed
    then
      if Map_has noteId (pendingCleanups s) then s
      else
        let '(timeoutId, s) := setTimeout (DecayedTimeout noteId) 200 s in
        withPending (Map_set noteId timeoutId (pendingCleanups s)) s
    else s in
  withNotes (Map_set noteId
               (mkNote (partials note) (gainNode note) (frequency note) (velocity note)
                       (startTime note) (keyDown note) (pedalDown note)
                       (initialAmplitudes note) now)
               (activeNotes s)) s.

(** [updateHarmonicEvolution()], one tick of the scheduler. *)
Definition updateHarmonicEvolution (s : AdditiveSynth) : AdditiveSynth :=
  fold_left (evolveNote (currentTime s)) (activeNotes s) s.

End Engine.

(** *** Timer callbacks *)

Definition runCallback (a : TimerAction) (s : AdditiveSynth) : AdditiveSynth :=
  match a with
  | ReleaseTimeout noteId =>
      let s := cleanupNote noteId s in
      withPending (Map_delete noteId (pendingCleanups s)) s
  | DecayedTimeout noteId =>
      let s :=
        match Map_get noteId (activeNotes s) with
        | Some note =>
            if belowThreshold (maxPartialAmp s note) 0.001 then cleanupNote noteId s else s
        | None => s
        end in
      withPending (Map_delete noteId (pendingCleanups s)) s
  | PartialTimeout partial =>
      let s := updatePartial partial (withConnected false) s in
      withPool (release (Some partial) (partialPool s)) s
  | GainTimeout node =>
      updateNoteGain node (fun g => mkGainNode (gainParam g) false) s
  end.

(** The event loop runs the callback of a pending timer once it is due. *)
Definition fireTimer (id : nat) (s : AdditiveSynth) : AdditiveSynth :=
  match List.find (fun t => timerId t =? id) (timers s) with
  | Some t =>
      if Qle_bool (due t) (currentTime s * 1000)%Q
      then runCallback (action t) (clearTimeout id s)
      else s
  | None => s
  end.

(** *** Counters *)

Definition getActiveNoteCount (s : AdditiveSynth) : nat := length (activeNotes s).

Definition getActivePartialCount (s : AdditiveSynth) : nat :=
  fold_left (fun count e => count + length (partials (snd e))) (activeNotes s) 0.

(** ** Selection, stated on the configs themselves *)






(** The configs the loop does not skip. *)
Definition withinRange (configs : list PartialConfig) : list PartialConfig :=
  List.filter (fun c => negb (Qltb 24000 (freq c))) configs.

(** The entry [{ harmonicNum, initialAmp }] stored for an activated config. *)
Definition harmonicInfo (c : PartialConfig) : Z * Q := (harmonicNum c, amp c).

(** ** The schedules left on a gain param *)

(** The schedule [noteOff] leaves on a gain param whose live value is [v]:
    pending changes cancelled, the value anchored at [now], then the
    release ramp. *)
Definition releaseSchedule (now safeReleaseTime v : Q) (g : AudioParam) : AudioParam :=
  schedule (releaseRamp now safeReleaseTime)
    (schedule (SetValueAtTime v now) (cancelScheduledValues now g)).

(** The schedule [cleanupNote] leaves on a gain param whose live value is
    [v]: a 10 ms ramp to 0.001, or a step to 0 when it is already quiet. *)
Definition cleanupSchedule (now v : Q) (g : AudioParam) : AudioParam :=
  if Qltb 0.001 v
  then schedule (ExponentialRampToValueAtTime 0.001 (now + 0.01)%Q)
         (schedule (SetValueAtTime v now) (cancelScheduledValues now g))
  else schedule (SetValueAtTime 0 now) (cancelScheduledValues now g).

(** ** Runs of the engine

    What can happen to a synthesizer between its construction and any
    later moment: calls of its public methods, scheduler ticks, timer
    callbacks, the passing of time, and the audio thread updating the
    live gain values. *)
Inductive EngineOp : Type :=
| CallNoteOn (noteId : nat) (freq0 : Q) (vel : Z) (kd pd : bool)
| CallNoteOff (noteId : nat) (releaseTime : Q) (immediate : bool)
| CallUpdateNoteState (noteId : nat) (kd pd : bool)
| Tick
| Fire (timeoutId : nat)
| Advance (seconds : Q)
| Render (live : nat -> Q).

Definition runEngineOp (model : AcousticModel) (op : EngineOp) (s : AdditiveSynth)
    : Outcome AdditiveSynth :=
  match op with
  | CallNoteOn noteId freq0 vel kd pd =>
      '(_, s') ← noteOn model noteId freq0 vel kd pd s; Returned s'
  | CallNoteOff noteId releaseTime immediate => Returned (noteOff noteId releaseTime immediate s)
  | CallUpdateNoteState noteId kd pd => Returned (updateNoteState noteId kd pd s)
  | Tick => Returned (updateHarmonicEvolution model s)
  | Fire timeoutId => Returned (fireTimer timeoutId s)
  | Advance seconds => Returned (advanceClock seconds s)
  | Render live => Returned (audioRender live s)
  end.

Fixpoint runEngine (model : AcousticModel) (ops : list EngineOp) (s : AdditiveSynth)
    : Outcome AdditiveSynth :=
  match ops with
  | [] => Returned s
  | op :: rest => s' ← runEngineOp model op s; runEngine model rest s'
  end.

(** The ramp targets of a tick are in the range of a float. *)
Definition tickAccepted (model : AcousticModel) (s : AdditiveSynth) : bool :=
  forallb (fun e : nat * Note =>
             forallb (fun info =>
                        floatRange (clampedTarget model (snd e)
                                      (currentTime s - startTime (snd e))%Q info))
                     (initialAmplitudes (snd e)))
          (activeNotes s).

(** The values the audio thread publishes are floats. *)
Definition renderAccepted (live : nat -> Q) (s : AdditiveSynth) : bool :=
  forallb (fun p => floatRange (live (index p))) (pool (partialPool s)).

(** The arguments a step of a run hands to Web Audio are accepted: the
    clock is not negative and only moves forward, the frequencies and the
    envelope of a [noteOn] and the ramp targets of a tick are accepted,
    and the live values are floats.  [noteOff], [cleanupNote] and the
    pool schedule live values and constants at the clock or after it. *)
Definition engineOpAccepted (model : AcousticModel) (op : EngineOp) (s : AdditiveSynth) : bool :=
  Qle_bool 0 (currentTime s)
  && match op with
     | CallNoteOn _ freq0 vel _ _ =>
         noteOnAccepted vel (currentTime s) (requestedConfigs model freq0 vel s)
     | Tick => tickAccepted model s
     | Advance seconds => Qle_bool 0 seconds
     | Render live => renderAccepted live s
     | _ => true
     end.

(** Every step of a run is accepted in the state it is taken in. *)
Fixpoint acceptedRun (model : AcousticModel) (ops : list EngineOp) (s : AdditiveSynth) : Prop :=
  match ops with
  | [] => True
  | op :: rest =>
      engineOpAccepted model op s = true /\
      match runEngineOp model op s with
      | Returned s' => acceptedRun model rest s'
      | Threw => True
      end
  end.

(** ** Invariants and relations of the development *)

(** The representation invariant of the pool: the free stack lists,
    without repetition, exactly the slots whose partial is not in use, and
    every partial sits at the slot its [index] names. *)
Record pool_wf (pp : PartialPool) : Prop := {
  wf_nodup : NoDup (available pp);
  wf_free : forall i, i ∈ available pp <->
                      exists p, pool pp !! i = Some p /\ inUse p = false;
  wf_index : forall i p, pool pp !! i = Some p -> index p = i
}.

(** The invariant carried along every run of the pool. *)
Definition pool_inv (capacity : nat) (pp : PartialPool) : Prop :=
  pool_wf pp /\ length (pool pp) = capacity /\
  length (available pp) + inUseCount pp = capacity.

(** What [acquire] owes its caller on a pool of the given capacity. *)
Definition acquireContract (capacity : nat) (pp : PartialPool) : Prop :=
  inUseCount pp <= capacity /\
  match last (available pp) with
  | None => acquire pp = Returned (None, pp)
  | Some idx =>
      exists pp' p',
        acquire pp = Returned (Some idx, pp') /\
        pool pp' !! idx = Some p' /\
        inUse p' = true /\
        value (gain p') = 0%Q /\
        nothingScheduledFrom 0%Q (gain p') /\
        available pp' = removelast (available pp) /\
        inUseCount pp' = S (inUseCount pp) /\
        inUseCount pp' <= capacity
  end.

(** The free stack and, per slot, the index and the in-use flag. *)
Definition poolShape (pp : PartialPool) : list nat * list (nat * bool) :=
  (available pp, map (fun p => (index p, inUse p)) (pool pp)).

(** A write that leaves the index and the in-use flag alone. *)
Definition keepsSlot (f : Partial -> Partial) : Prop :=
  forall p, index (f p) = index p /\ inUse (f p) = inUse p.

(** A partial in use in the first pool is in use in the second. *)
Definition inUseKept (pp pp' : PartialPool) : Prop :=
  forall i p, pool pp !! i = Some p -> inUse p = true ->
              exists p', pool pp' !! i = Some p' /\ inUse p' = true.

(** The parts of the state that a write to a partial's gain leaves alone. *)
Definition sameVoices (s s' : AdditiveSynth) : Prop :=
  activeNotes s' = activeNotes s /\ currentTime s' = currentTime s /\
  maxPartials s' = maxPartials s /\ length (gainNodes s') = length (gainNodes s).

(** Writes to gain params leave the timers and the cleanup table alone. *)
Definition sameSchedule (s s' : AdditiveSynth) : Prop :=
  pendingCleanups s' = pendingCleanups s /\ timers s' = timers s /\
  nextTimerId s' = nextTimerId s /\ currentTime s' = currentTime s /\
  activeNotes s' = activeNotes s.

(** The live values read by a tick and the gain param of [ref] are the
    ones of the state the tick started from. *)
Definition tickKeeps (s : AdditiveSynth) (ref : nat) (s' : AdditiveSynth) : Prop :=
  (forall r, partialGainValue s' r = partialGainValue s r) /\
  pool (partialPool s') !! ref = pool (partialPool s) !! ref.

(** No voice of the table passes the guard of the stealing scan. *)
Definition noStealCandidate (s : AdditiveSynth) : Prop :=
  Forall (fun e => stealable (snd e) = false) (activeNotes s).


(** What a tick starting in state [s] may have done to the gain param of
    the partial [ref]: nothing, or the three calls of [issueRamp], once
    per occurrence of the partial in a voice whose target for it lies
    more than 5% away from the live gain. *)
Inductive rampedBy (model : AcousticModel) (s : AdditiveSynth) (ref : nat)
    : AudioParam -> AudioParam -> Prop :=
| ramped_none (g : AudioParam) : rampedBy model s ref g g
| ramped_step (g g' : AudioParam) (noteId : nat) (note : Note) (i : nat) (info : Z * Q) :
    rampedBy model s ref g g' ->
    (noteId, note) ∈ activeNotes s ->
    partials note !! i = Some ref ->
    initialAmplitudes note !! i = Some info ->
    (0.05 < changeRatio (partialGainValue s ref)
                        (clampedTarget model note (currentTime s - startTime note) info))%Q ->
    rampedBy model s ref g
      (issueRamp (currentTime s) (partialGainValue s ref)
                 (clampedTarget model note (currentTime s - startTime note) info) g').

(** ** Example acoustic models and scenarios *)

(** A model whose spectral profile is the same list of configs for every
    note and whose evolution curves are constant 1. *)
Definition flatModel (configs : list PartialConfig) : AcousticModel :=
  mkModel (fun _ _ => configs) (fun _ _ _ => 1%Q) (fun _ _ _ => 1%Q) (fun _ _ _ => 1%Q).

Definition twoPartials : list PartialConfig :=
  [mkConfig 440 0.5 0.3 1; mkConfig 880 0.25 0.2 2].


(** A note of twelve audible partials, and [n] such notes struck one
    after the other under the ids [1..n] with the given key and pedal
    state. *)
Definition twelvePartials : list PartialConfig :=
  map (fun k => mkConfig (440 * inject_Z (Z.of_nat k))%Q
                         (1 / inject_Z (Z.of_nat (k + 1)))%Q 0.2 (Z.of_nat k))
      (seq 1 12).


(** The level at which the envelope written by [applyEnvelope] holds a
    gain once attack and decay are over. *)
Definition sustainTarget (velocity : Z) : Q :=
  let normalizedVel := Qmax 0.001 (inject_Z velocity / 127)%Q in
  Qmax 0.001 (Qmax 0.001 (0.3 + normalizedVel * 0.2) * normalizedVel ^ 2)%Q.

(** Pool of capacity 4; two pedal-sustained voices (key up, pedal down)
    hold two partials each.  Voice 1 starts at time 0, voice 2 at time 1;
    at time 2 both sound at their sustain level. *)
Definition twoSustainedVoices : Outcome AdditiveSynth :=
  '(_, s) ← noteOn (flatModel twoPartials) 1 440 100 false true (synthWithPool 4);
  '(_, s) ← noteOn (flatModel twoPartials) 2 440 100 false true (advanceClock 1 s);
  Returned (audioRender (fun _ => sustainTarget 100) (advanceClock 1 s)).

(** The same note id struck twice on a fresh pool of capacity 4. *)
Definition struckTwice : Outcome AdditiveSynth :=
  '(_, s) ← noteOn (flatModel twoPartials) 1 440 100 true false (synthWithPool 4);
  '(_, s) ← noteOn (flatModel twoPartials) 1 440 100 true false s;
  Returned s.

(** One voice of two partials on a pool of capacity 4, sounding at its
    sustain level after half a second. *)
Definition oneVoice : Outcome AdditiveSynth :=
  '(_, s) ← noteOn (flatModel twoPartials) 5 440 100 true false (synthWithPool 4);
  Returned (audioRender (fun _ => sustainTarget 100) (advanceClock 0.5 s)).

(** One voice of two partials: a first tick, half a second after the
    note-on, ramps the gains from the sustain level to their targets; 200
    ms later the ramps have arrived. *)
Definition steadyVoice : Outcome AdditiveSynth :=
  '(_, s) ← noteOn (flatModel twoPartials) 5 440 100 true false (synthWithPool 4);
  let s := audioRender (fun _ => sustainTarget 100) (advanceClock 0.5 s) in
  let s := updateHarmonicEvolution (flatModel twoPartials) s in
  Returned (audioRender (fun i => if i =? 3 then 0.5%Q else 0.25%Q) (advanceClock 0.2 s)).

(** Pool of capacity 4 held by two voices whose keys are down. *)
Definition twoHeldVoices : Outcome AdditiveSynth :=
  '(_, s) ← noteOn (flatModel twoPartials) 1 440 100 true false (synthWithPool 4);
  '(_, s) ← noteOn (flatModel twoPartials) 2 660 100 true false s;
  Returned s.


Fixpoint strike (kd pd : bool) (n : nat) (s : AdditiveSynth) : Outcome AdditiveSynth :=
  match n with
  | 0 => Returned s
  | S k =>
      s ← strike kd pd k s;
      '(_, s) ← noteOn (flatModel twelvePartials) n 440 100 kd pd s;
      Returned s
  end.

(** The voice table at a glance: id, partials, key state. *)
Definition voiceSummary (s : AdditiveSynth) : list (nat * list nat * bool) :=
  map (fun e => (fst e, partials (snd e), keyDown (snd e))) (activeNotes s).

(** The timer queue at a glance: id, due time in whole ms, callback. *)
Definition timerSummary (s : AdditiveSynth) : list (nat * Z * TimerAction) :=
  map (fun t => (timerId t, Qfloor (due t), action t)) (timers s).

(** ** Ownership of partials *)

(** The partials the voice table refers to, voice after voice. *)
Definition voicePartials (s : AdditiveSynth) : list nat :=
  flat_map (fun e => partials (snd e)) (activeNotes s).

(** The partial a pending timer is going to hand back to the pool. *)
Definition releaseRef (t : Timer) : list nat :=
  match action t with
  | PartialTimeout ref => [ref]
  | _ => []
  end.

Definition pendingReleases (s : AdditiveSynth) : list nat :=
  flat_map releaseRef (timers s).

(** The voice table reduced to the note ids and their partials. *)
Definition voiceRefs (m : list (nat * Note)) : list (nat * list nat) :=
  map (fun e => (fst e, partials (snd e))) m.

(** Every reference to a partial the engine holds outside the pool. *)
Definition heldPartials (s : AdditiveSynth) : list nat :=
  voicePartials s ++ pendingReleases s.

Definition inUseAt (pp : PartialPool) (ref : nat) : Prop :=
  exists p, pool pp !! ref = Some p /\ inUse p = true.

(** Timer ids are handed out once, in increasing order; the cleanup table
    names ids already handed out, and never the timer of a partial. *)
Record timers_inv (s : AdditiveSynth) : Prop := {
  timers_below : forall t, t ∈ timers s -> timerId t < nextTimerId s;
  timers_nodup : NoDup (map timerId (timers s));
  pending_below : forall e, e ∈ pendingCleanups s -> snd e < nextTimerId s;
  pending_kind : forall e t, e ∈ pendingCleanups s -> t ∈ timers s ->
                             timerId t = snd e -> releaseRef t = []
}.

(** A step of the engine that keeps the timers in order and queues the
    release of exactly the partials [refs]. *)
Definition queues (refs : list nat) (s s' : AdditiveSynth) : Prop :=
  timers_inv s ->
  timers_inv s' /\ pendingReleases s' = pendingReleases s ++ refs.

(** The invariant of the engine: the voice table has one entry per note
    id, no partial is referred to twice (by two voices, twice by one
    voice, by a voice and a pending release, or by two pending releases),
    and every partial referred to is marked in use. *)
Record owned (capacity : nat) (s : AdditiveSynth) : Prop := {
  owned_pool : pool_inv capacity (partialPool s);
  owned_timers : timers_inv s;
  owned_keys : NoDup (map fst (activeNotes s));
  owned_once : NoDup (heldPartials s);
  owned_inUse : forall ref, ref ∈ heldPartials s -> inUseAt (partialPool s) ref
}.

(** Every partial in use is accounted for by a voice or a pending
    release. *)
Definition accounted (s : AdditiveSynth) : Prop :=
  inUseCount (partialPool s) = length (heldPartials s).

(** The note id of every [noteOn] of a run is unused when the call is
    made, as with the ids [PolySynthWrapper.triggerAttack] draws from
    its counter. *)
Fixpoint freshIds (model : AcousticModel) (ops : list EngineOp) (s : AdditiveSynth) : Prop :=
  match ops with
  | [] => True
  | op :: rest =>
      match op with
      | CallNoteOn noteId _ _ _ _ => Map_has noteId (activeNotes s) = false
      | _ => True
      end /\
      match runEngineOp model op s with
      | Returned s' => freshIds model rest s'
      | Threw => True
      end
  end.

(** Three notes under fresh ids, each released and cleaned up, with the
    timers fired once they are due. *)
Definition playedAndReleased : list EngineOp :=
  [CallNoteOn 0 440 100 true false; CallNoteOn 1 660 100 true false;
   CallNoteOff 0 0.5 false; Advance 1; Fire 0; Advance 0.02; Fire 1; Fire 2; Fire 3;
   CallNoteOn 2 880 90 true false; CallNoteOff 1 0.5 true; CallNoteOff 2 0.5 true;
   Advance 0.02; Fire 4; Fire 5; Fire 6; Fire 7; Fire 8; Fire 9].

(** One note of two partials, struck and left to sound for half a second. *)
Definition oneNoteRun : list EngineOp :=
  [CallNoteOn 5 440 100 true false; Advance 0.5].

(** ** Per-note volume *)

(** [setNoteVolume(noteId, volume)]; the gain node of a voice is created
    by [noteOn], so [note.gainNode] is never falsy. *)
Definition setNoteVolume (noteId : nat) (volume : Q) (s : AdditiveSynth) : AdditiveSynth :=
  match Map_get noteId (activeNotes s) with
  | Some note =>
      let now := currentTime s in
      updateNoteGain (gainNode note)
        (fun g => mkGainNode (schedule (SetValueAtTime volume now)
                                (cancelScheduledValues now (gainParam g)))
                             (gainConnected g)) s
  | None => s
  end.

(** [rampNoteVolume(noteId, targetVolume, duration)] *)
Definition rampNoteVolume (noteId : nat) (targetVolume duration : Q) (s : AdditiveSynth)
    : AdditiveSynth :=
  match Map_get noteId (activeNotes s) with
  | Some note =>
      let now := currentTime s in
      let currentValue := noteGainValue s note in
      updateNoteGain (gainNode note)
        (fun g => mkGainNode
                    (schedule (ExponentialRampToValueAtTime targetVolume (now + duration)%Q)
                       (schedule (SetValueAtTime currentValue now)
                          (cancelScheduledValues now (gainParam g))))
                    (gainConnected g)) s
  | None => s
  end.

(** * Note names *)

Definition noteNames : list string :=
  ["C"; "C#"; "D"; "D#"; "E"; "F"; "F#"; "G"; "G#"; "A"; "A#"; "B"]%string.

(** [names.indexOf(note)]; [None] stands for -1. *)
Fixpoint indexOf (note : string) (names : list string) : option Z :=
  match names with
  | [] => None
  | n :: rest =>
      if String.eqb note n then Some 0%Z else option_map Z.succ (indexOf note rest)
  end.

(** The decimal text string concatenation gives an integer. *)
Definition numberToString (z : Z) : string := NilZero.string_of_int (Z.to_int z).

(** [midiNoteToNoteName(midiNote)] of the main script, for an integer
    argument that is not negative.  A negative remainder indexes
    [noteNames] out of range, and the sum of [undefined] and the octave is
    the number NaN, which this string-valued function does not
    represent: what it returns there stands for no result of the code,
    and no theorem is stated there. *)
Definition midiNoteToNoteName (midiNote : Z) : string :=
  let octave := (midiNote / 12 - 1)%Z in
  let note :=
    if (Z.rem midiNote 12 <? 0)%Z then "undefined"%string
    else match noteNames !! Z.to_nat (Z.rem midiNote 12) with
         | Some n => n
         | None => "undefined"%string
         end in
  (note ++ numberToString octave)%string.

Definition isNoteLetter (c : ascii) : bool :=
  (65 <=? nat_of_ascii c) && (nat_of_ascii c <=? 71).

(** The two groups of [noteName.match(/^([A-G]#?)(\d+)$/)]. *)
Definition matchNoteName (noteName : string) : option (string * string) :=
  match noteName with
  | String c rest =>
      if isNoteLetter c then
        let '(note, digits) :=
          match rest with
          | String c' rest' =>
              if Ascii.eqb c' "#" then (String c (String c' EmptyString), rest')
              else (String c EmptyString, rest)
          | EmptyString => (String c EmptyString, rest)
          end in
        match NilEmpty.uint_of_string digits with
        | Some _ =>
            match digits with
            | EmptyString => None
            | String _ _ => Some (note, digits)
            end
        | None => None
        end
      else None
  | EmptyString => None
  end.

(** [parseInt] of a run of decimal digits. *)
Definition parseInt (digits : string) : Z :=
  match NilEmpty.uint_of_string digits with
  | Some d => Z.of_uint d
  | None => 0%Z
  end.

(** [noteNameToMidiNote(noteName)] of the main script; [None] is [null]. *)
Definition noteNameToMidiNote (noteName : string) : option Z :=
  match matchNoteName noteName with
  | None => None
  | Some (note, digits) =>
      let octave := parseInt digits in
      match indexOf note noteNames with
      | None => None
      | Some noteIndex => Some ((octave + 1) * 12 + noteIndex)%Z
      end
  end.

(** [getBlackKeyMidiNote(currentNote, nextNote)] *)
Definition getBlackKeyMidiNote (currentNote nextNote : string) : option Z :=
  match noteNameToMidiNote currentNote, noteNameToMidiNote nextNote with
  | Some currentMidi, Some _ => Some (currentMidi + 1)%Z
  | _, _ => None
  end.

(** * PolySynthWrapper *)

(** An envelope object; a property may be absent. *)
Record Envelope : Type := mkEnvelope {
  envAttack : option Q;
  envDecay : option Q;
  envSustain : option Q;
  envRelease : option Q
}.

(** [noteEnvelopes] holds references: to the object in
    [this.envelopeDefaults], which [set] mutates in place, or to an
    object handed to [setNoteEnvelope]. *)
Inductive EnvelopeRef : Type :=
| TheDefaults
| Given (envelope : Envelope).

(** The entries of the arrays in [activeVoices]. *)
Record Voice : Type := mkVoice {
  voiceNoteId : nat;
  voiceFrequency : Q;
  voiceVelocity : Z;
  voiceGainNode : nat;
  voiceKeyDown : bool;
  voicePedalDown : bool
}.

Record PolySynthWrapper : Type := mkWrapper {
  synth : AdditiveSynth;
  envelopeDefaults : Envelope;
  activeVoices : list (string * list Voice);     (* a Map: noteName -> array *)
  noteIdCounter : nat;
  noteEnvelopes : list (string * EnvelopeRef);   (* a Map: noteName -> envelope *)
  sustainPedalActive : bool
}.

Definition withSynth (s : AdditiveSynth) (w : PolySynthWrapper) : PolySynthWrapper :=
  mkWrapper s (envelopeDefaults w) (activeVoices w) (noteIdCounter w) (noteEnvelopes w)
            (sustainPedalActive w).
Definition withVoices (av : list (string * list Voice)) (w : PolySynthWrapper)
    : PolySynthWrapper :=
  mkWrapper (synth w) (envelopeDefaults w) av (noteIdCounter w) (noteEnvelopes w)
            (sustainPedalActive w).
Definition withEnvelopes (ne : list (string * EnvelopeRef)) (w : PolySynthWrapper)
    : PolySynthWrapper :=
  mkWrapper (synth w) (envelopeDefaults w) (activeVoices w) (noteIdCounter w) ne
            (sustainPedalActive w).

(** *** JavaScript [Map] with string keys, in insertion order *)

Fixpoint NameMap_get {V : Type} (k : string) (m : list (string * V)) : option V :=
  match m with
  | [] => None
  | (k', v) :: rest => if String.eqb k k' then Some v else NameMap_get k rest
  end.

Definition NameMap_has {V : Type} (k : string) (m : list (string * V)) : bool :=
  match NameMap_get k m with Some _ => true | None => false end.

Fixpoint NameMap_set {V : Type} (k : string) (v : V) (m : list (string * V))
    : list (string * V) :=
  match m with
  | [] => [(k, v)]
  | (k', v') :: rest =>
      if String.eqb k k' then (k, v) :: rest else (k', v') :: NameMap_set k v rest
  end.

Definition NameMap_delete {V : Type} (k : string) (m : list (string * V))
    : list (string * V) :=
  List.filter (fun e => negb (String.eqb k (fst e))) m.

(** The constructor; [options.envelope || { attack: 0.01, ... }]. *)
Definition PolySynthWrapper_new (envelope : option Envelope) : PolySynthWrapper :=
  mkWrapper AdditiveSynth_new
            (match envelope with
             | Some e => e
             | None => mkEnvelope (Some 0.01%Q) (Some 0.1%Q) (Some 0.3%Q) (Some 0.5%Q)
             end)
            [] 0 [] false.

Definition deref (w : PolySynthWrapper) (r : EnvelopeRef) : Envelope :=
  match r with
  | TheDefaults => envelopeDefaults w
  | Given e => e
  end.

(** [this.noteEnvelopes.get(noteName) || this.envelopeDefaults] *)
Definition envelopeFor (noteName : string) (w : PolySynthWrapper) : EnvelopeRef :=
  match NameMap_get noteName (noteEnvelopes w) with
  | Some r => r
  | None => TheDefaults
  end.

(** [envelope.release || 0.5] *)
Definition releaseTimeOf (e : Envelope) : Q :=
  match envRelease e with
  | Some r => if Qeq_bool r 0 then 0.5%Q else r
  | None => 0.5%Q
  end.

Definition withKeyDown (kd : bool) (v : Voice) : Voice :=
  mkVoice (voiceNoteId v) (voiceFrequency v) (voiceVelocity v) (voiceGainNode v) kd
          (voicePedalDown v).
Definition withPedalDown (pd : bool) (v : Voice) : Voice :=
  mkVoice (voiceNoteId v) (voiceFrequency v) (voiceVelocity v) (voiceGainNode v)
          (voiceKeyDown v) pd.

(** [Object.assign(target, source)] on envelopes. *)
Definition assignEnvelope (target source : Envelope) : Envelope :=
  let pick (s t : option Q) := match s with Some x => Some x | None => t end in
  mkEnvelope (pick (envAttack source) (envAttack target))
             (pick (envDecay source) (envDecay target))
             (pick (envSustain source) (envSustain target))
             (pick (envRelease source) (envRelease target)).

Module Wrapper.
Section Methods.

Variable model : AcousticModel.

(** [Math.pow] *)
Variable Math_pow : Q -> Q -> Q.

(** [noteNameToFrequency(noteName)] *)
Definition noteNameToFrequency (noteName : string) : Q :=
  let A4 := 440%Q in
  match matchNoteName noteName with
  | None => A4
  | Some (note, digits) =>
      let octave := parseInt digits in
      match indexOf note noteNames with
      | None => A4
      | Some noteIndex =>
          let semitones := ((octave - 4) * 12 + (noteIndex - 9))%Z in
          (A4 * Math_pow 2 (inject_Z semitones / 12))%Q
      end
  end.

(** [triggerAttack(noteName, time, velocity = 0.7)]; [windowPedal] is the
    global [window.sustainPedalActive]. *)
Definition triggerAttack (noteName : string) (velocity : option Q) (windowPedal : bool)
    (w : PolySynthWrapper) : Outcome PolySynthWrapper :=
  let velocity := match velocity with Some v => v | None => 0.7%Q end in
  let frequency := noteNameToFrequency noteName in
  let midiVelocity := Math_round (velocity * 127)%Q in
  let noteId := noteIdCounter w in
  let w := mkWrapper (synth w) (envelopeDefaults w) (activeVoices w) (S noteId)
                     (noteEnvelopes w) (sustainPedalActive w) in
  let envelope := envelopeFor noteName w in
  let pedalDown := sustainPedalActive w || windowPedal in
  '(node, s) ← noteOn model noteId frequency midiVelocity true pedalDown (synth w);
  let w := withSynth s w in
  let w := if NameMap_has noteName (activeVoices w) then w
           else withVoices (NameMap_set noteName [] (activeVoices w)) w in
  let w := match NameMap_get noteName (activeVoices w) with
           | Some voices =>
               withVoices
                 (NameMap_set noteName
                    (voices ++ [mkVoice noteId frequency midiVelocity node true pedalDown])
                    (activeVoices w)) w
           | None => w
           end in
  Returned (withEnvelopes (NameMap_set noteName envelope (noteEnvelopes w)) w).

(** [setSustainPedal(pedalDown)] *)
Definition setSustainPedal (pedalDown : bool) (w : PolySynthWrapper) : PolySynthWrapper :=
  let w := mkWrapper (synth w) (envelopeDefaults w) (activeVoices w) (noteIdCounter w)
                     (noteEnvelopes w) pedalDown in
  let s := fold_left
             (fun s entry =>
                fold_left (fun s voice =>
                             updateNoteState (voiceNoteId voice) (voiceKeyDown voice) pedalDown s)
                          (snd entry) s)
             (activeVoices w) (synth w) in
  withVoices (map (fun entry => (fst entry, map (withPedalDown pedalDown) (snd entry)))
                  (activeVoices w))
             (withSynth s w).

(** [updateNoteKeyState(noteName, keyDown)] *)
Definition updateNoteKeyState (noteName : string) (keyDown : bool) (w : PolySynthWrapper)
    : PolySynthWrapper :=
  match NameMap_get noteName (activeVoices w) with
  | None => w
  | Some voices =>
      let s := fold_left (fun s voice =>
                            updateNoteState (voiceNoteId voice) keyDown (voicePedalDown voice) s)
                         voices (synth w) in
      withVoices (NameMap_set noteName (map (withKeyDown keyDown) voices) (activeVoices w))
                 (withSynth s w)
  end.

(** [triggerRelease(noteName, time)] *)
Definition triggerRelease (noteName : string) (windowPedal : bool) (w : PolySynthWrapper)
    : PolySynthWrapper :=
  match NameMap_get noteName (activeVoices w) with
  | None => w
  | Some voices =>
      match last voices with
      | None => w
      | Some voice =>
          let pedalDown := sustainPedalActive w || windowPedal in
          if pedalDown then
            let s := updateNoteState (voiceNoteId voice) false pedalDown (synth w) in
            withVoices (NameMap_set noteName (removelast voices ++ [withKeyDown false voice])
                                    (activeVoices w))
                       (withSynth s w)
          else
            let releaseTime := releaseTimeOf (deref w (envelopeFor noteName w)) in
            let voices := removelast voices in
            let s := noteOff (voiceNoteId voice) releaseTime false (synth w) in
            let w := withVoices (NameMap_set noteName voices (activeVoices w)) (withSynth s w) in
            match voices with
            | [] => withEnvelopes (NameMap_delete noteName (noteEnvelopes w))
                      (withVoices (NameMap_delete noteName (activeVoices w)) w)
            | _ :: _ => w
            end
      end
  end.

(** [releaseAllVoices(noteName)] *)
Definition releaseAllVoices (noteName : string) (w : PolySynthWrapper) : PolySynthWrapper :=
  match NameMap_get noteName (activeVoices w) with
  | None => w
  | Some [] => w
  | Some voices =>
      let releaseTime := releaseTimeOf (deref w (envelopeFor noteName w)) in
      let s := fold_left (fun s voice => noteOff (voiceNoteId voice) releaseTime true s)
                         voices (synth w) in
      withEnvelopes (NameMap_delete noteName (noteEnvelopes w))
        (withVoices (NameMap_delete noteName (activeVoices w)) (withSynth s w))
  end.

(** [set(options)], with [options.envelope]. *)
Definition set (envelope : option Envelope) (w : PolySynthWrapper) : PolySynthWrapper :=
  match envelope with
  | Some e =>
      mkWrapper (synth w) (assignEnvelope (envelopeDefaults w) e) (activeVoices w)
                (noteIdCounter w) (noteEnvelopes w) (sustainPedalActive w)
  | None => w
  end.

(** [setNoteEnvelope(noteName, envelope)] *)
Definition setNoteEnvelope (noteName : string) (envelope : Envelope) (w : PolySynthWrapper)
    : PolySynthWrapper :=
  withEnvelopes (NameMap_set noteName (Given envelope) (noteEnvelopes w)) w.

(** [getNoteGainNode(noteName)]; [None] is [null]. *)
Definition getNoteGainNode (noteName : string) (w : PolySynthWrapper) : option nat :=
  match NameMap_get noteName (activeVoices w) with
  | None => None
  | Some voices => option_map voiceGainNode (last voices)
  end.

(** [setNoteVolume(noteName, volume)] *)
Definition setNoteVolume (noteName : string) (volume : Q) (w : PolySynthWrapper)
    : PolySynthWrapper :=
  match NameMap_get noteName (activeVoices w) with
  | None => w
  | Some voices =>
      withSynth (fold_left (fun s voice => setNoteVolume (voiceNoteId voice) volume s)
                           voices (synth w)) w
  end.

(** [rampNoteVolume(noteName, targetVolume, duration)] *)
Definition rampNoteVolume (noteName : string) (targetVolume duration : Q)
    (w : PolySynthWrapper) : PolySynthWrapper :=
  match NameMap_get noteName (activeVoices w) with
  | None => w
  | Some voices =>
      withSynth (fold_left (fun s voice =>
                              rampNoteVolume (voiceNoteId voice) targetVolume duration s)
                           voices (synth w)) w
  end.

(** [getActiveNoteCount()] *)
Definition getActiveNoteCount (w : PolySynthWrapper) : nat := length (activeVoices w).

(** [releaseAll()] *)
Definition releaseAll (w : PolySynthWrapper) : PolySynthWrapper :=
  let s := fold_left
             (fun s entry =>
                let releaseTime := releaseTimeOf (deref w (envelopeFor (fst entry) w)) in
                fold_left (fun s voice => noteOff (voiceNoteId voice) releaseTime false s)
                          (snd entry) s)
             (activeVoices w) (synth w) in
  withEnvelopes [] (withVoices [] (withSynth s w)).

End Methods.
End Wrapper.

(** ** Runs of the wrapper

    The calls of the wrapper's methods, interleaved with what happens to
    its engine in between: scheduler ticks, timer callbacks, the passing
    of time, and the audio thread publishing the live values of the
    partial gains and of the note gains. *)
Inductive WrapperOp : Type :=
| TriggerAttack (noteName : string) (velocity : option Q) (windowPedal : bool)
| TriggerRelease (noteName : string) (windowPedal : bool)
| ReleaseAllVoices (noteName : string)
| SetSustainPedal (pedalDown : bool)
| UpdateNoteKeyState (noteName : string) (keyDown : bool)
| SetOptions (envelope : option Envelope)
| SetNoteEnvelope (noteName : string) (envelope : Envelope)
| SetNoteVolume (noteName : string) (volume : Q)
| RampNoteVolume (noteName : string) (targetVolume duration : Q)
| ReleaseAll
| EngineTick
| EngineFire (timeoutId : nat)
| EngineAdvance (seconds : Q)
| EngineRender (live : nat -> Q)
| EngineRenderNotes (live : nat -> Q).

Definition runWrapperOp (model : AcousticModel) (Math_pow : Q -> Q -> Q) (op : WrapperOp)
    (w : PolySynthWrapper) : Outcome PolySynthWrapper :=
  match op with
  | TriggerAttack noteName velocity windowPedal =>
      Wrapper.triggerAttack model Math_pow noteName velocity windowPedal w
  | TriggerRelease noteName windowPedal => Returned (Wrapper.triggerRelease noteName windowPedal w)
  | ReleaseAllVoices noteName => Returned (Wrapper.releaseAllVoices noteName w)
  | SetSustainPedal pedalDown => Returned (Wrapper.setSustainPedal pedalDown w)
  | UpdateNoteKeyState noteName keyDown => Returned (Wrapper.updateNoteKeyState noteName keyDown w)
  | SetOptions envelope => Returned (Wrapper.set envelope w)
  | SetNoteEnvelope noteName envelope => Returned (Wrapper.setNoteEnvelope noteName envelope w)
  | SetNoteVolume noteName volume => Returned (Wrapper.setNoteVolume noteName volume w)
  | RampNoteVolume noteName targetVolume duration =>
      Returned (Wrapper.rampNoteVolume noteName targetVolume duration w)
  | ReleaseAll => Returned (Wrapper.releaseAll w)
  | EngineTick => Returned (withSynth (updateHarmonicEvolution model (synth w)) w)
  | EngineFire timeoutId => Returned (withSynth (fireTimer timeoutId (synth w)) w)
  | EngineAdvance seconds => Returned (withSynth (advanceClock seconds (synth w)) w)
  | EngineRender live => Returned (withSynth (audioRender live (synth w)) w)
  | EngineRenderNotes live => Returned (withSynth (renderNoteGains live (synth w)) w)
  end.

Fixpoint runWrapper (model : AcousticModel) (Math_pow : Q -> Q -> Q) (ops : list WrapperOp)
    (w : PolySynthWrapper) : Outcome PolySynthWrapper :=
  match ops with
  | [] => Returned w
  | op :: rest => w' ← runWrapperOp model Math_pow op w; runWrapper model Math_pow rest w'
  end.

(** The arguments a step of a wrapper run hands to Web Audio are
    accepted: the clock is not negative and only moves forward; the
    [noteOn] of [triggerAttack], for the frequency and the MIDI velocity
    the wrapper computes, and the ramp targets of a tick are accepted; the
    volume of [setNoteVolume] is in the range of a float, the target of
    [rampNoteVolume] moreover not zero and its end time not negative; and
    the live values are floats. *)
Definition wrapperOpAccepted (model : AcousticModel) (Math_pow : Q -> Q -> Q) (op : WrapperOp)
    (w : PolySynthWrapper) : bool :=
  let s := synth w in
  let now := currentTime s in
  Qle_bool 0 now
  && match op with
     | TriggerAttack noteName velocity _ =>
         let velocity := match velocity with Some v => v | None => 0.7%Q end in
         let frequency := Wrapper.noteNameToFrequency Math_pow noteName in
         let midiVelocity := Math_round (velocity * 127)%Q in
         noteOnAccepted midiVelocity now (requestedConfigs model frequency midiVelocity s)
     | SetNoteVolume _ volume => accepted (SetValueAtTime volume now)
     | RampNoteVolume _ targetVolume duration =>
         accepted (ExponentialRampToValueAtTime targetVolume (now + duration)%Q)
     | EngineTick => tickAccepted model s
     | EngineAdvance seconds => Qle_bool 0 seconds
     | EngineRender live => renderAccepted live s
     | EngineRenderNotes live => forallb floatRange (imap (fun i _ => live i) (gainNodes s))
     | _ => true
     end.

(** Every step of a wrapper run is accepted in the state it is taken in. *)
Fixpoint acceptedWrapperRun (model : AcousticModel) (Math_pow : Q -> Q -> Q)
    (ops : list WrapperOp) (w : PolySynthWrapper) : Prop :=
  match ops with
  | [] => True
  | op :: rest =>
      wrapperOpAccepted model Math_pow op w = true /\
      match runWrapperOp model Math_pow op w with
      | Returned w' => acceptedWrapperRun model Math_pow rest w'
      | Threw => True
      end
  end.

(** Every note id of the voice table was drawn from a counter that has
    moved past it. *)
Definition keysBelow (k : nat) (s : AdditiveSynth) : Prop :=
  Forall (fun e => fst e < k) (activeNotes s).

(** What a call into the engine keeps for the wrapper: the ownership of
    partials, the account of the partials in use, and the bound on the
    note ids. *)
Definition stable (capacity k : nat) (s : AdditiveSynth) : Prop :=
  owned capacity s /\ accounted s /\ keysBelow k s.

(** The voices the wrapper lists, name after name. *)
Definition listedVoices (w : PolySynthWrapper) : list Voice :=
  flat_map snd (activeVoices w).

(** The bookkeeping invariant of the wrapper: one entry per name, no
    entry with an empty array, and note ids that are distinct and below
    the counter. *)
Definition tables_ok (counter : nat) (av : list (string * list Voice)) : Prop :=
  NoDup (map fst av) /\
  Forall (fun entry => snd entry <> []) av /\
  NoDup (map voiceNoteId (flat_map snd av)) /\
  Forall (fun id => id < counter) (map voiceNoteId (flat_map snd av)).

Definition wrapper_inv (w : PolySynthWrapper) : Prop :=
  tables_ok (noteIdCounter w) (activeVoices w).

(** * PerformanceMonitor *)

Record PerformanceMonitor : Type := mkMonitor {
  lastTime : Q;             (* performance.now() at the start of the window *)
  frameCount : Z;
  fps : Z;
  maxPartialBudget : Z;
  currentBudget : Z
}.

(** The constructor, at the reading [now] of [performance.now()]. *)
Definition PerformanceMonitor_new (now : Q) : PerformanceMonitor :=
  mkMonitor now 0 60 48 48.

Module Monitor.

Definition adaptToPerformance (m : PerformanceMonitor) : PerformanceMonitor :=
  if (fps m <? 50)%Z then
    mkMonitor (lastTime m) (frameCount m) (fps m) (maxPartialBudget m)
              (Z.max 16 (currentBudget m - 8))
  else if (58 <? fps m)%Z && (currentBudget m <? maxPartialBudget m)%Z then
    mkMonitor (lastTime m) (frameCount m) (fps m) (maxPartialBudget m)
              (Z.min (maxPartialBudget m) (currentBudget m + 4))
  else m.

(** [update()], at the reading [now] of [performance.now()]. *)
Definition update (now : Q) (m : PerformanceMonitor) : PerformanceMonitor :=
  let m := mkMonitor (lastTime m) (frameCount m + 1) (fps m) (maxPartialBudget m)
                     (currentBudget m) in
  let elapsed := (now - lastTime m)%Q in
  if Qle_bool 1000 elapsed then
    adaptToPerformance (mkMonitor now 0 (frameCount m) (maxPartialBudget m) (currentBudget m))
  else m.

Definition getPartialBudget (m : PerformanceMonitor) : Z := currentBudget m.

End Monitor.

(** * Spectral profiles *)

(** [Math.pow(x, y)]: a power with an integer exponent is rational; the
    others are left to [pow_frac]. *)
Definition Math_pow (pow_frac : Q -> Q -> Q) (x y : Q) : Q :=
  if (Qden (Qred y) =? 1)%positive then (x ^ Qnum (Qred y))%Q else pow_frac x y.

Definition primeWeights : list Q :=
  [0; 0; 1; 1; 0.5; 1; 0.33; 1; 0.25; 0.5; 0.2; 1; 0.16; 1; 0.14; 0.33;
   0.125; 1; 0.11; 1; 0.1; 0.09; 0.08; 1; 0.07; 0.06; 0.05; 1; 0.04; 0.03; 0.02; 0.01]%Q.

(** [getPrimeFactorWeight(n)]: [primeWeights[n] || 0.01]. *)
Definition getPrimeFactorWeight (n : Z) : Q :=
  match (if (n <? 0)%Z then None else primeWeights !! Z.to_nat n) with
  | Some w => if Qeq_bool w 0 then 0.01%Q else w
  | None => 0.01%Q
  end.

(** [calcDecayTime(harmonicNum, velocity, baseDecay)]; [None] is the
    [Infinity] of [maxDuration]. *)
Definition calcDecayTime (pow_frac : Q -> Q -> Q) (harmonicNum velocity : Z) (baseDecay : Q)
    : Q :=
  let normalizedVel := (inject_Z velocity / 127)%Q in
  let isHighHarmonic := (6 <? harmonicNum)%Z in
  if negb isHighHarmonic then
    let harmonicFactor := Math_pow pow_frac (inject_Z harmonicNum) 0.7 in
    let velFactor := (1 + normalizedVel * 0.5)%Q in
    (baseDecay * velFactor / harmonicFactor)%Q
  else
    let harmonicFactor := Math_pow pow_frac (inject_Z harmonicNum / 6) 3 in
    let velFactor := (1 + normalizedVel * 0.8)%Q in
    let maxDuration :=
      if (20 <? harmonicNum)%Z then Some 0.05%Q
      else if (16 <? harmonicNum)%Z then Some 0.15%Q
      else if (12 <? harmonicNum)%Z then Some 0.3%Q
      else None in
    let calculatedDecay := (baseDecay * velFactor / harmonicFactor)%Q in
    match maxDuration with
    | Some d => Qmin calculatedDecay d
    | None => calculatedDecay
    end.

(** What [SpectralProfile] takes from outside: the acoustic modules on
    [window], each of which may be absent, [calcAmplitude] (built on
    those modules and on [Math.exp]), and the transcendental functions. *)
Record SpectralEnv : Type := mkSpectralEnv {
  pow_frac : Q -> Q -> Q;
  Math_log2 : Q -> Q;
  calcAmplitude : Z -> Z -> Q -> Q;
  getBalancedHarmonicCount : option (Q -> Z);
  getMaxAudibleHarmonics : option (Q -> Q -> Z);
  (* (baseFreq, harmonicNum, midiNote, velocity) *)
  calculateInharmonicPartialFrequency : option (Q -> Z -> Z -> Z -> Q)
}.

(** The number of partials [computeConfigsForVelocity] computes. *)
Definition profilePartialCount (env : SpectralEnv) (baseFreq : Q) : Z :=
  match getBalancedHarmonicCount env with
  | Some balanced => Z.max 12 (balanced baseFreq)
  | None =>
      match getMaxAudibleHarmonics env with
      | Some audible => Z.max 12 (audible baseFreq 0.01%Q)
      | None => 32%Z
      end
  end.

(** The body of the loop of [computeConfigsForVelocity]. *)
Definition computeConfig (env : SpectralEnv) (baseFreq : Q) (velocity : Z) (i : nat)
    : PartialConfig :=
  let normalizedVel := (inject_Z velocity / 127)%Q in
  let harmonicNum := (Z.of_nat i + 1)%Z in
  let primeFactor := getPrimeFactorWeight harmonicNum in
  let baseStretch := 0.1%Q in
  let freqFactor := (1 - Qmin 1 (baseFreq / 2000))%Q in
  let balancedStretch := (baseStretch * freqFactor)%Q in
  let stretch := (1 + normalizedVel * balancedStretch * primeFactor)%Q in
  let freq :=
    match calculateInharmonicPartialFrequency env with
    | Some inharmonic =>
        let midiNote := Math_round (69 + 12 * Math_log2 env (baseFreq / 440))%Q in
        inharmonic baseFreq harmonicNum midiNote velocity
    | None => (baseFreq * inject_Z harmonicNum * stretch)%Q
    end in
  let amp := calcAmplitude env harmonicNum velocity baseFreq in
  let baseDecay := 0.3%Q in
  let decay := calcDecayTime (pow_frac env) harmonicNum velocity baseDecay in
  mkConfig freq amp decay harmonicNum.

(** [computeConfigsForVelocity(velocity)] *)
Definition computeConfigsForVelocity (env : SpectralEnv) (baseFreq : Q) (velocity : Z)
    : list PartialConfig :=
  map (computeConfig env baseFreq velocity) (seq 0 (Z.to_nat (profilePartialCount env baseFreq))).

Record SpectralProfile : Type := mkProfile {
  profileBaseFreq : Q;
  configs : list (list PartialConfig)      (* one entry per velocity level *)
}.

(** [new SpectralProfile(baseFreq, synth)] *)
Definition SpectralProfile_new (env : SpectralEnv) (baseFreq : Q) : SpectralProfile :=
  mkProfile baseFreq
            (map (fun v => computeConfigsForVelocity env baseFreq (Z.of_nat v)) (seq 0 128)).


(** [getSpectralProfile(baseFreq)] on the cache [spectralCache], a Map
    from [Math.round(baseFreq)] to the profile. *)
Fixpoint cacheGet (freqKey : Z) (cache : list (Z * SpectralProfile)) : option SpectralProfile :=
  match cache with
  | [] => None
  | (k, p) :: rest => if (freqKey =? k)%Z then Some p else cacheGet freqKey rest
  end.

Definition getSpectralProfile (env : SpectralEnv) (baseFreq : Q)
    (spectralCache : list (Z * SpectralProfile))
    : SpectralProfile * list (Z * SpectralProfile) :=
  let freqKey := Math_round baseFreq in
  match cacheGet freqKey spectralCache with
  | Some p => (p, spectralCache)
  | None =>
      let p := SpectralProfile_new env baseFreq in
      (p, spectralCache ++ [(freqKey, p)])
  end.

(** Every cached profile was built by the constructor and sits under the
    rounded value of its own base frequency. *)
Definition cache_ok (env : SpectralEnv) (cache : list (Z * SpectralProfile)) : Prop :=
  Forall (fun e => snd e = SpectralProfile_new env (profileBaseFreq (snd e)) /\
                   Math_round (profileBaseFreq (snd e)) = fst e) cache.

(** An environment without acoustic modules on [window]. *)
Definition plainEnv : SpectralEnv :=
  mkSpectralEnv (fun _ _ => 1%Q) (fun _ => 0%Q) (fun _ _ _ => 0.5%Q) None None None.

(** ** The cleanup table and the cleanup timers *)

(** The note a timer is going to clean up, for the two callbacks that
    call [cleanupNote]. *)
Definition cleanupTarget (a : TimerAction) : option nat :=
  match a with
  | ReleaseTimeout noteId => Some noteId
  | DecayedTimeout noteId => Some noteId
  | PartialTimeout _ => None
  | GainTimeout _ => None
  end.

(** [pendingCleanups] names, note by note, the pending cleanup timer:
    every cleanup timer in the queue is the entry of its note, and every
    entry names a cleanup timer of its note that is in the queue. *)
Record tracked (s : AdditiveSynth) : Prop := {
  tracked_timer : forall t noteId,
    t ∈ timers s -> cleanupTarget (action t) = Some noteId ->
    Map_get noteId (pendingCleanups s) = Some (timerId t);
  tracked_entry : forall noteId tid,
    Map_get noteId (pendingCleanups s) = Some tid ->
    exists t, t ∈ timers s /\ timerId t = tid /\ cleanupTarget (action t) = Some noteId
}.

(** The same, except that the entry of [noteId] may name a timer that
    has just left the queue. *)
Record almostTracked (noteId : nat) (s : AdditiveSynth) : Prop := {
  almost_timer : forall t id,
    t ∈ timers s -> cleanupTarget (action t) = Some id ->
    Map_get id (pendingCleanups s) = Some (timerId t);
  almost_entry : forall id tid,
    id <> noteId -> Map_get id (pendingCleanups s) = Some tid ->
    exists t, t ∈ timers s /\ timerId t = tid /\ cleanupTarget (action t) = Some id;
  almost_stale : forall tid t,
    Map_get noteId (pendingCleanups s) = Some tid -> t ∈ timers s -> timerId t = tid ->
    cleanupTarget (action t) = Some noteId
}.

(** * The piano envelope model ([piano-envelope-model.js]) *)

Record PianoEnvelopeSettings : Type := mkEnvelopeSettings {
  lowFastDecay : Q;
  lowSlowDecay : Q;
  midFastDecay : Q;
  midSlowDecay : Q;
  highFastDecay : Q;
  highSlowDecay : Q;
  frequencyScaling : option Q
}.

Record DecayTimes : Type := mkDecayTimes {
  fastDecay : Q;
  slowDecay : Q;
  resonance : Q
}.

(** [getPianoEnvelopeDecayTimes(keyFrequency, velocity, pedalState,
    keyState)]; [enabled] is false when [window.physicsSettings] switches
    the model off, [settings] is [window.pianoEnvelopeModelSettings] and
    [log2] is [Math.log2]. *)
Definition getPianoEnvelopeDecayTimes (enabled : bool) (settings : option PianoEnvelopeSettings)
    (log2 : Q -> Q) (keyFrequency : Q) (velocity : Z) (pedalState keyState : bool)
    : DecayTimes :=
  if negb enabled then mkDecayTimes 0.3 8.0 0.5
  else
    let baseFreq := keyFrequency in
    let '(fast, slow) :=
      if Qltb baseFreq 100 then
        (match settings with Some st => lowFastDecay st | None => 0.5%Q end,
         match settings with Some st => lowSlowDecay st | None => 15.0%Q end)
      else if Qltb baseFreq 400 then
        (match settings with Some st => midFastDecay st | None => 0.3%Q end,
         match settings with Some st => midSlowDecay st | None => 8.0%Q end)
      else
        (match settings with Some st => highFastDecay st | None => 0.1%Q end,
         match settings with Some st => highSlowDecay st | None => 3.0%Q end) in
    let '(fast, slow) :=
      match settings with
      | Some st =>
          match frequencyScaling st with
          | Some scaling =>
              if Qeq_bool scaling 1 then (fast, slow)
              else
                let minFreq := 27.5%Q in
                let maxFreq := 4186%Q in
                let normalizedFreq := (log2 (baseFreq / minFreq) / log2 (maxFreq / minFreq))%Q in
                let lowScaling := scaling in
                let highScaling := (1 / scaling)%Q in
                let scalingFactor :=
                  (lowScaling * (1 - normalizedFreq) + highScaling * normalizedFreq)%Q in
                ((fast * scalingFactor)%Q, (slow * scalingFactor)%Q)
          | None => (fast, slow)
          end
      | None => (fast, slow)
      end in
    if pedalState && keyState then mkDecayTimes fast slow 1.0
    else if pedalState && negb keyState then mkDecayTimes (fast * 0.7) (slow * 0.7) 0.6
    else if negb pedalState && keyState then mkDecayTimes (fast * 0.8) (slow * 0.9) 0.3
    else mkDecayTimes (fast * 0.5) (slow * 0.5) 0.1.

(** [getPianoEnvelopeState(keyDown, pedalDown)] *)
Definition getPianoEnvelopeState (keyDown pedalDown : bool) : string :=
  if keyDown && pedalDown then "BOTH"%string
  else if negb keyDown && pedalDown then "PEDAL_ONLY"%string
  else if keyDown && negb pedalDown then "KEY_ONLY"%string
  else "NONE"%string.

(** * The balance of odd and even harmonics ([odd-even-harmonic-balance.js]) *)

Record OddEvenSettings : Type := mkOddEvenSettings {
  oddBoost : option Q;
  evenAttenuation : option Q;
  maxHarmonic : option Q
}.

(** [settings.field !== undefined ? settings.field : default], with [{}]
    for the settings when the page defines none. *)
Definition settingOr (settings : option OddEvenSettings) (field : OddEvenSettings -> option Q)
    (default : Q) : Q :=
  match settings with
  | Some st => match field st with Some x => x | None => default end
  | None => default
  end.

(** [calculateOddEvenHarmonicBalance(harmonicNumber, fundamentalFreq)];
    the frequency is not used. *)
Definition calculateOddEvenHarmonicBalance (enabled : bool) (settings : option OddEvenSettings)
    (harmonicNumber : Z) : Q :=
  if negb enabled then 1.0%Q
  else
    let oddBoost := settingOr settings oddBoost 1.2%Q in
    let evenAttenuation := settingOr settings evenAttenuation 0.6%Q in
    let maxHarmonic := settingOr settings maxHarmonic 6%Q in
    if Qltb maxHarmonic (inject_Z harmonicNumber) then 1.0%Q
    else if (harmonicNumber =? 1)%Z then oddBoost
    else if (Z.rem harmonicNumber 2 =? 1)%Z then
      let boostDecay := (1.0 - ((inject_Z harmonicNumber - 1) / (maxHarmonic * 2)) * 0.3)%Q in
      (oddBoost * boostDecay)%Q
    else
      let attenuationDecay :=
        (1.0 - ((inject_Z harmonicNumber - 2) / (maxHarmonic * 2)) * 0.2)%Q in
      (evenAttenuation + (1.0 - evenAttenuation) * (1.0 - attenuationDecay))%Q.

(** The body of the loop of [getOddEvenBalanceRatio]: harmonic [k] is added
    to the odd or to the even sum. *)
Definition balanceStep (enabled : bool) (settings : option OddEvenSettings)
    (sums : Q * Q) (k : nat) : Q * Q :=
  let balance := calculateOddEvenHarmonicBalance enabled settings (Z.of_nat k) in
  if k mod 2 =? 1 then ((fst sums + balance)%Q, snd sums)
  else (fst sums, (snd sums + balance)%Q).

(** [getOddEvenBalanceRatio(maxHarmonic)]: the sums over the odd and the
    even harmonics and their ratio, [evenSum || 1] in the divisor. *)
Definition getOddEvenBalanceRatio (enabled : bool) (settings : option OddEvenSettings)
    (maxHarmonic : nat) : Q * Q * Q :=
  let '(oddSum, evenSum) :=
    fold_left (balanceStep enabled settings) (seq 1 maxHarmonic) (0%Q, 0%Q) in
  (oddSum, evenSum, (oddSum / (if Qeq_bool evenSum 0 then 1 else evenSum))%Q).

(** * The brightness over time ([time-varying-brightness.js])

    [Math.sin], [Math.PI] and [Math.exp] are parameters.  Division in [Q]
    is total and gives 0 for a divisor 0, where the code gets [NaN] or
    [Infinity]: with a decay time of 0 in the settings the code returns
    [NaN] at the end of the attack and 1 after it.  The theorems stay
    where the divisors (attack and decay time) are positive, so no JS
    division by zero is involved. *)

Record BrightnessSettings : Type := mkBrightnessSettings {
  attackBrightnessPeak : option Q;
  brightnessDecayTime : option Q;
  decayBrightness : option Q
}.

Definition brightnessSetting (settings : option BrightnessSettings)
    (field : BrightnessSettings -> option Q) : option Q :=
  match settings with
  | Some st => field st
  | None => None
  end.

Section Brightness.

Variable Math_sin : Q -> Q.
Variable Math_PI : Q.
Variable Math_exp : Q -> Q.

(** [enabled] is [window.physicsSettings.timeVaryingBrightness],
    [getAttackTimeForVelocity] the function of that name when the page
    has it, [settings] is [window.timeVaryingBrightnessSettings]. *)
Variable enabled : bool.
Variable getAttackTimeForVelocity : option (Q -> Q).
Variable settings : option BrightnessSettings.

(** [getTimeVaryingBrightness(velocity, timeSinceAttack, attackTime = null)] *)
Definition getTimeVaryingBrightness (velocity timeSinceAttack : Q) (attackTime : option Q) : Q :=
  if negb enabled then 1.0%Q
  else
    let attackTime :=
      match attackTime with
      | Some a => a
      | None =>
          match getAttackTimeForVelocity with
          | Some f => f velocity
          | None =>
              let vNorm := (Qmax 0 (Qmin 127 velocity) / 127.0)%Q in
              (0.01 + (1.0 - vNorm) * 0.19)%Q
          end
      end in
    let attackBrightnessPeak :=
      match brightnessSetting settings attackBrightnessPeak with Some x => x | None => 0.3%Q end in
    let decayTime := brightnessSetting settings brightnessDecayTime in
    let decayBrightness :=
      match brightnessSetting settings decayBrightness with Some x => x | None => 0.2%Q end in
    let vNorm := (Qmax 0 (Qmin 127 velocity) / 127.0)%Q in
    let calculatedDecayTime :=
      match decayTime with
      | Some d => d
      | None => (0.5 + (1.0 - vNorm) * 2.0)%Q
      end in
    if Qltb timeSinceAttack attackTime then
      let attackProgress := (timeSinceAttack / attackTime)%Q in
      let brightnessBoost :=
        (attackBrightnessPeak * Math_sin (attackProgress * Math_PI) * vNorm)%Q in
      (1.0 + brightnessBoost)%Q
    else
      let decayProgress := Qmin 1.0 ((timeSinceAttack - attackTime) / calculatedDecayTime)%Q in
      let brightnessBoost := (decayBrightness * (1.0 - decayProgress) * vNorm)%Q in
      (1.0 + brightnessBoost)%Q.

(** [getSoftNotePunchFactor(velocity, harmonicNumber, timeSinceAttack)] *)
Definition getSoftNotePunchFactor (velocity : Q) (harmonicNumber : Z) (timeSinceAttack : Q) : Q :=
  if Qltb 40 velocity then 1.0%Q
  else
    let harmonicPunchFactor :=
      if (2 <=? harmonicNumber)%Z && (harmonicNumber <=? 4)%Z then 1.5%Q else 1.0%Q in
    let initialBoost := (1.0 + (2.0 * (40 - velocity) / 40) * harmonicPunchFactor)%Q in
    let decayTime := (0.03 + (velocity / 127 * 0.1))%Q in
    let attack := Qmin (timeSinceAttack / 0.005)%Q 1.0 in
    let sustain := Math_exp (- Qmax 0 (timeSinceAttack - 0.005) / decayTime)%Q in
    (1.0 + (initialBoost - 1.0) * attack * sustain)%Q.

(** [addKarplusStyleNoiseBurst(harmonicNum, velocity, time)] *)
Definition addKarplusStyleNoiseBurst (harmonicNum : Z) (velocity time : Q) : Q :=
  if negb enabled then 1.0%Q
  else if Qltb 0.01 time then 1.0%Q
  else
    let isLowVelocity := Qltb velocity 60 in
    let isHarmonic2to6 := (2 <=? harmonicNum)%Z && (harmonicNum <=? 6)%Z in
    if isLowVelocity && isHarmonic2to6 then
      let noiseAmount := (1.0 + (1.0 - velocity / 60) * 0.5)%Q in
      let timeDecay := Math_exp (- time / 0.002)%Q in
      (noiseAmount * timeDecay)%Q
    else 1.0%Q.

(** [getHarmonicTimeVaryingBrightness(harmonicNumber, velocity,
    timeSinceAttack, attackTime = null)]; [attackTime || 0.05] takes 0.05
    for [null] and for 0. *)
Definition getHarmonicTimeVaryingBrightness (harmonicNumber : Z) (velocity timeSinceAttack : Q)
    (attackTime : option Q) : Q :=
  let baseBrightness := getTimeVaryingBrightness velocity timeSinceAttack attackTime in
  let attackEnd :=
    match attackTime with
    | Some a => if Qeq_bool a 0 then 0.05%Q else a
    | None => 0.05%Q
    end in
  let harmonicBoost :=
    if Qltb timeSinceAttack attackEnd
    then (1.0 + (inject_Z harmonicNumber - 1) * 0.05)%Q
    else 1.0%Q in
  let punchFactor := getSoftNotePunchFactor velocity harmonicNumber timeSinceAttack in
  (baseBrightness * harmonicBoost * punchFactor)%Q.

End Brightness.


(** The voice table reduced to the note ids and the addresses of their
    gain nodes. *)
Definition voiceNodes (m : list (nat * Note)) : list (nat * nat) :=
  map (fun e => (fst e, gainNode (snd e))) m.

(** The wiring of the per-note gain nodes: the voices of the table (and
    the nodes [extra], created but not yet stored) have gain nodes of
    their own, all connected, and no pending timer is going to disconnect
    one of them. *)
Record wired (extra : list nat) (s : AdditiveSynth) : Prop := {
  wired_keys : NoDup (map fst (activeNotes s));
  wired_distinct : NoDup (map snd (voiceNodes (activeNotes s)) ++ extra);
  wired_connected : forall a,
    a ∈ map snd (voiceNodes (activeNotes s)) ++ extra ->
    exists g, gainNodes s !! a = Some g /\ gainConnected g = true;
  wired_pending : forall t a,
    t ∈ timers s -> action t = GainTimeout a ->
    a < length (gainNodes s) /\ a ∉ map snd (voiceNodes (activeNotes s)) ++ extra
}.

(** One note played through the wrapper, turned down with
    [setNoteVolume] and faded with [rampNoteVolume] while the audio thread
    publishes the volume reached, released with [releaseAll], and the
    timers of the release run once they are due. *)
Definition playedThroughWrapper : list WrapperOp :=
  [TriggerAttack "C4" None false; SetNoteVolume "C4" 0.5; EngineAdvance 0.1;
   EngineRenderNotes (fun _ => 0.5%Q); RampNoteVolume "C4" 0.25 1; EngineAdvance 1;
   EngineRender (fun _ => sustainTarget 89); EngineRenderNotes (fun _ => 0.25%Q);
   EngineTick; ReleaseAll; EngineAdvance 1; EngineFire 0;
   EngineAdvance 1; EngineFire 1; EngineFire 2; EngineFire 3].





(** * Theorems *)

(** ** Rational comparisons *)

Lemma Qltb_lt (a b : Q) : Qltb a b = true <-> (a < b)%Q.
Proof.
  unfold Qltb. rewrite negb_true_iff. split.
  - intros H. apply Qnot_le_lt. intros Hle.
    apply Qle_bool_iff in Hle. congruence.
  - intros H. destruct (Qle_bool b a) eqn:E; [|reflexivity].
    apply Qle_bool_iff in E. exfalso. exact (Qlt_not_le _ _ H E).
Qed.

Lemma Qltb_ge (a b : Q) : Qltb a b = false <-> (b <= a)%Q.
Proof.
  unfold Qltb. rewrite negb_false_iff. apply Qle_bool_iff.
Qed.

(** ** The partial pool *)

Lemma pop_nil (l : list nat) : pop l = None <-> l = [].
Proof.
  unfold pop. destruct l as [|x l] using rev_ind; [done|].
  rewrite last_snoc. split; [done|]. intros H. by destruct l.
Qed.

Lemma pop_snoc (l : list nat) (x : nat) : pop (l ++ [x]) = Some (x, l).
Proof. unfold pop. by rewrite last_snoc, removelast_last. Qed.

Lemma pop_Some (l r : list nat) (x : nat) : pop l = Some (x, r) -> l = r ++ [x].
Proof.
  destruct l as [|y l _] using rev_ind; [done|].
  rewrite pop_snoc. by intros [= -> ->].
Qed.

Lemma count_insert {A : Type} (f : A -> bool) (l : list A) (i : nat) (x y : A) :
  l !! i = Some x ->
  length (List.filter f (<[i := y]> l)) + (if f x then 1 else 0)
  = length (List.filter f l) + (if f y then 1 else 0).
Proof.
  revert i. induction l as [|a l IH]; intros [|i] H; simplify_eq/=.
  - destruct (f x), (f y); simpl; lia.
  - specialize (IH _ H). destruct (f a); simpl; lia.
Qed.

Lemma inUse_free_count (pp : PartialPool) :
  inUseCount pp + freeCount pp = length (pool pp).
Proof.
  unfold inUseCount, freeCount. induction (pool pp) as [|p l IH]; [done|].
  simpl. destruct (inUse p); simpl; lia.
Qed.

Lemma PartialPool_new_length (n : nat) : length (pool (PartialPool_new n)) = n.
Proof. simpl. by rewrite length_map, length_seq. Qed.

Lemma PartialPool_new_lookup (n i : nat) :
  i < n -> pool (PartialPool_new n) !! i = Some (freshPartial i).
Proof.
  intros H. unfold PartialPool_new. simpl.
  rewrite list_lookup_fmap, lookup_seq_lt by done. done.
Qed.

Lemma PartialPool_new_wf (n : nat) : pool_wf (PartialPool_new n).
Proof.
  split.
  - apply NoDup_seq.
  - intros i. change (available (PartialPool_new n)) with (seq 0 n).
    rewrite elem_of_seq. split.
    + intros [_ Hi]. exists (freshPartial i). split; [|done].
      by apply PartialPool_new_lookup.
    + intros (p & Hp & _). apply lookup_lt_Some in Hp.
      rewrite PartialPool_new_length in Hp. lia.
  - intros i p Hp. assert (i < n) as Hi.
    { apply lookup_lt_Some in Hp. by rewrite PartialPool_new_length in Hp. }
    rewrite PartialPool_new_lookup in Hp by done. by simplify_eq.
Qed.

Lemma PartialPool_new_counts (n : nat) :
  length (pool (PartialPool_new n)) = n /\ inUseCount (PartialPool_new n) = 0.
Proof.
  split; [apply PartialPool_new_length|]. unfold inUseCount. simpl.
  enough (forall k, length (List.filter inUse (map freshPartial (seq k n))) = 0) as H
    by apply H.
  induction n as [|n IH]; intros k; [reflexivity|]. apply IH.
Qed.

(** What [acquire] does on a well-formed pool. *)
Lemma acquire_exhausted (pp : PartialPool) :
  available pp = [] -> acquire pp = Returned (None, pp).
Proof. intros H. unfold acquire. by rewrite H. Qed.

Lemma acquire_free (pp : PartialPool) :
  pool_wf pp -> available pp <> [] ->
  exists idx rest p,
    available pp = rest ++ [idx] /\ pool pp !! idx = Some p /\ inUse p = false /\
    acquire pp =
      Returned (Some idx,
                mkPool (<[idx := withGain (setValue 0%Q (cancelScheduledValues 0%Q (gain p)))
                                   (withInUse true p)]> (pool pp)) rest).
Proof.
  intros Hwf Hne. unfold acquire.
  destruct (pop (available pp)) as [[idx rest]|] eqn:Hpop.
  - apply pop_Some in Hpop.
    destruct (proj1 (wf_free _ Hwf idx)) as (p & Hp & Hfree).
    { rewrite Hpop. apply elem_of_app. right. left. }
    exists idx, rest, p. rewrite Hp. done.
  - by apply pop_nil in Hpop.
Qed.

Lemma acquire_wf (pp pp' : PartialPool) (r : option nat) :
  pool_wf pp -> acquire pp = Returned (r, pp') -> pool_wf pp'.
Proof.
  intros Hwf Hacq. destruct (decide (available pp = [])) as [He|Hne].
  - rewrite acquire_exhausted in Hacq by done. by simplify_eq.
  - destruct (acquire_free pp Hwf Hne) as (idx & rest & p & Hav & Hp & Hfree & Heq).
    rewrite Heq in Hacq. simplify_eq. clear Heq.
    pose proof (wf_nodup _ Hwf) as Hnd. rewrite Hav in Hnd.
    apply NoDup_app in Hnd as (Hnd & Hdisj & _).
    pose proof (lookup_lt_Some _ _ _ Hp) as Hlt.
    split; simpl.
    + done.
    + intros i. destruct (decide (i = idx)) as [->|Hi].
      * rewrite list_lookup_insert_eq by done. split.
        -- intros Hin. exfalso. apply (Hdisj idx Hin). left.
        -- intros (q & [= <-] & Hq). done.
      * rewrite list_lookup_insert_ne by done.
        rewrite <- (wf_free _ Hwf i), Hav, elem_of_app, list_elem_of_singleton. tauto.
    + intros i q. destruct (decide (i = idx)) as [->|Hi].
      * rewrite list_lookup_insert_eq by done. intros [= <-]. simpl.
        by apply (wf_index _ Hwf).
      * rewrite list_lookup_insert_ne by done. apply (wf_index _ Hwf).
Qed.

Lemma release_free_noop (pp : PartialPool) (ref : nat) (p : Partial) :
  pool pp !! ref = Some p -> inUse p = false -> release (Some ref) pp = pp.
Proof. intros Hp Hf. unfold release. by rewrite Hp, Hf. Qed.

Lemma release_inUse (pp : PartialPool) (ref : nat) (p : Partial) :
  pool pp !! ref = Some p -> inUse p = true ->
  release (Some ref) pp =
    mkPool (<[ref := withConnected false
                       (withGain (setValue 0%Q (cancelScheduledValues 0%Q (gain p)))
                          (withInUse false p))]> (pool pp))
           (available pp ++ [index p]).
Proof. intros Hp Hu. unfold release. by rewrite Hp, Hu. Qed.

Lemma release_wf (pp : PartialPool) (r : option nat) :
  pool_wf pp -> pool_wf (release r pp).
Proof.
  intros Hwf. destruct r as [ref|]; [|done].
  destruct (pool pp !! ref) as [p|] eqn:Hp; [|by unfold release; rewrite Hp].
  destruct (inUse p) eqn:Hu; [|by erewrite release_free_noop].
  rewrite (release_inUse _ _ _ Hp Hu).
  pose proof (wf_index _ Hwf _ _ Hp) as Hidx. rewrite Hidx.
  pose proof (lookup_lt_Some _ _ _ Hp) as Hlt.
  assert (ref ∉ available pp) as Hnot.
  { intros Hin. apply (wf_free _ Hwf) in Hin as (q & Hq & Hqf). congruence. }
  split; simpl.
  - apply NoDup_app. split; [apply (wf_nodup _ Hwf)|]. split; [|apply NoDup_singleton].
    intros x Hx Hx'. apply list_elem_of_singleton in Hx' as ->. done.
  - intros i. destruct (decide (i = ref)) as [->|Hi].
    + rewrite list_lookup_insert_eq by done. split.
      * intros _. eexists. split; [done|]. done.
      * intros _. apply elem_of_app. right. left.
    + rewrite list_lookup_insert_ne by done.
      rewrite <- (wf_free _ Hwf i), elem_of_app, list_elem_of_singleton. tauto.
  - intros i q. destruct (decide (i = ref)) as [->|Hi].
    + rewrite list_lookup_insert_eq by done. by intros [= <-].
    + rewrite list_lookup_insert_ne by done. apply (wf_index _ Hwf).
Qed.

Lemma cancel_nothing_scheduled (t : Q) (g : AudioParam) :
  nothingScheduledFrom t (cancelScheduledValues t g).
Proof.
  unfold nothingScheduledFrom, cancelScheduledValues. simpl.
  apply Forall_forall. intros e He. apply list_elem_of_In, filter_In in He as [_ He].
  by apply Qltb_lt.
Qed.

Lemma PartialPool_new_inv (n : nat) : pool_inv n (PartialPool_new n).
Proof.
  destruct (PartialPool_new_counts n) as [Hlen Hcnt].
  split; [apply PartialPool_new_wf|]. split; [done|].
  rewrite Hcnt. change (available (PartialPool_new n)) with (seq 0 n).
  rewrite length_seq. lia.
Qed.

Lemma acquire_inv (n : nat) (pp pp' : PartialPool) (r : option nat) :
  pool_inv n pp -> acquire pp = Returned (r, pp') -> pool_inv n pp'.
Proof.
  intros (Hwf & Hlen & Hcnt) Hacq.
  split; [by eapply acquire_wf|].
  destruct (decide (available pp = [])) as [He|Hne].
  - rewrite acquire_exhausted in Hacq by done. by simplify_eq.
  - destruct (acquire_free pp Hwf Hne) as (idx & rest & p & Hav & Hp & Hfree & Heq).
    rewrite Heq in Hacq. simplify_eq. simpl. rewrite length_insert. split; [done|].
    unfold inUseCount in *. simpl.
    pose proof (count_insert inUse (pool pp) idx p
                  (withGain (setValue 0%Q (cancelScheduledValues 0%Q (gain p))) (withInUse true p)) Hp) as Hc.
    simpl in Hc. rewrite Hfree in Hc. rewrite Hav, length_app in Hcnt. simpl in Hcnt. lia.
Qed.

Lemma acquire_returns (pp : PartialPool) :
  pool_wf pp -> exists r pp', acquire pp = Returned (r, pp').
Proof.
  intros Hwf. destruct (decide (available pp = [])) as [He|Hne].
  - rewrite acquire_exhausted by done. eauto.
  - destruct (acquire_free pp Hwf Hne) as (idx & rest & p & _ & _ & _ & Heq).
    rewrite Heq. eauto.
Qed.

Lemma release_inv (n : nat) (pp : PartialPool) (r : option nat) :
  pool_inv n pp -> pool_inv n (release r pp).
Proof.
  intros (Hwf & Hlen & Hcnt). split; [by apply release_wf|].
  destruct r as [ref|]; [|done].
  destruct (pool pp !! ref) as [p|] eqn:Hp; [|by unfold release; rewrite Hp].
  destruct (inUse p) eqn:Hu; [|by erewrite release_free_noop].
  rewrite (release_inUse _ _ _ Hp Hu). simpl. rewrite length_insert. split; [done|].
  unfold inUseCount in *. simpl. rewrite length_app. simpl.
  pose proof (count_insert inUse (pool pp) ref p
                (withConnected false
                   (withGain (setValue 0%Q (cancelScheduledValues 0%Q (gain p)))
                      (withInUse false p))) Hp) as Hc.
  simpl in Hc. rewrite Hu in Hc. lia.
Qed.

Lemma runOps_inv (n : nat) (ops : list PoolOp) (pp : PartialPool) :
  pool_inv n pp -> exists pp', runOps ops pp = Returned pp' /\ pool_inv n pp'.
Proof.
  revert pp. induction ops as [|op ops IH]; intros pp Hinv; simpl.
  - eauto.
  - destruct op as [|r]; simpl.
    + destruct (acquire_returns pp (proj1 Hinv)) as (r & pp' & Hacq).
      rewrite Hacq. simpl. apply IH. by eapply acquire_inv.
    + apply IH. by apply release_inv.
Qed.

Lemma pool_inv_free_count (n : nat) (pp : PartialPool) :
  pool_inv n pp -> length (available pp) = freeCount pp.
Proof.
  intros (_ & Hlen & Hcnt). pose proof (inUse_free_count pp). lia.
Qed.

Lemma pool_inv_indices (n : nat) (pp : PartialPool) :
  pool_inv n pp -> map index (pool pp) = seq 0 n.
Proof.
  intros (Hwf & Hlen & _). apply list_eq. intros i.
  rewrite list_lookup_fmap. destruct (pool pp !! i) as [p|] eqn:Hp; simpl.
  - rewrite (wf_index _ Hwf _ _ Hp). symmetry. apply lookup_seq_lt.
    apply lookup_lt_Some in Hp. lia.
  - symmetry. apply lookup_seq_ge. apply lookup_ge_None in Hp. lia.
Qed.

(** C1.  Starting from a freshly built pool of [capacity] partials, after
    every operation of every sequence of [acquire] and [release] calls the
    free stack and the in-use partials add up to the capacity, the free
    stack counts exactly the partials that are not in use, and the pool
    array still holds the same [capacity] partials, each at its own slot. *)
Theorem pool_invariant (capacity : nat) (ops : list PoolOp) (k : nat) :
  exists pp,
    runOps (take k ops) (PartialPool_new capacity) = Returned pp /\
    length (available pp) + inUseCount pp = capacity /\
    length (available pp) = freeCount pp /\
    length (pool pp) = capacity /\
    map index (pool pp) = seq 0 capacity.
Proof.
  destruct (runOps_inv capacity (take k ops) _ (PartialPool_new_inv capacity))
    as (pp & Hrun & Hinv).
  exists pp. split; [done|]. split; [apply Hinv|].
  split; [by eapply pool_inv_free_count|]. split; [apply Hinv|].
  by eapply pool_inv_indices.
Qed.

Lemma inv_acquireContract (capacity : nat) (pp : PartialPool) :
  pool_inv capacity pp -> acquireContract capacity pp.
Proof.
  intros Hinv. split; [destruct Hinv as (_ & _ & ?); lia|].
  destruct (last (available pp)) as [idx|] eqn:Hlast.
  - assert (available pp <> []) as Hne by (intros E; by rewrite E in Hlast).
    destruct (acquire_free pp (proj1 Hinv) Hne) as (idx' & rest & p & Hav & Hp & Hfree & Heq).
    rewrite Hav, last_snoc in Hlast. simplify_eq.
    pose proof (acquire_inv _ _ _ _ Hinv Heq) as (_ & _ & Hcnt').
    destruct Hinv as (_ & _ & Hcnt).
    eexists _, _. split; [exact Heq|]. simpl in *.
    rewrite list_lookup_insert_eq by (by eapply lookup_lt_Some).
    split; [done|]. split; [done|]. split; [done|].
    split; [apply cancel_nothing_scheduled|].
    split; [by rewrite Hav, removelast_last|].
    rewrite Hav, length_app in Hcnt. simpl in *. lia.
  - apply acquire_exhausted. by apply last_None.
Qed.

(** C6.  [release] is idempotent.  On a partial that is already free, and
    on a falsy argument, it returns the pool unchanged; a second release
    of the same partial therefore changes nothing.  On a partial in use it
    sets the gain value to 0 with nothing left scheduled, clears [inUse]
    and pushes the partial's index on the free stack.  The representation
    invariant of the pool survives every release. *)
Theorem release_idempotent (pp : PartialPool) (r : option nat) :
  release r (release r pp) = release r pp /\
  (forall ref p, r = Some ref -> pool pp !! ref = Some p -> inUse p = false ->
                 release r pp = pp) /\
  (forall ref p, r = Some ref -> pool pp !! ref = Some p -> inUse p = true ->
     exists p',
       pool (release r pp) !! ref = Some p' /\
       inUse p' = false /\
       value (gain p') = 0%Q /\
       nothingScheduledFrom 0%Q (gain p') /\
       available (release r pp) = available pp ++ [index p]) /\
  (pool_wf pp -> pool_wf (release r pp)).
Proof.
  split; [|split; [|split]].
  - destruct r as [ref|]; [|done].
    destruct (pool pp !! ref) as [p|] eqn:Hp; [|by unfold release; rewrite !Hp].
    destruct (inUse p) eqn:Hu.
    + rewrite (release_inUse _ _ _ Hp Hu). eapply release_free_noop; simpl.
      * apply list_lookup_insert_eq. by eapply lookup_lt_Some.
      * done.
    + by rewrite !(release_free_noop _ _ _ Hp Hu).
  - intros ref p -> Hp Hf. by eapply release_free_noop.
  - intros ref p -> Hp Hu. rewrite (release_inUse _ _ _ Hp Hu). simpl.
    eexists. split; [apply list_lookup_insert_eq; by eapply lookup_lt_Some|].
    simpl. split; [done|]. split; [done|]. split; [apply cancel_nothing_scheduled|done].
  - apply release_wf.
Qed.

(** ** What the engine may change in the pool

    Apart from [acquire] and [release], the engine only writes the
    frequency, the gain param and the wiring of a partial.  The shape of a
    pool is what the allocation invariant depends on: the free stack and,
    per slot, the index and the in-use flag. *)

Lemma shape_lookup (pp pp' : PartialPool) (i : nat) (p' : Partial) :
  poolShape pp = poolShape pp' -> pool pp' !! i = Some p' ->
  exists p, pool pp !! i = Some p /\ index p = index p' /\ inUse p = inUse p'.
Proof.
  intros [= _ Hmap] Hp'.
  assert (map (fun p => (index p, inUse p)) (pool pp) !! i = Some (index p', inUse p')) as H.
  { rewrite Hmap. change map with (@fmap list _). by rewrite list_lookup_fmap, Hp'. }
  change map with (@fmap list _) in H. rewrite list_lookup_fmap in H.
  destruct (pool pp !! i) as [p|]; simplify_eq/=. eauto.
Qed.

Lemma shape_count (pp pp' : PartialPool) :
  poolShape pp = poolShape pp' -> inUseCount pp = inUseCount pp'.
Proof.
  intros [= _ Hmap]. unfold inUseCount.
  revert Hmap. generalize (pool pp') as l'. induction (pool pp) as [|p l IH];
    intros [|p' l'] Hmap; try discriminate; [done|].
  injection Hmap as _ Hu Hmap. simpl. rewrite Hu.
  destruct (inUse p'); simpl; by rewrite (IH l' Hmap).
Qed.

Lemma shape_available (pp pp' : PartialPool) :
  poolShape pp = poolShape pp' -> available pp = available pp'.
Proof. intros H. exact (f_equal fst H). Qed.

Lemma shape_length (pp pp' : PartialPool) :
  poolShape pp = poolShape pp' -> length (pool pp) = length (pool pp').
Proof.
  intros [= _ Hmap]. apply (f_equal length) in Hmap. by rewrite !length_map in Hmap.
Qed.

Lemma shape_wf (pp pp' : PartialPool) :
  poolShape pp = poolShape pp' -> pool_wf pp -> pool_wf pp'.
Proof.
  intros Hs Hwf. pose proof Hs as [= Hav _]. split.
  - rewrite <- Hav. apply Hwf.
  - intros i. rewrite <- Hav, (wf_free _ Hwf i). split.
    + intros (p & Hp & Hf).
      destruct (shape_lookup pp' pp i p (eq_sym Hs) Hp) as (p' & Hp' & _ & Hu).
      exists p'. split; [done|]. congruence.
    + intros (p' & Hp' & Hf).
      destruct (shape_lookup pp pp' i p' Hs Hp') as (p & Hp & _ & Hu).
      exists p. split; [done|]. congruence.
  - intros i p' Hp'.
    destruct (shape_lookup pp pp' i p' Hs Hp') as (p & Hp & Hi & _).
    rewrite <- Hi. by apply (wf_index _ Hwf).
Qed.

Lemma shape_inv (n : nat) (pp pp' : PartialPool) :
  poolShape pp = poolShape pp' -> pool_inv n pp -> pool_inv n pp'.
Proof.
  intros Hs (Hwf & Hlen & Hcnt). split; [by eapply shape_wf|].
  rewrite <- (shape_length _ _ Hs), <- (shape_count _ _ Hs).
  pose proof Hs as [= <- _]. done.
Qed.

Lemma updatePartial_shape (ref : nat) (f : Partial -> Partial) (s : AdditiveSynth) :
  keepsSlot f ->
  poolShape (partialPool (updatePartial ref f s)) = poolShape (partialPool s).
Proof.
  intros Hf. unfold poolShape. simpl. f_equal.
  change map with (@fmap list _).
  rewrite (list_fmap_alter _ f id).
  - by apply list_alter_id.
  - apply Forall_forall. intros p _. destruct (Hf p). simpl. by f_equal.
Qed.

Lemma updateGainParam_shape (ref : nat) (f : AudioParam -> AudioParam) (s : AdditiveSynth) :
  poolShape (partialPool (updateGainParam ref f s)) = poolShape (partialPool s).
Proof. by apply updatePartial_shape. Qed.

Lemma fold_left_preserves {S X : Type} (P : S -> Prop) (f : S -> X -> S) (l : list X) (s : S) :
  (forall s x, P s -> P (f s x)) -> P s -> P (fold_left f l s).
Proof. intros Hf. revert s. induction l as [|x l IH]; simpl; eauto. Qed.

Lemma cancelPendingCleanup_pool (noteId : nat) (s : AdditiveSynth) :
  partialPool (cancelPendingCleanup noteId s) = partialPool s.
Proof. unfold cancelPendingCleanup. by destruct (Map_get _ _). Qed.

Lemma releasePartial_shape (now safe : Q) (s : AdditiveSynth) (ref : nat) :
  poolShape (partialPool (releasePartial now safe s ref)) = poolShape (partialPool s).
Proof. apply updateGainParam_shape. Qed.

Lemma setTimeout_pool (a : TimerAction) (d : Q) (s : AdditiveSynth) :
  partialPool (snd (setTimeout a d s)) = partialPool s.
Proof. reflexivity. Qed.

Lemma cleanupPartial_shape (now : Q) (s : AdditiveSynth) (ref : nat) :
  poolShape (partialPool (cleanupPartial now s ref)) = poolShape (partialPool s).
Proof.
  unfold cleanupPartial. rewrite setTimeout_pool.
  destruct (Qltb _ _); by rewrite !updateGainParam_shape.
Qed.

Lemma fold_shape {X : Type} (f : AdditiveSynth -> X -> AdditiveSynth) (l : list X)
    (s : AdditiveSynth) :
  (forall s x, poolShape (partialPool (f s x)) = poolShape (partialPool s)) ->
  poolShape (partialPool (fold_left f l s)) = poolShape (partialPool s).
Proof.
  intros Hf.
  apply (fold_left_preserves
           (fun s' => poolShape (partialPool s') = poolShape (partialPool s))); [|done].
  intros s' x Hs'. by rewrite Hf.
Qed.

Lemma cleanupNote_shape (noteId : nat) (s : AdditiveSynth) :
  poolShape (partialPool (cleanupNote noteId s)) = poolShape (partialPool s).
Proof.
  unfold cleanupNote. destruct (Map_get noteId (activeNotes s)) as [note|]; [|done].
  cbv zeta. match goal with |- poolShape (partialPool (withNotes _ ?x)) = _ =>
    change (poolShape (partialPool x) = poolShape (partialPool s)) end.
  transitivity (poolShape (partialPool
     (fold_left (cleanupPartial (currentTime (cancelPendingCleanup noteId s)))
        (partials note) (cancelPendingCleanup noteId s)))).
  - destruct (gainNodes _ !! gainNode note) as [g|]; [|done].
    by destruct (Qltb _ _).
  - rewrite fold_shape by apply cleanupPartial_shape.
    by rewrite cancelPendingCleanup_pool.
Qed.

Lemma noteOff_shape (noteId : nat) (releaseTime : Q) (immediate : bool) (s : AdditiveSynth) :
  poolShape (partialPool (noteOff noteId releaseTime immediate s)) = poolShape (partialPool s).
Proof.
  unfold noteOff. destruct (Map_get noteId (activeNotes s)) as [note|]; [|done].
  cbv zeta.
  set (s1 := fold_left _ (partials note) (cancelPendingCleanup noteId s)).
  assert (poolShape (partialPool s1) = poolShape (partialPool s)) as H1.
  { unfold s1. rewrite fold_shape by (intros; apply releasePartial_shape).
    by rewrite cancelPendingCleanup_pool. }
  set (s2 := if Qltb _ _ then _ else s1).
  assert (poolShape (partialPool s2) = poolShape (partialPool s)) as H2.
  { unfold s2. by destruct (Qltb _ _). }
  destruct immediate; [by rewrite cleanupNote_shape|done].
Qed.

Lemma steal_shape (s : AdditiveSynth) :
  poolShape (partialPool (snd (stealVoiceFromQuietestSustainedNote s)))
  = poolShape (partialPool s).
Proof.
  unfold stealVoiceFromQuietestSustainedNote.
  destruct (quietestSustainedNote s) as [id|]; [|done].
  destruct (Map_get id (activeNotes s)); [|done]. apply noteOff_shape.
Qed.

Lemma configurePartial_shape (config : PartialConfig) (vel : Z) (now : Q) (ref : nat)
    (s : AdditiveSynth) :
  poolShape (partialPool (configurePartial config vel now ref s)) = poolShape (partialPool s).
Proof. by apply updatePartial_shape. Qed.

(** ** The acquisition loop of [noteOn] *)

Lemma inUseKept_refl (pp : PartialPool) : inUseKept pp pp.
Proof. intros i p Hp Hu. eauto. Qed.

Lemma inUseKept_trans (a b c : PartialPool) :
  inUseKept a b -> inUseKept b c -> inUseKept a c.
Proof.
  intros Hab Hbc i p Hp Hu. destruct (Hab i p Hp Hu) as (q & Hq & Hqu). eauto.
Qed.

Lemma inUseKept_shape (pp pp' : PartialPool) :
  poolShape pp = poolShape pp' -> inUseKept pp pp'.
Proof.
  intros Hs i p Hp Hu.
  destruct (shape_lookup pp' pp i p (eq_sym Hs) Hp) as (p' & Hp' & _ & Hu').
  exists p'. split; [done|]. congruence.
Qed.

Lemma withPool_same (s : AdditiveSynth) : withPool (partialPool s) s = s.
Proof. by destruct s. Qed.

Lemma poolAcquire_exhausted (s : AdditiveSynth) :
  available (partialPool s) = [] -> poolAcquire s = Returned (None, s).
Proof.
  intros H. unfold poolAcquire. rewrite acquire_exhausted by done.
  simpl. by rewrite withPool_same.
Qed.

Lemma poolAcquire_free (n : nat) (s : AdditiveSynth) (rest : list nat) (idx : nat) :
  pool_inv n (partialPool s) -> available (partialPool s) = rest ++ [idx] ->
  exists pp',
    poolAcquire s = Returned (Some idx, withPool pp' s) /\
    pool_inv n pp' /\ available pp' = rest /\
    inUseKept (partialPool s) pp' /\
    (exists p', pool pp' !! idx = Some p' /\ inUse p' = true).
Proof.
  intros Hinv Hav.
  assert (available (partialPool s) <> []) as Hne by (rewrite Hav; by destruct rest).
  destruct (acquire_free _ (proj1 Hinv) Hne) as (idx' & rest' & p & Hav' & Hp & Hfree & Heq).
  rewrite Hav in Hav'. apply app_inj_tail in Hav' as [<- <-].
  eexists. unfold poolAcquire. rewrite Heq. simpl. split; [done|].
  split; [by eapply acquire_inv|]. split; [done|].
  pose proof (lookup_lt_Some _ _ _ Hp) as Hlt. split.
  - intros i q Hq Hu. simpl. destruct (decide (i = idx)) as [->|Hi].
    + rewrite list_lookup_insert_eq by done. eauto.
    + rewrite list_lookup_insert_ne by done. eauto.
  - simpl. rewrite list_lookup_insert_eq by done. eauto.
Qed.

(** The loop pops partials off the free stack, one per config, until the
    configs or the free partials run out; a steal attempt frees nothing
    within the call, so the loop stops at the first failed acquisition. *)
Lemma acquireLoop_spec (n : nat) (configs : list PartialConfig) (vel : Z) (now : Q) :
  forall (s : AdditiveSynth) (acquired : list nat) (amps : list (Z * Q)),
  pool_inv n (partialPool s) ->
  exists s' popped,
    acquireLoop configs vel now s acquired amps
    = Returned (s', acquired ++ popped,
                amps ++ map harmonicInfo (take (length popped) (withinRange configs))) /\
    length popped = min (length (withinRange configs)) (length (available (partialPool s))) /\
    available (partialPool s) = available (partialPool s') ++ rev popped /\
    pool_inv n (partialPool s') /\
    inUseKept (partialPool s) (partialPool s') /\
    Forall (fun ref => exists p, pool (partialPool s') !! ref = Some p /\ inUse p = true) popped.
Proof.
  induction configs as [|config configs IH]; intros s acquired amps Hinv.
  - exists s, []. simpl. rewrite !app_nil_r. split; [done|]. split; [done|].
    split; [done|]. split; [done|]. split; [apply inUseKept_refl|done].
  - simpl. destruct (Qltb 24000 (freq config)) eqn:Hf; simpl; [by apply IH|].
    destruct (available (partialPool s)) as [|idx rest _] eqn:Hav using rev_ind.
    + rewrite poolAcquire_exhausted by done. simpl.
      pose proof (steal_shape s) as Hshape.
      destruct (stealVoiceFromQuietestSustainedNote s) as [stolen s2]. simpl in Hshape.
      assert (available (partialPool s2) = []) as Hav2.
      { by rewrite (shape_available _ _ Hshape). }
      assert (exists s', (match stolen with
                          | Some _ =>
                              '(partial, s0) ← poolAcquire s2;
                              match partial with
                              | Some p =>
                                  acquireLoop configs vel now (configurePartial config vel now p s0)
                                    (acquired ++ [p]) (amps ++ [(harmonicNum config, amp config)])
                              | None => Returned (s0, acquired, amps)
                              end
                          | None => Returned (s2, acquired, amps)
                          end) = Returned (s', acquired, amps)
                         /\ partialPool s' = partialPool s2) as (s' & -> & Hs').
      { destruct stolen; [|eauto]. rewrite poolAcquire_exhausted by done. simpl. eauto. }
      exists s', []. simpl. rewrite ?app_nil_r.
      rewrite Hs', Hav2. split; [done|]. split; [simpl; lia|].
      split; [done|]. split; [by eapply shape_inv|].
      split; [by apply inUseKept_shape|done].
    + destruct (poolAcquire_free n s rest idx Hinv Hav)
        as (pp' & Hacq & Hinv' & Hav' & Hkept & Hidx).
      rewrite Hacq. simpl.
      set (s1 := configurePartial config vel now idx (withPool pp' s)).
      assert (poolShape (partialPool s1) = poolShape pp') as Hs1
        by apply configurePartial_shape.
      assert (pool_inv n (partialPool s1)) as Hinv1 by (by eapply shape_inv).
      destruct (IH s1 (acquired ++ [idx]) (amps ++ [(harmonicNum config, amp config)]) Hinv1)
        as (s' & popped & Hloop & Hlen & Havs & Hinvs & Hkepts & Hall).
      assert (available (partialPool s1) = rest) as Hav1.
      { by rewrite (shape_available _ _ Hs1). }
      exists s', (idx :: popped). rewrite Hloop. simpl. rewrite <- !app_assoc. simpl.
      split; [done|]. rewrite Hav1 in Hlen, Havs. rewrite length_app. simpl.
      split; [rewrite Nat.add_1_r; lia|].
      split; [by rewrite app_assoc, <- Havs|]. split; [done|].
      assert (inUseKept pp' (partialPool s')) as Hk2.
      { eapply inUseKept_trans; [|exact Hkepts]. by apply inUseKept_shape. }
      split; [by eapply inUseKept_trans|].
      constructor; [|done]. destruct Hidx as (p' & Hp' & Hu'). by apply (Hk2 idx p').
Qed.

(** ** The voice table *)

Lemma Map_get_set_eq {V : Type} (k : nat) (v : V) (m : list (nat * V)) :
  Map_get k (Map_set k v m) = Some v.
Proof.
  induction m as [|[k' v'] m IH]; simpl.
  - by rewrite Nat.eqb_refl.
  - destruct (k =? k') eqn:E; simpl; by rewrite ?Nat.eqb_refl, ?E.
Qed.

Lemma Map_get_set_ne {V : Type} (k j : nat) (v : V) (m : list (nat * V)) :
  k <> j -> Map_get j (Map_set k v m) = Map_get j m.
Proof.
  intros Hne. induction m as [|[k' v'] m IH]; simpl.
  - by rewrite (proj2 (Nat.eqb_neq j k)) by done.
  - destruct (k =? k') eqn:E; simpl.
    + apply Nat.eqb_eq in E as <-. by rewrite (proj2 (Nat.eqb_neq j k)) by done.
    + by rewrite IH.
Qed.

Lemma Map_set_length {V : Type} (k : nat) (v : V) (m : list (nat * V)) :
  length (Map_set k v m) = if Map_has k m then length m else S (length m).
Proof.
  unfold Map_has. induction m as [|[k' v'] m IH]; simpl; [done|].
  destruct (k =? k'); simpl; [done|]. rewrite IH. by destruct (Map_get k m).
Qed.

Lemma Map_get_delete_eq {V : Type} (k : nat) (m : list (nat * V)) :
  Map_get k (Map_delete k m) = None.
Proof.
  unfold Map_delete. induction m as [|[k' v'] m IH]; simpl; [done|].
  destruct (k =? k') eqn:E; simpl; [done|]. by rewrite E.
Qed.

Lemma Map_get_elem {V : Type} (k : nat) (v : V) (m : list (nat * V)) :
  Map_get k m = Some v -> (k, v) ∈ m.
Proof.
  induction m as [|[k' v'] m IH]; simpl; [done|].
  destruct (k =? k') eqn:E.
  - apply Nat.eqb_eq in E as <-. intros [= ->]. left.
  - intros H. right. by apply IH.
Qed.

Lemma sameVoices_refl (s : AdditiveSynth) : sameVoices s s.
Proof. by repeat split. Qed.

Lemma sameVoices_trans (a b c : AdditiveSynth) :
  sameVoices a b -> sameVoices b c -> sameVoices a c.
Proof.
  intros (H1 & H2 & H3 & H4) (H5 & H6 & H7 & H8).
  repeat split; congruence.
Qed.

Lemma fold_sameVoices {X : Type} (f : AdditiveSynth -> X -> AdditiveSynth) (l : list X)
    (s : AdditiveSynth) :
  (forall s x, sameVoices s (f s x)) -> sameVoices s (fold_left f l s).
Proof.
  intros Hf. apply (fold_left_preserves (sameVoices s)); [|apply sameVoices_refl].
  intros s' x Hs'. eapply sameVoices_trans; [exact Hs'|apply Hf].
Qed.

Lemma updatePartial_sameVoices (ref : nat) (f : Partial -> Partial) (s : AdditiveSynth) :
  sameVoices s (updatePartial ref f s).
Proof. by repeat split. Qed.

Lemma updateNoteGain_sameVoices (node : nat) (f : GainNode -> GainNode) (s : AdditiveSynth) :
  sameVoices s (updateNoteGain node f s).
Proof. repeat split. simpl. by rewrite length_alter. Qed.

Lemma cancelPendingCleanup_sameVoices (noteId : nat) (s : AdditiveSynth) :
  sameVoices s (cancelPendingCleanup noteId s).
Proof. unfold cancelPendingCleanup. destruct (Map_get _ _); by repeat split. Qed.

Lemma releasePartial_sameVoices (now safe : Q) (s : AdditiveSynth) (ref : nat) :
  sameVoices s (releasePartial now safe s ref).
Proof. apply updatePartial_sameVoices. Qed.

Lemma cleanupPartial_sameVoices (now : Q) (s : AdditiveSynth) (ref : nat) :
  sameVoices s (cleanupPartial now s ref).
Proof. unfold cleanupPartial. destruct (Qltb _ _); by repeat split. Qed.

(** A release without immediate cleanup leaves the voice table alone. *)
Lemma noteOff_deferred_sameVoices (noteId : nat) (releaseTime : Q) (s : AdditiveSynth) :
  sameVoices s (noteOff noteId releaseTime false s).
Proof.
  unfold noteOff. destruct (Map_get noteId (activeNotes s)) as [note|];
    [|apply sameVoices_refl].
  cbv zeta.
  set (s1 := fold_left _ (partials note) (cancelPendingCleanup noteId s)).
  assert (sameVoices s s1) as H1.
  { eapply sameVoices_trans; [apply cancelPendingCleanup_sameVoices|].
    apply fold_sameVoices. intros. apply releasePartial_sameVoices. }
  set (s2 := if Qltb _ _ then _ else s1).
  assert (sameVoices s s2) as H2.
  { unfold s2. destruct (Qltb _ _); [|done].
    eapply sameVoices_trans; [exact H1|apply updateNoteGain_sameVoices]. }
  eapply sameVoices_trans; [exact H2|]. by repeat split.
Qed.

Lemma steal_sameVoices (s : AdditiveSynth) :
  sameVoices s (snd (stealVoiceFromQuietestSustainedNote s)).
Proof.
  unfold stealVoiceFromQuietestSustainedNote.
  destruct (quietestSustainedNote s) as [id|]; [|apply sameVoices_refl].
  destruct (Map_get id (activeNotes s)); [|apply sameVoices_refl].
  apply noteOff_deferred_sameVoices.
Qed.

Lemma poolAcquire_sameVoices (s s' : AdditiveSynth) (r : option nat) :
  poolAcquire s = Returned (r, s') -> sameVoices s s'.
Proof.
  unfold poolAcquire. destruct (acquire (partialPool s)) as [[r' pp]|]; simpl; [|done].
  intros [= _ <-]. by repeat split.
Qed.

Lemma acquireLoop_sameVoices (configs : list PartialConfig) (vel : Z) (now : Q) :
  forall s acquired amps s' acquired' amps',
  acquireLoop configs vel now s acquired amps = Returned (s', acquired', amps') ->
  sameVoices s s'.
Proof.
  induction configs as [|config configs IH]; intros s acquired amps s' acquired' amps'; simpl.
  - intros [= <- _ _]. apply sameVoices_refl.
  - destruct (Qltb 24000 (freq config)); [apply IH|].
    destruct (poolAcquire s) as [[[p|] s1]|] eqn:Hacq; simpl; [| |done].
    + intros Hloop. apply IH in Hloop.
      eapply sameVoices_trans; [by eapply poolAcquire_sameVoices|].
      eapply sameVoices_trans; [|exact Hloop]. apply updatePartial_sameVoices.
    + pose proof (steal_sameVoices s1) as Hst.
      destruct (stealVoiceFromQuietestSustainedNote s1) as [stolen s2]. simpl in Hst.
      assert (sameVoices s s2) as Hs2.
      { eapply sameVoices_trans; [by eapply poolAcquire_sameVoices|done]. }
      destruct stolen; [|by intros [= <- _ _]].
      destruct (poolAcquire s2) as [[[p|] s3]|] eqn:Hacq2; simpl; [| |done].
      * intros Hloop. apply IH in Hloop.
        eapply sameVoices_trans; [exact Hs2|].
        eapply sameVoices_trans; [by eapply poolAcquire_sameVoices|].
        eapply sameVoices_trans; [|exact Hloop]. apply updatePartial_sameVoices.
      * intros [= <- _ _]. eapply sameVoices_trans; [exact Hs2|].
        by eapply poolAcquire_sameVoices.
Qed.

(** ** noteOn *)

Section NoteOn.

Variable model : AcousticModel.

(** What a call of [noteOn] does: it allocates the note's gain node,
    pops one partial per requested config while the free stack lasts, and
    stores the voice under the note id, replacing any entry already there.
    Nothing is released on the way. *)
Lemma noteOn_spec (n noteId : nat) (freq0 : Q) (vel : Z) (kd pd : bool) (s : AdditiveSynth) :
  pool_inv n (partialPool s) ->
  exists s1 popped,
    let cfgs := withinRange (requestedConfigs model freq0 vel s) in
    let now := currentTime s in
    let h := length (gainNodes s) in
    noteOn model noteId freq0 vel kd pd s
    = Returned (h, withNotes
                     (Map_set noteId
                        (mkNote popped h freq0 vel now kd pd
                                (map harmonicInfo (take (length popped) cfgs)) now)
                        (activeNotes s)) s1) /\
    length popped = min (length cfgs) (length (available (partialPool s))) /\
    available (partialPool s) = available (partialPool s1) ++ rev popped /\
    pool_inv n (partialPool s1) /\
    inUseKept (partialPool s) (partialPool s1) /\
    Forall (fun ref => exists p, pool (partialPool s1) !! ref = Some p /\ inUse p = true) popped.
Proof.
  intros Hinv. unfold noteOn.
  set (s0 := withGainNodes _ s).
  destruct (acquireLoop_spec n (requestedConfigs model freq0 vel s) vel (currentTime s0)
              s0 [] [] Hinv) as (s1 & popped & Hloop & Hlen & Hav & Hinv1 & Hkept & Hall).
  pose proof (acquireLoop_sameVoices _ _ _ _ _ _ _ _ _ Hloop) as (Hnotes & Htime & _).
  exists s1, popped. cbv zeta. rewrite Hloop. simpl.
  rewrite Hnotes. done.
Qed.

Lemma inv_inUseCount (n : nat) (pp : PartialPool) :
  pool_inv n pp -> inUseCount pp = n - length (available pp).
Proof. intros (_ & _ & H). lia. Qed.

Lemma inv_available_le (n : nat) (pp : PartialPool) :
  pool_inv n pp -> length (available pp) <= n.
Proof. intros (_ & _ & H). lia. Qed.

End NoteOn.

(** ** Scenarios *)

(** C3.  Pool of capacity 4, two pedal-sustained voices with two partials
    each, a third [noteOn] asking for two partials.  The scan picks voice
    1, the lowest score, and [noteOff] is applied to it without immediate
    cleanup: its partials stay in use, the retried [acquire] returns null,
    and the third voice is stored with no partial at all.  The stolen
    voice is still in the table; only a cleanup timer due 150 ms later
    has been queued.  The same on the pool of 128 built by the
    constructor: after twelve pedal-sustained notes three partials are
    free, the thirteenth note selects six configs, steals from voice 1
    and is stored with three partials. *)
Theorem steal_retry_acquires_nothing :
  exists s s' h,
    twoSustainedVoices = Returned s /\
    voiceSummary s = [(1, [3; 2], false); (2, [1; 0], false)] /\
    available (partialPool s) = [] /\
    length (requestedConfigs (flatModel twoPartials) 440 100 s) = 2 /\
    quietestSustainedNote s = Some 1 /\
    noteOn (flatModel twoPartials) 3 440 100 true false s = Returned (h, s') /\
    voiceSummary s' = [(1, [3; 2], false); (2, [1; 0], false); (3, [], true)] /\
    map inUse (pool (partialPool s')) = [true; true; true; true] /\
    available (partialPool s') = [] /\
    timerSummary s' = [(0, 2150%Z, ReleaseTimeout 1)] /\
    exists t t' h' note,
      strike false true 12 AdditiveSynth_new = Returned t /\
      length (available (partialPool t)) = 3 /\
      length (requestedConfigs (flatModel twelvePartials) 440 100 t) = 6 /\
      quietestSustainedNote t = Some 1 /\
      noteOn (flatModel twelvePartials) 13 440 100 true false t = Returned (h', t') /\
      Map_get 13 (activeNotes t') = Some note /\
      length (partials note) = 3 /\
      inUseCount (partialPool t') = 128 /\
      timerSummary t' = [(0, 150%Z, ReleaseTimeout 1)].
Proof.
  eexists _, _, _. split; [vm_compute; reflexivity|].
  do 9 (split; [vm_compute; reflexivity|]).
  eexists _, _, _, _. split; [vm_compute; reflexivity|].
  do 3 (split; [vm_compute; reflexivity|]).
  split; [vm_compute; reflexivity|].
  repeat split; vm_compute; reflexivity.
Qed.

(** C2, as stated, fails: striking note 1 twice on a fresh pool of
    capacity 4 leaves four partials in use although the voice stored under
    the id holds two, and no timer is queued that would release the other
    two. *)
Lemma same_id_second_noteOn_leaks :
  exists s,
    struckTwice = Returned s /\
    voiceSummary s = [(1, [1; 0], true)] /\
    getActivePartialCount s = 2 /\
    inUseCount (partialPool s) = 4 /\
    inUseCount (partialPool s) <> getActivePartialCount s /\
    timers s = [].
Proof.
  eexists. split; [vm_compute; reflexivity|].
  repeat split; try (vm_compute; reflexivity). vm_compute. discriminate.
Qed.

(** C2, amended.  [noteOn] on an id that is already active replaces the
    entry of the voice table and releases nothing: after two calls with
    the same id the table still has one entry for the id, holding the
    second call's partials, every partial that was in use stays in use,
    and the pool's in-use count has grown by the partial counts of both
    calls. *)
Theorem noteOn_same_id_keeps_prior_partials (model : AcousticModel) (n noteId : nat)
    (f1 f2 : Q) (v1 v2 : Z) (kd1 pd1 kd2 pd2 : bool) (s : AdditiveSynth) :
  pool_inv n (partialPool s) ->
  exists h1 s1 note1 h2 s2 note2,
    noteOn model noteId f1 v1 kd1 pd1 s = Returned (h1, s1) /\
    Map_get noteId (activeNotes s1) = Some note1 /\
    noteOn model noteId f2 v2 kd2 pd2 s1 = Returned (h2, s2) /\
    Map_get noteId (activeNotes s2) = Some note2 /\
    length (activeNotes s2) = length (activeNotes s1) /\
    inUseKept (partialPool s) (partialPool s2) /\
    Forall (fun ref => exists p, pool (partialPool s2) !! ref = Some p /\ inUse p = true)
           (partials note1 ++ partials note2) /\
    inUseCount (partialPool s2)
    = inUseCount (partialPool s) + length (partials note1) + length (partials note2).
Proof.
  intros Hinv.
  destruct (noteOn_spec model n noteId f1 v1 kd1 pd1 s Hinv)
    as (t1 & popped1 & Hon1 & _ & Hav1 & Hinv1 & Hkept1 & Hall1).
  cbv zeta in Hon1.
  set (s1 := withNotes _ t1) in Hon1.
  assert (pool_inv n (partialPool s1)) as Hinv1' by done.
  destruct (noteOn_spec model n noteId f2 v2 kd2 pd2 s1 Hinv1')
    as (t2 & popped2 & Hon2 & _ & Hav2 & Hinv2 & Hkept2 & Hall2).
  cbv zeta in Hon2.
  set (s2 := withNotes _ t2) in Hon2.
  eexists _, s1, _, _, s2, _.
  split; [exact Hon1|]. split; [apply Map_get_set_eq|].
  split; [exact Hon2|]. split; [apply Map_get_set_eq|].
  split.
  { simpl. rewrite Map_set_length. unfold Map_has. by rewrite Map_get_set_eq. }
  split; [by eapply inUseKept_trans|].
  split.
  { simpl. apply Forall_app. split; [|done].
    eapply Forall_impl; [exact Hall1|]. intros ref (p & Hp & Hu). by apply (Hkept2 ref p). }
  simpl. rewrite (inv_inUseCount n _ Hinv), (inv_inUseCount n _ Hinv2).
  pose proof (inv_available_le n _ Hinv) as Hle.
  change (partialPool s1) with (partialPool t1) in Hav2.
  rewrite Hav1, Hav2, !length_app, !length_rev in *. lia.
Qed.

Lemma noteOn_same_id_keeps_prior_partials_witness :
  exists h1 s1 note1 h2 s2 note2,
    noteOn (flatModel twoPartials) 1 440 100 true false (synthWithPool 4) = Returned (h1, s1) /\
    Map_get 1 (activeNotes s1) = Some note1 /\
    noteOn (flatModel twoPartials) 1 440 100 true false s1 = Returned (h2, s2) /\
    Map_get 1 (activeNotes s2) = Some note2 /\
    length (activeNotes s2) = length (activeNotes s1) /\
    inUseKept (partialPool (synthWithPool 4)) (partialPool s2) /\
    Forall (fun ref => exists p, pool (partialPool s2) !! ref = Some p /\ inUse p = true)
           (partials note1 ++ partials note2) /\
    inUseCount (partialPool s2)
    = inUseCount (partialPool (synthWithPool 4)) + length (partials note1)
      + length (partials note2).
Proof.
  apply (noteOn_same_id_keeps_prior_partials (flatModel twoPartials) 4 1 440 440 100 100
           true false true false (synthWithPool 4)).
  apply PartialPool_new_inv.
Defined.

(** ** A voice without partials *)

Lemma scanQuietest_none (s : AdditiveSynth) (notes : list (nat * Note))
    (q : option nat) (v : option Q) :
  Forall (fun e => stealable (snd e) = false) notes ->
  scanQuietest s notes q v = (q, v).
Proof.
  induction 1 as [|[id note] notes Hn _ IH]; simpl; [done|].
  simpl in Hn. by rewrite Hn.
Qed.

Lemma steal_none (s : AdditiveSynth) :
  noStealCandidate s -> stealVoiceFromQuietestSustainedNote s = (None, s).
Proof.
  intros H. unfold stealVoiceFromQuietestSustainedNote, quietestSustainedNote.
  by rewrite scanQuietest_none.
Qed.

Lemma acquireLoop_exhausted (configs : list PartialConfig) (vel : Z) (now : Q)
    (s : AdditiveSynth) (acquired : list nat) (amps : list (Z * Q)) :
  available (partialPool s) = [] -> noStealCandidate s ->
  acquireLoop configs vel now s acquired amps = Returned (s, acquired, amps).
Proof.
  intros Hav Hno. induction configs as [|config configs IH]; simpl; [done|].
  destruct (Qltb 24000 (freq config)); [done|].
  rewrite poolAcquire_exhausted by done. simpl. by rewrite steal_none.
Qed.

Lemma evolvePartial_sameSchedule (model : AcousticModel) (now : Q) (note : Note)
    (s : AdditiveSynth) (e : nat * nat) :
  sameSchedule s (evolvePartial model now note s e).
Proof.
  destruct e as [i ref]. unfold evolvePartial.
  destruct (initialAmplitudes note !! i); [|by repeat split].
  cbv zeta. destruct (Qltb _ _); by repeat split.
Qed.

Lemma evolvePartials_sameSchedule (model : AcousticModel) (now : Q) (note : Note)
    (l : list (nat * nat)) (s : AdditiveSynth) :
  sameSchedule s (fold_left (evolvePartial model now note) l s).
Proof.
  apply (fold_left_preserves (sameSchedule s)); [|by repeat split].
  intros s' e (H1 & H2 & H3 & H4 & H5).
  destruct (evolvePartial_sameSchedule model now note s' e) as (G1 & G2 & G3 & G4 & G5).
  repeat split; congruence.
Qed.

(** What one iteration of the scheduler does to the cleanup table. *)
Lemma evolveNote_schedule (model : AcousticModel) (now : Q) (s : AdditiveSynth)
    (noteId : nat) (note : Note) :
  let s' := evolveNote model now s (noteId, note) in
  currentTime s' = currentTime s /\
  (forall t, t ∈ timers s -> t ∈ timers s') /\
  (forall id tid, Map_get id (pendingCleanups s) = Some tid ->
                  Map_get id (pendingCleanups s') = Some tid) /\
  (forall id, id <> noteId ->
              Map_get id (pendingCleanups s') = Map_get id (pendingCleanups s)).
Proof.
  unfold evolveNote.
  pose proof (evolvePartials_sameSchedule model now note (imap pair (partials note)) s)
    as (Hp & Ht & Hn & Hc & _).
  set (s1 := fold_left _ (imap pair (partials note)) s) in *.
  cbv zeta.
  destruct (belowThreshold (maxPartialAmp s1 note) 0.0005 && Qltb 0.5 (now - startTime note));
    [|simpl; rewrite Hp, Ht, Hc; by repeat split].
  destruct (Map_has noteId (pendingCleanups s1)) eqn:Hhas;
    [simpl; rewrite Hp, Ht, Hc; by repeat split|].
  simpl. rewrite Hp, Ht, Hc. split; [done|]. split; [intros t Hin; apply elem_of_app; by left|].
  unfold Map_has in Hhas. rewrite Hp in Hhas. split.
  - intros id tid Hid. destruct (decide (noteId = id)) as [->|Hne].
    + by rewrite Hid in Hhas.
    + by rewrite Map_get_set_ne.
  - intros id Hne. by rewrite Map_get_set_ne.
Qed.

Lemma evolveNotes_schedule (model : AcousticModel) (now : Q) (notes : list (nat * Note))
    (s : AdditiveSynth) :
  let s' := fold_left (evolveNote model now) notes s in
  currentTime s' = currentTime s /\
  (forall t, t ∈ timers s -> t ∈ timers s') /\
  (forall id tid, Map_get id (pendingCleanups s) = Some tid ->
                  Map_get id (pendingCleanups s') = Some tid).
Proof.
  revert s. induction notes as [|[noteId note] notes IH]; intros s; [done|].
  cbn [fold_left]. cbv zeta.
  destruct (evolveNote_schedule model now s noteId note) as (Hc & Ht & Hp & _).
  destruct (IH (evolveNote model now s (noteId, note))) as (Hc' & Ht' & Hp').
  split; [by rewrite Hc'|]. split; eauto.
Qed.

(** A voice without partials that has played for more than half a second
    has a cleanup pending after the tick; when none was pending before,
    the tick queued the re-check 200 ms ahead. *)
Lemma evolveNotes_silent (model : AcousticModel) (now : Q) (noteId : nat) (note : Note)
    (notes : list (nat * Note)) :
  forall s,
  Map_get noteId notes = Some note -> partials note = [] ->
  Qltb 0.5 (now - startTime note) = true ->
  let s' := fold_left (evolveNote model now) notes s in
  Map_has noteId (pendingCleanups s') = true /\
  (Map_has noteId (pendingCleanups s) = false ->
   exists t, t ∈ timers s' /\ action t = DecayedTimeout noteId /\
             due t = (currentTime s * 1000 + Qmax 0 200)%Q /\
             Map_get noteId (pendingCleanups s') = Some (timerId t)).
Proof.
  induction notes as [|[k nt] notes IH]; intros s Hget Hempty Hold; [done|].
  simpl in Hget. destruct (noteId =? k) eqn:Hk.
  - apply Nat.eqb_eq in Hk as <-. injection Hget as ->.
    cbn [fold_left]. 
    set (s1 := evolveNote model now s (noteId, note)).
    destruct (evolveNotes_schedule model now notes s1) as (_ & Ht & Hp).
    assert ((Map_has noteId (pendingCleanups s) = true /\
             Map_has noteId (pendingCleanups s1) = true) \/
            (Map_has noteId (pendingCleanups s) = false /\
             exists t, t ∈ timers s1 /\ action t = DecayedTimeout noteId /\
                       due t = (currentTime s * 1000 + Qmax 0 200)%Q /\
                       Map_get noteId (pendingCleanups s1) = Some (timerId t))) as Hcase.
    { unfold s1, evolveNote. rewrite Hempty. simpl.
      unfold maxPartialAmp. rewrite Hempty. simpl. rewrite Hold. simpl.
      destruct (Map_has noteId (pendingCleanups s)) eqn:Hhas; simpl.
      - left. by rewrite Hhas.
      - right. split; [done|]. eexists. split; [apply elem_of_app; right; left|].
        simpl. split; [done|]. split; [done|]. apply Map_get_set_eq. }
    destruct Hcase as [[Hb Ha]|[Hb (t & Hin & Hact & Hdue & Hmap)]].
    + split; [|congruence]. unfold Map_has in *.
      destruct (Map_get noteId (pendingCleanups s1)) as [tid|] eqn:E; [|done].
      by rewrite (Hp _ _ E).
    + split.
      * unfold Map_has. by rewrite (Hp _ _ Hmap).
      * intros _. exists t. split; [by apply Ht|]. split; [done|]. split; [done|].
        by apply Hp.
  - apply Nat.eqb_neq in Hk. cbn [fold_left].
    destruct (evolveNote_schedule model now s k nt) as (Hc & _ & _ & Hne).
    destruct (IH (evolveNote model now s (k, nt)) Hget Hempty Hold) as (H1 & H2).
    split; [done|]. intros Hb. rewrite <- Hc. apply H2.
    unfold Map_has in *. by rewrite Hne.
Qed.

Lemma decayed_callback_removes_silent (s : AdditiveSynth) (noteId : nat) (note : Note) :
  Map_get noteId (activeNotes s) = Some note -> partials note = [] ->
  Map_get noteId (activeNotes (runCallback (DecayedTimeout noteId) s)) = None.
Proof.
  intros Hget Hempty. simpl. rewrite Hget.
  unfold maxPartialAmp. rewrite Hempty. simpl.
  unfold cleanupNote. rewrite Hget. simpl. apply Map_get_delete_eq.
Qed.

(** C10.  With the pool exhausted and no voice to steal from, [noteOn]
    returns the address of a fresh gain node (value 1, connected) and
    stores under the id a voice whose partial list is empty; the voice is
    counted by [getActiveNoteCount].  The maximum over its empty partial
    list is -Infinity, below the silence threshold, so a scheduler tick
    later than half a second after the note-on leaves a cleanup pending
    for the id (queued by that tick, 200 ms ahead, unless one was pending
    already), and the queued callback removes the voice. *)
Theorem silent_voice_registered_then_scheduled (model : AcousticModel) (s : AdditiveSynth)
    (noteId : nat) (freq0 : Q) (vel : Z) (kd pd : bool) :
  available (partialPool s) = [] -> noStealCandidate s ->
  exists h s' note,
    noteOn model noteId freq0 vel kd pd s = Returned (h, s') /\
    Map_get noteId (activeNotes s') = Some note /\
    partials note = [] /\ gainNode note = h /\
    gainNodes s' !! h = Some (mkGainNode (mkParam 1 []) true) /\
    getActiveNoteCount s'
    = (if Map_has noteId (activeNotes s) then getActiveNoteCount s
       else S (getActiveNoteCount s)) /\
    0 < getActiveNoteCount s' /\
    belowThreshold (maxPartialAmp s' note) 0.0005 = true /\
    (forall dt, (0.5 < dt)%Q ->
       let u := updateHarmonicEvolution model (advanceClock dt s') in
       Map_has noteId (pendingCleanups u) = true /\
       (Map_has noteId (pendingCleanups s') = false ->
        exists t, t ∈ timers u /\ action t = DecayedTimeout noteId /\
                  due t = ((currentTime s + dt) * 1000 + Qmax 0 200)%Q /\
                  Map_get noteId (pendingCleanups u) = Some (timerId t))) /\
    (forall w note', Map_get noteId (activeNotes w) = Some note' -> partials note' = [] ->
       Map_get noteId (activeNotes (runCallback (DecayedTimeout noteId) w)) = None).
Proof.
  intros Hav Hno. unfold noteOn.
  rewrite acquireLoop_exhausted by done. simpl.
  eexists _, _, _. split; [reflexivity|]. simpl.
  split; [apply Map_get_set_eq|]. split; [done|]. split; [done|].
  split; [apply list_lookup_middle; done|].
  assert (getActiveNoteCount
            (withNotes (Map_set noteId
               (mkNote [] (length (gainNodes s)) freq0 vel (currentTime s) kd pd []
                  (currentTime s)) (activeNotes s))
               (withGainNodes (gainNodes s ++ [mkGainNode (mkParam 1 []) true]) s))
          = if Map_has noteId (activeNotes s) then getActiveNoteCount s
            else S (getActiveNoteCount s)) as Hcount.
  { unfold getActiveNoteCount. simpl. apply Map_set_length. }
  split; [exact Hcount|]. split.
  { rewrite Hcount. destruct (Map_has noteId (activeNotes s)) eqn:Hhas; [|lia].
    unfold Map_has in Hhas. unfold getActiveNoteCount.
    destruct (activeNotes s); [done|simpl; lia]. }
  split; [done|]. split; [|intros w note'; apply decayed_callback_removes_silent].
  intros dt Hdt. unfold updateHarmonicEvolution.
  match goal with |- context [fold_left ?f ?l ?st] =>
    pose proof (evolveNotes_silent model (currentTime st) noteId
                  (mkNote [] (length (gainNodes s)) freq0 vel (currentTime s) kd pd []
                     (currentTime s)) l st) as H end.
  apply H; simpl; [apply Map_get_set_eq|done|].
  apply Qltb_lt.
  assert (currentTime s + dt - currentTime s == dt)%Q as E by ring.
  by rewrite E.
Qed.

Lemma silent_voice_registered_then_scheduled_witness :
  exists s,
    twoHeldVoices = Returned s /\
    available (partialPool s) = [] /\ noStealCandidate s /\
    exists h s' note,
      noteOn (flatModel twoPartials) 3 440 100 true false s = Returned (h, s') /\
      Map_get 3 (activeNotes s') = Some note /\ partials note = [] /\
      getActiveNoteCount s' = 3 /\
      Map_has 3 (pendingCleanups
                   (updateHarmonicEvolution (flatModel twoPartials) (advanceClock 1 s'))) = true.
Proof.
  eexists. split; [vm_compute; reflexivity|].
  assert (forall a b : Prop, a -> (a -> b) -> a /\ b) as Hand by tauto.
  apply Hand; [vm_compute; reflexivity|]. intros Hav.
  apply Hand; [repeat constructor|]. intros Hno.
  destruct (silent_voice_registered_then_scheduled (flatModel twoPartials) _ 3 440 100
              true false Hav Hno)
    as (h & s' & note & Hon & Hget & Hempty & _ & _ & Hcount & _ & _ & Htick & _).
  exists h, s', note. split; [exact Hon|]. split; [exact Hget|]. split; [exact Hempty|].
  split; [exact Hcount|]. apply (Htick 1%Q). reflexivity.
Defined.

(** ** Voice stealing *)


Lemma Map_get_NoDup {V : Type} (k : nat) (v : V) (m : list (nat * V)) :
  NoDup (map fst m) -> (k, v) ∈ m -> Map_get k m = Some v.
Proof.
  induction m as [|[k' v'] m IH]; simpl; intros Hnd Hin; [by apply elem_of_nil in Hin|].
  apply NoDup_cons in Hnd as [Hk' Hnd].
  apply elem_of_cons in Hin as [[= -> ->]|Hin]; [by rewrite Nat.eqb_refl|].
  destruct (k =? k') eqn:E; [|by apply IH].
  apply Nat.eqb_eq in E as <-. exfalso. apply Hk'.
  change map with (@fmap list _). apply list_elem_of_fmap. by exists (k, v).
Qed.




(** ** The hysteresis gate of the scheduler *)

Lemma fold_left_preserves_elem {S X : Type} (P : S -> Prop) (f : S -> X -> S)
    (l : list X) (s : S) :
  (forall s x, x ∈ l -> P s -> P (f s x)) -> P s -> P (fold_left f l s).
Proof.
  revert s. induction l as [|x l IH]; intros s Hf Hs; simpl; [done|].
  apply IH.
  - intros s' y Hy. apply Hf. by right.
  - apply Hf; [left|done].
Qed.

Lemma updateGainParam_lookup_ne (ref r : nat) (f : AudioParam -> AudioParam)
    (s : AdditiveSynth) :
  ref <> r ->
  pool (partialPool (updateGainParam ref f s)) !! r = pool (partialPool s) !! r.
Proof. intros Hne. simpl. by apply list_lookup_alter_ne. Qed.

Lemma updateGainParam_value (ref r : nat) (f : AudioParam -> AudioParam)
    (s : AdditiveSynth) :
  (forall g, value (f g) = value g) ->
  partialGainValue (updateGainParam ref f s) r = partialGainValue s r.
Proof.
  intros Hf. unfold partialGainValue. simpl.
  destruct (decide (ref = r)) as [->|Hne].
  - rewrite list_lookup_alter_eq. destruct (pool (partialPool s) !! r); simpl; [|done].
    apply Hf.
  - by rewrite list_lookup_alter_ne.
Qed.

Lemma evolvePartial_value (model : AcousticModel) (now : Q) (note : Note)
    (s : AdditiveSynth) (e : nat * nat) (r : nat) :
  partialGainValue (evolvePartial model now note s e) r = partialGainValue s r.
Proof.
  destruct e as [i ref]. unfold evolvePartial.
  destruct (initialAmplitudes note !! i); [|done]. cbv zeta.
  destruct (Qltb _ _); [|done]. by apply updateGainParam_value.
Qed.

Lemma evolveNote_keeps (model : AcousticModel) (s0 : AdditiveSynth) (ref : nat)
    (now : Q) (s : AdditiveSynth) (noteId : nat) (note : Note) :
  (forall i info, partials note !! i = Some ref -> initialAmplitudes note !! i = Some info ->
     (changeRatio (partialGainValue s0 ref)
                  (clampedTarget model note (now - startTime note) info) <= 0.05)%Q) ->
  tickKeeps s0 ref s -> tickKeeps s0 ref (evolveNote model now s (noteId, note)).
Proof.
  intros Hsmall Hkeep. unfold evolveNote.
  set (s1 := fold_left _ (imap pair (partials note)) s).
  assert (tickKeeps s0 ref s1) as H1.
  { apply fold_left_preserves_elem; [|done].
    intros s' [i r] Hin [Hv Hp].
    apply elem_of_lookup_imap_1 in Hin as (i' & r' & [= -> ->] & Hi).
    split; [intros r0; by rewrite evolvePartial_value|].
    unfold evolvePartial.
    destruct (initialAmplitudes note !! i') as [info|] eqn:Hinfo; [|done]. cbv zeta.
    destruct (Qltb _ _) eqn:Hlt; [|done].
    destruct (decide (r' = ref)) as [->|Hne]; [|by rewrite updateGainParam_lookup_ne].
    exfalso. apply Qltb_lt in Hlt. rewrite Hv in Hlt.
    apply (Qlt_not_le _ _ Hlt). by apply (Hsmall i' info). }
  destruct H1 as [Hv Hp]. cbv zeta.
  destruct (belowThreshold _ _ && Qltb _ _); [|done].
  by destruct (Map_has _ _).
Qed.

Lemma withGain_same (p : Partial) : withGain (gain p) p = p.
Proof. by destruct p. Qed.

(** Every change a tick makes to a gain param is a ramp issued above the
    threshold. *)
Lemma tick_ramps_only (model : AcousticModel) (s : AdditiveSynth) (ref : nat) (p : Partial) :
  pool (partialPool s) !! ref = Some p ->
  exists g',
    pool (partialPool (updateHarmonicEvolution model s)) !! ref = Some (withGain g' p) /\
    rampedBy model s ref (gain p) g'.
Proof.
  intros Hp. unfold updateHarmonicEvolution.
  set (J := fun s' : AdditiveSynth =>
              (forall r, partialGainValue s' r = partialGainValue s r) /\
              exists g', pool (partialPool s') !! ref = Some (withGain g' p) /\
                         rampedBy model s ref (gain p) g').
  enough (J (fold_left (evolveNote model (currentTime s)) (activeNotes s) s)) as [_ H]
    by exact H.
  apply fold_left_preserves_elem.
  - intros s' [noteId note] Hin HJ. unfold evolveNote.
    set (s1 := fold_left _ (imap pair (partials note)) s').
    assert (J s1) as [Hv1 H1].
    { apply fold_left_preserves_elem; [|done].
      intros s2 [i r] Hir [Hv (g' & Hg' & Hramped)].
      apply elem_of_lookup_imap_1 in Hir as (i' & r' & [= -> ->] & Hi).
      split; [intros r0; by rewrite evolvePartial_value|].
      unfold evolvePartial.
      destruct (initialAmplitudes note !! i') as [info|] eqn:Hinfo; [|eauto]. cbv zeta.
      destruct (Qltb _ _) eqn:Hlt; [|eauto].
      destruct (decide (r' = ref)) as [->|Hne];
        [|rewrite updateGainParam_lookup_ne by done; eauto].
      rewrite Hv in Hlt |- *. apply Qltb_lt in Hlt.
      eexists. split.
      - simpl. rewrite list_lookup_alter_eq, Hg'. reflexivity.
      - simpl. by eapply ramped_step. }
    split.
    + intros r. rewrite <- Hv1. cbv zeta.
      destruct (belowThreshold _ _ && Qltb _ _); [|done]. by destruct (Map_has _ _).
    + destruct H1 as (g' & Hg' & Hramped). exists g'. split; [|done].
      rewrite <- Hg'. cbv zeta.
      destruct (belowThreshold _ _ && Qltb _ _); [|done]. by destruct (Map_has _ _).
  - split; [done|]. exists (gain p). rewrite withGain_same. split; [done|constructor].
Qed.

(** C9.  The decision of the scheduler for one partial: with a relative
    change of at most 5% between the live gain and the clamped target the
    state is left as it is, no call reaches the gain param; only above 5%
    are the pending changes cancelled, the current value anchored at
    [now], and an exponential ramp to the target scheduled 200 ms ahead.
    Over a whole tick, a partial all of whose targets lie within 5% of its
    live gain keeps its gain param untouched, and whatever a tick does to
    a gain param is made of such ramps, each issued for a target more
    than 5% away from the live gain. *)
Theorem hysteresis_gate (model : AcousticModel) :
  (forall now note s i ref info,
     initialAmplitudes note !! i = Some info ->
     let currentValue := partialGainValue s ref in
     let target := clampedTarget model note (now - startTime note) info in
     ((changeRatio currentValue target <= 0.05)%Q ->
      evolvePartial model now note s (i, ref) = s) /\
     ((0.05 < changeRatio currentValue target)%Q ->
      evolvePartial model now note s (i, ref)
      = updateGainParam ref
          (fun g => schedule (ExponentialRampToValueAtTime target (now + 0.2)%Q)
                      (schedule (SetValueAtTime (Qmax minAmp currentValue) now)
                         (cancelScheduledValues now g))) s)) /\
  (forall s ref,
     (forall id note i info,
        (id, note) ∈ activeNotes s ->
        partials note !! i = Some ref -> initialAmplitudes note !! i = Some info ->
        (changeRatio (partialGainValue s ref)
                     (clampedTarget model note (currentTime s - startTime note) info)
         <= 0.05)%Q) ->
     pool (partialPool (updateHarmonicEvolution model s)) !! ref
     = pool (partialPool s) !! ref) /\
  (forall s ref p,
     pool (partialPool s) !! ref = Some p ->
     exists g',
       pool (partialPool (updateHarmonicEvolution model s)) !! ref = Some (withGain g' p) /\
       rampedBy model s ref (gain p) g').
Proof.
  split; [|split; [|apply tick_ramps_only]].
  - intros now note s i ref info Hinfo. cbv zeta. unfold evolvePartial. rewrite Hinfo.
    cbv zeta. split.
    + intros Hle. apply Qltb_ge in Hle. by rewrite Hle.
    + intros Hlt. apply Qltb_lt in Hlt. by rewrite Hlt.
  - intros s ref Hsmall. unfold updateHarmonicEvolution.
    enough (tickKeeps s ref (fold_left (evolveNote model (currentTime s)) (activeNotes s) s))
      as [_ H] by exact H.
    apply fold_left_preserves_elem; [|by split].
    intros s' [id note] Hin Hkeep. apply evolveNote_keeps; [|done].
    intros i info Hi Hinfo. by eapply Hsmall.
Qed.

(** ** Release and cleanup of a voice *)

Lemma cancel_cancel (t : Q) (g : AudioParam) :
  cancelScheduledValues t (cancelScheduledValues t g) = cancelScheduledValues t g.
Proof.
  unfold cancelScheduledValues. simpl. f_equal.
  induction (events g) as [|e l IH]; simpl; [done|].
  destruct (Qltb (eventTime e) t) eqn:E; simpl; by rewrite ?E, ?IH.
Qed.

Lemma cancel_schedule_later (t : Q) (e : AutomationEvent) (g : AudioParam) :
  (t <= eventTime e)%Q ->
  cancelScheduledValues t (schedule e g) = cancelScheduledValues t g.
Proof.
  intros Hle. apply Qltb_ge in Hle. unfold cancelScheduledValues, schedule. simpl.
  f_equal. rewrite List.filter_app. simpl. rewrite Hle. by rewrite app_nil_r.
Qed.

Lemma Qle_plus_nonneg (a d : Q) : (0 <= d)%Q -> (a <= a + d)%Q.
Proof.
  intros Hd. rewrite <- (Qplus_0_r a) at 1. by apply Qplus_le_r.
Qed.




Lemma cancel_cleanupSchedule (now v : Q) (g : AudioParam) :
  cancelScheduledValues now (cleanupSchedule now v g) = cancelScheduledValues now g.
Proof.
  unfold cleanupSchedule. destruct (Qltb 0.001 v).
  - rewrite cancel_schedule_later by (by apply Qle_plus_nonneg).
    rewrite cancel_schedule_later by apply Qle_refl. apply cancel_cancel.
  - rewrite cancel_schedule_later by apply Qle_refl. apply cancel_cancel.
Qed.


Lemma cleanupSchedule_idem (now v : Q) (g : AudioParam) :
  cleanupSchedule now v (cleanupSchedule now v g) = cleanupSchedule now v g.
Proof.
  unfold cleanupSchedule at 1. rewrite cancel_cleanupSchedule. done.
Qed.


Lemma releaseSchedule_value (now safe v : Q) (g : AudioParam) :
  value (releaseSchedule now safe v g) = value g.
Proof. done. Qed.

Lemma cleanupSchedule_value (now v : Q) (g : AudioParam) :
  value (cleanupSchedule now v g) = value g.
Proof. unfold cleanupSchedule. by destruct (Qltb _ _). Qed.

(** A loop that rewrites the gain param of each listed partial from its
    live value, by a rewrite that is idempotent, leaves every listed
    partial rewritten once and every other partial as it was. *)
Lemma fold_gain_spec (G : Q -> AudioParam -> AudioParam)
    (step : AdditiveSynth -> nat -> AdditiveSynth) :
  (forall s r, partialPool (step s r)
               = partialPool (updateGainParam r (G (partialGainValue s r)) s)) ->
  (forall v g, value (G v g) = value g) ->
  (forall v g, G v (G v g) = G v g) ->
  forall refs s ref p,
    pool (partialPool s) !! ref = Some p ->
    pool (partialPool (fold_left step refs s)) !! ref
    = Some (if bool_decide (ref ∈ refs)
            then withGain (G (value (gain p)) (gain p)) p else p).
Proof.
  intros Hstep Hval Hidem. induction refs as [|r refs IH]; intros s ref p Hp; simpl.
  - done.
  - destruct (decide (ref = r)) as [->|Hne].
    + rewrite bool_decide_eq_true_2 by left.
      assert (pool (partialPool (step s r)) !! r
              = Some (withGain (G (value (gain p)) (gain p)) p)) as H1.
      { rewrite Hstep. simpl. rewrite list_lookup_alter_eq, Hp. simpl.
        unfold partialGainValue. by rewrite Hp. }
      rewrite (IH _ _ _ H1). simpl. rewrite Hval, Hidem.
      by destruct (bool_decide _).
    + assert (pool (partialPool (step s r)) !! ref = Some p) as H1.
      { rewrite Hstep. simpl. by rewrite list_lookup_alter_ne. }
      rewrite (IH _ _ _ H1). f_equal.
      destruct (bool_decide (ref ∈ refs)) eqn:E.
      * apply bool_decide_eq_true in E. rewrite bool_decide_eq_true_2; [done|by right].
      * apply bool_decide_eq_false in E. rewrite bool_decide_eq_false_2; [done|].
        intros [?|?]%elem_of_cons; done.
Qed.

Lemma cleanupPartial_pool (now : Q) (s : AdditiveSynth) (r : nat) :
  partialPool (cleanupPartial now s r)
  = partialPool (updateGainParam r (cleanupSchedule now (partialGainValue s r)) s).
Proof.
  unfold cleanupPartial, cleanupSchedule. rewrite setTimeout_pool.
  destruct (Qltb 0.001 (partialGainValue s r)); simpl; f_equal;
    rewrite list_alter_alter_eq; by apply list_alter_ext.
Qed.

Lemma cancelPendingCleanup_time (noteId : nat) (s : AdditiveSynth) :
  currentTime (cancelPendingCleanup noteId s) = currentTime s.
Proof. apply cancelPendingCleanup_sameVoices. Qed.

Lemma cancelPendingCleanup_notes (noteId : nat) (s : AdditiveSynth) :
  activeNotes (cancelPendingCleanup noteId s) = activeNotes s.
Proof. apply cancelPendingCleanup_sameVoices. Qed.

Lemma cleanupPartials_timers (now : Q) (refs : list nat) :
  forall s,
  let s' := fold_left (cleanupPartial now) refs s in
  (forall t, t ∈ timers s -> t ∈ timers s') /\
  (forall ref, ref ∈ refs ->
     exists t, t ∈ timers s' /\ action t = PartialTimeout ref /\
               due t = (currentTime s * 1000 + Qmax 0 15)%Q).
Proof.
  induction refs as [|r refs IH]; intros s; cbn [fold_left]; cbv zeta.
  - split; [done|]. intros ref Hin. by apply elem_of_nil in Hin.
  - destruct (IH (cleanupPartial now s r)) as [Hmono Hall].
    assert (forall t, t ∈ timers s -> t ∈ timers (cleanupPartial now s r)) as Hstep.
    { intros t Hin. unfold cleanupPartial. destruct (Qltb _ _); simpl;
        apply elem_of_app; by left. }
    assert (currentTime (cleanupPartial now s r) = currentTime s) as Htime
      by apply cleanupPartial_sameVoices.
    split; [eauto|]. intros ref [->|Hin]%elem_of_cons.
    + eexists. split; [apply Hmono|].
      * unfold cleanupPartial. destruct (Qltb _ _); simpl; apply elem_of_app; right; left.
      * done.
    + destruct (Hall ref Hin) as (t & Ht & Hact & Hdue). exists t.
      rewrite <- Htime. done.
Qed.

(** [cleanupNote] on an active voice: the voice leaves the table at once;
    each of its partials gets the 10 ms fade and a timer, 15 ms ahead,
    whose callback hands the partial back to the pool.  Within the call
    no partial changes its in-use flag and the free stack is untouched. *)
Lemma cleanupNote_spec (s : AdditiveSynth) (noteId : nat) (note : Note) :
  Map_get noteId (activeNotes s) = Some note ->
  let s' := cleanupNote noteId s in
  let now := currentTime s in
  activeNotes s' = Map_delete noteId (activeNotes s) /\
  (forall ref p, pool (partialPool s) !! ref = Some p ->
     pool (partialPool s') !! ref
     = Some (if bool_decide (ref ∈ partials note)
             then withGain (cleanupSchedule now (value (gain p)) (gain p)) p else p)) /\
  (forall ref, ref ∈ partials note ->
     exists t, t ∈ timers s' /\ action t = PartialTimeout ref /\
               due t = (now * 1000 + Qmax 0 15)%Q).
Proof.
  intros Hget. unfold cleanupNote. rewrite Hget. cbv zeta.
  rewrite cancelPendingCleanup_time.
  set (s1 := cancelPendingCleanup noteId s).
  set (s2 := fold_left (cleanupPartial (currentTime s)) (partials note) s1).
  assert (sameVoices s s2) as (Hnotes2 & Htime2 & _).
  { eapply sameVoices_trans; [apply cancelPendingCleanup_sameVoices|].
    apply fold_sameVoices. intros. apply cleanupPartial_sameVoices. }
  assert (currentTime s1 = currentTime s) as Htime1 by apply cancelPendingCleanup_time.
  pose proof (cleanupPartials_timers (currentTime s) (partials note) s1) as Htimers.
  cbv zeta in Htimers. destruct Htimers as [_ Htimers]. rewrite Htime1 in Htimers.
  fold s2 in Htimers.
  set (s3 := match gainNodes s2 !! gainNode note with Some _ => _ | None => s2 end).
  assert (partialPool s3 = partialPool s2 /\ activeNotes s3 = activeNotes s2 /\
          forall t, t ∈ timers s2 -> t ∈ timers s3) as (Hpool3 & Hnotes3 & Htimers3).
  { unfold s3. destruct (gainNodes s2 !! gainNode note) as [g|]; [|done].
    destruct (Qltb _ _); simpl; [|done].
    split; [done|]. split; [done|]. intros t Hin. apply elem_of_app. by left. }
  simpl. rewrite Hnotes3, Hnotes2, Hpool3. split; [done|]. split.
  - intros ref p Hp. unfold s2.
    apply (fold_gain_spec (cleanupSchedule (currentTime s)) (cleanupPartial (currentTime s))).
    + apply cleanupPartial_pool.
    + apply cleanupSchedule_value.
    + apply cleanupSchedule_idem.
    + unfold s1. by rewrite cancelPendingCleanup_pool.
  - intros ref Hin. destruct (Htimers ref Hin) as (t & Ht & Hact & Hdue).
    exists t. split; [by apply Htimers3|done].
Qed.


Lemma partialTimeout_releases (w : AdditiveSynth) (ref : nat) (p : Partial) :
  pool (partialPool w) !! ref = Some p -> inUse p = true ->
  let w' := runCallback (PartialTimeout ref) w in
  available (partialPool w') = available (partialPool w) ++ [index p] /\
  exists p', pool (partialPool w') !! ref = Some p' /\ inUse p' = false.
Proof.
  intros Hp Hu. cbv zeta. unfold runCallback.
  set (w1 := updatePartial ref (withConnected false) w).
  assert (pool (partialPool w1) !! ref = Some (withConnected false p)) as Hq
    by (simpl; by rewrite list_lookup_alter_eq, Hp).
  change (partialPool (withPool ?pp _)) with pp.
  rewrite (release_inUse _ ref (withConnected false p)) by done.
  split; [done|]. eexists.
  split; [apply list_lookup_insert_eq; by eapply lookup_lt_Some|reflexivity].
Qed.



(** ** Partial selection *)






Section Selection.

Variable configs : list PartialConfig.






End Selection.




(** ** Doubles *)

Lemma pow2_pos (e : Z) : (0 < 2 ^ e)%Q.
Proof. by apply Qpower_0_lt. Qed.

Lemma pow2_succ (e : Z) : (2 ^ (e + 1) == 2 * 2 ^ e)%Q.
Proof. rewrite Qpower_plus by done. change (2 ^ 1)%Q with 2%Q. ring. Qed.

Lemma pow2_le (a b : Z) : (a <= b)%Z -> (2 ^ a <= 2 ^ b)%Q.
Proof. intros H. by apply Qpower_le_compat_l. Qed.

Lemma pow2_lt_inv (a b : Z) : (2 ^ a < 2 ^ b)%Q -> (a < b)%Z.
Proof. intros H. by apply (Qpower_lt_compat_l_inv 2). Qed.

Lemma pow2_Z (k : Z) : (0 <= k)%Z -> (inject_Z (2 ^ k) == 2 ^ k)%Q.
Proof. intros H. by rewrite Zpower_Qpower. Qed.

Lemma log2_bounds (n : Z) :
  (0 < n)%Z ->
  (2 ^ Z.log2 n <= inject_Z n)%Q /\ (inject_Z n < 2 * 2 ^ Z.log2 n)%Q.
Proof.
  intros Hn. destruct (Z.log2_spec n Hn) as [Hlo Hhi].
  pose proof (Z.log2_nonneg n) as Hnn.
  rewrite <- pow2_succ, <- !pow2_Z by lia. split.
  - by rewrite <- Zle_Qle.
  - rewrite <- Zlt_Qlt. by rewrite <- Z.add_1_r in Hhi.
Qed.

Lemma binade_spec (x : Q) :
  (0 < x)%Q -> (2 ^ binade x <= x)%Q /\ (x < 2 ^ (binade x + 1))%Q.
Proof.
  intros Hx. unfold binade.
  set (a := Z.log2 (Qnum x)). set (b := Z.log2 (Zpos (Qden x))). cbv zeta.
  assert (Hn : (0 < Qnum x)%Z).
  { destruct x as [n d]. unfold Qlt in Hx. simpl in *. lia. }
  destruct (log2_bounds (Qnum x) Hn) as [Ha Ha'].
  destruct (log2_bounds (Zpos (Qden x)) ltac:(lia)) as [Hb Hb'].
  fold a in Ha, Ha'. fold b in Hb, Hb'.
  assert (Hxq : (x == inject_Z (Qnum x) / inject_Z (Zpos (Qden x)))%Q).
  { destruct x as [n d]. simpl. apply Qmake_Qdiv. }
  pose proof (pow2_pos a) as Hpa. pose proof (pow2_pos b) as Hpb.
  set (N := inject_Z (Qnum x)) in *. set (D := inject_Z (Zpos (Qden x))) in *.
  set (PA := (2 ^ a)%Q) in *. set (PB := (2 ^ b)%Q) in *.
  assert (HD : (0 < D)%Q) by lra.
  assert (HxD : (x * D == N)%Q) by (rewrite Hxq; field; lra).
  assert (HL : (2 ^ (a - b) * PB == PA)%Q).
  { unfold PA, PB. rewrite Qpower_minus by done. field.
    by apply Qpower_not_0. }
  set (R := (2 ^ (a - b))%Q) in *.
  assert (HR : (0 < R)%Q) by apply pow2_pos.
  assert (Hup : (x < 2 * R)%Q).
  { apply (Qmult_lt_r _ _ D HD). rewrite HxD.
    apply Qlt_le_trans with (2 * PA)%Q; [done|]. rewrite <- HL. nra. }
  assert (Hlow : (R < 2 * x)%Q).
  { apply (Qmult_lt_r _ _ PB Hpb). rewrite HL.
    apply Qle_lt_trans with N; [done|]. rewrite <- HxD. nra. }
  destruct (Qle_bool R x) eqn:Htest.
  - apply Qle_bool_iff in Htest. split; [done|]. by rewrite pow2_succ.
  - assert (x < R)%Q as Hlt.
    { apply Qnot_le_lt. intros Hle. apply Qle_bool_iff in Hle. congruence. }
    replace (a - b - 1 + 1)%Z with (a - b)%Z by lia. split; [|done].
    assert (Hhalf : (2 * 2 ^ (a - b - 1) == R)%Q).
    { rewrite <- pow2_succ. by replace (a - b - 1 + 1)%Z with (a - b)%Z by lia. }
    lra.
Qed.

Lemma binade_unique (x : Q) (b : Z) :
  (2 ^ b <= x)%Q -> (x < 2 ^ (b + 1))%Q -> binade x = b.
Proof.
  intros Hlo Hhi.
  assert (Hx : (0 < x)%Q) by (pose proof (pow2_pos b); lra).
  destruct (binade_spec x Hx) as [Hlo' Hhi'].
  assert (binade x < b + 1)%Z by (apply pow2_lt_inv; lra).
  assert (b < binade x + 1)%Z by (apply pow2_lt_inv; lra).
  lia.
Qed.

Lemma binade_mono (x y : Q) : (0 < x)%Q -> (x <= y)%Q -> (binade x <= binade y)%Z.
Proof.
  intros Hx Hxy. destruct (binade_spec x Hx) as [Hlo _].
  destruct (binade_spec y ltac:(lra)) as [_ Hhi].
  assert (binade x < binade y + 1)%Z by (apply pow2_lt_inv; lra). lia.
Qed.

Lemma binade_Qeq (x y : Q) : (0 < x)%Q -> (x == y)%Q -> binade x = binade y.
Proof.
  intros Hx Hxy. destruct (binade_spec x Hx) as [Hlo Hhi]. symmetry.
  apply binade_unique; by rewrite <- Hxy.
Qed.

#[local] Instance Qltb_Qeq : Proper (Qeq ==> Qeq ==> eq) Qltb.
Proof. intros a a' Ha b b' Hb. unfold Qltb. by rewrite Ha, Hb. Qed.

#[local] Instance roundHalfEven_Qeq : Proper (Qeq ==> eq) roundHalfEven.
Proof.
  intros x y Hxy. unfold roundHalfEven. rewrite (Qfloor_comp x y Hxy).
  assert (x - inject_Z (Qfloor y) == y - inject_Z (Qfloor y))%Q as Hr by (by rewrite Hxy).
  assert (Qltb (x - inject_Z (Qfloor y)) (1 # 2) = Qltb (y - inject_Z (Qfloor y)) (1 # 2))
    as -> by (by rewrite Hr).
  assert (Qltb (1 # 2) (x - inject_Z (Qfloor y)) = Qltb (1 # 2) (y - inject_Z (Qfloor y)))
    as -> by (by rewrite Hr).
  done.
Qed.

Lemma roundHalfEven_cases (x : Q) :
  let f := Qfloor x in
  (inject_Z f <= x)%Q /\ (x < inject_Z f + 1)%Q /\
  ((x - inject_Z f < 1 # 2)%Q /\ roundHalfEven x = f \/
   ((1 # 2) < x - inject_Z f)%Q /\ roundHalfEven x = (f + 1)%Z \/
   (x - inject_Z f == 1 # 2)%Q /\ (roundHalfEven x = f \/ roundHalfEven x = (f + 1)%Z)).
Proof.
  cbv zeta. pose proof (Qfloor_le x) as Hlo. pose proof (Qlt_floor x) as Hhi.
  rewrite inject_Z_plus in Hhi. change (inject_Z 1) with 1%Q in Hhi.
  split; [done|]. split; [done|]. unfold roundHalfEven.
  destruct (Qltb (x - inject_Z (Qfloor x)) (1 # 2)) eqn:E1.
  { left. by apply Qltb_lt in E1. }
  apply Qltb_ge in E1.
  destruct (Qltb (1 # 2) (x - inject_Z (Qfloor x))) eqn:E2.
  { right. left. by apply Qltb_lt in E2. }
  apply Qltb_ge in E2. right. right. split; [lra|].
  destruct (Z.even _); auto.
Qed.


Lemma roundHalfEven_Z (k : Z) : roundHalfEven (inject_Z k) = k.
Proof.
  unfold roundHalfEven. rewrite Qfloor_Z.
  assert (Qltb (inject_Z k - inject_Z k) (1 # 2) = true) as ->; [|done].
  apply Qltb_lt. lra.
Qed.

Lemma roundHalfEven_mono (x y : Q) : (x <= y)%Q -> (roundHalfEven x <= roundHalfEven y)%Z.
Proof.
  intros Hxy. pose proof (Qfloor_resp_le x y Hxy) as Hf.
  destruct (Z.eq_dec (Qfloor x) (Qfloor y)) as [Heq|Hne].
  - unfold roundHalfEven. rewrite Heq.
    set (f := Qfloor y). set (rx := (x - inject_Z f)%Q). set (ry := (y - inject_Z f)%Q).
    assert (rx <= ry)%Q as Hr by (unfold rx, ry; lra).
    destruct (Qltb rx (1 # 2)) eqn:Ex, (Qltb ry (1 # 2)) eqn:Ey,
             (Qltb (1 # 2) rx) eqn:Ex', (Qltb (1 # 2) ry) eqn:Ey';
      try apply Qltb_lt in Ex; try apply Qltb_ge in Ex;
      try apply Qltb_lt in Ey; try apply Qltb_ge in Ey;
      try apply Qltb_lt in Ex'; try apply Qltb_ge in Ex';
      try apply Qltb_lt in Ey'; try apply Qltb_ge in Ey';
      try (exfalso; lra); try lia; destruct (Z.even f); lia.
  - destruct (roundHalfEven_cases x) as (_ & _ & Hcx).
    destruct (roundHalfEven_cases y) as (_ & _ & Hcy).
    assert (roundHalfEven x <= Qfloor x + 1)%Z by (destruct Hcx as [[_ ->]|[[_ ->]|[_ [-> | ->]]]]; lia).
    assert (Qfloor y <= roundHalfEven y)%Z by (destruct Hcy as [[_ ->]|[[_ ->]|[_ [-> | ->]]]]; lia).
    lia.
Qed.

(** *** [double] on positive arguments *)

Lemma double_pos (x : Q) :
  (0 < x)%Q ->
  double x = (inject_Z (roundHalfEven (x / 2 ^ doubleExp x)) * 2 ^ doubleExp x)%Q.
Proof.
  intros Hx. unfold double, doubleExp.
  assert (Qeq_bool x 0 = false) as ->.
  { destruct (Qeq_bool x 0) eqn:E; [|done]. apply Qeq_bool_iff in E. lra. }
  assert (Qltb x 0 = false) as -> by (apply Qltb_ge; lra).
  assert (Qabs x = x) as -> ; [|done].
  destruct x as [[|n|n] d]; done.
Qed.

Lemma doubleExp_mono (x y : Q) : (0 < x)%Q -> (x <= y)%Q -> (doubleExp x <= doubleExp y)%Z.
Proof. intros Hx Hxy. unfold doubleExp. pose proof (binade_mono x y Hx Hxy). lia. Qed.

(** The scaled significand is below 2^53, and at least 2^52 for a normal
    number. *)
Lemma significand_lt (x : Q) : (0 < x)%Q -> (x / 2 ^ doubleExp x < 2 ^ 53)%Q.
Proof.
  intros Hx. destruct (binade_spec x Hx) as [_ Hhi].
  apply Qlt_shift_div_r; [apply pow2_pos|].
  rewrite <- Qpower_plus by done.
  eapply Qlt_le_trans; [exact Hhi|]. apply pow2_le. unfold doubleExp. lia.
Qed.

Lemma significand_ge (x : Q) :
  (0 < x)%Q -> (-1074 <= binade x - 52)%Z -> (2 ^ 52 <= x / 2 ^ doubleExp x)%Q.
Proof.
  intros Hx Hn. destruct (binade_spec x Hx) as [Hlo _].
  apply Qle_shift_div_l; [apply pow2_pos|].
  rewrite <- Qpower_plus by done.
  eapply Qle_trans; [|exact Hlo]. apply pow2_le. unfold doubleExp. lia.
Qed.

Lemma double_nonneg (x : Q) : (0 <= x)%Q -> (0 <= double x)%Q.
Proof.
  intros Hx. apply Qle_lteq in Hx as [Hx|Hx].
  - rewrite double_pos by done. apply Qmult_le_0_compat; [|apply Qlt_le_weak, pow2_pos].
    assert (Hz : (inject_Z 0 <= x / 2 ^ doubleExp x)%Q).
    { apply Qle_shift_div_l; [apply pow2_pos|]. change (inject_Z 0) with 0%Q. lra. }
    apply roundHalfEven_mono in Hz. rewrite roundHalfEven_Z in Hz.
    change 0%Q with (inject_Z 0). by rewrite <- Zle_Qle.
  - unfold double. assert (Qeq_bool x 0 = true) as ->; [|done].
    apply Qeq_bool_iff. by symmetry.
Qed.

Lemma double_mono_pos (x y : Q) : (0 < x)%Q -> (x <= y)%Q -> (double x <= double y)%Q.
Proof.
  intros Hx Hxy. assert (Hy : (0 < y)%Q) by lra.
  rewrite !double_pos by done.
  pose proof (doubleExp_mono x y Hx Hxy) as He.
  destruct (Z.eq_dec (doubleExp x) (doubleExp y)) as [Heq|Hne].
  - rewrite Heq. apply Qmult_le_compat_r; [|apply Qlt_le_weak, pow2_pos].
    rewrite <- Zle_Qle. apply roundHalfEven_mono.
    apply Qmult_le_compat_r; [done|]. apply Qlt_le_weak, Qinv_lt_0_compat, pow2_pos.
  - assert (Hlt : (doubleExp x < doubleExp y)%Z) by lia.
    assert (Hnormal : (-1074 <= binade y - 52)%Z).
    { unfold doubleExp in *. lia. }
    pose proof (significand_lt x Hx) as Hsx.
    pose proof (significand_ge y Hy Hnormal) as Hsy.
    assert (Hmx : (inject_Z (roundHalfEven (x / 2 ^ doubleExp x)) <= 2 ^ 53)%Q).
    { rewrite <- (pow2_Z 53) by lia. rewrite <- Zle_Qle.
      rewrite <- (roundHalfEven_Z (2 ^ 53)). apply roundHalfEven_mono.
      rewrite pow2_Z by lia. lra. }
    assert (Hmy : (2 ^ 52 <= inject_Z (roundHalfEven (y / 2 ^ doubleExp y)))%Q).
    { rewrite <- (pow2_Z 52) by lia. rewrite <- Zle_Qle.
      rewrite <- (roundHalfEven_Z (2 ^ 52)). apply roundHalfEven_mono.
      rewrite pow2_Z by lia. lra. }
    set (mx := inject_Z (roundHalfEven (x / 2 ^ doubleExp x))) in *.
    set (my := inject_Z (roundHalfEven (y / 2 ^ doubleExp y))) in *.
    assert (Hstep : (2 * 2 ^ doubleExp x <= 2 ^ doubleExp y)%Q).
    { rewrite <- pow2_succ. apply pow2_le. lia. }
    pose proof (pow2_pos (doubleExp x)) as Hpx. pose proof (pow2_pos (doubleExp y)) as Hpy.
    set (px := (2 ^ doubleExp x)%Q) in *. set (py := (2 ^ doubleExp y)%Q) in *.
    assert (H53 : (2 ^ 53 == 2 * 2 ^ 52)%Q) by reflexivity.
    set (h := (2 ^ 52)%Q) in *.
    assert (0 < h)%Q by (unfold h; apply pow2_pos).
    clearbody mx my px py h.
    apply Qle_trans with (2 * h * px)%Q; [nra|].
    apply Qle_trans with (h * py)%Q; nra.
Qed.

Lemma double_opp (x : Q) : (double (- x) == - double x)%Q.
Proof.
  unfold double.
  destruct (Qeq_bool x 0) eqn:E0.
  - assert (Qeq_bool (- x) 0 = true) as ->; [|reflexivity].
    apply Qeq_bool_iff in E0. apply Qeq_bool_iff. lra.
  - assert (Qeq_bool (- x) 0 = false) as ->.
    { destruct (Qeq_bool (- x) 0) eqn:E; [|done]. apply Qeq_bool_iff in E.
      assert (x == 0)%Q as Hx by lra. apply Qeq_bool_iff in Hx. congruence. }
    assert (~ x == 0)%Q as Hnz by (by apply Qeq_bool_neq).
    assert (Qabs (- x) = Qabs x) as ->.
    { destruct x as [[|n|n] d]; reflexivity. }
    destruct (Qltb x 0) eqn:Ex.
    + apply Qltb_lt in Ex. assert (Qltb (- x) 0 = false) as -> by (apply Qltb_ge; lra). ring.
    + apply Qltb_ge in Ex. assert (Qltb (- x) 0 = true) as -> by (apply Qltb_lt; lra).
      reflexivity.
Qed.

#[local] Instance double_Qeq : Proper (Qeq ==> Qeq) double.
Proof.
  assert (Hpos : forall x y, (0 < x)%Q -> (x == y)%Q -> (double x == double y)%Q).
  { intros x y Hx Hxy. rewrite !double_pos by (try rewrite <- Hxy; done).
    unfold doubleExp. rewrite <- (binade_Qeq x y Hx Hxy).
    set (e := Z.max _ _). by rewrite Hxy. }
  intros x y Hxy. destruct (Qlt_le_dec 0 x) as [Hx|Hx]; [by apply Hpos|].
  apply Qle_lteq in Hx as [Hx|Hx].
  - assert (double (- x) == double (- y))%Q as H.
    { apply Hpos; [lra|by rewrite Hxy]. }
    rewrite !double_opp in H. lra.
  - unfold double.
    assert (Qeq_bool x 0 = true) as -> by (by apply Qeq_bool_iff).
    assert (Qeq_bool y 0 = true) as -> by (apply Qeq_bool_iff; by rewrite <- Hxy).
    reflexivity.
Qed.

Lemma double_0 : double 0 = 0%Q.
Proof. reflexivity. Qed.

(** Rounding to the nearest double is monotone. *)
Lemma double_mono (x y : Q) : (x <= y)%Q -> (double x <= double y)%Q.
Proof.
  intros Hxy. destruct (Qlt_le_dec 0 x) as [Hx|Hx]; [by apply double_mono_pos|].
  destruct (Qlt_le_dec 0 y) as [Hy|Hy].
  - apply Qle_trans with 0%Q; [|apply double_nonneg; lra].
    assert (0 <= double (- x))%Q as H by (apply double_nonneg; lra).
    rewrite double_opp in H. lra.
  - apply Qle_lteq in Hy as [Hy|Hy].
    + assert (double (- y) <= double (- x))%Q as H by (apply double_mono_pos; lra).
      rewrite !double_opp in H. lra.
    + assert (double y == 0)%Q as -> by (by rewrite Hy).
      assert (0 <= double (- x))%Q as H by (apply double_nonneg; lra).
      rewrite double_opp in H. lra.
Qed.

(** Integers of at most 53 bits are doubles. *)
Lemma double_Z (n : Z) :
  (Z.abs n <= 2 ^ 53)%Z -> (double (inject_Z n) == inject_Z n)%Q.
Proof.
  assert (Hpos : forall n, (0 < n <= 2 ^ 53)%Z -> (double (inject_Z n) == inject_Z n)%Q).
  { clear n. intros n [Hn Hle].
    assert (Hq : (0 < inject_Z n)%Q) by (change 0%Q with (inject_Z 0); by rewrite <- Zlt_Qlt).
    rewrite double_pos by done.
    destruct (binade_spec _ Hq) as [Hlo Hhi].
    assert (Hb0 : (0 <= binade (inject_Z n))%Z).
    { assert (0 < binade (inject_Z n) + 1)%Z; [|lia]. apply pow2_lt_inv.
      assert (1 <= inject_Z n)%Q.
      { change 1%Q with (inject_Z 1). rewrite <- Zle_Qle. lia. }
      change (2 ^ 0)%Q with 1%Q. lra. }
    assert (Hb : (binade (inject_Z n) <= 53)%Z).
    { assert (binade (inject_Z n) < 54)%Z; [|lia]. apply pow2_lt_inv.
      eapply Qle_lt_trans; [exact Hlo|].
      assert (inject_Z n <= 2 ^ 53)%Q.
      { rewrite <- (pow2_Z 53) by lia. by rewrite <- Zle_Qle. }
      assert (2 ^ 53 < 2 ^ 54)%Q by reflexivity. lra. }
    set (b := binade (inject_Z n)) in *.
    destruct (Z.le_gt_cases b 52) as [Hb52|Hb53].
    - assert (He : doubleExp (inject_Z n) = (b - 52)%Z) by (unfold doubleExp; fold b; lia).
      rewrite He.
      assert (Hscaled : (inject_Z n / 2 ^ (b - 52) == inject_Z (n * 2 ^ (52 - b)))%Q).
      { rewrite inject_Z_mult, pow2_Z by lia.
        replace (b - 52)%Z with (- (52 - b))%Z by lia. rewrite Qpower_opp.
        field. apply Qpower_not_0. done. }
      rewrite Hscaled, roundHalfEven_Z, inject_Z_mult, pow2_Z by lia.
      replace (b - 52)%Z with (- (52 - b))%Z by lia. rewrite Qpower_opp.
      field. apply Qpower_not_0. done.
    - assert (b = 53)%Z as Hb' by lia.
      assert (He : doubleExp (inject_Z n) = 1%Z) by (unfold doubleExp; fold b; lia).
      rewrite He.
      assert (Hn53 : n = (2 ^ 53)%Z).
      { assert (2 ^ 53 <= inject_Z n)%Q as H by (rewrite Hb' in Hlo; exact Hlo).
        rewrite <- (pow2_Z 53) in H by lia. rewrite <- Zle_Qle in H. lia. }
      rewrite Hn53. reflexivity. }
  intros Hn. destruct (Z.lt_trichotomy n 0) as [Hneg|[->|Hp]].
  - assert (double (inject_Z (- n)) == inject_Z (- n))%Q as H by (apply Hpos; lia).
    rewrite inject_Z_opp, double_opp in H. lra.
  - reflexivity.
  - apply Hpos. lia.
Qed.

Lemma double_1 : (double 1 == 1)%Q.
Proof. reflexivity. Qed.




(** ** The adaptive limit *)

Lemma adaptive_cases (thisMax : Z) (pp : PartialPool) :
  length (pool pp) <> 0 ->
  ((poolUsageRatio pp <= double 0.7)%Q -> adaptiveMaxPartials thisMax pp = thisMax) /\
  ((double 0.7 < poolUsageRatio pp)%Q ->
   adaptiveMaxPartials thisMax pp
   = Z.max 6 (Math_round (scaledLimit thisMax (poolUsageRatio pp)))).
Proof.
  intros Hn. unfold adaptiveMaxPartials.
  rewrite (proj2 (Nat.eqb_neq _ 0)) by done. split.
  - intros H. apply Qltb_ge in H. by rewrite H.
  - intros H. apply Qltb_lt in H. by rewrite H.
Qed.


Lemma Math_round_integer (m : Z) : Math_round (inject_Z m) = m.
Proof.
  unfold Math_round, Qfloor, Qplus, inject_Z. simpl.
  rewrite Z.mul_1_r. replace (m * 2 + 1)%Z with (1 + m * 2)%Z by lia.
  by rewrite Z.div_add by lia.
Qed.

Lemma Math_round_mono (x y : Q) : (x <= y)%Q -> (Math_round x <= Math_round y)%Z.
Proof. intros H. unfold Math_round. apply Qfloor_resp_le. lra. Qed.

Lemma double_le_1 (x : Q) : (x <= 1)%Q -> (double x <= 1)%Q.
Proof.
  intros H. apply Qle_trans with (double 1); [by apply double_mono|].
  rewrite double_1. apply Qle_refl.
Qed.

Lemma double_03_pos : (0 < double 0.3)%Q.
Proof. vm_compute. reflexivity. Qed.

(** The factor [1 - (usage - 0.7) / 0.3] in doubles does not grow with
    the usage, and is at most 1 from a usage of 0.7 on. *)
Lemma scaleFactor_antitone (u1 u2 : Q) :
  (u2 <= u1)%Q ->
  (double (1 - double (double (u1 - double 0.7) / double 0.3))
   <= double (1 - double (double (u2 - double 0.7) / double 0.3)))%Q.
Proof.
  intros Hu. apply double_mono.
  assert (double (double (u2 - double 0.7) / double 0.3)
          <= double (double (u1 - double 0.7) / double 0.3))%Q; [|lra].
  apply double_mono. apply Qmult_le_compat_r.
  - apply double_mono. lra.
  - apply Qlt_le_weak, Qinv_lt_0_compat, double_03_pos.
Qed.

Lemma scaleFactor_le_1 (u : Q) :
  (double 0.7 <= u)%Q ->
  (double (1 - double (double (u - double 0.7) / double 0.3)) <= 1)%Q.
Proof.
  intros Hu. apply double_le_1.
  assert (0 <= double (double (u - double 0.7) / double 0.3))%Q; [|lra].
  apply double_nonneg. apply Qle_shift_div_l; [apply double_03_pos|].
  rewrite Qmult_0_l. apply double_nonneg. lra.
Qed.

Lemma scaledLimit_antitone (M : Z) (u1 u2 : Q) :
  (0 <= M)%Z -> (u2 <= u1)%Q -> (scaledLimit M u1 <= scaledLimit M u2)%Q.
Proof.
  intros HM Hu. unfold scaledLimit. apply double_mono.
  pose proof (scaleFactor_antitone u1 u2 Hu) as Hf.
  assert (0 <= inject_Z M)%Q as HM'.
  { change 0%Q with (inject_Z 0). by rewrite <- Zle_Qle. }
  set (f1 := double (1 - double (double (u1 - double 0.7) / double 0.3))) in *.
  set (f2 := double (1 - double (double (u2 - double 0.7) / double 0.3))) in *.
  clearbody f1 f2. nra.
Qed.

Lemma scaledLimit_le (M : Z) (u : Q) :
  (0 <= M <= 2 ^ 53)%Z -> (double 0.7 <= u)%Q -> (scaledLimit M u <= inject_Z M)%Q.
Proof.
  intros HM Hu. unfold scaledLimit.
  rewrite <- (double_Z M) at 2 by lia. apply double_mono.
  pose proof (scaleFactor_le_1 u Hu) as Hf.
  assert (0 <= inject_Z M)%Q as HM'.
  { change 0%Q with (inject_Z 0). rewrite <- Zle_Qle. lia. }
  set (f := double (1 - double (double (u - double 0.7) / double 0.3))) in *.
  clearbody f. nra.
Qed.


(** Above 70% utilisation the limit is never below 6 and never above the
    larger of 6 and the configured maximum. *)
Lemma adaptive_bounds (thisMax : Z) (pp : PartialPool) :
  (0 <= thisMax <= 2 ^ 53)%Z -> length (pool pp) <> 0 ->
  (double 0.7 < poolUsageRatio pp)%Q ->
  (6 <= adaptiveMaxPartials thisMax pp <= Z.max 6 thisMax)%Z.
Proof.
  intros HM Hn Hu. rewrite (proj2 (adaptive_cases thisMax pp Hn) Hu).
  split; [lia|]. apply Z.max_le_compat_l.
  rewrite <- (Math_round_integer thisMax) at 2. apply Math_round_mono.
  apply scaledLimit_le; [done|lra].
Qed.




(** ** The pool invariant along every run of the engine *)

Lemma evolveNote_shape (model : AcousticModel) (now : Q) (s : AdditiveSynth)
    (e : nat * Note) :
  poolShape (partialPool (evolveNote model now s e)) = poolShape (partialPool s).
Proof.
  destruct e as [noteId note]. unfold evolveNote.
  set (s1 := fold_left _ (imap pair (partials note)) s).
  assert (poolShape (partialPool s1) = poolShape (partialPool s)) as H1.
  { apply fold_shape. intros s' [i ref]. unfold evolvePartial.
    destruct (initialAmplitudes note !! i); [|done]. cbv zeta.
    destruct (Qltb _ _); [apply updateGainParam_shape|done]. }
  cbv zeta. destruct (belowThreshold _ _ && Qltb _ _); [|done].
  by destruct (Map_has _ _).
Qed.

Lemma tick_shape (model : AcousticModel) (s : AdditiveSynth) :
  poolShape (partialPool (updateHarmonicEvolution model s)) = poolShape (partialPool s).
Proof. apply fold_shape. intros. apply evolveNote_shape. Qed.

Lemma audioRender_shape (live : nat -> Q) (s : AdditiveSynth) :
  poolShape (partialPool (audioRender live s)) = poolShape (partialPool s).
Proof.
  unfold poolShape. simpl. f_equal. rewrite map_map. by apply map_ext.
Qed.

Lemma runCallback_inv (n : nat) (a : TimerAction) (s : AdditiveSynth) :
  pool_inv n (partialPool s) -> pool_inv n (partialPool (runCallback a s)).
Proof.
  intros Hinv. destruct a as [noteId|noteId|ref|node]; unfold runCallback.
  - change (pool_inv n (partialPool (cleanupNote noteId s))).
    eapply shape_inv; [|exact Hinv]. symmetry. apply cleanupNote_shape.
  - destruct (Map_get noteId (activeNotes s)) as [note|]; [|done].
    destruct (belowThreshold _ _); [|done].
    change (pool_inv n (partialPool (cleanupNote noteId s))).
    eapply shape_inv; [|exact Hinv]. symmetry. apply cleanupNote_shape.
  - change (partialPool (withPool ?pp _)) with pp.
    apply release_inv. eapply shape_inv; [|exact Hinv]. symmetry.
    by apply (updatePartial_shape ref (withConnected false) s).
  - done.
Qed.

Lemma fireTimer_inv (n : nat) (id : nat) (s : AdditiveSynth) :
  pool_inv n (partialPool s) -> pool_inv n (partialPool (fireTimer id s)).
Proof.
  intros Hinv. unfold fireTimer. destruct (List.find _ _) as [t|]; [|done].
  destruct (Qle_bool _ _); [|done]. by apply runCallback_inv.
Qed.

Lemma runEngineOp_inv (model : AcousticModel) (n : nat) (op : EngineOp) (s : AdditiveSynth) :
  pool_inv n (partialPool s) ->
  exists s', runEngineOp model op s = Returned s' /\ pool_inv n (partialPool s').
Proof.
  intros Hinv. destruct op as [noteId f v kd pd|noteId r imm|noteId kd pd| |id|dt|live]; simpl.
  - destruct (noteOn_spec model n noteId f v kd pd s Hinv)
      as (s1 & popped & Hon & _ & _ & Hinv1 & _).
    cbv zeta in Hon. rewrite Hon. simpl. eauto.
  - eexists. split; [done|]. eapply shape_inv; [|exact Hinv]. symmetry. apply noteOff_shape.
  - eexists. split; [done|]. unfold updateNoteState.
    by destruct (Map_get noteId (activeNotes s)).
  - eexists. split; [done|]. eapply shape_inv; [|exact Hinv]. symmetry. apply tick_shape.
  - eexists. split; [done|]. by apply fireTimer_inv.
  - eexists. split; [done|]. done.
  - eexists. split; [done|]. eapply shape_inv; [|exact Hinv]. symmetry.
    apply audioRender_shape.
Qed.

Lemma runEngine_inv (model : AcousticModel) (n : nat) (ops : list EngineOp) :
  forall s, pool_inv n (partialPool s) ->
  exists s', runEngine model ops s = Returned s' /\ pool_inv n (partialPool s').
Proof.
  induction ops as [|op ops IH]; intros s Hinv; simpl; [eauto|].
  destruct (runEngineOp_inv model n op s Hinv) as (s1 & Hop & Hinv1).
  rewrite Hop. simpl. by apply IH.
Qed.

(** C5.  [acquire] returns instead of throwing in every state the pool
    reaches, be it through a sequence of [acquire] and [release] calls or
    through a run of the engine (note-ons asking for any number of
    partials, note-offs, ticks, timer callbacks): with a free partial it
    hands out the one on top of the free stack, marked in use, with gain
    value 0 and nothing left scheduled; with none free it returns null
    and leaves the pool as it is.  No call throws, and the in-use count
    never exceeds the capacity. *)
Theorem acquire_never_throws (capacity : nat) :
  (forall ops : list PoolOp,
     exists pp, runOps ops (PartialPool_new capacity) = Returned pp /\
                acquireContract capacity pp) /\
  (forall (model : AcousticModel) (ops : list EngineOp),
     exists s, runEngine model ops (synthWithPool capacity) = Returned s /\
               acquireContract capacity (partialPool s)).
Proof.
  split.
  - intros ops.
    destruct (runOps_inv capacity ops _ (PartialPool_new_inv capacity))
      as (pp & Hrun & Hinv).
    exists pp. split; [done|]. by apply inv_acquireContract.
  - intros model ops.
    destruct (runEngine_inv model capacity ops (synthWithPool capacity)
                (PartialPool_new_inv capacity)) as (s & Hrun & Hinv).
    exists s. split; [done|]. by apply inv_acquireContract.
Qed.

(** ** The theorems at concrete inputs *)

Lemma release_idempotent_witness :
  release (Some 0) (release (Some 0) (PartialPool_new 2)) = release (Some 0) (PartialPool_new 2)
  /\ release (Some 0) (PartialPool_new 2) = PartialPool_new 2.
Proof.
  destruct (release_idempotent (PartialPool_new 2) (Some 0)) as (H1 & H2 & _).
  split; [exact H1|]. apply (H2 0 (freshPartial 0)); reflexivity.
Defined.

Lemma hysteresis_gate_witness :
  exists s,
    steadyVoice = Returned s /\
    pool (partialPool (updateHarmonicEvolution (flatModel twoPartials) s)) !! 2
    = pool (partialPool s) !! 2.
Proof.
  eexists. split; [vm_compute; reflexivity|].
  apply (proj1 (proj2 (hysteresis_gate (flatModel twoPartials)))).
  intros id note i info Hin Hp Hi.
  apply list_elem_of_singleton in Hin. injection Hin as -> ->.
  destruct i as [|[|i]]; simpl in Hp; try discriminate.
  injection Hi as <-. apply Qle_bool_iff. vm_compute. reflexivity.
Defined.


(** * Further properties of the engine *)

(** ** The free stack *)

(** The pool is a stack in both directions: the partial released last is
    the one [acquire] hands out next, with the rest of the pool as it
    was; and releasing the partial just acquired restores the free stack
    and every in-use flag. *)
Theorem pool_stack_round_trip (pp : PartialPool) :
  pool_wf pp ->
  (forall ref p,
     pool pp !! ref = Some p -> inUse p = true ->
     exists pp' p',
       acquire (release (Some ref) pp) = Returned (Some ref, pp') /\
       available pp' = available pp /\
       pool pp' !! ref = Some p' /\ inUse p' = true /\ value (gain p') = 0%Q /\
       forall i, i <> ref -> pool pp' !! i = pool pp !! i) /\
  (forall idx pp',
     acquire pp = Returned (Some idx, pp') ->
     available (release (Some idx) pp') = available pp /\
     poolShape (release (Some idx) pp') = poolShape pp).
Proof.
  intros Hwf. split.
  - intros ref p Hp Hu.
    pose proof (wf_index _ Hwf _ _ Hp) as Hidx.
    pose proof (lookup_lt_Some _ _ _ Hp) as Hlt.
    rewrite (release_inUse _ _ _ Hp Hu), Hidx.
    unfold acquire. simpl. rewrite pop_snoc.
    rewrite list_lookup_insert_eq by done. simpl.
    eexists _, _. split; [reflexivity|]. simpl. split; [done|].
    rewrite list_lookup_insert_eq by (by rewrite length_insert).
    split; [reflexivity|]. split; [done|]. split; [done|].
    intros i Hi. by rewrite !list_lookup_insert_ne by done.
  - intros idx pp' Hacq.
    destruct (decide (available pp = [])) as [He|Hne].
    { rewrite acquire_exhausted in Hacq by done. discriminate. }
    destruct (acquire_free pp Hwf Hne) as (idx' & rest & p & Hav & Hp & Hfree & Heq).
    rewrite Heq in Hacq. injection Hacq as <- <-.
    pose proof (wf_index _ Hwf _ _ Hp) as Hidx.
    pose proof (lookup_lt_Some _ _ _ Hp) as Hlt.
    erewrite release_inUse; cycle 1.
    { simpl. by apply list_lookup_insert_eq. }
    { done. }
    simpl. rewrite Hidx. split; [done|]. unfold poolShape. simpl. rewrite Hav. f_equal.
    rewrite list_insert_insert_eq. change map with (@fmap list _).
    apply list_eq. intros i. rewrite !list_lookup_fmap.
    destruct (decide (i = idx')) as [->|Hi].
    + rewrite list_lookup_insert_eq by done. rewrite Hp. simpl. by rewrite Hfree.
    + by rewrite list_lookup_insert_ne.
Qed.

Lemma pool_stack_round_trip_witness :
  exists pp pp',
    acquire (PartialPool_new 3) = Returned (Some 2, pp) /\
    acquire (release (Some 2) pp) = Returned (Some 2, pp') /\
    available (release (Some 2) pp) = [0; 1; 2].
Proof.
  destruct (pool_stack_round_trip (PartialPool_new 3) (PartialPool_new_wf 3)) as [_ H2].
  eexists _, _. split; [vm_compute; reflexivity|].
  split; [vm_compute; reflexivity|].
  apply (H2 2). vm_compute. reflexivity.
Defined.

(** ** Who holds a partial *)

Lemma flat_map_filter_sublist {A B : Type} (f : A -> list B) (P : A -> bool) (l : list A) :
  flat_map f (List.filter P l) `sublist_of` flat_map f l.
Proof.
  induction l as [|x l IH]; simpl; [done|].
  destruct (P x); simpl.
  - by apply sublist_app.
  - by apply sublist_inserts_l.
Qed.

Lemma Map_delete_absent {V : Type} (k : nat) (m : list (nat * V)) :
  k ∉ map fst m -> Map_delete k m = m.
Proof.
  intros Hk. unfold Map_delete. apply forallb_filter_id. apply forallb_forall.
  intros [k' v'] Hin. simpl. apply negb_true_iff, Nat.eqb_neq. intros ->.
  apply Hk. change map with (@fmap list _). apply list_elem_of_fmap.
  exists (k', v'). split; [done|]. by apply list_elem_of_In.
Qed.

Lemma voicePartials_delete (id : nat) (note : Note) (m : list (nat * Note)) :
  NoDup (map fst m) -> Map_get id m = Some note ->
  flat_map (fun e => partials (snd e)) m
  ≡ₚ flat_map (fun e => partials (snd e)) (Map_delete id m) ++ partials note.
Proof.
  induction m as [|[k v] m IH]; simpl; [done|]. intros Hnd Hget.
  apply NoDup_cons in Hnd as [Hk Hnd].
  destruct (id =? k) eqn:E; simpl.
  - injection Hget as ->. apply Nat.eqb_eq in E as ->.
    rewrite Map_delete_absent by done. apply Permutation_app_comm.
  - rewrite <- app_assoc. apply Permutation_app_head. by apply IH.
Qed.

Lemma Map_get_None_keys {V : Type} (k : nat) (m : list (nat * V)) :
  Map_get k m = None -> k ∉ map fst m.
Proof.
  induction m as [|[k' v'] m IH]; simpl; [intros _; apply not_elem_of_nil|].
  destruct (k =? k') eqn:E; [done|]. apply Nat.eqb_neq in E.
  intros H. apply not_elem_of_cons. split; [done|by apply IH].
Qed.

Lemma Map_set_keys {V : Type} (k : nat) (v : V) (m : list (nat * V)) :
  map fst (Map_set k v m)
  = match Map_get k m with Some _ => map fst m | None => map fst m ++ [k] end.
Proof.
  induction m as [|[k' v'] m IH]; simpl; [done|].
  destruct (k =? k') eqn:E; simpl.
  - by apply Nat.eqb_eq in E as ->.
  - rewrite IH. by destruct (Map_get k m).
Qed.

Lemma Map_set_NoDup {V : Type} (k : nat) (v : V) (m : list (nat * V)) :
  NoDup (map fst m) -> NoDup (map fst (Map_set k v m)).
Proof.
  intros Hnd. rewrite Map_set_keys. destruct (Map_get k m) eqn:E; [done|].
  apply NoDup_app. split; [done|]. split; [|apply NoDup_singleton].
  intros x Hx ->%list_elem_of_singleton. by apply (Map_get_None_keys _ _ E).
Qed.

Lemma Map_delete_NoDup {V : Type} (k : nat) (m : list (nat * V)) :
  NoDup (map fst m) -> NoDup (map fst (Map_delete k m)).
Proof.
  intros Hnd. apply (sublist_NoDup _ (map fst m)); [exact Hnd|]. clear Hnd.
  unfold Map_delete. induction m as [|e m IH]; simpl; [done|].
  destruct (negb (k =? fst e)); simpl.
  - by apply sublist_skip.
  - by apply sublist_cons.
Qed.

(** Storing a voice under an unused id appends its partials; storing it
    under a used id drops the partials of the voice it replaces. *)
Lemma voicePartials_set_fresh (k : nat) (v : Note) (m : list (nat * Note)) :
  Map_get k m = None ->
  flat_map (fun e => partials (snd e)) (Map_set k v m)
  = flat_map (fun e => partials (snd e)) m ++ partials v.
Proof.
  induction m as [|[k' v'] m IH]; simpl; [by rewrite app_nil_r|].
  destruct (k =? k'); [done|]. intros H. simpl. by rewrite IH, app_assoc.
Qed.

Lemma voicePartials_set_used (k : nat) (v v0 : Note) (m : list (nat * Note)) :
  NoDup (map fst m) -> Map_get k m = Some v0 ->
  flat_map (fun e => partials (snd e)) (Map_set k v m)
  ≡ₚ flat_map (fun e => partials (snd e)) (Map_delete k m) ++ partials v.
Proof.
  induction m as [|[k' v'] m IH]; simpl; [done|]. intros Hnd Hget.
  apply NoDup_cons in Hnd as [Hk Hnd].
  destruct (k =? k') eqn:E; simpl.
  - apply Nat.eqb_eq in E as ->. rewrite Map_delete_absent by done.
    apply Permutation_app_comm.
  - rewrite <- app_assoc. apply Permutation_app_head. by apply IH.
Qed.

Lemma voiceRefs_set (k : nat) (v v0 : Note) (m : list (nat * Note)) :
  Map_get k m = Some v0 -> partials v = partials v0 ->
  voiceRefs (Map_set k v m) = voiceRefs m.
Proof.
  intros Hget Hp. induction m as [|[k' v'] m IH]; simpl in *; [done|].
  destruct (k =? k') eqn:E; simpl.
  - injection Hget as ->. apply Nat.eqb_eq in E as ->. by rewrite Hp.
  - f_equal. by apply IH.
Qed.

Lemma voiceRefs_partials (s : AdditiveSynth) :
  voicePartials s = flat_map snd (voiceRefs (activeNotes s)).
Proof.
  unfold voicePartials, voiceRefs. induction (activeNotes s) as [|e m IH]; simpl; [done|].
  by rewrite IH.
Qed.

Lemma voiceRefs_keys (m : list (nat * Note)) : map fst (voiceRefs m) = map fst m.
Proof. unfold voiceRefs. rewrite map_map. by apply map_ext. Qed.

(** ** The timer queue *)

Lemma filter_map_NoDup {A B : Type} (f : A -> B) (P : A -> bool) (l : list A) :
  NoDup (map f l) -> NoDup (map f (List.filter P l)).
Proof.
  induction l as [|x l IH]; simpl; [done|]. intros [Hx Hnd]%NoDup_cons.
  destruct (P x); simpl; [|by apply IH].
  apply NoDup_cons. split; [|by apply IH]. intros Hin. apply Hx.
  change map with (@fmap list _) in *. apply list_elem_of_fmap in Hin as (y & -> & Hy).
  apply list_elem_of_fmap. exists y. split; [done|].
  apply list_elem_of_In. apply list_elem_of_In, filter_In in Hy. tauto.
Qed.

Lemma filter_elem {A : Type} (P : A -> bool) (l : list A) (x : A) :
  x ∈ List.filter P l -> x ∈ l /\ P x = true.
Proof. intros H. apply list_elem_of_In, filter_In in H as [H ?]. by apply list_elem_of_In in H. Qed.

Lemma flat_map_filter_nil {A B : Type} (f : A -> list B) (P : A -> bool) (l : list A) :
  (forall x, x ∈ l -> P x = false -> f x = []) ->
  flat_map f (List.filter P l) = flat_map f l.
Proof.
  induction l as [|x l IH]; simpl; [done|]. intros H.
  rewrite <- IH by (intros; apply H; [by right|done]).
  destruct (P x) eqn:E; simpl; [done|]. rewrite (H x); [done|left|done].
Qed.

Lemma Map_set_elem {V : Type} (k : nat) (v : V) (m : list (nat * V)) (e : nat * V) :
  e ∈ Map_set k v m -> e = (k, v) \/ e ∈ m.
Proof.
  induction m as [|[k' v'] m IH]; simpl.
  - intros ->%list_elem_of_singleton. by left.
  - destruct (k =? k').
    + intros [->|H]%elem_of_cons; [by left|]. right. by right.
    + intros [->|H]%elem_of_cons; [right; left|]. destruct (IH H); [by left|].
      right. by right.
Qed.

Lemma queues_refl (s : AdditiveSynth) : queues [] s s.
Proof. intros H. by rewrite app_nil_r. Qed.

Lemma queues_trans (r1 r2 : list nat) (a b c : AdditiveSynth) :
  queues r1 a b -> queues r2 b c -> queues (r1 ++ r2) a c.
Proof.
  intros Hab Hbc Ha. destruct (Hab Ha) as [Hb E1]. destruct (Hbc Hb) as [Hc E2].
  split; [done|]. by rewrite E2, E1, app_assoc.
Qed.

(** A step that leaves the timers and the cleanup table alone. *)
Lemma queues_same (s s' : AdditiveSynth) :
  timers s' = timers s -> nextTimerId s' = nextTimerId s ->
  pendingCleanups s' = pendingCleanups s -> queues [] s s'.
Proof.
  intros Ht Hn Hp [H1 H2 H3 H4]. unfold pendingReleases. rewrite Ht, app_nil_r.
  split; [|done]. split; rewrite ?Ht, ?Hn, ?Hp; done.
Qed.

Lemma queues_fold_nil {X : Type} (f : AdditiveSynth -> X -> AdditiveSynth) (l : list X)
    (s : AdditiveSynth) :
  (forall s x, queues [] s (f s x)) -> queues [] s (fold_left f l s).
Proof.
  intros Hf. apply (fold_left_preserves (queues [] s)); [|apply queues_refl].
  intros s' x Hs'. apply (queues_trans [] [] s s' _ Hs' (Hf s' x)).
Qed.

Lemma queues_fold (f : AdditiveSynth -> nat -> AdditiveSynth) (refs : list nat) :
  (forall s x, queues [x] s (f s x)) ->
  forall s, queues refs s (fold_left f refs s).
Proof.
  intros Hf. induction refs as [|r refs IH]; intros s; simpl; [apply queues_refl|].
  apply (queues_trans [r] refs s (f s r)); [apply Hf|apply IH].
Qed.

(** A new timer gets the next id; the cleanup table may gain an entry
    for it when its callback is not the release of a partial. *)
Lemma queues_push (s s' : AdditiveSynth) (d : Q) (a : TimerAction) :
  timers s' = timers s ++ [mkTimer (nextTimerId s) d a] ->
  nextTimerId s' = S (nextTimerId s) ->
  (forall e, e ∈ pendingCleanups s' ->
     e ∈ pendingCleanups s \/
     (snd e = nextTimerId s /\ releaseRef (mkTimer (nextTimerId s) d a) = [])) ->
  queues (releaseRef (mkTimer (nextTimerId s) d a)) s s'.
Proof.
  intros Ht Hn Hp [H1 H2 H3 H4]. split.
  - split; rewrite ?Ht, ?Hn.
    + intros t [Hin| ->%list_elem_of_singleton]%elem_of_app; [|simpl; lia].
      specialize (H1 t Hin). lia.
    + rewrite map_app. simpl. apply NoDup_app. split; [done|].
      split; [|apply NoDup_singleton].
      intros x Hx ->%list_elem_of_singleton.
      change map with (@fmap list _) in Hx. apply list_elem_of_fmap in Hx as (t & E & Hin).
      specialize (H1 t Hin). lia.
    + intros e He. destruct (Hp e He) as [Hold|[E _]]; [|lia].
      specialize (H3 e Hold). lia.
    + intros e t He [Hin| ->%list_elem_of_singleton]%elem_of_app Hid.
      * destruct (Hp e He) as [Hold|[E _]]; [by eapply H4|].
        specialize (H1 t Hin). lia.
      * destruct (Hp e He) as [Hold|[_ E]]; [|done].
        specialize (H3 e Hold). simpl in Hid. lia.
  - unfold pendingReleases. rewrite Ht, flat_map_app. simpl. by rewrite app_nil_r.
Qed.

(** Dropping timers that release no partial, and entries of the table. *)
Lemma queues_drop (s s' : AdditiveSynth) (P : Timer -> bool) :
  timers s' = List.filter P (timers s) ->
  nextTimerId s' = nextTimerId s ->
  (forall e, e ∈ pendingCleanups s' -> e ∈ pendingCleanups s) ->
  (forall t, t ∈ timers s -> P t = false -> releaseRef t = []) ->
  queues [] s s'.
Proof.
  intros Ht Hn Hp Hkind [H1 H2 H3 H4]. split.
  - split; rewrite ?Ht, ?Hn.
    + intros t [Hin _]%filter_elem. by apply H1.
    + by apply filter_map_NoDup.
    + intros e He. apply H3. by apply Hp.
    + intros e t He [Hin _]%filter_elem. apply H4; [by apply Hp|done].
  - unfold pendingReleases. rewrite Ht, app_nil_r. by apply flat_map_filter_nil.
Qed.

Lemma Map_delete_elem {V : Type} (k : nat) (m : list (nat * V)) (e : nat * V) :
  e ∈ Map_delete k m -> e ∈ m.
Proof. intros H. by apply filter_elem in H as [H _]. Qed.

Lemma setTimeout_queues (a : TimerAction) (d : Q) (s : AdditiveSynth) :
  queues (releaseRef (mkTimer 0 0 a)) s (snd (setTimeout a d s)).
Proof.
  apply (queues_push s _ (currentTime s * 1000 + Qmax 0 d)%Q a); [done|done|].
  intros e He. by left.
Qed.

(** [pendingCleanups.set(noteId, setTimeout(...))] for the two callbacks
    that clean a voice up. *)
Lemma register_queues (k : nat) (a : TimerAction) (d : Q) (s : AdditiveSynth) :
  (forall id d', releaseRef (mkTimer id d' a) = []) ->
  queues [] s (let '(tid, s1) := setTimeout a d s in
               withPending (Map_set k tid (pendingCleanups s1)) s1).
Proof.
  intros Ha.
  pose proof (queues_push s (withPending (Map_set k (nextTimerId s) (pendingCleanups s))
                               (snd (setTimeout a d s)))
                (currentTime s * 1000 + Qmax 0 d)%Q a eq_refl eq_refl) as H.
  rewrite Ha in H. apply H. intros e [->|He]%Map_set_elem; [by right|by left].
Qed.

Lemma cancelPendingCleanup_queues (noteId : nat) (s : AdditiveSynth) :
  queues [] s (cancelPendingCleanup noteId s).
Proof.
  unfold cancelPendingCleanup.
  destruct (Map_get noteId (pendingCleanups s)) as [tid|] eqn:E; [|apply queues_refl].
  intros Hinv. revert Hinv.
  match goal with
  | |- timers_inv s -> timers_inv ?x /\ _ =>
      intros Hinv;
      apply (queues_drop s x (fun t => negb (timerId t =? tid))); [done|done| | |done]
  end.
  - intros e He. by apply Map_delete_elem in He.
  - intros t Hin HP. apply negb_false_iff, Nat.eqb_eq in HP.
    apply (pending_kind _ Hinv (noteId, tid)); [by apply Map_get_elem|done|done].
Qed.

Lemma updatePartial_queues (ref : nat) (f : Partial -> Partial) (s : AdditiveSynth) :
  queues [] s (updatePartial ref f s).
Proof. by apply queues_same. Qed.

Lemma updateNoteGain_queues (node : nat) (f : GainNode -> GainNode) (s : AdditiveSynth) :
  queues [] s (updateNoteGain node f s).
Proof. by apply queues_same. Qed.

Lemma cleanupPartial_queues (now : Q) (s : AdditiveSynth) (ref : nat) :
  queues [ref] s (cleanupPartial now s ref).
Proof.
  unfold cleanupPartial. cbv zeta.
  set (s1 := if Qltb _ _ then _ else _).
  apply (queues_trans [] [ref] s s1); [|apply (setTimeout_queues (PartialTimeout ref))].
  unfold s1. destruct (Qltb _ _); by apply queues_same.
Qed.

(** [cleanupNote] queues the release of each partial of the voice, in
    the order of [note.partials], and of nothing else. *)
Lemma cleanupNote_queues (noteId : nat) (s : AdditiveSynth) :
  queues (match Map_get noteId (activeNotes s) with
          | Some note => partials note
          | None => []
          end) s (cleanupNote noteId s).
Proof.
  unfold cleanupNote. destruct (Map_get noteId (activeNotes s)) as [note|];
    [|apply queues_refl].
  cbv zeta. set (s1 := cancelPendingCleanup noteId s).
  set (s2 := fold_left (cleanupPartial (currentTime s1)) (partials note) s1).
  set (s3 := match gainNodes s2 !! gainNode note with Some _ => _ | None => s2 end).
  assert (queues [] s2 s3) as H3.
  { unfold s3. destruct (gainNodes s2 !! gainNode note) as [g|]; [|apply queues_refl].
    destruct (Qltb _ _); [|by apply queues_same].
    match goal with
    | |- queues [] s2 (snd (setTimeout ?a ?d ?x)) =>
        apply (queues_trans [] [] s2 x); [by apply queues_same|apply (setTimeout_queues a)]
    end. }
  intros Hinv.
  destruct (cancelPendingCleanup_queues noteId s Hinv) as [Hinv1 E1]. fold s1 in Hinv1, E1.
  destruct (queues_fold _ (partials note) (cleanupPartial_queues (currentTime s1)) s1 Hinv1)
    as [Hinv2 E2]. fold s2 in Hinv2, E2.
  destruct (H3 Hinv2) as [Hinv3 E3].
  destruct (queues_same s3 (withNotes (Map_delete noteId (activeNotes s3)) s3)
              eq_refl eq_refl eq_refl Hinv3) as [Hinv4 E4].
  split; [done|]. rewrite E4, E3, E2, E1. by rewrite !app_nil_r.
Qed.

Lemma releasePartial_queues (now safe : Q) (s : AdditiveSynth) (ref : nat) :
  queues [] s (releasePartial now safe s ref).
Proof. by apply queues_same. Qed.

(** [noteOff] queues releases only when asked to clean up at once. *)
Lemma noteOff_queues (noteId : nat) (releaseTime : Q) (immediate : bool) (s : AdditiveSynth) :
  queues (match Map_get noteId (activeNotes s) with
          | Some note => if immediate then partials note else []
          | None => []
          end) s (noteOff noteId releaseTime immediate s).
Proof.
  unfold noteOff. destruct (Map_get noteId (activeNotes s)) as [note|] eqn:Hget;
    [|apply queues_refl].
  cbv zeta. set (s0 := cancelPendingCleanup noteId s).
  set (s1 := fold_left _ (partials note) s0).
  set (s2 := if Qltb _ _ then _ else s1).
  assert (queues [] s s2) as H2.
  { apply (queues_trans [] [] s s0); [apply cancelPendingCleanup_queues|].
    apply (queues_trans [] [] s0 s1).
    - apply queues_fold_nil. intros. apply releasePartial_queues.
    - unfold s2. destruct (Qltb _ _); [apply updateNoteGain_queues|apply queues_refl]. }
  assert (activeNotes s2 = activeNotes s) as Hnotes.
  { assert (sameVoices s s1) as [H1 _].
    { eapply sameVoices_trans; [apply cancelPendingCleanup_sameVoices|].
      apply fold_sameVoices. intros. apply releasePartial_sameVoices. }
    unfold s2. by destruct (Qltb _ _). }
  destruct immediate.
  - pose proof (cleanupNote_queues noteId s2) as Hc. rewrite Hnotes, Hget in Hc.
    apply (queues_trans [] (partials note) s s2 _ H2 Hc).
  - apply (queues_trans [] [] s s2 _ H2).
    apply (register_queues noteId (ReleaseTimeout noteId)). done.
Qed.

Lemma steal_queues (s : AdditiveSynth) :
  queues [] s (snd (stealVoiceFromQuietestSustainedNote s)).
Proof.
  unfold stealVoiceFromQuietestSustainedNote.
  destruct (quietestSustainedNote s) as [id|]; [|apply queues_refl].
  destruct (Map_get id (activeNotes s)) eqn:Hget; [|apply queues_refl].
  pose proof (noteOff_queues id 0.05 false s) as H. by rewrite Hget in H.
Qed.

Lemma poolAcquire_queues (s s' : AdditiveSynth) (r : option nat) :
  poolAcquire s = Returned (r, s') -> queues [] s s'.
Proof.
  unfold poolAcquire. destruct (acquire (partialPool s)) as [[r' pp]|]; simpl; [|done].
  intros [= _ <-]. by apply queues_same.
Qed.

Lemma acquireLoop_queues (configs : list PartialConfig) (vel : Z) (now : Q) :
  forall s acquired amps s' acquired' amps',
  acquireLoop configs vel now s acquired amps = Returned (s', acquired', amps') ->
  queues [] s s'.
Proof.
  induction configs as [|config configs IH]; intros s acquired amps s' acquired' amps'; simpl.
  - intros [= <- _ _]. apply queues_refl.
  - destruct (Qltb 24000 (freq config)); [apply IH|].
    destruct (poolAcquire s) as [[[p|] s1]|] eqn:Hacq; simpl; [| |done].
    + intros Hloop. apply IH in Hloop.
      apply (queues_trans [] [] s s1); [by eapply poolAcquire_queues|].
      apply (queues_trans [] [] s1 _ _ (updatePartial_queues _ _ _) Hloop).
    + pose proof (steal_queues s1) as Hst.
      destruct (stealVoiceFromQuietestSustainedNote s1) as [stolen s2]. simpl in Hst.
      assert (queues [] s s2) as Hs2.
      { apply (queues_trans [] [] s s1); [by eapply poolAcquire_queues|done]. }
      destruct stolen; [|by intros [= <- _ _]].
      destruct (poolAcquire s2) as [[[p|] s3]|] eqn:Hacq2; simpl; [| |done].
      * intros Hloop. apply IH in Hloop.
        apply (queues_trans [] [] s s2 _ Hs2).
        apply (queues_trans [] [] s2 s3); [by eapply poolAcquire_queues|].
        apply (queues_trans [] [] s3 _ _ (updatePartial_queues _ _ _) Hloop).
      * intros [= <- _ _]. apply (queues_trans [] [] s s2 _ Hs2).
        by eapply poolAcquire_queues.
Qed.

Lemma noteOn_queues (model : AcousticModel) (noteId : nat) (freq0 : Q) (vel : Z)
    (kd pd : bool) (s s' : AdditiveSynth) (h : nat) :
  noteOn model noteId freq0 vel kd pd s = Returned (h, s') -> queues [] s s'.
Proof.
  unfold noteOn. cbv zeta.
  set (s0 := withGainNodes _ s).
  destruct (acquireLoop _ vel _ s0 [] []) as [[[s1 acquired] amps]|] eqn:Hloop; simpl; [|done].
  intros [= _ <-]. apply acquireLoop_queues in Hloop.
  apply (queues_trans [] [] s s0); [by apply queues_same|].
  apply (queues_trans [] [] s0 s1 _ Hloop). by apply queues_same.
Qed.

Lemma evolveNote_queues (model : AcousticModel) (now : Q) (s : AdditiveSynth)
    (e : nat * Note) :
  queues [] s (evolveNote model now s e).
Proof.
  destruct e as [noteId note]. unfold evolveNote.
  pose proof (evolvePartials_sameSchedule model now note (imap pair (partials note)) s)
    as (Hp & Ht & Hn & _).
  set (s1 := fold_left _ (imap pair (partials note)) s) in *.
  cbv zeta. set (s2 := if _ && _ then _ else s1).
  assert (queues [] s1 s2) as H2.
  { unfold s2. destruct (_ && _); [|apply queues_refl].
    destruct (Map_has _ _); [apply queues_refl|].
    apply (register_queues noteId (DecayedTimeout noteId)). done. }
  apply (queues_trans [] [] s s1); [by apply queues_same|].
  apply (queues_trans [] [] s1 s2 _ H2). by apply queues_same.
Qed.

Lemma tick_queues (model : AcousticModel) (s : AdditiveSynth) :
  queues [] s (updateHarmonicEvolution model s).
Proof. apply queues_fold_nil. intros. apply evolveNote_queues. Qed.

Lemma unregister_queues (k : nat) (s : AdditiveSynth) :
  queues [] s (withPending (Map_delete k (pendingCleanups s)) s).
Proof.
  apply (queues_drop s _ (fun _ => true)); [|done| |done].
  - simpl. symmetry. apply forallb_filter_id. by apply forallb_forall.
  - intros e He. by apply Map_delete_elem in He.
Qed.

(** ** What the operations do to the voice table *)

Lemma Map_delete_get_None {V : Type} (k : nat) (m : list (nat * V)) :
  Map_get k m = None -> Map_delete k m = m.
Proof. intros H. apply Map_delete_absent. by apply Map_get_None_keys. Qed.

Lemma cleanupNote_notes (noteId : nat) (s : AdditiveSynth) :
  activeNotes (cleanupNote noteId s) = Map_delete noteId (activeNotes s).
Proof.
  destruct (Map_get noteId (activeNotes s)) as [note|] eqn:Hget.
  - by apply (cleanupNote_spec s noteId note).
  - unfold cleanupNote. rewrite Hget. by rewrite Map_delete_get_None.
Qed.

Lemma noteOff_notes (noteId : nat) (releaseTime : Q) (immediate : bool) (s : AdditiveSynth) :
  activeNotes (noteOff noteId releaseTime immediate s)
  = if immediate then Map_delete noteId (activeNotes s) else activeNotes s.
Proof.
  destruct immediate; [|apply noteOff_deferred_sameVoices].
  unfold noteOff. destruct (Map_get noteId (activeNotes s)) as [note|] eqn:Hget;
    [|by rewrite Map_delete_get_None].
  cbv zeta. set (s0 := cancelPendingCleanup noteId s).
  set (s1 := fold_left _ (partials note) s0).
  set (s2 := if Qltb _ _ then _ else s1).
  assert (activeNotes s2 = activeNotes s) as Hnotes.
  { assert (sameVoices s s1) as [H1 _].
    { eapply sameVoices_trans; [apply cancelPendingCleanup_sameVoices|].
      apply fold_sameVoices. intros. apply releasePartial_sameVoices. }
    unfold s2. by destruct (Qltb _ _). }
  by rewrite cleanupNote_notes, Hnotes.
Qed.

Lemma evolveNote_notes (model : AcousticModel) (now : Q) (s : AdditiveSynth)
    (noteId : nat) (note : Note) :
  exists note',
    partials note' = partials note /\
    activeNotes (evolveNote model now s (noteId, note)) = Map_set noteId note' (activeNotes s).
Proof.
  unfold evolveNote.
  pose proof (evolvePartials_sameSchedule model now note (imap pair (partials note)) s)
    as (_ & _ & _ & _ & Hnotes).
  set (s1 := fold_left _ (imap pair (partials note)) s) in *.
  cbv zeta. set (s2 := if _ && _ then _ else s1).
  assert (activeNotes s2 = activeNotes s) as H2.
  { unfold s2. destruct (_ && _); [|done]. by destruct (Map_has _ _). }
  eexists. split; [|simpl; rewrite H2; reflexivity]. done.
Qed.

Lemma voiceRefs_elem (m : list (nat * Note)) (k : nat) (ps : list nat) :
  NoDup (map fst m) -> (k, ps) ∈ voiceRefs m ->
  exists v, Map_get k m = Some v /\ partials v = ps.
Proof.
  intros Hnd Hin. unfold voiceRefs in Hin. change map with (@fmap list _) in Hin.
  apply list_elem_of_fmap in Hin as ([k' v] & [= -> ->] & Hin).
  exists v. split; [|done]. by apply Map_get_NoDup.
Qed.

(** A tick rewrites each voice in place: ids and partials stay. *)
Lemma tick_voiceRefs (model : AcousticModel) (s : AdditiveSynth) :
  NoDup (map fst (activeNotes s)) ->
  voiceRefs (activeNotes (updateHarmonicEvolution model s)) = voiceRefs (activeNotes s).
Proof.
  intros Hnd. unfold updateHarmonicEvolution.
  apply (fold_left_preserves_elem
           (fun s' => voiceRefs (activeNotes s') = voiceRefs (activeNotes s))); [|done].
  intros s' [k note] Hin Hs'.
  destruct (evolveNote_notes model (currentTime s) s' k note) as (note' & Hp & ->).
  rewrite <- Hs'.
  assert ((k, partials note) ∈ voiceRefs (activeNotes s')) as Hk.
  { rewrite Hs'. unfold voiceRefs. change map with (@fmap list _).
    apply list_elem_of_fmap. by exists (k, note). }
  apply voiceRefs_elem in Hk as (v & Hget & Hv).
  - apply (voiceRefs_set k note' v); [done|congruence].
  - by rewrite <- voiceRefs_keys, Hs', voiceRefs_keys.
Qed.

Lemma updateNoteState_voiceRefs (noteId : nat) (kd pd : bool) (s : AdditiveSynth) :
  voiceRefs (activeNotes (updateNoteState noteId kd pd s)) = voiceRefs (activeNotes s).
Proof.
  unfold updateNoteState. destruct (Map_get noteId (activeNotes s)) as [note|] eqn:E; [|done].
  simpl. by apply (voiceRefs_set noteId _ note).
Qed.

(** ** Firing a timer *)

Lemma find_elem {A : Type} (P : A -> bool) (l : list A) (x : A) :
  List.find P l = Some x -> x ∈ l /\ P x = true.
Proof. intros H. apply find_some in H as [H ?]. by apply list_elem_of_In in H. Qed.

Lemma timers_inv_drop (s s' : AdditiveSynth) (P : Timer -> bool) :
  timers s' = List.filter P (timers s) ->
  nextTimerId s' = nextTimerId s ->
  (forall e, e ∈ pendingCleanups s' -> e ∈ pendingCleanups s) ->
  timers_inv s -> timers_inv s'.
Proof.
  intros Ht Hn Hp [H1 H2 H3 H4]. split; rewrite ?Ht, ?Hn.
  - intros t [Hin _]%filter_elem. by apply H1.
  - by apply filter_map_NoDup.
  - intros e He. apply H3. by apply Hp.
  - intros e t He [Hin _]%filter_elem. apply H4; [by apply Hp|done].
Qed.

(** With ids handed out once, [clearTimeout] removes one timer. *)
Lemma clearTimeout_releases (ts : list Timer) (t : Timer) :
  NoDup (map timerId ts) -> t ∈ ts ->
  flat_map releaseRef ts
  ≡ₚ releaseRef t
     ++ flat_map releaseRef (List.filter (fun t' => negb (timerId t' =? timerId t)) ts).
Proof.
  induction ts as [|x ts IH]; simpl; intros Hnd Hin; [by apply elem_of_nil in Hin|].
  apply NoDup_cons in Hnd as [Hx Hnd].
  assert (forall y, y ∈ ts -> timerId y <> timerId x) as Hne.
  { intros y Hy E. apply Hx. change map with (@fmap list _).
    apply list_elem_of_fmap. by exists y. }
  apply elem_of_cons in Hin as [->|Hin].
  - rewrite Nat.eqb_refl. simpl. apply Permutation_app_head.
    rewrite forallb_filter_id; [done|]. apply forallb_forall. intros y Hy.
    apply negb_true_iff, Nat.eqb_neq, Hne. by apply list_elem_of_In.
  - destruct (timerId x =? timerId t) eqn:E.
    + apply Nat.eqb_eq in E. by destruct (Hne t Hin).
    + simpl. rewrite (IH Hnd Hin) at 1. apply Permutation_app_swap_app.
Qed.

(** ** The ownership invariant, operation by operation *)

Lemma inUseAt_shape (pp pp' : PartialPool) (ref : nat) :
  poolShape pp = poolShape pp' -> inUseAt pp ref -> inUseAt pp' ref.
Proof. intros Hs (p & Hp & Hu). by apply (inUseKept_shape pp pp' Hs ref p). Qed.

(** An operation that moves references around without touching any
    in-use flag. *)
Lemma owned_keep (n : nat) (s s' : AdditiveSynth) :
  owned n s ->
  poolShape (partialPool s) = poolShape (partialPool s') ->
  timers_inv s' -> NoDup (map fst (activeNotes s')) ->
  heldPartials s' ≡ₚ heldPartials s ->
  owned n s' /\ (accounted s -> accounted s').
Proof.
  intros [Hp Ht Hk Ho Hu] Hs Ht' Hk' Hperm. split.
  - split; [by eapply shape_inv|done|done|by rewrite Hperm|].
    intros ref Hin. apply (inUseAt_shape _ _ _ Hs). apply Hu. by rewrite <- Hperm.
  - unfold accounted. rewrite <- (shape_count _ _ Hs). intros ->.
    symmetry. by apply Permutation_length.
Qed.

Lemma held_cleanup (s s' : AdditiveSynth) (noteId : nat) :
  NoDup (map fst (activeNotes s)) ->
  activeNotes s' = Map_delete noteId (activeNotes s) ->
  pendingReleases s' = pendingReleases s ++ match Map_get noteId (activeNotes s) with
                                            | Some note => partials note
                                            | None => []
                                            end ->
  heldPartials s' ≡ₚ heldPartials s.
Proof.
  intros Hnd Hn Hp. unfold heldPartials, voicePartials. rewrite Hn, Hp.
  destruct (Map_get noteId (activeNotes s)) as [note|] eqn:E.
  - rewrite (voicePartials_delete noteId note (activeNotes s) Hnd E).
    rewrite <- app_assoc. apply Permutation_app_head, Permutation_app_comm.
  - by rewrite app_nil_r, Map_delete_get_None.
Qed.

Lemma cleanupNote_owned (n noteId : nat) (s : AdditiveSynth) :
  owned n s ->
  owned n (cleanupNote noteId s) /\ (accounted s -> accounted (cleanupNote noteId s)).
Proof.
  intros Ho. destruct (cleanupNote_queues noteId s (owned_timers _ _ Ho)) as [Ht Hp].
  apply owned_keep; [done|symmetry; apply cleanupNote_shape|done| |].
  - rewrite cleanupNote_notes. apply Map_delete_NoDup, Ho.
  - apply (held_cleanup s _ noteId); [apply Ho|apply cleanupNote_notes|done].
Qed.

Lemma noteOff_owned (n noteId : nat) (releaseTime : Q) (immediate : bool) (s : AdditiveSynth) :
  owned n s ->
  owned n (noteOff noteId releaseTime immediate s) /\
  (accounted s -> accounted (noteOff noteId releaseTime immediate s)).
Proof.
  intros Ho.
  destruct (noteOff_queues noteId releaseTime immediate s (owned_timers _ _ Ho)) as [Ht Hp].
  pose proof (noteOff_notes noteId releaseTime immediate s) as Hn.
  apply owned_keep; [done|symmetry; apply noteOff_shape|done| |].
  - rewrite Hn. destruct immediate; [apply Map_delete_NoDup|]; apply Ho.
  - destruct immediate.
    + apply (held_cleanup s _ noteId); [apply Ho|done|done].
    + unfold heldPartials, voicePartials. rewrite Hn, Hp.
      destruct (Map_get noteId (activeNotes s)); by rewrite app_nil_r.
Qed.

Lemma updateNoteState_owned (n noteId : nat) (kd pd : bool) (s : AdditiveSynth) :
  owned n s ->
  owned n (updateNoteState noteId kd pd s) /\
  (accounted s -> accounted (updateNoteState noteId kd pd s)).
Proof.
  intros Ho.
  assert (queues [] s (updateNoteState noteId kd pd s)) as Hq.
  { unfold updateNoteState. destruct (Map_get noteId (activeNotes s));
      [by apply queues_same|apply queues_refl]. }
  destruct (Hq (owned_timers _ _ Ho)) as [Ht Hp].
  pose proof (updateNoteState_voiceRefs noteId kd pd s) as Hv.
  apply owned_keep; [done| |done| |].
  - unfold updateNoteState. by destruct (Map_get noteId (activeNotes s)).
  - rewrite <- voiceRefs_keys, Hv, voiceRefs_keys. apply Ho.
  - unfold heldPartials. by rewrite !voiceRefs_partials, Hv, Hp, app_nil_r.
Qed.

Lemma tick_owned (model : AcousticModel) (n : nat) (s : AdditiveSynth) :
  owned n s ->
  owned n (updateHarmonicEvolution model s) /\
  (accounted s -> accounted (updateHarmonicEvolution model s)).
Proof.
  intros Ho. destruct (tick_queues model s (owned_timers _ _ Ho)) as [Ht Hp].
  pose proof (tick_voiceRefs model s (owned_keys _ _ Ho)) as Hv.
  apply owned_keep; [done|symmetry; apply tick_shape|done| |].
  - rewrite <- voiceRefs_keys, Hv, voiceRefs_keys. apply Ho.
  - unfold heldPartials. by rewrite !voiceRefs_partials, Hv, Hp, app_nil_r.
Qed.

Lemma unregister_owned (n k : nat) (s : AdditiveSynth) :
  owned n s ->
  owned n (withPending (Map_delete k (pendingCleanups s)) s) /\
  (accounted s -> accounted (withPending (Map_delete k (pendingCleanups s)) s)).
Proof.
  intros Ho. destruct (unregister_queues k s (owned_timers _ _ Ho)) as [Ht Hp].
  apply owned_keep; [done|done|done|apply Ho|].
  unfold heldPartials. by rewrite Hp, app_nil_r.
Qed.

(** The callback of a partial's timer hands back a partial no voice and
    no other timer refers to. *)
Lemma partialTimeout_owned (n ref : nat) (s sc : AdditiveSynth) :
  owned n s -> timers_inv sc ->
  partialPool sc = partialPool s -> activeNotes sc = activeNotes s ->
  pendingReleases s ≡ₚ ref :: pendingReleases sc ->
  let s' := runCallback (PartialTimeout ref) sc in
  owned n s' /\ (accounted s -> accounted s').
Proof.
  intros Ho Htc Hpool Hnotes Hperm s'.
  assert (heldPartials s ≡ₚ ref :: heldPartials sc) as Hheld.
  { unfold heldPartials, voicePartials. rewrite Hperm, Hnotes.
    symmetry. apply Permutation_middle. }
  pose proof (owned_once _ _ Ho) as Hnd. rewrite Hheld in Hnd.
  apply NoDup_cons in Hnd as [Hfresh Hnd].
  destruct (owned_inUse _ _ Ho ref) as (p & Hp & Hu); [rewrite Hheld; left|].
  rewrite <- Hpool in Hp.
  destruct (partialTimeout_releases sc ref p Hp Hu) as [Hav _]. fold s' in Hav.
  assert (pool_inv n (partialPool s')) as Hinv'.
  { apply runCallback_inv. rewrite Hpool. apply Ho. }
  assert (heldPartials s' = heldPartials sc) as Hsame by done.
  split.
  - split; [done|by apply (queues_same sc s' eq_refl eq_refl eq_refl Htc)| |by rewrite Hsame|].
    { change (NoDup (map fst (activeNotes sc))). rewrite Hnotes. apply Ho. }
    intros r Hr. rewrite Hsame in Hr.
    assert (r <> ref) as Hne by (by intros ->).
    destruct (owned_inUse _ _ Ho r) as (q & Hq & Hqu); [rewrite Hheld; by right|].
    exists q. split; [|done]. rewrite <- Hpool in Hq. unfold s', runCallback.
    change (partialPool (withPool ?pp _)) with pp.
    set (w := updatePartial ref (withConnected false) sc).
    assert (pool (partialPool w) !! ref = Some (withConnected false p)) as Hw.
    { unfold w. simpl. by rewrite list_lookup_alter_eq, Hp. }
    rewrite (release_inUse _ _ _ Hw Hu). simpl.
    rewrite list_lookup_insert_ne by done. by rewrite list_lookup_alter_ne.
  - unfold accounted. rewrite Hsame, Hheld. simpl.
    destruct Hinv' as (_ & _ & Hc'). destruct (owned_pool _ _ Ho) as (_ & _ & Hc).
    rewrite Hav, length_app, Hpool in Hc'. simpl in Hc'. lia.
Qed.

Lemma runCallback_owned (n : nat) (a : TimerAction) (s : AdditiveSynth) :
  releaseRef (mkTimer 0 0 a) = [] ->
  owned n s -> owned n (runCallback a s) /\ (accounted s -> accounted (runCallback a s)).
Proof.
  intros Ha Ho. destruct a as [noteId|noteId|ref|node]; [| |done|]; unfold runCallback.
  - destruct (cleanupNote_owned n noteId s Ho) as [Ho1 Ha1].
    destruct (unregister_owned n noteId _ Ho1) as [Ho2 Ha2]. split; [done|tauto].
  - set (s1 := match Map_get noteId (activeNotes s) with Some _ => _ | None => s end).
    assert (owned n s1 /\ (accounted s -> accounted s1)) as [Ho1 Ha1].
    { unfold s1. destruct (Map_get noteId (activeNotes s)); [|done].
      destruct (belowThreshold _ _); [by apply cleanupNote_owned|done]. }
    destruct (unregister_owned n noteId _ Ho1) as [Ho2 Ha2]. split; [done|tauto].
  - apply owned_keep; [done|done| |apply Ho|done].
    by apply (updateNoteGain_queues node _ s), Ho.
Qed.

Lemma fireTimer_owned (n id : nat) (s : AdditiveSynth) :
  owned n s -> owned n (fireTimer id s) /\ (accounted s -> accounted (fireTimer id s)).
Proof.
  intros Ho. unfold fireTimer.
  destruct (List.find _ (timers s)) as [t|] eqn:Hfind; [|done].
  destruct (Qle_bool _ _); [|done].
  apply find_elem in Hfind as [Hin <-%Nat.eqb_eq].
  set (sc := clearTimeout (timerId t) s).
  assert (timers_inv sc) as Htc.
  { apply (timers_inv_drop s sc (fun t' => negb (timerId t' =? timerId t)));
      [done|done|done|apply Ho]. }
  pose proof (clearTimeout_releases (timers s) t (timers_nodup _ (owned_timers _ _ Ho)) Hin)
    as Hperm.
  destruct (action t) as [noteId|noteId|ref|node] eqn:Hact.
  1,2,4: assert (owned n sc /\ (accounted s -> accounted sc)) as [Ho1 Ha1];
    [apply owned_keep; [done|done|done|apply Ho|];
     unfold heldPartials; apply Permutation_app_head; unfold pendingReleases;
     rewrite Hperm; unfold releaseRef; by rewrite Hact
    |match goal with
     | |- owned _ (runCallback ?a _) /\ _ =>
         destruct (runCallback_owned _ a _ eq_refl Ho1) as [Ho2 Ha2]
     end; split; [done|tauto]].
  apply (partialTimeout_owned n ref s sc Ho Htc eq_refl eq_refl).
  unfold pendingReleases. rewrite Hperm. unfold releaseRef at 1. by rewrite Hact.
Qed.

Lemma submseteq_keeps_NoDup {A : Type} (l k : list A) : l ⊆+ k -> NoDup k -> NoDup l.
Proof. intros [k' E]%submseteq_Permutation. rewrite E. by intros [? _]%NoDup_app. Qed.

Lemma voicePartials_set_sub (k : nat) (v : Note) (m : list (nat * Note)) :
  NoDup (map fst m) ->
  flat_map (fun e => partials (snd e)) (Map_set k v m)
  ⊆+ flat_map (fun e => partials (snd e)) m ++ partials v.
Proof.
  intros Hnd. destruct (Map_get k m) as [v0|] eqn:E.
  - rewrite (voicePartials_set_used k v v0 m Hnd E). apply submseteq_skips_r.
    apply sublist_submseteq, flat_map_filter_sublist.
  - by rewrite voicePartials_set_fresh.
Qed.

(** [noteOn] gives the new voice partials nobody holds; under an id in
    use it drops the references of the voice it replaces, and only then
    does the count of partials in use exceed the references held. *)
Lemma noteOn_owned (model : AcousticModel) (n noteId : nat) (freq0 : Q) (vel : Z)
    (kd pd : bool) (s : AdditiveSynth) :
  owned n s ->
  exists h s',
    noteOn model noteId freq0 vel kd pd s = Returned (h, s') /\ owned n s' /\
    (Map_has noteId (activeNotes s) = false -> accounted s -> accounted s').
Proof.
  intros Ho.
  destruct (noteOn_spec model n noteId freq0 vel kd pd s (owned_pool _ _ Ho))
    as (s1 & popped & Hon & Hlen & Hav & Hinv1 & Hkept & Hall).
  cbv zeta in Hon. eexists _, _. split; [exact Hon|].
  destruct (noteOn_queues _ _ _ _ _ _ _ _ _ Hon (owned_timers _ _ Ho)) as [Ht Hp].
  rewrite app_nil_r in Hp.
  match type of Hon with
  | _ = Returned (_, withNotes (Map_set _ ?v _) _) => set (new := v) in *
  end.
  set (s' := withNotes (Map_set noteId new (activeNotes s)) s1) in *.
  assert (heldPartials s'
          = flat_map (fun e => partials (snd e)) (Map_set noteId new (activeNotes s))
            ++ pendingReleases s) as Hheld.
  { unfold heldPartials. by rewrite Hp. }
  assert (NoDup (heldPartials s ++ popped)) as Hnd.
  { apply NoDup_app. split; [apply Ho|]. split.
    - intros x Hx Hpop. destruct (owned_inUse _ _ Ho x Hx) as (p & Hp' & Hu).
      assert (x ∈ available (partialPool s)) as Hfree.
      { rewrite Hav. apply elem_of_app. right.
        apply list_elem_of_In. rewrite <- in_rev. by apply list_elem_of_In. }
      apply (wf_free _ (proj1 (owned_pool _ _ Ho))) in Hfree as (q & Hq & Hfalse).
      congruence.
    - pose proof (wf_nodup _ (proj1 (owned_pool _ _ Ho))) as Hfree.
      rewrite Hav in Hfree. apply NoDup_app in Hfree as (_ & _ & Hfree).
      by rewrite (Permutation_rev popped). }
  assert (heldPartials s' ⊆+ heldPartials s ++ popped) as Hsub.
  { rewrite Hheld. unfold heldPartials, voicePartials.
    transitivity ((flat_map (fun e => partials (snd e)) (activeNotes s) ++ popped)
                  ++ pendingReleases s).
    - apply submseteq_skips_r. apply (voicePartials_set_sub noteId new), Ho.
    - apply Permutation_submseteq. rewrite <- !app_assoc.
      apply Permutation_app_head, Permutation_app_comm. }
  split.
  - split; [exact Hinv1|done|apply Map_set_NoDup, Ho|by apply (submseteq_keeps_NoDup _ _ Hsub)|].
    intros r Hr. apply (elem_of_submseteq _ _ _ Hr) in Hsub.
    apply elem_of_app in Hsub as [H|H].
    + destruct (owned_inUse _ _ Ho r H) as (p & Hp' & Hu). by apply (Hkept r p).
    + rewrite Forall_forall in Hall. by apply Hall.
  - intros Hfresh Hacc. unfold accounted in *.
    assert (Map_get noteId (activeNotes s) = None) as Hnone.
    { unfold Map_has in Hfresh. by destruct (Map_get noteId (activeNotes s)). }
    rewrite Hheld, voicePartials_set_fresh by done. rewrite !length_app.
    change (partials new) with popped. change (partialPool s') with (partialPool s1).
    destruct Hinv1 as (_ & _ & Hc1). destruct (owned_pool _ _ Ho) as (_ & _ & Hc).
    rewrite Hav, length_app, length_rev in Hc.
    unfold heldPartials, voicePartials in Hacc. rewrite length_app in Hacc. lia.
Qed.

Lemma runEngineOp_owned (model : AcousticModel) (n : nat) (op : EngineOp) (s : AdditiveSynth) :
  owned n s ->
  exists s',
    runEngineOp model op s = Returned s' /\ owned n s' /\
    (match op with
     | CallNoteOn noteId _ _ _ _ => Map_has noteId (activeNotes s) = false
     | _ => True
     end -> accounted s -> accounted s').
Proof.
  intros Ho. destruct op as [noteId f v kd pd|noteId r imm|noteId kd pd| |id|dt|live]; simpl.
  - destruct (noteOn_owned model n noteId f v kd pd s Ho) as (h & s' & Hon & Ho' & Ha').
    rewrite Hon. simpl. eauto.
  - destruct (noteOff_owned n noteId r imm s Ho). eauto.
  - destruct (updateNoteState_owned n noteId kd pd s Ho). eauto.
  - destruct (tick_owned model n s Ho). eauto.
  - destruct (fireTimer_owned n id s Ho). eauto.
  - assert (owned n (advanceClock dt s) /\ (accounted s -> accounted (advanceClock dt s)))
      as [Ho' Ha'].
    { apply owned_keep; [done|done| |apply Ho|done].
      by apply (queues_same s (advanceClock dt s) eq_refl eq_refl eq_refl), Ho. }
    eauto.
  - assert (owned n (audioRender live s) /\ (accounted s -> accounted (audioRender live s)))
      as [Ho' Ha'].
    { apply owned_keep; [done|symmetry; apply audioRender_shape| |apply Ho|done].
      by apply (queues_same s (audioRender live s) eq_refl eq_refl eq_refl), Ho. }
    eauto.
Qed.

Lemma runEngine_owned (model : AcousticModel) (n : nat) (ops : list EngineOp) :
  forall s, owned n s ->
  exists s',
    runEngine model ops s = Returned s' /\ owned n s' /\
    (freshIds model ops s -> accounted s -> accounted s').
Proof.
  induction ops as [|op ops IH]; intros s Ho; simpl; [eauto|].
  destruct (runEngineOp_owned model n op s Ho) as (s1 & Hop & Ho1 & Ha1).
  destruct (IH s1 Ho1) as (s2 & Hrun & Ho2 & Ha2).
  rewrite Hop. simpl. exists s2. split; [done|]. split; [done|].
  intros [Hfresh Hrest] Hacc. auto.
Qed.

Lemma synthWithPool_owned (n : nat) : owned n (synthWithPool n) /\ accounted (synthWithPool n).
Proof.
  split; [split|].
  - apply PartialPool_new_inv.
  - split; simpl; [by intros t Ht%elem_of_nil|apply NoDup_nil_2|by intros e He%elem_of_nil|].
    by intros e t He%elem_of_nil.
  - apply NoDup_nil_2.
  - apply NoDup_nil_2.
  - by intros ref Href%elem_of_nil.
  - unfold accounted. simpl. apply PartialPool_new_counts.
Qed.

(** ** The partials a note-on activates *)

(** ** What the acquisition loop writes *)










Lemma getActivePartialCount_voices (s : AdditiveSynth) :
  getActivePartialCount s = length (voicePartials s).
Proof.
  unfold getActivePartialCount, voicePartials.
  enough (forall m k, fold_left (fun count (e : nat * Note) => count + length (partials (snd e)))
                        m k
                      = k + length (flat_map (fun e => partials (snd e)) m)) as H
    by apply (H (activeNotes s) 0).
  induction m as [|e m IH]; intros k; simpl; [lia|].
  rewrite IH, length_app. lia.
Qed.

Lemma held_not_free (n : nat) (s : AdditiveSynth) (ref : nat) :
  owned n s -> ref ∈ heldPartials s -> ref ∉ available (partialPool s).
Proof.
  intros Ho Hin Hfree. destruct (owned_inUse _ _ Ho ref Hin) as (p & Hp & Hu).
  apply (wf_free _ (proj1 (owned_pool _ _ Ho))) in Hfree as (q & Hq & Hf). congruence.
Qed.

Lemma held_le_inUse (n : nat) (s : AdditiveSynth) :
  owned n s -> length (heldPartials s) <= inUseCount (partialPool s).
Proof.
  intros Ho. destruct (owned_pool _ _ Ho) as (Hwf & Hlen & Hc).
  assert (NoDup (heldPartials s ++ available (partialPool s))) as Hnd.
  { apply NoDup_app. split; [apply Ho|]. split; [|apply Hwf].
    intros x Hx. by apply (held_not_free n). }
  assert (heldPartials s ++ available (partialPool s) ⊆+ seq 0 n) as Hsub.
  { apply NoDup_submseteq; [done|]. intros x Hx. apply elem_of_seq. split; [lia|].
    apply elem_of_app in Hx as [Hx|Hx].
    - destruct (owned_inUse _ _ Ho x Hx) as (p & Hp & _).
      apply lookup_lt_Some in Hp. lia.
    - apply (wf_free _ Hwf) in Hx as (q & Hq & _). apply lookup_lt_Some in Hq. lia. }
  apply submseteq_length in Hsub. rewrite length_app, length_seq in Hsub. lia.
Qed.

(** Along every run of the engine from its constructor, each partial
    has at most one holder: the voices' partial lists and the partials
    awaiting their release timer never repeat a partial, every partial
    held is marked in use and is not on the free stack, so no partial of a
    sounding voice can be handed to another voice.  Hence the partials the
    engine counts as active, plus those awaiting release, never exceed the
    partials in use, which never exceed the capacity. *)
Theorem partials_have_one_holder (model : AcousticModel) (capacity : nat)
    (ops : list EngineOp) :
  exists s,
    runEngine model ops (synthWithPool capacity) = Returned s /\
    NoDup (map fst (activeNotes s)) /\
    NoDup (voicePartials s ++ pendingReleases s) /\
    (forall ref, ref ∈ (voicePartials s ++ pendingReleases s) ->
       (ref ∉ available (partialPool s)) /\ inUseAt (partialPool s) ref) /\
    getActivePartialCount s + length (pendingReleases s) <= inUseCount (partialPool s) /\
    inUseCount (partialPool s) <= capacity.
Proof.
  destruct (runEngine_owned model capacity ops _ (proj1 (synthWithPool_owned capacity)))
    as (s & Hrun & Ho & _).
  exists s. split; [done|]. split; [apply Ho|]. split; [apply Ho|]. split.
  - intros ref Href. split; [by apply (held_not_free capacity)|by apply Ho].
  - pose proof (held_le_inUse _ _ Ho) as Hle. unfold heldPartials in Hle.
    rewrite length_app, <- getActivePartialCount_voices in Hle. split; [done|].
    destruct (owned_pool _ _ Ho) as (_ & _ & Hc). lia.
Qed.

(** On a run whose calls Web Audio accepts, so that no [noteOn] is cut
    short by an exception between [acquire] and the entry in the voice
    table, and whose every [noteOn] uses a note id that is not active at
    the time of the call, no partial is lost: the partials in use are
    exactly those of the voices plus those awaiting their release timer,
    and once no voice and no release timer is left the whole pool is back
    on the free stack. *)
Theorem fresh_ids_leak_nothing (model : AcousticModel) (capacity : nat)
    (ops : list EngineOp) :
  acceptedRun model ops (synthWithPool capacity) ->
  freshIds model ops (synthWithPool capacity) ->
  exists s,
    runEngine model ops (synthWithPool capacity) = Returned s /\
    inUseCount (partialPool s) = getActivePartialCount s + length (pendingReleases s) /\
    (activeNotes s = [] -> pendingReleases s = [] ->
     length (available (partialPool s)) = capacity).
Proof.
  intros _ Hfresh.
  destruct (synthWithPool_owned capacity) as [Ho0 Ha0].
  destruct (runEngine_owned model capacity ops _ Ho0) as (s & Hrun & Ho & Ha).
  specialize (Ha Hfresh Ha0). unfold accounted, heldPartials in Ha.
  rewrite length_app, <- getActivePartialCount_voices in Ha.
  exists s. split; [done|]. split; [done|].
  intros Hnotes Hrel. destruct (owned_pool _ _ Ho) as (_ & _ & Hc).
  rewrite Ha, Hrel in Hc. unfold getActivePartialCount in Hc. rewrite Hnotes in Hc.
  simpl in Hc. lia.
Qed.

Lemma fresh_ids_leak_nothing_witness :
  exists s,
    runEngine (flatModel twoPartials) playedAndReleased (synthWithPool 4) = Returned s /\
    inUseCount (partialPool s) = getActivePartialCount s + length (pendingReleases s) /\
    (activeNotes s = [] -> pendingReleases s = [] ->
     length (available (partialPool s)) = 4).
Proof.
  apply (fresh_ids_leak_nothing (flatModel twoPartials) 4 playedAndReleased).
  - vm_compute. repeat split.
  - vm_compute. repeat split.
Defined.

(** ** A deferred release, from [noteOff] to the cleanup *)

Lemma find_app_last {A : Type} (P : A -> bool) (l : list A) (x : A) :
  (forall y, y ∈ l -> P y = false) -> P x = true -> List.find P (l ++ [x]) = Some x.
Proof.
  intros Hl Hx. induction l as [|y l IH]; simpl; [by rewrite Hx|].
  rewrite (Hl y) by left. apply IH. intros z Hz. apply Hl. by right.
Qed.

Lemma sameSchedule_trans (a b c : AdditiveSynth) :
  sameSchedule a b -> sameSchedule b c -> sameSchedule a c.
Proof.
  intros (H1 & H2 & H3 & H4 & H5) (G1 & G2 & G3 & G4 & G5). repeat split; congruence.
Qed.

(** What the deferred branch of [noteOff] leaves in the timer queue and
    in the cleanup table. *)
Lemma noteOff_deferred_timers (noteId : nat) (releaseTime : Q) (s : AdditiveSynth) (note : Note) :
  Map_get noteId (activeNotes s) = Some note ->
  let s0 := cancelPendingCleanup noteId s in
  let s1 := noteOff noteId releaseTime false s in
  timers s1 = timers s0 ++ [mkTimer (nextTimerId s)
                              (currentTime s * 1000 + Qmax 0 (releaseTime * 1000 + 100))%Q
                              (ReleaseTimeout noteId)] /\
  nextTimerId s1 = S (nextTimerId s) /\
  pendingCleanups s1 = Map_set noteId (nextTimerId s) (pendingCleanups s0) /\
  currentTime s1 = currentTime s.
Proof.
  intros Hget. cbv zeta. unfold noteOff. rewrite Hget. cbv zeta.
  set (s0 := cancelPendingCleanup noteId s).
  set (s1 := fold_left _ (partials note) s0).
  set (s2 := if Qltb _ _ then _ else s1).
  assert (sameSchedule s0 s2) as (Hp & Ht & Hn & Hc & _).
  { apply (sameSchedule_trans s0 s1).
    - apply (fold_left_preserves (sameSchedule s0)); [|by repeat split].
      intros s' x Hs'. apply (sameSchedule_trans s0 s' _ Hs'). by repeat split.
    - unfold s2. destruct (Qltb _ _); by repeat split. }
  assert (nextTimerId s0 = nextTimerId s) as Hn0.
  { unfold s0, cancelPendingCleanup. by destruct (Map_get noteId (pendingCleanups s)). }
  assert (currentTime s0 = currentTime s) as Hc0 by apply cancelPendingCleanup_time.
  simpl. rewrite Hp, Ht, Hn, Hc, Hn0, Hc0. done.
Qed.

Lemma cancelPendingCleanup_timers_elem (noteId : nat) (s : AdditiveSynth) (t : Timer) :
  t ∈ timers (cancelPendingCleanup noteId s) -> t ∈ timers s.
Proof.
  unfold cancelPendingCleanup. destruct (Map_get noteId (pendingCleanups s)); [|done].
  simpl. by intros [H _]%filter_elem.
Qed.

(** In any state the engine reaches, a deferred [noteOff] of an active
    voice with a release time that is not negative arms one timer, under
    the next timer id, due [releaseTime] + 100 ms later.  Fired before
    that, the timer does nothing; fired from then on, it removes the voice
    from the table, clears its entry in the cleanup table and queues the
    release of exactly the partials of the voice, none of which is on the
    free stack yet. *)
Theorem deferred_release_completes (model : AcousticModel) (capacity : nat)
    (ops : list EngineOp) (s : AdditiveSynth) (noteId : nat) (note : Note) (releaseTime : Q) :
  runEngine model ops (synthWithPool capacity) = Returned s ->
  Map_get noteId (activeNotes s) = Some note ->
  (0 <= releaseTime)%Q ->
  let s1 := noteOff noteId releaseTime false s in
  let tid := nextTimerId s in
  (forall dt, (dt < releaseTime + 0.1)%Q ->
     fireTimer tid (advanceClock dt s1) = advanceClock dt s1) /\
  (forall dt, (releaseTime + 0.1 <= dt)%Q ->
     let s2 := fireTimer tid (advanceClock dt s1) in
     activeNotes s2 = Map_delete noteId (activeNotes s) /\
     Map_get noteId (pendingCleanups s2) = None /\
     pendingReleases s2 = pendingReleases s ++ partials note /\
     available (partialPool s2) = available (partialPool s)).
Proof.
  intros Hrun Hget Hr. cbv zeta.
  destruct (runEngine_owned model capacity ops _ (proj1 (synthWithPool_owned capacity)))
    as (s' & Hrun' & Ho & _).
  rewrite Hrun in Hrun'. injection Hrun' as <-.
  destruct (noteOff_deferred_timers noteId releaseTime s note Hget) as (Ht & Hn & Hp & Hc).
  cbv zeta in Ht, Hn, Hp, Hc.
  set (s1 := noteOff noteId releaseTime false s) in *.
  set (new := mkTimer _ _ _) in Ht.
  assert (forall y, y ∈ timers (cancelPendingCleanup noteId s) ->
                    (timerId y =? nextTimerId s) = false) as Hold.
  { intros y Hy%cancelPendingCleanup_timers_elem. apply Nat.eqb_neq.
    pose proof (timers_below _ (owned_timers _ _ Ho) y Hy). lia. }
  assert (forall dt, List.find (fun t => timerId t =? nextTimerId s)
                       (timers (advanceClock dt s1)) = Some new) as Hfind.
  { intros dt. change (timers (advanceClock dt s1)) with (timers s1). rewrite Ht.
    apply find_app_last; [exact Hold|apply Nat.eqb_refl]. }
  split.
  - intros dt Hdt. unfold fireTimer. rewrite Hfind.
    destruct (Qle_bool _ _) eqn:E; [|done]. exfalso.
    apply Qle_bool_iff in E. simpl in E. rewrite Hc in E.
    pose proof (Q.le_max_r 0 (releaseTime * 1000 + 100)) as Hmax. lra.
  - intros dt Hdt. unfold fireTimer. rewrite Hfind.
    assert (Qle_bool (due new) (currentTime (advanceClock dt s1) * 1000) = true) as ->.
    { apply Qle_bool_iff. simpl. rewrite Hc. rewrite Q.max_r by lra. lra. }
    set (sa := advanceClock dt s1).
    set (sc := clearTimeout (nextTimerId s) sa).
    change (action new) with (ReleaseTimeout noteId). unfold runCallback.
    assert (activeNotes sc = activeNotes s) as Hnotes
      by apply (noteOff_deferred_sameVoices noteId releaseTime s).
    pose proof (noteOff_queues noteId releaseTime false s (owned_timers _ _ Ho)) as [Hi1 Hq1].
    rewrite Hget, app_nil_r in Hq1. fold s1 in Hi1, Hq1.
    destruct (queues_same s1 sa eq_refl eq_refl eq_refl Hi1) as [Hia Hqa].
    rewrite app_nil_r in Hqa.
    assert (queues [] sa sc) as Hdrop.
    { apply (queues_drop sa sc (fun t => negb (timerId t =? nextTimerId s)));
        [done|done|done|].
      intros t Hin HP. apply negb_false_iff in HP.
      change (timers sa) with (timers s1) in Hin. rewrite Ht in Hin.
      apply elem_of_app in Hin as [Hin| ->%list_elem_of_singleton]; [|done].
      by rewrite (Hold t Hin) in HP. }
    destruct (Hdrop Hia) as [Hic Hqc]. rewrite app_nil_r in Hqc.
    pose proof (cleanupNote_queues noteId sc Hic) as [Hi2 Hq2].
    rewrite Hnotes, Hget in Hq2.
    destruct (unregister_queues noteId _ Hi2) as [_ Hq3]. rewrite app_nil_r in Hq3.
    split; [|split; [|split]].
    + simpl. by rewrite cleanupNote_notes, Hnotes.
    + simpl. apply Map_get_delete_eq.
    + rewrite Hq3, Hq2, Hqc, Hqa, Hq1. done.
    + apply shape_available. simpl.
      rewrite cleanupNote_shape. apply (noteOff_shape noteId releaseTime false s).
Qed.

Lemma deferred_release_completes_witness :
  exists s note,
    runEngine (flatModel twoPartials) oneNoteRun (synthWithPool 4) = Returned s /\
    Map_get 5 (activeNotes s) = Some note /\
    activeNotes (fireTimer (nextTimerId s) (advanceClock 0.4 (noteOff 5 0.3 false s))) = [] /\
    pendingReleases (fireTimer (nextTimerId s) (advanceClock 0.4 (noteOff 5 0.3 false s)))
    = [3; 2].
Proof.
  eexists _, _.
  assert (forall a b : Prop, a -> (a -> b) -> a /\ b) as Hand by tauto.
  apply Hand; [vm_compute; reflexivity|]. intros Hrun.
  apply Hand; [vm_compute; reflexivity|]. intros Hget.
  assert (0 <= 0.3)%Q as Hr by (vm_compute; discriminate).
  destruct (deferred_release_completes _ _ _ _ 5 _ 0.3 Hrun Hget Hr) as [_ Hfire].
  destruct (Hfire 0.4%Q) as (Hn & _ & Hq & _); [vm_compute; discriminate|].
  split; [exact Hn|exact Hq].
Defined.

(** * The wrapper *)

(** ** Note ids stay below the counter *)

Lemma Map_set_Forall {V : Type} (P : nat * V -> Prop) (k : nat) (v : V) (m : list (nat * V)) :
  Forall P m -> P (k, v) -> Forall P (Map_set k v m).
Proof.
  intros Hm Hk. induction Hm as [|[k' v'] m Hx Hm IH]; simpl; [by repeat constructor|].
  destruct (k =? k'); by constructor.
Qed.

Lemma Map_delete_Forall {V : Type} (P : nat * V -> Prop) (k : nat) (m : list (nat * V)) :
  Forall P m -> Forall P (Map_delete k m).
Proof.
  intros Hm. apply Forall_forall. intros e He%Map_delete_elem.
  by apply (proj1 (Forall_forall _ _) Hm).
Qed.

Lemma keysBelow_get (k id : nat) (s : AdditiveSynth) (note : Note) :
  keysBelow k s -> Map_get id (activeNotes s) = Some note -> id < k.
Proof.
  intros Hk Hget%Map_get_elem. by apply (proj1 (Forall_forall _ _) Hk (id, note)).
Qed.

Lemma keysBelow_fresh (k : nat) (s : AdditiveSynth) :
  keysBelow k s -> Map_has k (activeNotes s) = false.
Proof.
  intros Hk. unfold Map_has. destruct (Map_get k (activeNotes s)) as [note|] eqn:E; [|done].
  pose proof (keysBelow_get _ _ _ _ Hk E). lia.
Qed.

Lemma cleanupNote_keysBelow (k noteId : nat) (s : AdditiveSynth) :
  keysBelow k s -> keysBelow k (cleanupNote noteId s).
Proof. intros Hk. unfold keysBelow. rewrite cleanupNote_notes. by apply Map_delete_Forall. Qed.

Lemma noteOff_keysBelow (k noteId : nat) (r : Q) (imm : bool) (s : AdditiveSynth) :
  keysBelow k s -> keysBelow k (noteOff noteId r imm s).
Proof.
  intros Hk. unfold keysBelow. rewrite noteOff_notes.
  destruct imm; [by apply Map_delete_Forall|done].
Qed.

Lemma updateNoteState_keysBelow (k noteId : nat) (kd pd : bool) (s : AdditiveSynth) :
  keysBelow k s -> keysBelow k (updateNoteState noteId kd pd s).
Proof.
  intros Hk. unfold updateNoteState.
  destruct (Map_get noteId (activeNotes s)) as [note|] eqn:E; [|done].
  apply Map_set_Forall; [done|]. by apply (keysBelow_get k noteId s note).
Qed.

Lemma tick_keysBelow (model : AcousticModel) (k : nat) (s : AdditiveSynth) :
  keysBelow k s -> keysBelow k (updateHarmonicEvolution model s).
Proof.
  intros Hk. unfold updateHarmonicEvolution.
  apply (fold_left_preserves_elem (keysBelow k)); [|done].
  intros s' [id note] Hin Hs'.
  destruct (evolveNote_notes model (currentTime s) s' id note) as (note' & _ & E).
  unfold keysBelow. rewrite E. apply Map_set_Forall; [done|].
  by apply (proj1 (Forall_forall _ _) Hk (id, note)).
Qed.

Lemma runCallback_keysBelow (k : nat) (a : TimerAction) (s : AdditiveSynth) :
  keysBelow k s -> keysBelow k (runCallback a s).
Proof.
  intros Hk. destruct a as [noteId|noteId|ref|node]; unfold runCallback; try done.
  - by apply (cleanupNote_keysBelow k noteId s).
  - destruct (Map_get noteId (activeNotes s)); [|done].
    destruct (belowThreshold _ _); [|done]. by apply (cleanupNote_keysBelow k noteId s).
Qed.

Lemma fireTimer_keysBelow (k id : nat) (s : AdditiveSynth) :
  keysBelow k s -> keysBelow k (fireTimer id s).
Proof.
  intros Hk. unfold fireTimer. destruct (List.find _ _); [|done].
  destruct (Qle_bool _ _); [|done]. by apply runCallback_keysBelow.
Qed.

Lemma keysBelow_mono (k k' : nat) (s : AdditiveSynth) :
  k <= k' -> keysBelow k s -> keysBelow k' s.
Proof. intros Hle Hk. eapply Forall_impl; [exact Hk|]. simpl. intros e He. lia. Qed.

(** ** What the wrapper's calls into the engine keep *)

Lemma noteOff_stable (n k noteId : nat) (r : Q) (imm : bool) (s : AdditiveSynth) :
  stable n k s -> stable n k (noteOff noteId r imm s).
Proof.
  intros (Ho & Ha & Hk). destruct (noteOff_owned n noteId r imm s Ho) as [Ho' Ha'].
  split; [done|]. split; [auto|by apply noteOff_keysBelow].
Qed.

Lemma updateNoteState_stable (n k noteId : nat) (kd pd : bool) (s : AdditiveSynth) :
  stable n k s -> stable n k (updateNoteState noteId kd pd s).
Proof.
  intros (Ho & Ha & Hk). destruct (updateNoteState_owned n noteId kd pd s Ho) as [Ho' Ha'].
  split; [done|]. split; [auto|by apply updateNoteState_keysBelow].
Qed.

Lemma updateNoteGain_stable (n k node : nat) (f : GainNode -> GainNode) (s : AdditiveSynth) :
  stable n k s -> stable n k (updateNoteGain node f s).
Proof.
  intros (Ho & Ha & Hk).
  assert (owned n (updateNoteGain node f s) /\ (accounted s -> accounted (updateNoteGain node f s)))
    as [Ho' Ha'].
  { apply owned_keep; [done|done| |apply Ho|done].
    by apply (updateNoteGain_queues node f s), Ho. }
  split; [done|]. split; [auto|done].
Qed.

Lemma renderNoteGains_stable (n k : nat) (live : nat -> Q) (s : AdditiveSynth) :
  stable n k s -> stable n k (renderNoteGains live s).
Proof.
  intros (Ho & Ha & Hk).
  assert (owned n (renderNoteGains live s) /\ (accounted s -> accounted (renderNoteGains live s)))
    as [Ho' Ha'].
  { apply owned_keep; [done|done| |apply Ho|done].
    by apply (queues_same s (renderNoteGains live s)), Ho. }
  split; [done|]. split; [auto|done].
Qed.

Lemma setNoteVolume_stable (n k noteId : nat) (volume : Q) (s : AdditiveSynth) :
  stable n k s -> stable n k (setNoteVolume noteId volume s).
Proof.
  intros H. unfold setNoteVolume. destruct (Map_get noteId (activeNotes s)); [|done].
  by apply updateNoteGain_stable.
Qed.

Lemma rampNoteVolume_stable (n k noteId : nat) (target duration : Q) (s : AdditiveSynth) :
  stable n k s -> stable n k (rampNoteVolume noteId target duration s).
Proof.
  intros H. unfold rampNoteVolume. destruct (Map_get noteId (activeNotes s)); [|done].
  by apply updateNoteGain_stable.
Qed.

Lemma engine_event_stable (model : AcousticModel) (n k : nat) (s : AdditiveSynth) :
  stable n k s ->
  stable n k (updateHarmonicEvolution model s) /\
  (forall id, stable n k (fireTimer id s)) /\
  (forall dt, stable n k (advanceClock dt s)) /\
  (forall live, stable n k (audioRender live s)).
Proof.
  intros (Ho & Ha & Hk). split; [|split; [|split]].
  - destruct (tick_owned model n s Ho) as [Ho' Ha'].
    split; [done|]. split; [auto|by apply tick_keysBelow].
  - intros id. destruct (fireTimer_owned n id s Ho) as [Ho' Ha'].
    split; [done|]. split; [auto|by apply fireTimer_keysBelow].
  - intros dt. destruct (runEngineOp_owned model n (Advance dt) s Ho) as (s' & [= <-] & Ho' & Ha').
    split; [done|]. split; [auto|done].
  - intros live.
    destruct (runEngineOp_owned model n (Render live) s Ho) as (s' & [= <-] & Ho' & Ha').
    split; [done|]. split; [auto|done].
Qed.

(** A [noteOn] under the id the counter holds. *)
Lemma noteOn_stable (model : AcousticModel) (n k : nat) (freq0 : Q) (vel : Z) (kd pd : bool)
    (s : AdditiveSynth) :
  stable n k s ->
  exists h s', noteOn model k freq0 vel kd pd s = Returned (h, s') /\ stable n (S k) s'.
Proof.
  intros (Ho & Ha & Hk).
  destruct (noteOn_owned model n k freq0 vel kd pd s Ho) as (h & s' & Hon & Ho' & Ha').
  exists h, s'. split; [done|]. split; [done|]. split; [apply Ha'; [by apply keysBelow_fresh|done]|].
  destruct (noteOn_spec model n k freq0 vel kd pd s (owned_pool _ _ Ho))
    as (s1 & popped & Hon' & _).
  cbv zeta in Hon'. rewrite Hon in Hon'. injection Hon' as _ ->.
  unfold keysBelow. simpl. apply Map_set_Forall; [|simpl; lia].
  apply (keysBelow_mono k (S k)); [lia|done].
Qed.

Lemma triggerAttack_stable (model : AcousticModel) (Math_pow : Q -> Q -> Q) (n : nat)
    (noteName : string) (velocity : option Q) (windowPedal : bool) (w : PolySynthWrapper) :
  stable n (noteIdCounter w) (synth w) ->
  exists w',
    Wrapper.triggerAttack model Math_pow noteName velocity windowPedal w = Returned w' /\
    noteIdCounter w' = S (noteIdCounter w) /\
    stable n (noteIdCounter w') (synth w').
Proof.
  intros Hs. unfold Wrapper.triggerAttack. cbv zeta.
  change (synth (mkWrapper ?s _ _ _ _ _)) with s.
  match goal with
  | |- context [noteOn model _ ?f ?v true ?pd (synth w)] =>
      destruct (noteOn_stable model n _ f v true pd _ Hs) as (h & s' & Hon & Hs')
  end.
  rewrite Hon. simpl.
  eexists. split; [reflexivity|].
  destruct (NameMap_has noteName (activeVoices w)); simpl.
  - destruct (NameMap_get noteName (activeVoices w)); simpl; done.
  - destruct (NameMap_get noteName (NameMap_set noteName [] (activeVoices w))); simpl; done.
Qed.

Lemma runWrapperOp_stable (model : AcousticModel) (Math_pow : Q -> Q -> Q) (n : nat)
    (op : WrapperOp) (w : PolySynthWrapper) :
  stable n (noteIdCounter w) (synth w) ->
  exists w',
    runWrapperOp model Math_pow op w = Returned w' /\
    stable n (noteIdCounter w') (synth w').
Proof.
  intros Hs.
  destruct (engine_event_stable model n _ _ Hs) as (Htick & Hfire & Hadv & Hrender).
  destruct op as [noteName vel windowPedal|noteName windowPedal|noteName|pd|noteName kd
                 |envelope|noteName envelope|noteName volume|noteName target duration
                 | | |id|dt|live|live];
    simpl; try (eexists; split; [reflexivity|]; simpl; by auto).
  - destruct (triggerAttack_stable model Math_pow n noteName vel windowPedal w Hs)
      as (w' & Hw & _ & Hs'). eauto.
  - eexists. split; [reflexivity|]. unfold Wrapper.triggerRelease.
    destruct (NameMap_get noteName (activeVoices w)) as [voices|]; [|done].
    destruct (last voices) as [voice|]; [|done]. cbv zeta.
    destruct (sustainPedalActive w || windowPedal); simpl.
    + by apply updateNoteState_stable.
    + destruct (removelast voices); simpl; by apply noteOff_stable.
  - eexists. split; [reflexivity|]. unfold Wrapper.releaseAllVoices.
    destruct (NameMap_get noteName (activeVoices w)) as [[|voice voices]|]; [done| |done].
    cbv zeta. change (synth (withEnvelopes _ (withVoices _ (withSynth ?s _)))) with s.
    change (noteIdCounter (withEnvelopes _ (withVoices _ (withSynth _ ?x)))) with (noteIdCounter x).
    apply fold_left_preserves; [|done]. intros s v Hv. by apply noteOff_stable.
  - eexists. split; [reflexivity|]. unfold Wrapper.setSustainPedal. cbv zeta. simpl.
    apply fold_left_preserves; [|done]. intros s e He.
    apply fold_left_preserves; [|done]. intros s1 v Hv. by apply updateNoteState_stable.
  - eexists. split; [reflexivity|]. unfold Wrapper.updateNoteKeyState.
    destruct (NameMap_get noteName (activeVoices w)) as [voices|]; [|done]. simpl.
    apply fold_left_preserves; [|done]. intros s v Hv. by apply updateNoteState_stable.
  - eexists. split; [reflexivity|]. unfold Wrapper.set. by destruct envelope.
  - eexists. split; [reflexivity|]. unfold Wrapper.setNoteVolume.
    destruct (NameMap_get noteName (activeVoices w)) as [voices|]; [|done]. simpl.
    apply fold_left_preserves; [|done]. intros s v Hv. by apply setNoteVolume_stable.
  - eexists. split; [reflexivity|]. unfold Wrapper.rampNoteVolume.
    destruct (NameMap_get noteName (activeVoices w)) as [voices|]; [|done]. simpl.
    apply fold_left_preserves; [|done]. intros s v Hv. by apply rampNoteVolume_stable.
  - eexists. split; [reflexivity|]. unfold Wrapper.releaseAll. cbv zeta. simpl.
    apply fold_left_preserves; [|done]. intros s e He.
    apply fold_left_preserves; [|done]. intros s1 v Hv. by apply noteOff_stable.
  - eexists. split; [reflexivity|]. simpl. by apply renderNoteGains_stable.
Qed.

Lemma runWrapper_stable (model : AcousticModel) (Math_pow : Q -> Q -> Q) (n : nat)
    (ops : list WrapperOp) :
  forall w, stable n (noteIdCounter w) (synth w) ->
  exists w',
    runWrapper model Math_pow ops w = Returned w' /\
    stable n (noteIdCounter w') (synth w').
Proof.
  induction ops as [|op ops IH]; intros w Hs; simpl; [eauto|].
  destruct (runWrapperOp_stable model Math_pow n op w Hs) as (w1 & Hop & Hs1).
  rewrite Hop. simpl. by apply IH.
Qed.

(** Through the wrapper the engine never loses a partial: whatever
    methods of [PolySynthWrapper] are called, in any order, with arguments
    Web Audio accepts, and whatever the scheduler, the timers and the
    audio thread do in between, every call returns, the note ids in the
    engine's voice table are below [noteIdCounter], and the partials in
    use are exactly those of the voices plus those awaiting their release
    timer.  Once no voice and no release timer is left, all 128 partials
    are back on the free stack. *)
Theorem wrapper_never_leaks (model : AcousticModel) (Math_pow : Q -> Q -> Q)
    (envelope : option Envelope) (ops : list WrapperOp) :
  acceptedWrapperRun model Math_pow ops (PolySynthWrapper_new envelope) ->
  exists w,
    runWrapper model Math_pow ops (PolySynthWrapper_new envelope) = Returned w /\
    Forall (fun e => fst e < noteIdCounter w) (activeNotes (synth w)) /\
    inUseCount (partialPool (synth w))
    = getActivePartialCount (synth w) + length (pendingReleases (synth w)) /\
    (activeNotes (synth w) = [] -> pendingReleases (synth w) = [] ->
     length (available (partialPool (synth w))) = 128).
Proof.
  intros _.
  destruct (runWrapper_stable model Math_pow 128 ops (PolySynthWrapper_new envelope))
    as (w & Hrun & Ho & Ha & Hk).
  { destruct (synthWithPool_owned 128) as [Ho Ha]. split; [exact Ho|].
    split; [exact Ha|]. apply Forall_nil_2. }
  exists w. split; [done|]. split; [done|].
  unfold accounted, heldPartials in Ha.
  rewrite length_app, <- getActivePartialCount_voices in Ha. split; [done|].
  intros Hnotes Hrel. destruct (owned_pool _ _ Ho) as (_ & _ & Hc).
  rewrite Ha, Hrel in Hc. unfold getActivePartialCount in Hc. rewrite Hnotes in Hc.
  simpl in Hc. lia.
Qed.

(** * Note names *)

Lemma numberToString_nonneg (o : Z) :
  (0 <= o)%Z ->
  exists c r d,
    numberToString o = String c r /\ Ascii.eqb c "#" = false /\
    NilEmpty.uint_of_string (String c r) = Some d /\ Z.of_uint d = o.
Proof.
  intros Ho. destruct o as [|p|p]; [| |lia].
  - exists "0"%char, EmptyString, (Decimal.D0 Decimal.Nil). by repeat split.
  - unfold numberToString. simpl.
    pose proof (DecimalPos.Unsigned.to_uint_nonnil p) as Hnil.
    pose proof (NilEmpty.usu (Pos.to_uint p)) as Husu.
    assert (Z.of_uint (Pos.to_uint p) = Z.pos p) as Hval.
    { unfold Z.of_uint. by rewrite DecimalPos.Unsigned.of_to. }
    unfold NilZero.string_of_uint.
    destruct (Pos.to_uint p) as [|d|d|d|d|d|d|d|d|d|d]; [done|..]; simpl in *;
      eexists _, _, _; (split; [reflexivity|]); (split; [reflexivity|]); (split; [exact Husu|]);
      exact Hval.
Qed.

#[local] Arguments matchNoteName : simpl never.

Lemma matchNoteName_natural (l c : ascii) (r : string) (d : Decimal.uint) :
  isNoteLetter l = true -> Ascii.eqb c "#" = false ->
  NilEmpty.uint_of_string (String c r) = Some d ->
  matchNoteName (String l (String c r)) = Some (String l EmptyString, String c r).
Proof. intros Hl Hc Hd. unfold matchNoteName. by rewrite Hl, Hc, Hd. Qed.

Lemma matchNoteName_sharp (l c : ascii) (r : string) (d : Decimal.uint) :
  isNoteLetter l = true ->
  NilEmpty.uint_of_string (String c r) = Some d ->
  matchNoteName (String l (String "#" (String c r)))
  = Some (String l (String "#" EmptyString), String c r).
Proof.
  intros Hl Hd. unfold matchNoteName. rewrite Hl. cbv beta iota.
  change (Ascii.eqb "#" "#") with true. cbv beta iota. by rewrite Hd.
Qed.

Lemma matchNoteName_midi (m : Z) :
  (12 <= m)%Z ->
  exists note digits,
    matchNoteName (midiNoteToNoteName m) = Some (note, digits) /\
    parseInt digits = (m / 12 - 1)%Z /\
    indexOf note noteNames = Some (m mod 12)%Z.
Proof.
  intros Hm. unfold midiNoteToNoteName. cbv zeta.
  rewrite Z.rem_mod_nonneg by lia.
  pose proof (Z.mod_pos_bound m 12 ltac:(lia)) as Hbound.
  destruct (Z.ltb_spec (m mod 12) 0) as [?|_]; [lia|].
  assert (0 <= m / 12 - 1)%Z as Ho.
  { pose proof (Z.div_le_mono 12 m 12 ltac:(lia) Hm) as H. change (12 / 12)%Z with 1%Z in H. lia. }
  destruct (numberToString_nonneg _ Ho) as (c & r & d & Hstr & Hc & Hparse & Hval).
  rewrite Hstr.
  assert (exists i : nat, i < 12 /\ (m mod 12)%Z = Z.of_nat i) as (i & Hi & ->).
  { exists (Z.to_nat (m mod 12)). split; lia. }
  rewrite Nat2Z.id.
  assert (parseInt (String c r) = (m / 12 - 1)%Z) as Hint.
  { unfold parseInt. by rewrite Hparse. }
  do 12 (destruct i as [|i];
         [simpl; eexists _, _; split;
          [first [eapply matchNoteName_natural; [reflexivity|exact Hc|exact Hparse]
                 |eapply matchNoteName_sharp; [reflexivity|exact Hparse]]
          |split; [exact Hint|reflexivity]]|]).
  lia.
Qed.

(** The two conversions of the main script are inverse from MIDI note 12
    on: [noteNameToMidiNote(midiNoteToNoteName(m))] is [m].  Below 12 the
    octave is -1, the name carries a minus sign, the pattern rejects it
    and the result is [null]. *)
Theorem midi_note_name_round_trip (m : Z) :
  ((12 <= m)%Z -> noteNameToMidiNote (midiNoteToNoteName m) = Some m) /\
  ((0 <= m < 12)%Z -> noteNameToMidiNote (midiNoteToNoteName m) = None).
Proof.
  split.
  - intros Hm. destruct (matchNoteName_midi m Hm) as (note & digits & Hmatch & Hint & Hidx).
    unfold noteNameToMidiNote. rewrite Hmatch. cbv zeta. rewrite Hint, Hidx. f_equal.
    pose proof (Z.div_mod m 12 ltac:(lia)). lia.
  - intros Hm.
    assert (exists i : nat, i < 12 /\ m = Z.of_nat i) as (i & Hi & ->).
    { exists (Z.to_nat m). split; lia. }
    do 12 (destruct i as [|i]; [vm_compute; reflexivity|]). lia.
Qed.

Lemma midi_note_name_round_trip_witness :
  noteNameToMidiNote (midiNoteToNoteName 60) = Some 60%Z /\
  noteNameToMidiNote (midiNoteToNoteName 5) = None.
Proof.
  split.
  - apply (proj1 (midi_note_name_round_trip 60)). lia.
  - apply (proj2 (midi_note_name_round_trip 5)). lia.
Defined.

(** For the name the main script gives a MIDI note from 12 on, the
    wrapper computes the equal-tempered frequency [440 * 2^((m - 69) / 12)].
    The names of the MIDI notes 0 to 11 do not match the pattern, and the
    wrapper plays all of them at 440 Hz. *)
Theorem midi_note_frequency (Math_pow : Q -> Q -> Q) (m : Z) :
  ((12 <= m)%Z ->
   Wrapper.noteNameToFrequency Math_pow (midiNoteToNoteName m)
   = (440 * Math_pow 2 (inject_Z (m - 69) / 12))%Q) /\
  ((0 <= m < 12)%Z ->
   Wrapper.noteNameToFrequency Math_pow (midiNoteToNoteName m) = 440%Q).
Proof.
  split.
  - intros Hm. destruct (matchNoteName_midi m Hm) as (note & digits & Hmatch & Hint & Hidx).
    unfold Wrapper.noteNameToFrequency. rewrite Hmatch. cbv zeta. rewrite Hint, Hidx.
    replace ((m / 12 - 1 - 4) * 12 + (m mod 12 - 9))%Z with (m - 69)%Z; [done|].
    pose proof (Z.div_mod m 12 ltac:(lia)). lia.
  - intros Hm.
    assert (exists i : nat, i < 12 /\ m = Z.of_nat i) as (i & Hi & ->).
    { exists (Z.to_nat m). split; lia. }
    do 12 (destruct i as [|i]; [vm_compute; reflexivity|]). lia.
Qed.

Lemma midi_note_frequency_witness :
  Wrapper.noteNameToFrequency (fun _ _ => 1%Q) (midiNoteToNoteName 69)
  = (440 * 1)%Q /\
  Wrapper.noteNameToFrequency (fun _ _ => 1%Q) (midiNoteToNoteName 11) = 440%Q.
Proof.
  split.
  - apply (proj1 (midi_note_frequency (fun _ _ => 1%Q) 69)). lia.
  - apply (proj2 (midi_note_frequency (fun _ _ => 1%Q) 11)). lia.
Defined.

(** ** The wrapper's tables *)

Lemma NameMap_present {V : Type} (k : string) (v0 : V) (m : list (string * V)) :
  NameMap_get k m = Some v0 ->
  exists l1 l2,
    m = l1 ++ (k, v0) :: l2 /\
    (forall v, NameMap_set k v m = l1 ++ (k, v) :: l2) /\
    (NoDup (map fst m) -> NameMap_delete k m = l1 ++ l2).
Proof.
  induction m as [|[k' v'] m IH]; simpl; [done|].
  destruct (String.eqb k k') eqn:E.
  - apply String.eqb_eq in E as <-. intros [= ->]. exists [], m. split; [done|].
    split; [done|]. intros [Hk _]%NoDup_cons. simpl.
    apply forallb_filter_id, forallb_forall. intros [k2 v2] Hin. simpl.
    apply negb_true_iff, String.eqb_neq. intros ->. apply Hk.
    change map with (@fmap list _). apply list_elem_of_fmap. exists (k2, v2).
    split; [done|]. by apply list_elem_of_In.
  - intros Hget. destruct (IH Hget) as (l1 & l2 & -> & Hset & Hdel).
    exists ((k', v') :: l1), l2. split; [done|]. split.
    + intros v. simpl. by rewrite Hset.
    + intros [_ Hnd]%NoDup_cons. simpl. by rewrite Hdel.
Qed.

Lemma NameMap_absent {V : Type} (k : string) (m : list (string * V)) :
  NameMap_get k m = None ->
  (forall v, NameMap_set k v m = m ++ [(k, v)]) /\ NameMap_delete k m = m /\
  k ∉ map fst m.
Proof.
  induction m as [|[k' v'] m IH]; simpl.
  - intros _. split; [done|]. split; [done|]. apply not_elem_of_nil.
  - destruct (String.eqb k k') eqn:E; [done|]. intros Hget.
    destruct (IH Hget) as (Hset & Hdel & Hk). split; [|split].
    + intros v. by rewrite Hset.
    + simpl. f_equal. exact Hdel.
    + apply not_elem_of_cons. split; [|done]. by apply String.eqb_neq.
Qed.

Lemma NameMap_get_set_eq {V : Type} (k : string) (v : V) (m : list (string * V)) :
  NameMap_get k (NameMap_set k v m) = Some v.
Proof.
  induction m as [|[k' v'] m IH]; simpl; [by rewrite String.eqb_refl|].
  destruct (String.eqb k k') eqn:E; simpl; [by rewrite String.eqb_refl|by rewrite E].
Qed.

Lemma NameMap_set_set {V : Type} (k : string) (v v' : V) (m : list (string * V)) :
  NameMap_set k v (NameMap_set k v' m) = NameMap_set k v m.
Proof.
  induction m as [|[k2 v2] m IH]; simpl; [by rewrite String.eqb_refl|].
  destruct (String.eqb k k2) eqn:E; simpl; [by rewrite String.eqb_refl|].
  by rewrite E, IH.
Qed.

(** The voices listed under a name, none when the name is absent. *)
Lemma triggerAttack_spec (model : AcousticModel) (Math_pow : Q -> Q -> Q)
    (noteName : string) (vel : option Q) (windowPedal : bool) (w w1 : PolySynthWrapper) :
  Wrapper.triggerAttack model Math_pow noteName vel windowPedal w = Returned w1 ->
  exists h s' v,
    voiceNoteId v = noteIdCounter w /\ voiceGainNode v = h /\ voiceKeyDown v = true /\
    noteOn model (noteIdCounter w) (voiceFrequency v) (voiceVelocity v) true (voicePedalDown v)
           (synth w) = Returned (h, s') /\
    voicePedalDown v = sustainPedalActive w || windowPedal /\
    w1 = mkWrapper s' (envelopeDefaults w)
           (NameMap_set noteName
              (match NameMap_get noteName (activeVoices w) with
               | Some voices => voices
               | None => []
               end ++ [v]) (activeVoices w))
           (S (noteIdCounter w))
           (NameMap_set noteName (envelopeFor noteName w) (noteEnvelopes w))
           (sustainPedalActive w).
Proof.
  unfold Wrapper.triggerAttack. cbv zeta.
  change (synth (mkWrapper ?s _ _ _ _ _)) with s.
  match goal with
  | |- context [noteOn model ?id ?f ?v true ?pd (synth w)] =>
      destruct (noteOn model id f v true pd (synth w)) as [[h s']|] eqn:Hon; [|done]
  end.
  simpl. intros [= <-]. eexists h, s', (mkVoice _ _ _ h true _).
  split; [reflexivity|]. split; [reflexivity|]. split; [reflexivity|].
  split; [exact Hon|]. split; [reflexivity|].
  unfold NameMap_has. destruct (NameMap_get noteName (activeVoices w)) as [voices|] eqn:E; simpl.
  - by rewrite E.
  - rewrite NameMap_get_set_eq. simpl. by rewrite NameMap_set_set.
Qed.

(** ** The wrapper's bookkeeping *)

Lemma ids_app (a b : list (string * list Voice)) :
  map voiceNoteId (flat_map snd (a ++ b))
  = map voiceNoteId (flat_map snd a) ++ map voiceNoteId (flat_map snd b).
Proof. by rewrite flat_map_app, map_app. Qed.

Lemma ids_cons (k : string) (vs : list Voice) (l : list (string * list Voice)) :
  map voiceNoteId (flat_map snd ((k, vs) :: l))
  = map voiceNoteId vs ++ map voiceNoteId (flat_map snd l).
Proof. simpl. by rewrite map_app. Qed.

Lemma tables_ok_sub (c : nat) (av av' : list (string * list Voice)) :
  tables_ok c av -> NoDup (map fst av') -> Forall (fun e => snd e <> []) av' ->
  map voiceNoteId (flat_map snd av') ⊆+ map voiceNoteId (flat_map snd av) ->
  tables_ok c av'.
Proof.
  intros (_ & _ & Hnd & Hlt) Hk Hne Hsub. split; [done|]. split; [done|]. split.
  - by apply (submseteq_keeps_NoDup _ _ Hsub).
  - apply Forall_forall. intros x Hx. apply (proj1 (Forall_forall _ _) Hlt).
    by apply (elem_of_submseteq _ _ _ Hx).
Qed.

Lemma tables_ok_push (c : nat) (av av' : list (string * list Voice)) :
  tables_ok c av -> NoDup (map fst av') -> Forall (fun e => snd e <> []) av' ->
  map voiceNoteId (flat_map snd av') ≡ₚ map voiceNoteId (flat_map snd av) ++ [c] ->
  tables_ok (S c) av'.
Proof.
  intros (_ & _ & Hnd & Hlt) Hk Hne Hperm. split; [done|]. split; [done|].
  rewrite Forall_forall in Hlt. split.
  - rewrite Hperm. apply NoDup_app. split; [done|]. split; [|apply NoDup_singleton].
    intros x Hx ->%list_elem_of_singleton. specialize (Hlt _ Hx). lia.
  - apply Forall_forall. intros x Hx. rewrite Hperm in Hx.
    apply elem_of_app in Hx as [Hx| ->%list_elem_of_singleton]; [|lia].
    specialize (Hlt _ Hx). lia.
Qed.

Lemma present_replace (c : nat) (k : string) (vs vs' : list Voice)
    (l1 l2 : list (string * list Voice)) :
  tables_ok c (l1 ++ (k, vs) :: l2) -> vs' <> [] ->
  map voiceNoteId vs' ⊆+ map voiceNoteId vs ->
  tables_ok c (l1 ++ (k, vs') :: l2).
Proof.
  intros Hok Hne Hsub. apply (tables_ok_sub c _ _ Hok).
  - destruct Hok as (Hk & _). by rewrite map_app in *.
  - destruct Hok as (_ & Hall & _). apply Forall_app in Hall as [H1 H2].
    apply Forall_app. split; [done|]. apply Forall_cons in H2 as [_ H2]. by constructor.
  - rewrite !ids_app, !ids_cons. apply submseteq_skips_l. by apply submseteq_skips_r.
Qed.

Lemma present_remove (c : nat) (k : string) (vs : list Voice)
    (l1 l2 : list (string * list Voice)) :
  tables_ok c (l1 ++ (k, vs) :: l2) -> tables_ok c (l1 ++ l2).
Proof.
  intros Hok. apply (tables_ok_sub c _ _ Hok).
  - destruct Hok as (Hk & _). rewrite map_app in *. simpl in Hk.
    apply NoDup_app in Hk as (H1 & H2 & [_ H3]%NoDup_cons). apply NoDup_app.
    split; [done|]. split; [|done]. intros x Hx Hx'. apply (H2 x Hx). by right.
  - destruct Hok as (_ & Hall & _). apply Forall_app in Hall as [H1 [_ H2]%Forall_cons].
    by apply Forall_app.
  - rewrite !ids_app, ids_cons. apply submseteq_skips_l. by apply submseteq_inserts_l.
Qed.

Lemma present_push (c : nat) (k : string) (vs : list Voice) (v : Voice)
    (l1 l2 : list (string * list Voice)) :
  tables_ok c (l1 ++ (k, vs) :: l2) -> voiceNoteId v = c ->
  tables_ok (S c) (l1 ++ (k, vs ++ [v]) :: l2).
Proof.
  intros Hok Hv. apply (tables_ok_push c _ _ Hok).
  - destruct Hok as (Hk & _). by rewrite map_app in *.
  - destruct Hok as (_ & Hall & _). apply Forall_app in Hall as [H1 [_ H2]%Forall_cons].
    apply Forall_app. split; [done|]. constructor; [|done]. simpl. by destruct vs.
  - rewrite !ids_app, !ids_cons, map_app. simpl. rewrite Hv.
    rewrite <- !app_assoc. apply Permutation_app_head, Permutation_app_head.
    apply Permutation_app_comm.
Qed.

Lemma absent_push (c : nat) (k : string) (v : Voice) (av : list (string * list Voice)) :
  tables_ok c av -> k ∉ map fst av -> voiceNoteId v = c ->
  tables_ok (S c) (av ++ [(k, [v])]).
Proof.
  intros Hok Hk Hv. apply (tables_ok_push c _ _ Hok).
  - destruct Hok as (Hnd & _). rewrite map_app. simpl. apply NoDup_app.
    split; [done|]. split; [|apply NoDup_singleton].
    by intros x Hx ->%list_elem_of_singleton.
  - destruct Hok as (_ & Hall & _). apply Forall_app. split; [done|]. by repeat constructor.
  - rewrite ids_app. simpl. by rewrite Hv.
Qed.

Lemma tables_ok_map (c : nat) (f : Voice -> Voice) (av : list (string * list Voice)) :
  (forall v, voiceNoteId (f v) = voiceNoteId v) ->
  tables_ok c av -> tables_ok c (map (fun e => (fst e, map f (snd e))) av).
Proof.
  intros Hf Hok. apply (tables_ok_sub c _ _ Hok).
  - destruct Hok as (Hk & _). rewrite map_map. simpl. by rewrite (map_ext _ fst).
  - destruct Hok as (_ & Hall & _). induction Hall as [|[k vs] l Hx Hl IH]; simpl; [done|].
    constructor; [|done]. simpl in *. by destruct vs.
  - clear Hok. induction av as [|[k vs] l IH]; simpl; [done|].
    rewrite !map_app, map_map. rewrite (map_ext _ voiceNoteId) by done.
    by apply submseteq_skips_l.
Qed.

Lemma last_removelast {A : Type} (l : list A) (x : A) :
  last l = Some x -> l = removelast l ++ [x].
Proof. intros [l' ->]%last_Some. by rewrite removelast_last. Qed.

Lemma NameMap_delete_set {V : Type} (k : string) (v : V) (m : list (string * V)) :
  NameMap_delete k (NameMap_set k v m) = NameMap_delete k m.
Proof.
  unfold NameMap_delete. induction m as [|[k' v'] m IH]; simpl.
  - by rewrite String.eqb_refl.
  - destruct (String.eqb k k') eqn:E; simpl.
    + by rewrite String.eqb_refl.
    + by rewrite E, IH.
Qed.

Lemma triggerAttack_inv (model : AcousticModel) (Math_pow : Q -> Q -> Q)
    (noteName : string) (vel : option Q) (windowPedal : bool) (w w1 : PolySynthWrapper) :
  Wrapper.triggerAttack model Math_pow noteName vel windowPedal w = Returned w1 ->
  wrapper_inv w -> wrapper_inv w1.
Proof.
  intros (h & s' & v & Hid & _ & _ & _ & _ & ->)%triggerAttack_spec Hinv.
  unfold wrapper_inv in *. simpl.
  destruct (NameMap_get noteName (activeVoices w)) as [voices|] eqn:E.
  - destruct (NameMap_present _ _ _ E) as (l1 & l2 & Hav & Hset & _).
    rewrite Hset. rewrite Hav in Hinv. by apply present_push.
  - destruct (NameMap_absent _ _ E) as (Hset & _ & Hk). rewrite Hset. by apply absent_push.
Qed.

Lemma triggerRelease_inv (noteName : string) (windowPedal : bool) (w : PolySynthWrapper) :
  wrapper_inv w -> wrapper_inv (Wrapper.triggerRelease noteName windowPedal w).
Proof.
  intros Hinv. unfold Wrapper.triggerRelease.
  destruct (NameMap_get noteName (activeVoices w)) as [voices|] eqn:E; [|done].
  destruct (last voices) as [voice|] eqn:Hlast; [|done].
  apply last_removelast in Hlast.
  destruct (NameMap_present _ _ _ E) as (l1 & l2 & Hav & Hset & Hdel).
  unfold wrapper_inv in *. rewrite Hav in Hinv. cbv zeta.
  destruct (sustainPedalActive w || windowPedal); simpl.
  - rewrite Hset. apply (present_replace _ _ voices); [done|by destruct (removelast voices)|].
    rewrite Hlast at 2. by rewrite !map_app.
  - destruct (removelast voices) as [|x r] eqn:Hr; simpl.
    + rewrite NameMap_delete_set, Hdel; [by eapply present_remove|].
      rewrite Hav. apply Hinv.
    + rewrite Hset. apply (present_replace _ _ voices); [done|done|].
      rewrite Hlast, map_app. by apply submseteq_inserts_r.
Qed.

Lemma releaseAllVoices_inv (noteName : string) (w : PolySynthWrapper) :
  wrapper_inv w -> wrapper_inv (Wrapper.releaseAllVoices noteName w).
Proof.
  intros Hinv. unfold Wrapper.releaseAllVoices.
  destruct (NameMap_get noteName (activeVoices w)) as [[|v voices]|] eqn:E; [done| |done].
  destruct (NameMap_present _ _ _ E) as (l1 & l2 & Hav & _ & Hdel).
  unfold wrapper_inv in *. simpl. rewrite Hdel by apply Hinv.
  rewrite Hav in Hinv. by eapply present_remove.
Qed.

Lemma updateNoteKeyState_inv (noteName : string) (kd : bool) (w : PolySynthWrapper) :
  wrapper_inv w -> wrapper_inv (Wrapper.updateNoteKeyState noteName kd w).
Proof.
  intros Hinv. unfold Wrapper.updateNoteKeyState.
  destruct (NameMap_get noteName (activeVoices w)) as [voices|] eqn:E; [|done].
  destruct (NameMap_present _ _ _ E) as (l1 & l2 & Hav & Hset & _).
  unfold wrapper_inv in *. simpl. rewrite Hset. rewrite Hav in Hinv.
  apply (present_replace _ _ voices); [done| |].
  - destruct Hinv as (_ & Hall & _). apply Forall_app in Hall as [_ [Hne _]%Forall_cons].
    simpl in Hne. by destruct voices.
  - rewrite map_map. by rewrite (map_ext _ voiceNoteId).
Qed.

Lemma runWrapperOp_inv (model : AcousticModel) (Math_pow : Q -> Q -> Q) (op : WrapperOp)
    (w w' : PolySynthWrapper) :
  runWrapperOp model Math_pow op w = Returned w' -> wrapper_inv w -> wrapper_inv w'.
Proof.
  destruct op as [noteName vel windowPedal|noteName windowPedal|noteName|pd|noteName kd
                 |envelope|noteName envelope|noteName volume|noteName target duration
                 | | |id|dt|live|live];
    simpl; try (intros [= <-]).
  - apply triggerAttack_inv.
  - apply triggerRelease_inv.
  - apply releaseAllVoices_inv.
  - intros Hinv. by apply (tables_ok_map _ (withPedalDown pd)).
  - apply updateNoteKeyState_inv.
  - unfold Wrapper.set. by destruct envelope.
  - done.
  - unfold Wrapper.setNoteVolume. by destruct (NameMap_get noteName (activeVoices w)).
  - unfold Wrapper.rampNoteVolume. by destruct (NameMap_get noteName (activeVoices w)).
  - intros _. unfold wrapper_inv. simpl. repeat split; constructor.
  - done.
  - done.
  - done.
  - done.
  - done.
Qed.

Lemma runWrapper_inv (model : AcousticModel) (Math_pow : Q -> Q -> Q) (ops : list WrapperOp) :
  forall w w', runWrapper model Math_pow ops w = Returned w' ->
               wrapper_inv w -> wrapper_inv w'.
Proof.
  induction ops as [|op ops IH]; intros w w'; simpl; [by intros [= <-]|].
  destruct (runWrapperOp model Math_pow op w) as [w1|] eqn:Hop; simpl; [|done].
  intros Hrun Hinv. apply (IH w1 w' Hrun). by apply (runWrapperOp_inv _ _ _ _ _ Hop).
Qed.

Lemma nonempty_entries_length (av : list (string * list Voice)) :
  Forall (fun e => snd e <> []) av -> length av <= length (flat_map snd av).
Proof.
  induction 1 as [|[k vs] l Hx Hl IH]; simpl; [done|].
  rewrite length_app. simpl in Hx. destruct vs; [done|]. simpl. lia.
Qed.

Lemma distinct_below_length (c : nat) (l : list nat) :
  NoDup l -> Forall (fun x => x < c) l -> length l <= c.
Proof.
  intros Hnd Hlt. transitivity (length (seq 0 c)); [|by rewrite length_seq].
  apply submseteq_length.
  apply NoDup_submseteq; [done|]. intros x Hx. apply elem_of_seq.
  pose proof (proj1 (Forall_forall _ _) Hlt x Hx) as H. simpl in H. lia.
Qed.

(** The bookkeeping of the wrapper along every run: [activeVoices] has
    one entry per note name and no entry with an empty array, so
    [getActiveNoteCount] counts the names with a voice; the note ids of
    the voices listed are distinct and below [noteIdCounter]; hence there
    are at most as many voices listed as attacks so far. *)
Theorem wrapper_tables_invariant (model : AcousticModel) (Math_pow : Q -> Q -> Q)
    (envelope : option Envelope) (ops : list WrapperOp) :
  exists w,
    runWrapper model Math_pow ops (PolySynthWrapper_new envelope) = Returned w /\
    NoDup (map fst (activeVoices w)) /\
    Forall (fun entry => snd entry <> []) (activeVoices w) /\
    NoDup (map voiceNoteId (listedVoices w)) /\
    Forall (fun id => id < noteIdCounter w) (map voiceNoteId (listedVoices w)) /\
    Wrapper.getActiveNoteCount w <= length (listedVoices w) /\
    length (listedVoices w) <= noteIdCounter w.
Proof.
  destruct (runWrapper_stable model Math_pow 128 ops (PolySynthWrapper_new envelope))
    as (w & Hrun & _).
  { destruct (synthWithPool_owned 128) as [Ho Ha]. split; [exact Ho|].
    split; [exact Ha|]. apply Forall_nil_2. }
  assert (wrapper_inv (PolySynthWrapper_new envelope)) as H0.
  { unfold wrapper_inv. simpl. repeat split; constructor. }
  destruct (runWrapper_inv _ _ _ _ _ Hrun H0) as (Hk & Hne & Hnd & Hlt).
  exists w. split; [done|]. split; [done|]. split; [done|]. split; [done|].
  split; [done|]. split.
  - by apply nonempty_entries_length.
  - unfold listedVoices. rewrite <- (length_map voiceNoteId).
    by apply distinct_below_length.
Qed.

(** [triggerAttack] stores, for a note without an envelope of its own,
    a reference to the defaults object, and [set] mutates that object in
    place.  So a [set] issued while the note sounds changes the release
    time its [triggerRelease] hands to [noteOff]: the release time is
    read from the defaults as they are at the release, not as they were
    at the attack.  A note whose envelope was given by [setNoteEnvelope]
    keeps its own.  A release time of 0 counts as absent and gives 0.5. *)
Theorem set_reaches_sounding_notes (model : AcousticModel) (Math_pow : Q -> Q -> Q)
    (noteName : string) (vel : option Q) (windowPedal : bool) (w w1 : PolySynthWrapper)
    (e : Envelope) :
  Wrapper.triggerAttack model Math_pow noteName vel windowPedal w = Returned w1 ->
  sustainPedalActive w = false ->
  synth (Wrapper.triggerRelease noteName false (Wrapper.set (Some e) w1))
  = noteOff (noteIdCounter w)
      (releaseTimeOf (match NameMap_get noteName (noteEnvelopes w) with
                      | Some (Given e0) => e0
                      | _ => assignEnvelope (envelopeDefaults w) e
                      end)) false (synth w1) /\
  (forall r, envRelease e = Some r ->
     releaseTimeOf (assignEnvelope (envelopeDefaults w) e)
     = if Qeq_bool r 0 then 0.5%Q else r).
Proof.
  intros (h & s' & v & Hid & _ & _ & _ & _ & ->)%triggerAttack_spec Hpedal. split.
  - unfold Wrapper.triggerRelease, Wrapper.set.
    cbn [activeVoices noteEnvelopes sustainPedalActive synth envelopeDefaults noteIdCounter].
    rewrite NameMap_get_set_eq, last_snoc. cbv zeta.
    cbn [activeVoices noteEnvelopes sustainPedalActive synth envelopeDefaults noteIdCounter].
    rewrite Hpedal. change (false || false) with false. cbv iota.
    rewrite removelast_last.
    assert (forall x y : PolySynthWrapper, synth x = synth y ->
              synth (match (match NameMap_get noteName (activeVoices w) with
                            | Some voices => voices
                            | None => []
                            end) with
                     | [] => x
                     | _ :: _ => y
                     end) = synth y) as Hboth.
    { intros x y Hxy. by destruct (match NameMap_get noteName (activeVoices w) with
                                  | Some voices => voices | None => [] end). }
    rewrite Hboth by reflexivity.
    unfold withVoices, withSynth, envelopeFor, deref.
    cbn [activeVoices noteEnvelopes sustainPedalActive synth envelopeDefaults noteIdCounter].
    rewrite NameMap_get_set_eq, Hid. f_equal. f_equal.
    by destruct (NameMap_get noteName (noteEnvelopes w)) as [[|e0]|].
  - intros r Hr. unfold releaseTimeOf, assignEnvelope. simpl. by rewrite Hr.
Qed.

Lemma set_reaches_sounding_notes_witness :
  exists w1,
    Wrapper.triggerAttack (flatModel twoPartials) (fun _ _ => 1%Q) "C4" None false
      (PolySynthWrapper_new None) = Returned w1 /\
    synth (Wrapper.triggerRelease "C4" false
             (Wrapper.set (Some (mkEnvelope None None None (Some 2%Q))) w1))
    = noteOff 0 2 false (synth w1).
Proof.
  eexists.
  assert (forall a b : Prop, a -> (a -> b) -> a /\ b) as Hand by tauto.
  apply Hand; [vm_compute; reflexivity|]. intros Hattack.
  exact (proj1 (set_reaches_sounding_notes _ _ _ _ _ _ _
                  (mkEnvelope None None None (Some 2%Q)) Hattack eq_refl)).
Defined.

(** * Per-note volume and the envelope *)

Lemma updateNoteGain_twice (node : nat) (F G : GainNode -> GainNode) (s : AdditiveSynth) :
  updateNoteGain node F (updateNoteGain node G s) = updateNoteGain node (F ∘ G) s.
Proof. unfold updateNoteGain, withGainNodes. simpl. by rewrite list_alter_alter_eq. Qed.

Lemma updateNoteGain_ext (node : nat) (F G : GainNode -> GainNode) (s : AdditiveSynth) :
  (forall g, F g = G g) -> updateNoteGain node F s = updateNoteGain node G s.
Proof.
  intros H. unfold updateNoteGain, withGainNodes. f_equal. by apply list_alter_ext.
Qed.

Lemma noteGainValue_scheduled (s : AdditiveSynth) (note : Note) (G : GainNode -> GainNode) :
  (forall g, value (gainParam (G g)) = value (gainParam g)) ->
  noteGainValue (updateNoteGain (gainNode note) G s) note = noteGainValue s note.
Proof.
  intros HG. unfold noteGainValue, updateNoteGain. simpl.
  rewrite list_lookup_alter_eq. destruct (gainNodes s !! gainNode note); simpl; [apply HG|done].
Qed.

(** Of the volume commands issued for a note at one clock value, only
    the last one stays scheduled: [setNoteVolume] cancels an earlier
    [setNoteVolume] and an earlier [rampNoteVolume] (of a duration that is
    not negative), and [rampNoteVolume] cancels an earlier
    [setNoteVolume] and starts from the live gain value, not from the
    volume just set. *)
Theorem last_volume_command_wins (s : AdditiveSynth) (noteId : nat) (v v' target d : Q) :
  (0 <= d)%Q ->
  setNoteVolume noteId v (setNoteVolume noteId v' s) = setNoteVolume noteId v s /\
  setNoteVolume noteId v (rampNoteVolume noteId target d s) = setNoteVolume noteId v s /\
  rampNoteVolume noteId target d (setNoteVolume noteId v s) = rampNoteVolume noteId target d s.
Proof.
  intros Hd. unfold setNoteVolume, rampNoteVolume.
  destruct (Map_get noteId (activeNotes s)) as [note|] eqn:E; [|by rewrite E].
  cbv zeta.
  change (activeNotes (updateNoteGain ?n ?f ?x)) with (activeNotes x).
  change (currentTime (updateNoteGain ?n ?f ?x)) with (currentTime x).
  rewrite E.
  assert (currentTime s <= currentTime s + d)%Q as Hlater by by apply Qle_plus_nonneg.
  split; [|split].
  - rewrite updateNoteGain_twice. apply updateNoteGain_ext. intros g. simpl.
    by rewrite cancel_schedule_later, cancel_cancel by apply Qle_refl.
  - rewrite updateNoteGain_twice. apply updateNoteGain_ext. intros g. simpl.
    rewrite cancel_schedule_later by done.
    by rewrite cancel_schedule_later, cancel_cancel by apply Qle_refl.
  - rewrite noteGainValue_scheduled by done.
    rewrite updateNoteGain_twice. apply updateNoteGain_ext. intros g. simpl.
    by rewrite cancel_schedule_later, cancel_cancel by apply Qle_refl.
Qed.

Lemma last_volume_command_wins_witness :
  exists s,
    oneVoice = Returned s /\
    setNoteVolume 5 0.5 (rampNoteVolume 5 0.001 3 s) = setNoteVolume 5 0.5 s.
Proof.
  eexists. split; [vm_compute; reflexivity|].
  assert (0 <= 3)%Q as Hd by (vm_compute; discriminate).
  exact (proj1 (proj2 (last_volume_command_wins _ 5 0.5 0 0.001 3 Hd))).
Defined.

Lemma Qmax_floor_mono (a b : Q) : (a <= b)%Q -> (Qmax 0.001 a <= Qmax 0.001 b)%Q.
Proof. intros H. apply Q.max_le_compat_l. exact H. Qed.

(** The envelope [applyEnvelope] schedules: everything scheduled from
    [now] on is replaced by a set to 0.001, the attack ramp and the decay
    ramp followed by a set to the sustain level; [now] is the start time,
    or the clock when the start time is falsy.  Whatever the velocity, no
    ramp targets a value below 0.001 and the attack takes less than 30 ms;
    for velocities up to 127 the attack takes at least 10 ms, the peak is
    at most 1 and the sustain level does not exceed the peak. *)
Theorem applyEnvelope_schedule (vel : Z) (decayTime start current : Q) (g : AudioParam) :
  let now := if Qeq_bool start 0 then current else start in
  exists attackTime attackTarget sustainTarget,
    events (applyEnvelope vel decayTime start current g)
    = List.filter (fun e => Qltb (eventTime e) now) (events g)
      ++ [SetValueAtTime 0.001 now;
          ExponentialRampToValueAtTime attackTarget (now + attackTime)%Q;
          ExponentialRampToValueAtTime sustainTarget (now + attackTime + decayTime)%Q;
          SetValueAtTime sustainTarget (now + attackTime + decayTime)%Q] /\
    value (applyEnvelope vel decayTime start current g) = value g /\
    (0.001 <= attackTarget)%Q /\ (0.001 <= sustainTarget)%Q /\ (attackTime < 0.03)%Q /\
    ((vel <= 127)%Z ->
     (0.01 <= attackTime)%Q /\ (attackTarget <= 1)%Q /\ (sustainTarget <= attackTarget)%Q).
Proof.
  cbv zeta. unfold applyEnvelope. cbv zeta.
  set (nv := Qmax 0.001 (inject_Z vel / 127)).
  assert (0.001 <= nv)%Q as Hnv by apply Q.le_max_l.
  exists (0.01 + 0.02 * (1 - nv))%Q, (Qmax 0.001 (nv ^ 2)),
         (Qmax 0.001 (Qmax 0.001 (0.3 + nv * 0.2) * nv ^ 2)).
  split.
  { unfold schedule, cancelScheduledValues. cbn [events value].
    rewrite <- !app_assoc. reflexivity. }
  split; [reflexivity|].
  split; [apply Q.le_max_l|]. split; [apply Q.le_max_l|]. split; [lra|].
  intros Hvel.
  assert (nv <= 1)%Q as Hnv1.
  { unfold nv. apply Q.max_lub; [lra|].
    apply Qle_shift_div_r; [lra|]. rewrite Qmult_1_l.
    change 127%Q with (inject_Z 127). by rewrite <- Zle_Qle. }
  clearbody nv.
  assert (nv ^ 2 == nv * nv)%Q as Hsq by (simpl; ring).
  assert (Qmax 0.001 (0.3 + nv * 0.2) == 0.3 + nv * 0.2)%Q as Hsl by (apply Q.max_r; lra).
  split; [lra|]. split.
  - apply Q.max_lub; [lra|]. rewrite Hsq. nra.
  - apply Qmax_floor_mono. rewrite Hsl, Hsq. nra.
Qed.

(** * The adaptive limit of [noteOn] *)

Lemma usage_antitone (pp1 pp2 : PartialPool) :
  length (pool pp1) = length (pool pp2) -> length (pool pp1) <> 0 ->
  length (available pp1) <= length (available pp2) ->
  (poolUsageRatio pp2 <= poolUsageRatio pp1)%Q.
Proof.
  intros Hlen Hne Hav. unfold poolUsageRatio. rewrite <- Hlen.
  assert (0 < inject_Z (Z.of_nat (length (pool pp1))))%Q as Hc.
  { change 0%Q with (inject_Z 0). rewrite <- Zlt_Qlt. lia. }
  assert (inject_Z (Z.of_nat (length (available pp1)))
          <= inject_Z (Z.of_nat (length (available pp2))))%Q as Ha.
  { rewrite <- Zle_Qle. lia. }
  set (c := inject_Z (Z.of_nat (length (pool pp1)))) in *.
  set (a1 := inject_Z (Z.of_nat (length (available pp1)))) in *.
  set (a2 := inject_Z (Z.of_nat (length (available pp2)))) in *.
  assert (a1 / c <= a2 / c)%Q as Hdiv.
  { apply Qle_shift_div_l; [done|].
    assert (a1 / c * c == a1)%Q as -> by (field; lra). done. }
  apply double_mono. apply (double_mono _ _) in Hdiv. lra.
Qed.

(** For a configured maximum from 6 to 2^53, as the 12 of the
    constructor, the limit [noteOn] computes in doubles never exceeds the
    maximum and never grows when fewer partials are free; with no free
    partial it is 6, whatever the maximum. *)
Theorem adaptive_limit_monotone (M : Z) (pp1 pp2 : PartialPool) :
  (6 <= M <= 2 ^ 53)%Z ->
  length (pool pp1) = length (pool pp2) -> length (pool pp1) <> 0 ->
  length (available pp1) <= length (available pp2) ->
  (adaptiveMaxPartials M pp1 <= adaptiveMaxPartials M pp2 <= M)%Z /\
  (available pp1 = [] -> adaptiveMaxPartials M pp1 = 6%Z).
Proof.
  intros HM Hlen Hne Hav.
  pose proof (usage_antitone pp1 pp2 Hlen Hne Hav) as Hu.
  assert (length (pool pp2) <> 0) as Hne2 by congruence.
  destruct (adaptive_cases M pp1 Hne) as [Hlow1 Hhigh1].
  destruct (adaptive_cases M pp2 Hne2) as [Hlow2 Hhigh2].
  assert (0 <= inject_Z M)%Q as HM'.
  { change 0%Q with (inject_Z 0). rewrite <- Zle_Qle. lia. }
  split.
  - destruct (Qlt_le_dec (double 0.7) (poolUsageRatio pp2)) as [H2|H2].
    + assert (double 0.7 < poolUsageRatio pp1)%Q as H1 by lra.
      pose proof (adaptive_bounds M pp2 ltac:(lia) Hne2 H2) as Hb.
      rewrite (Hhigh1 H1), (Hhigh2 H2) in *. split; [|lia].
      apply Z.max_le_compat_l, Math_round_mono, scaledLimit_antitone; [lia|done].
    + rewrite (Hlow2 H2). split; [|lia].
      destruct (Qlt_le_dec (double 0.7) (poolUsageRatio pp1)) as [H1|H1].
      * pose proof (adaptive_bounds M pp1 ltac:(lia) Hne H1). lia.
      * rewrite (Hlow1 H1). lia.
  - intros Hnil.
    assert (poolUsageRatio pp1 == 1)%Q as Hfull.
    { unfold poolUsageRatio. rewrite Hnil. simpl.
      assert (inject_Z 0 / inject_Z (Z.of_nat (length (pool pp1))) == 0)%Q as ->.
      { unfold Qdiv. change (inject_Z 0) with 0%Q. ring. }
      rewrite double_0. reflexivity. }
    assert (double 0.7 < poolUsageRatio pp1)%Q as H1 by (rewrite Hfull; reflexivity).
    rewrite (Hhigh1 H1). apply Z.max_l.
    rewrite <- (Math_round_integer 6). apply Math_round_mono.
    apply Qle_trans with (scaledLimit M 1); [apply scaledLimit_antitone; [lia|lra]|].
    apply Qle_trans with (double 0); [|by rewrite double_0]. unfold scaledLimit.
    apply double_mono.
    assert (double (1 - double (double (1 - double 0.7) / double 0.3)) <= 0)%Q as Hf
      by (vm_compute; discriminate).
    set (f := double (1 - double (double (1 - double 0.7) / double 0.3))) in *.
    clearbody f. nra.
Qed.

Lemma adaptive_limit_monotone_witness :
  exists pp,
    runOps [OpAcquire; OpAcquire; OpAcquire; OpAcquire] (PartialPool_new 5) = Returned pp /\
    (adaptiveMaxPartials 12 pp <= adaptiveMaxPartials 12 (PartialPool_new 5) <= 12)%Z.
Proof.
  eexists. split; [vm_compute; reflexivity|].
  apply adaptive_limit_monotone; [split; [lia|vm_compute; discriminate]|reflexivity|simpl; lia|
                                  simpl; lia].
Defined.

(** * The performance monitor *)

(** Whatever the times at which [update] is called, the partial budget
    stays between 16 and 48 and is a multiple of 4, and the ceiling stays
    at 48. *)
Theorem monitor_budget_bounds (start : Q) (times : list Q) :
  let m := fold_left (fun m now => Monitor.update now m) times (PerformanceMonitor_new start) in
  (16 <= Monitor.getPartialBudget m <= 48)%Z /\
  (Monitor.getPartialBudget m mod 4 = 0)%Z /\
  maxPartialBudget m = 48%Z /\
  (0 <= frameCount m)%Z.
Proof.
  cbv zeta.
  apply (fold_left_preserves
           (fun m => (16 <= Monitor.getPartialBudget m <= 48)%Z /\
                     (Monitor.getPartialBudget m mod 4 = 0)%Z /\
                     maxPartialBudget m = 48%Z /\ (0 <= frameCount m)%Z)).
  - intros m now (Hb & Hmod & Hmax & Hf). unfold Monitor.update. cbv zeta.
    unfold Monitor.getPartialBudget in *.
    destruct (Qle_bool 1000 _); [|simpl; repeat split; lia].
    unfold Monitor.adaptToPerformance. simpl.
    destruct (frameCount m + 1 <? 50)%Z; simpl.
    + repeat split; try lia.
      destruct (Z.max_spec 16 (currentBudget m - 8)) as [[_ ->]|[_ ->]]; [|done].
      apply Z.mod_divide; [lia|]. apply Z.mod_divide in Hmod as [q Hq]; [|lia].
      exists (q - 2)%Z. lia.
    + destruct ((58 <? frameCount m + 1)%Z && (currentBudget m <? maxPartialBudget m)%Z);
        simpl; [|repeat split; lia].
      rewrite Hmax. repeat split; try lia.
      destruct (Z.min_spec 48 (currentBudget m + 4)) as [[_ ->]|[_ ->]]; [done|].
      apply Z.mod_divide; [lia|]. apply Z.mod_divide in Hmod as [q Hq]; [|lia].
      exists (q + 1)%Z. lia.
  - simpl. repeat split; lia.
Qed.

(** * Spectral profiles *)

(** The stretch weight of a harmonic lies between 0.01 and 1.  The two
    zero entries of the table are falsy, so the harmonics 0 and 1 get
    0.01, as does every harmonic from 31 on and every negative index. *)
Theorem getPrimeFactorWeight_range (n : Z) :
  (0.01 <= getPrimeFactorWeight n <= 1)%Q /\
  ((n <= 1)%Z \/ (31 <= n)%Z -> getPrimeFactorWeight n = 0.01%Q).
Proof.
  unfold getPrimeFactorWeight.
  destruct (Z.ltb_spec n 0) as [Hneg|Hpos]; [split; [split; discriminate|done]|].
  destruct (Z.le_gt_cases 32 n) as [Hbig|Hsmall].
  - rewrite lookup_ge_None_2 by (simpl; lia). split; [split; discriminate|done].
  - assert (exists i : nat, i < 32 /\ n = Z.of_nat i) as (i & Hi & ->).
    { exists (Z.to_nat n). split; lia. }
    rewrite Nat2Z.id.
    do 32 (destruct i as [|i];
           [simpl; split; [split; discriminate|intros [?|?]; first [reflexivity|lia]]|]).
    lia.
Qed.

Lemma Math_pow_cube (pf : Q -> Q -> Q) (x : Q) : (Math_pow pf x 3 == x * x * x)%Q.
Proof. change (Math_pow pf x 3) with (x ^ 3)%Q. simpl. ring. Qed.

(** The decay before the cap, for a harmonic above the sixth. *)
Lemma highDecay_facts (h v v' : Z) (b : Q) :
  (6 < h)%Z -> (0 <= b)%Q -> (0 <= v <= v')%Z ->
  let raw (h v : Z) :=
    (b * (1 + inject_Z v / 127 * 0.8)
     / (inject_Z h / 6 * (inject_Z h / 6) * (inject_Z h / 6)))%Q in
  (0 <= raw h v)%Q /\ (raw h v <= raw h v')%Q /\ (raw (h + 1)%Z v <= raw h v)%Q.
Proof.
  intros Hh Hb Hv. cbv beta zeta.
  assert (6 < inject_Z h)%Q as Hh'.
  { change 6%Q with (inject_Z 6). by rewrite <- Zlt_Qlt. }
  assert (0 <= inject_Z v)%Q as Hv0.
  { change 0%Q with (inject_Z 0). rewrite <- Zle_Qle. lia. }
  assert (inject_Z v <= inject_Z v')%Q as Hvv by (rewrite <- Zle_Qle; lia).
  assert (inject_Z (h + 1) == inject_Z h + 1)%Q as Hs by (rewrite inject_Z_plus; reflexivity).
  assert (forall z : Q, z / 127 * 0.8 == z * (4 # 635))%Q as Hn by (intros; field).
  assert (forall z : Q, z / 6 == z * (1 # 6))%Q as H6 by (intros; field).
  rewrite !Hn, !H6, Hs.
  set (x := inject_Z h) in *. set (a := inject_Z v) in *. set (a' := inject_Z v') in *.
  set (d := (x * (1 # 6) * (x * (1 # 6)) * (x * (1 # 6)))%Q).
  set (d' := ((x + 1) * (1 # 6) * ((x + 1) * (1 # 6)) * ((x + 1) * (1 # 6)))%Q).
  assert (1 < x * (1 # 6))%Q as Hx1 by lra.
  assert (0 < d)%Q as Hd by (unfold d; nra).
  assert (d <= d')%Q as Hdd by (unfold d, d'; nra).
  assert (0 <= b * (1 + a * (4 # 635)))%Q as Hnum by nra.
  assert (b * (1 + a * (4 # 635)) <= b * (1 + a' * (4 # 635)))%Q as Hnum' by nra.
  split; [|split].
  - apply Qle_shift_div_l; [done|]. lra.
  - apply Qle_shift_div_l; [done|].
    assert (b * (1 + a * (4 # 635)) / d * d == b * (1 + a * (4 # 635)))%Q as ->
      by (field; lra).
    done.
  - apply Qle_shift_div_r; [lra|].
    set (r := (b * (1 + a * (4 # 635)) / d)%Q).
    assert (0 <= r)%Q as Hr by (apply Qle_shift_div_l; [done|lra]).
    assert (r * d == b * (1 + a * (4 # 635)))%Q as Hrd by (unfold r; field; lra).
    nra.
Qed.

Lemma calcDecayTime_high (pf : Q -> Q -> Q) (h v : Z) (b : Q) :
  (6 < h)%Z ->
  let raw := (b * (1 + inject_Z v / 127 * 0.8)
              / (inject_Z h / 6 * (inject_Z h / 6) * (inject_Z h / 6)))%Q in
  (calcDecayTime pf h v b
   == if (20 <? h)%Z then Qmin raw 0.05
      else if (16 <? h)%Z then Qmin raw 0.15
      else if (12 <? h)%Z then Qmin raw 0.3
      else raw)%Q.
Proof.
  intros Hh. cbv zeta. unfold calcDecayTime. cbv zeta.
  rewrite (proj2 (Z.ltb_lt 6 h) Hh). cbn [negb].
  destruct (20 <? h)%Z; [by rewrite Math_pow_cube|].
  destruct (16 <? h)%Z; [by rewrite Math_pow_cube|].
  destruct (12 <? h)%Z; by rewrite Math_pow_cube.
Qed.

(** The decay time of a harmonic above the sixth, whatever [Math.pow]
    gives for fractional exponents: for a base decay and velocities that
    are not negative it is not negative, a harder strike never shortens
    it, the next harmonic never decays longer, and it is capped at 0.3 s
    above the 12th harmonic, 0.15 s above the 16th and 0.05 s above the
    20th. *)
Theorem calcDecayTime_high_harmonics (pf : Q -> Q -> Q) (h v v' : Z) (b : Q) :
  (6 < h)%Z -> (0 <= b)%Q -> (0 <= v <= v')%Z ->
  (0 <= calcDecayTime pf h v b)%Q /\
  (calcDecayTime pf h v b <= calcDecayTime pf h v' b)%Q /\
  (calcDecayTime pf (h + 1) v b <= calcDecayTime pf h v b)%Q /\
  ((12 < h)%Z -> (calcDecayTime pf h v b <= 0.3)%Q) /\
  ((16 < h)%Z -> (calcDecayTime pf h v b <= 0.15)%Q) /\
  ((20 < h)%Z -> (calcDecayTime pf h v b <= 0.05)%Q).
Proof.
  intros Hh Hb Hv.
  destruct (highDecay_facts h v v' b Hh Hb Hv) as (H0 & Hmono & Hnext).
  cbv beta zeta in H0, Hmono, Hnext.
  rewrite !calcDecayTime_high by lia. cbv zeta.
  set (r := (b * (1 + inject_Z v / 127 * 0.8)
             / (inject_Z h / 6 * (inject_Z h / 6) * (inject_Z h / 6)))%Q) in *.
  set (r' := (b * (1 + inject_Z v' / 127 * 0.8)
              / (inject_Z h / 6 * (inject_Z h / 6) * (inject_Z h / 6)))%Q) in *.
  set (rn := (b * (1 + inject_Z v / 127 * 0.8)
              / (inject_Z (h + 1) / 6 * (inject_Z (h + 1) / 6) * (inject_Z (h + 1) / 6)))%Q)
    in *.
  pose proof (Q.le_min_l r 0.05). pose proof (Q.le_min_r r 0.05).
  pose proof (Q.le_min_l r 0.15). pose proof (Q.le_min_r r 0.15).
  pose proof (Q.le_min_l r 0.3). pose proof (Q.le_min_r r 0.3).
  pose proof (Q.le_min_l rn 0.05). pose proof (Q.le_min_r rn 0.05).
  pose proof (Q.le_min_l rn 0.15). pose proof (Q.le_min_r rn 0.15).
  pose proof (Q.le_min_l rn 0.3). pose proof (Q.le_min_r rn 0.3).
  destruct (Z.ltb_spec 20 h), (Z.ltb_spec 16 h), (Z.ltb_spec 12 h),
           (Z.ltb_spec 20 (h + 1)), (Z.ltb_spec 16 (h + 1)), (Z.ltb_spec 12 (h + 1));
    try lia;
    (split; [first [apply Q.min_glb; lra|lra]|]);
    (split; [first [by apply Q.min_le_compat_r|done]|]);
    (split; [first [apply Q.min_glb; lra|lra]|]);
    (split; [intros ?; first [lia|lra]|]);
    (split; intros ?; first [lia|lra]).
Qed.

Lemma calcDecayTime_high_harmonics_witness :
  (calcDecayTime (fun _ _ => 1%Q) 14 100 0.3 <= calcDecayTime (fun _ _ => 1%Q) 13 100 0.3)%Q /\
  (calcDecayTime (fun _ _ => 1%Q) 13 100 0.3 <= 0.3)%Q.
Proof.
  assert (0 <= 0.3)%Q as Hb by (vm_compute; discriminate).
  destruct (calcDecayTime_high_harmonics (fun _ _ => 1%Q) 13 100 100 0.3 ltac:(lia) Hb ltac:(lia))
    as (_ & _ & Hnext & H12 & _).
  split; [exact Hnext|apply H12; lia].
Defined.




Lemma cacheGet_elem (k : Z) (p : SpectralProfile) (cache : list (Z * SpectralProfile)) :
  cacheGet k cache = Some p -> (k, p) ∈ cache.
Proof.
  induction cache as [|[k' p'] l IH]; simpl; [done|].
  destruct (Z.eqb_spec k k') as [->|_].
  - intros [= ->]. left.
  - intros H. right. by apply IH.
Qed.

Lemma cacheGet_snoc (k : Z) (p : SpectralProfile) (cache : list (Z * SpectralProfile)) :
  cacheGet k cache = None -> cacheGet k (cache ++ [(k, p)]) = Some p.
Proof.
  induction cache as [|[k' p'] l IH]; simpl; [by rewrite Z.eqb_refl|].
  by destruct (k =? k')%Z.
Qed.

Lemma Math_round_close (x y : Q) : Math_round x = Math_round y -> (Qabs (x - y) < 1)%Q.
Proof.
  unfold Math_round. intros H.
  pose proof (Qfloor_le (x + (1 # 2))) as Hx1. pose proof (Qlt_floor (x + (1 # 2))) as Hx2.
  pose proof (Qfloor_le (y + (1 # 2))) as Hy1. pose proof (Qlt_floor (y + (1 # 2))) as Hy2.
  rewrite H in Hx1, Hx2. rewrite inject_Z_plus in Hx2, Hy2.
  set (n := inject_Z (Qfloor (y + (1 # 2)))) in *.
  change (inject_Z 1) with 1%Q in *.
  apply Qabs_case; intros _; lra.
Qed.

(** The spectral cache is keyed by the rounded frequency and never
    replaces an entry: once a frequency has been served, every frequency
    that rounds to the same integer gets the cached profile, built for
    the base frequency of the request that created it, which may differ
    from the frequency asked for by up to 1 Hz; the cache is unchanged by
    such a request. *)
Theorem spectral_cache_reuse (env : SpectralEnv) (f g : Q)
    (cache : list (Z * SpectralProfile)) :
  cache_ok env cache -> Math_round g = Math_round f ->
  let p := fst (getSpectralProfile env f cache) in
  let cache' := snd (getSpectralProfile env f cache) in
  cache_ok env cache' /\
  p = SpectralProfile_new env (profileBaseFreq p) /\
  (Qabs (profileBaseFreq p - g) < 1)%Q /\
  getSpectralProfile env g cache' = (p, cache') /\
  (cacheGet (Math_round f) cache = None -> profileBaseFreq p = f).
Proof.
  intros Hok Hg. cbv zeta.
  destruct (getSpectralProfile env f cache) as [p cache'] eqn:Hr. cbn [fst snd].
  unfold getSpectralProfile in Hr. cbv zeta in Hr.
  destruct (cacheGet (Math_round f) cache) as [p0|] eqn:E; injection Hr as <- <-.
  - pose proof (cacheGet_elem _ _ _ E) as Hin.
    destruct (proj1 (Forall_forall _ _) Hok _ Hin) as [Hnew Hkey]. simpl in Hnew, Hkey.
    split; [done|]. split; [done|]. split.
    + apply Math_round_close. congruence.
    + split; [|done]. unfold getSpectralProfile. cbv zeta. by rewrite Hg, E.
  - split; [|split; [done|split]].
    + apply Forall_app. split; [done|]. by repeat constructor.
    + apply Math_round_close. simpl. congruence.
    + split; [|done]. unfold getSpectralProfile. cbv zeta.
      by rewrite Hg, (cacheGet_snoc _ (SpectralProfile_new env f) _ E).
Qed.

Lemma spectral_cache_reuse_witness :
  let p := fst (getSpectralProfile plainEnv 440.4 []) in
  let cache' := snd (getSpectralProfile plainEnv 440.4 []) in
  getSpectralProfile plainEnv 439.6 cache' = (p, cache') /\ profileBaseFreq p = 440.4%Q.
Proof.
  assert (cache_ok plainEnv []) as Hok by constructor.
  assert (Math_round 439.6 = Math_round 440.4) as Hg by (vm_compute; reflexivity).
  destruct (spectral_cache_reuse plainEnv 440.4 439.6 [] Hok Hg) as (_ & _ & _ & H1 & H2).
  split; [exact H1|by apply H2].
Defined.

(** * The cleanup table *)

Lemma Map_get_delete_ne {V : Type} (k j : nat) (m : list (nat * V)) :
  j <> k -> Map_get j (Map_delete k m) = Map_get j m.
Proof.
  intros Hne. unfold Map_delete. induction m as [|[k' v'] m IH]; simpl; [done|].
  destruct (k =? k') eqn:E; simpl.
  - apply Nat.eqb_eq in E as <-. rewrite (proj2 (Nat.eqb_neq j k)) by done. exact IH.
  - destruct (j =? k'); [done|exact IH].
Qed.

Lemma timer_by_id (s : AdditiveSynth) (t t' : Timer) :
  timers_inv s -> t ∈ timers s -> t' ∈ timers s -> timerId t = timerId t' -> t = t'.
Proof.
  intros Hinv. pose proof (timers_nodup _ Hinv) as Hnd. revert Hnd.
  induction (timers s) as [|x l IH]; simpl; intros Hnd Ht Ht' E; [by apply elem_of_nil in Ht|].
  apply NoDup_cons in Hnd as [Hx Hnd].
  assert (forall y, y ∈ l -> timerId y <> timerId x) as Hne.
  { intros y Hy Hyx. apply Hx. change map with (@fmap list _).
    apply list_elem_of_fmap. by exists y. }
  apply elem_of_cons in Ht as [->|Ht]; apply elem_of_cons in Ht' as [->|Ht']; try done.
  - by destruct (Hne t' Ht').
  - by destruct (Hne t Ht).
  - by apply IH.
Qed.

Lemma tracked_almost (noteId : nat) (s : AdditiveSynth) :
  timers_inv s -> tracked s -> almostTracked noteId s.
Proof.
  intros Hinv [H1 H2]. split; [done|by intros; apply H2|].
  intros tid t Hget Hin Hid. destruct (H2 _ _ Hget) as (t0 & Hin0 & Hid0 & Htarget).
  by rewrite (timer_by_id s t t0 Hinv Hin Hin0) by congruence.
Qed.

Lemma tracked_same (s s' : AdditiveSynth) :
  timers s' = timers s -> pendingCleanups s' = pendingCleanups s -> tracked s -> tracked s'.
Proof. intros Ht Hp [H1 H2]. split; rewrite ?Ht, ?Hp; done. Qed.

Lemma tracked_no_timer (noteId : nat) (s : AdditiveSynth) (t : Timer) :
  tracked s -> Map_get noteId (pendingCleanups s) = None -> t ∈ timers s ->
  cleanupTarget (action t) <> Some noteId.
Proof. intros [H1 _] Hnone Hin Htarget. by rewrite (H1 t noteId Hin Htarget) in Hnone. Qed.

(** [cancelPendingCleanup] leaves the table in order and no cleanup
    pending for the note. *)
Lemma cancelPendingCleanup_tracked (noteId : nat) (s : AdditiveSynth) :
  almostTracked noteId s ->
  tracked (cancelPendingCleanup noteId s) /\
  Map_get noteId (pendingCleanups (cancelPendingCleanup noteId s)) = None.
Proof.
  intros [H1 H2 H3]. unfold cancelPendingCleanup.
  destruct (Map_get noteId (pendingCleanups s)) as [tid|] eqn:E.
  - split; [|apply Map_get_delete_eq]. split; simpl.
    + intros t id [Hin Hkeep]%filter_elem Htarget.
      apply negb_true_iff, Nat.eqb_neq in Hkeep.
      pose proof (H1 t id Hin Htarget) as Hget.
      destruct (decide (id = noteId)) as [->|Hne]; [congruence|].
      by rewrite Map_get_delete_ne.
    + intros id tid' Hget.
      destruct (decide (id = noteId)) as [->|Hne]; [by rewrite Map_get_delete_eq in Hget|].
      rewrite Map_get_delete_ne in Hget by done.
      destruct (H2 id tid' Hne Hget) as (t & Hin & Hid & Htarget).
      exists t. split; [|done]. apply list_elem_of_In, filter_In. split; [by apply list_elem_of_In|].
      apply negb_true_iff, Nat.eqb_neq. intros Heq.
      pose proof (H3 tid t eq_refl Hin Heq). congruence.
  - split; [|done]. split; [done|]. intros id tid Hget.
    destruct (decide (id = noteId)) as [->|Hne]; [congruence|]. by apply H2.
Qed.

(** A timer that cleans nothing up joins the queue. *)
Lemma setTimeout_tracked (a : TimerAction) (d : Q) (s : AdditiveSynth) :
  cleanupTarget a = None -> tracked s -> tracked (snd (setTimeout a d s)).
Proof.
  intros Ha [H1 H2]. split; simpl.
  - intros t id [Hin| ->%list_elem_of_singleton]%elem_of_app Htarget; [by apply H1|].
    simpl in Htarget. congruence.
  - intros id tid Hget. destruct (H2 id tid Hget) as (t & Hin & Hrest).
    exists t. split; [|done]. apply elem_of_app. by left.
Qed.

(** A cleanup timer is armed for a note that has none pending. *)
Lemma register_tracked (noteId : nat) (a : TimerAction) (d : Q) (s : AdditiveSynth) :
  cleanupTarget a = Some noteId -> timers_inv s -> tracked s ->
  Map_get noteId (pendingCleanups s) = None ->
  tracked (let '(tid, s1) := setTimeout a d s in
           withPending (Map_set noteId tid (pendingCleanups s1)) s1).
Proof.
  intros Ha Hinv [H1 H2] Hnone. split; simpl.
  - intros t id [Hin| ->%list_elem_of_singleton]%elem_of_app Htarget.
    + pose proof (H1 t id Hin Htarget) as Hget.
      destruct (decide (noteId = id)) as [->|Hne]; [congruence|].
      by rewrite Map_get_set_ne.
    + simpl in *. assert (id = noteId) as -> by congruence. apply Map_get_set_eq.
  - intros id tid Hget. destruct (decide (noteId = id)) as [->|Hne].
    + rewrite Map_get_set_eq in Hget. injection Hget as <-.
      eexists. split; [apply elem_of_app; right; left|]. done.
    + rewrite Map_get_set_ne in Hget by done.
      destruct (H2 id tid Hget) as (t & Hin & Hrest).
      exists t. split; [|done]. apply elem_of_app. by left.
Qed.

Lemma unregister_tracked (noteId : nat) (s : AdditiveSynth) :
  almostTracked noteId s ->
  (forall t, t ∈ timers s -> cleanupTarget (action t) <> Some noteId) ->
  tracked (withPending (Map_delete noteId (pendingCleanups s)) s).
Proof.
  intros [H1 H2 _] Hnone. split; simpl.
  - intros t id Hin Htarget.
    destruct (decide (id = noteId)) as [->|Hne]; [by destruct (Hnone t Hin)|].
    rewrite Map_get_delete_ne by done. by apply H1.
  - intros id tid Hget.
    destruct (decide (id = noteId)) as [->|Hne]; [by rewrite Map_get_delete_eq in Hget|].
    rewrite Map_get_delete_ne in Hget by done. by apply H2.
Qed.

Lemma timers_inv_sameSchedule (s s' : AdditiveSynth) :
  sameSchedule s s' -> timers_inv s -> timers_inv s'.
Proof. intros (Hp & Ht & Hn & _) Hinv. by apply (queues_same s s' Ht Hn Hp). Qed.

Lemma tracked_sameSchedule (s s' : AdditiveSynth) :
  sameSchedule s s' -> tracked s -> tracked s'.
Proof. intros (Hp & Ht & _). by apply tracked_same. Qed.

Lemma cleanupPartials_tracked (now : Q) (noteId : nat) (refs : list nat) (s : AdditiveSynth) :
  tracked s -> Map_get noteId (pendingCleanups s) = None ->
  tracked (fold_left (cleanupPartial now) refs s) /\
  Map_get noteId (pendingCleanups (fold_left (cleanupPartial now) refs s)) = None.
Proof.
  intros Ht Hnone.
  apply (fold_left_preserves
           (fun s' => tracked s' /\ Map_get noteId (pendingCleanups s') = None)); [|done].
  intros s' ref [Ht' Hnone']. unfold cleanupPartial. cbv zeta.
  set (s1 := if Qltb _ _ then _ else _).
  assert (tracked s1 /\ pendingCleanups s1 = pendingCleanups s') as [Ht1 Hp1].
  { unfold s1. destruct (Qltb _ _); (split; [by apply (tracked_same s')|done]). }
  split; [by apply setTimeout_tracked|]. simpl. by rewrite Hp1.
Qed.

(** [cleanupNote] on a voice of the table. *)
Lemma cleanupNote_tracked (noteId : nat) (note : Note) (s : AdditiveSynth) :
  Map_get noteId (activeNotes s) = Some note -> almostTracked noteId s ->
  tracked (cleanupNote noteId s) /\
  Map_get noteId (pendingCleanups (cleanupNote noteId s)) = None.
Proof.
  intros Hget Halmost. unfold cleanupNote. rewrite Hget. cbv zeta.
  destruct (cancelPendingCleanup_tracked noteId s Halmost) as [Ht1 Hn1].
  set (s1 := cancelPendingCleanup noteId s) in *.
  destruct (cleanupPartials_tracked (currentTime s1) noteId (partials note) s1 Ht1 Hn1)
    as [Ht2 Hn2].
  set (s2 := fold_left (cleanupPartial (currentTime s1)) (partials note) s1) in *.
  set (s3 := match gainNodes s2 !! gainNode note with Some _ => _ | None => s2 end).
  assert (tracked s3 /\ pendingCleanups s3 = pendingCleanups s2) as [Ht3 Hp3].
  { unfold s3. destruct (gainNodes s2 !! gainNode note) as [g|]; [|done].
    destruct (Qltb _ _); [|split; [by apply (tracked_same s2)|done]].
    split; [|done]. apply setTimeout_tracked; [done|]. by apply (tracked_same s2). }
  split; [by apply (tracked_same s3)|]. simpl. by rewrite Hp3.
Qed.

(** The state [noteOff] has built before its last statement keeps the
    timers and the table of the state after [cancelPendingCleanup]. *)
Lemma noteOff_prefix (noteId : nat) (releaseTime : Q) (immediate : bool) (note : Note)
    (s : AdditiveSynth) :
  Map_get noteId (activeNotes s) = Some note ->
  exists s2,
    sameSchedule (cancelPendingCleanup noteId s) s2 /\
    noteOff noteId releaseTime immediate s
    = if immediate then cleanupNote noteId s2
      else let '(tid, s3) := setTimeout (ReleaseTimeout noteId) (releaseTime * 1000 + 100)%Q s2 in
           withPending (Map_set noteId tid (pendingCleanups s3)) s3.
Proof.
  intros Hget. unfold noteOff. rewrite Hget. cbv zeta.
  set (s0 := cancelPendingCleanup noteId s).
  set (s1 := fold_left _ (partials note) s0).
  set (s2 := if Qltb _ _ then _ else s1).
  exists s2. split; [|done].
  apply (sameSchedule_trans s0 s1).
  - apply (fold_left_preserves (sameSchedule s0)); [|by repeat split].
    intros s' x Hs'. apply (sameSchedule_trans s0 s' _ Hs'). by repeat split.
  - unfold s2. destruct (Qltb _ _); by repeat split.
Qed.

Lemma noteOff_tracked (noteId : nat) (releaseTime : Q) (immediate : bool) (s : AdditiveSynth) :
  timers_inv s -> tracked s -> tracked (noteOff noteId releaseTime immediate s).
Proof.
  intros Hinv Ht.
  destruct (Map_get noteId (activeNotes s)) as [note|] eqn:Hget;
    [|by unfold noteOff; rewrite Hget].
  destruct (noteOff_prefix noteId releaseTime immediate note s Hget) as (s2 & Hsame & ->).
  destruct (cancelPendingCleanup_tracked noteId s (tracked_almost _ _ Hinv Ht)) as [Ht0 Hn0].
  destruct (cancelPendingCleanup_queues noteId s Hinv) as [Hinv0 _].
  pose proof (timers_inv_sameSchedule _ _ Hsame Hinv0) as Hinv2.
  pose proof (tracked_sameSchedule _ _ Hsame Ht0) as Ht2.
  destruct Hsame as (Hp & _ & _ & _ & Hnotes).
  destruct immediate.
  - apply (cleanupNote_tracked noteId note); [|by apply tracked_almost].
    rewrite Hnotes. by rewrite cancelPendingCleanup_notes.
  - apply register_tracked; [done|done|done|]. by rewrite Hp.
Qed.

Lemma steal_tracked (s : AdditiveSynth) :
  timers_inv s -> tracked s -> tracked (snd (stealVoiceFromQuietestSustainedNote s)).
Proof.
  intros Hinv Ht. unfold stealVoiceFromQuietestSustainedNote.
  destruct (quietestSustainedNote s) as [id|]; [|done].
  destruct (Map_get id (activeNotes s)); [|done]. by apply noteOff_tracked.
Qed.

Lemma poolAcquire_tracked (s s' : AdditiveSynth) (r : option nat) :
  poolAcquire s = Returned (r, s') -> tracked s -> tracked s'.
Proof.
  unfold poolAcquire. destruct (acquire (partialPool s)) as [[r' pp]|]; simpl; [|done].
  intros [= _ <-]. by apply tracked_same.
Qed.

Lemma acquireLoop_tracked (configs : list PartialConfig) (vel : Z) (now : Q) :
  forall s acquired amps s' acquired' amps',
  acquireLoop configs vel now s acquired amps = Returned (s', acquired', amps') ->
  timers_inv s -> tracked s -> tracked s'.
Proof.
  induction configs as [|config configs IH]; intros s acquired amps s' acquired' amps'; simpl.
  - by intros [= <- _ _].
  - destruct (Qltb 24000 (freq config)); [apply IH|].
    destruct (poolAcquire s) as [[[p|] s1]|] eqn:Hacq; simpl; [| |done];
      intros Hloop Hinv Ht;
      destruct (poolAcquire_queues _ _ _ Hacq Hinv) as [Hinv1 _];
      pose proof (poolAcquire_tracked _ _ _ Hacq Ht) as Ht1.
    + apply (IH _ _ _ _ _ _ Hloop).
      * by apply (updatePartial_queues p _ s1).
      * by apply (tracked_same s1).
    + pose proof (steal_tracked s1 Hinv1 Ht1) as Ht2.
      destruct (steal_queues s1 Hinv1) as [Hinv2 _].
      destruct (stealVoiceFromQuietestSustainedNote s1) as [stolen s2]. simpl in Ht2, Hinv2.
      destruct stolen; [|by injection Hloop as <- _ _].
      destruct (poolAcquire s2) as [[[p|] s3]|] eqn:Hacq2; simpl in Hloop; [| |done].
      * destruct (poolAcquire_queues _ _ _ Hacq2 Hinv2) as [Hinv3 _].
        pose proof (poolAcquire_tracked _ _ _ Hacq2 Ht2) as Ht3.
        apply (IH _ _ _ _ _ _ Hloop).
        -- by apply (updatePartial_queues p _ s3).
        -- by apply (tracked_same s3).
      * injection Hloop as <- _ _. by apply (poolAcquire_tracked _ _ _ Hacq2).
Qed.

Lemma noteOn_tracked (model : AcousticModel) (noteId : nat) (freq0 : Q) (vel : Z)
    (kd pd : bool) (s s' : AdditiveSynth) (h : nat) :
  noteOn model noteId freq0 vel kd pd s = Returned (h, s') ->
  timers_inv s -> tracked s -> tracked s'.
Proof.
  unfold noteOn. cbv zeta.
  set (s0 := withGainNodes _ s).
  destruct (acquireLoop _ vel _ s0 [] []) as [[[s1 acquired] amps]|] eqn:Hloop; simpl; [|done].
  intros [= _ <-] Hinv Ht.
  apply (tracked_same s1); [done|done|]. apply (acquireLoop_tracked _ _ _ _ _ _ _ _ _ Hloop).
  - by apply (queues_same s s0).
  - by apply (tracked_same s).
Qed.

Lemma evolveNote_tracked (model : AcousticModel) (now : Q) (s : AdditiveSynth)
    (e : nat * Note) :
  timers_inv s -> tracked s -> tracked (evolveNote model now s e).
Proof.
  intros Hinv Ht. destruct e as [noteId note]. unfold evolveNote.
  pose proof (evolvePartials_sameSchedule model now note (imap pair (partials note)) s)
    as Hsame.
  set (s1 := fold_left _ (imap pair (partials note)) s) in *.
  pose proof (timers_inv_sameSchedule _ _ Hsame Hinv) as Hinv1.
  pose proof (tracked_sameSchedule _ _ Hsame Ht) as Ht1.
  cbv zeta. set (s2 := if _ && _ then _ else s1).
  assert (tracked s2) as Ht2.
  { unfold s2. destruct (_ && _); [|done].
    unfold Map_has. destruct (Map_get noteId (pendingCleanups s1)) eqn:E; [done|].
    by apply register_tracked. }
  by apply (tracked_same s2).
Qed.

Lemma tick_tracked (model : AcousticModel) (s : AdditiveSynth) :
  timers_inv s -> tracked s -> tracked (updateHarmonicEvolution model s).
Proof.
  intros Hinv Ht. unfold updateHarmonicEvolution.
  apply (fold_left_preserves (fun s' => timers_inv s' /\ tracked s')); [|done].
  intros s' e [Hinv' Ht']. split; [|by apply evolveNote_tracked].
  by apply (evolveNote_queues model (currentTime s) s' e).
Qed.

(** What [clearTimeout] leaves when the event loop takes a timer off the
    queue to run it. *)
Lemma clearTimeout_tracked (s : AdditiveSynth) (t : Timer) :
  timers_inv s -> tracked s -> t ∈ timers s ->
  let sc := clearTimeout (timerId t) s in
  match cleanupTarget (action t) with
  | Some noteId =>
      almostTracked noteId sc /\
      forall t', t' ∈ timers sc -> cleanupTarget (action t') <> Some noteId
  | None => tracked sc
  end.
Proof.
  intros Hinv [H1 H2] Hin. cbv zeta.
  assert (forall t', t' ∈ timers s -> t' <> t ->
                     t' ∈ timers (clearTimeout (timerId t) s)) as Hkeep.
  { intros t' Hin' Hne. simpl. apply list_elem_of_In, filter_In.
    split; [by apply list_elem_of_In|]. apply negb_true_iff, Nat.eqb_neq. intros E.
    by apply Hne, (timer_by_id s). }
  destruct (cleanupTarget (action t)) as [noteId|] eqn:Htarget.
  - split; [split|]; simpl.
    + intros t' id [Hin' _]%filter_elem. by apply H1.
    + intros id tid Hne Hget. destruct (H2 id tid Hget) as (t' & Hin' & Hid & Htarget').
      exists t'. split; [|done]. apply Hkeep; [done|]. intros ->. congruence.
    + intros tid t' Hget [Hin' _]%filter_elem Hid.
      destruct (H2 noteId tid Hget) as (t0 & Hin0 & Hid0 & Htarget0).
      by rewrite (timer_by_id s t' t0 Hinv Hin' Hin0) by congruence.
    + intros t' [Hin' Hneq]%filter_elem Htarget'.
      apply negb_true_iff, Nat.eqb_neq in Hneq. apply Hneq.
      pose proof (H1 t noteId Hin Htarget). pose proof (H1 t' noteId Hin' Htarget').
      congruence.
  - split; simpl.
    + intros t' id [Hin' _]%filter_elem. by apply H1.
    + intros id tid Hget. destruct (H2 id tid Hget) as (t' & Hin' & Hid & Htarget').
      exists t'. split; [|done]. apply Hkeep; [done|]. intros ->. congruence.
Qed.

Lemma cleanup_callback_tracked (noteId : nat) (sc : AdditiveSynth) :
  timers_inv sc -> almostTracked noteId sc ->
  (forall t', t' ∈ timers sc -> cleanupTarget (action t') <> Some noteId) ->
  tracked (withPending (Map_delete noteId (pendingCleanups sc)) sc) /\
  tracked (withPending (Map_delete noteId (pendingCleanups (cleanupNote noteId sc)))
                       (cleanupNote noteId sc)).
Proof.
  intros Hinv Halmost Hnone. split; [by apply unregister_tracked|].
  destruct (Map_get noteId (activeNotes sc)) as [note|] eqn:Hget.
  - destruct (cleanupNote_tracked noteId note sc Hget Halmost) as [Ht1 Hn1].
    destruct (cleanupNote_queues noteId sc Hinv) as [Hinv1 _].
    apply unregister_tracked; [by apply tracked_almost|].
    intros t' Hin'. by apply (tracked_no_timer noteId _ t' Ht1 Hn1).
  - unfold cleanupNote. rewrite Hget. by apply unregister_tracked.
Qed.

Lemma fireTimer_tracked (id : nat) (s : AdditiveSynth) :
  timers_inv s -> tracked s -> tracked (fireTimer id s).
Proof.
  intros Hinv Ht. unfold fireTimer.
  destruct (List.find _ (timers s)) as [t|] eqn:Hfind; [|done].
  destruct (Qle_bool _ _); [|done].
  apply find_elem in Hfind as [Hin <-%Nat.eqb_eq].
  pose proof (clearTimeout_tracked s t Hinv Ht Hin) as Hclear. cbv zeta in Hclear.
  set (sc := clearTimeout (timerId t) s) in *.
  assert (timers_inv sc) as Hinvc.
  { apply (timers_inv_drop s sc (fun t' => negb (timerId t' =? timerId t)));
      [done|done|done|done]. }
  destruct (action t) as [noteId|noteId|ref|node]; simpl in Hclear; unfold runCallback.
  - destruct Hclear as [Halmost Hnone].
    by apply (cleanup_callback_tracked noteId sc).
  - destruct Hclear as [Halmost Hnone].
    destruct (cleanup_callback_tracked noteId sc Hinvc Halmost Hnone) as [Hplain Hclean].
    destruct (Map_get noteId (activeNotes sc)); [|done].
    by destruct (belowThreshold _ _).
  - by apply (tracked_same sc).
  - by apply (tracked_same sc).
Qed.

Lemma runEngineOp_tracked (model : AcousticModel) (op : EngineOp) (s s' : AdditiveSynth) :
  runEngineOp model op s = Returned s' ->
  timers_inv s -> tracked s -> timers_inv s' /\ tracked s'.
Proof.
  destruct op as [noteId f v kd pd|noteId r imm|noteId kd pd| |id|dt|live]; simpl.
  - destruct (noteOn model noteId f v kd pd s) as [[h s1]|] eqn:Hon; simpl; [|done].
    intros [= <-] Hinv Ht. split; [by apply (noteOn_queues _ _ _ _ _ _ _ _ _ Hon)|].
    by apply (noteOn_tracked _ _ _ _ _ _ _ _ _ Hon).
  - intros [= <-] Hinv Ht. split; [by apply (noteOff_queues noteId r imm s)|].
    by apply noteOff_tracked.
  - intros [= <-] Hinv Ht.
    assert (timers (updateNoteState noteId kd pd s) = timers s /\
            nextTimerId (updateNoteState noteId kd pd s) = nextTimerId s /\
            pendingCleanups (updateNoteState noteId kd pd s) = pendingCleanups s)
      as (H1 & H2 & H3).
    { unfold updateNoteState. by destruct (Map_get noteId (activeNotes s)). }
    split; [by apply (queues_same s _ H1 H2 H3)|by apply (tracked_same s)].
  - intros [= <-] Hinv Ht. split; [by apply (tick_queues model s)|by apply tick_tracked].
  - intros [= <-] Hinv Ht. split; [|by apply fireTimer_tracked].
    unfold fireTimer. destruct (List.find _ (timers s)) as [t|] eqn:Hfind; [|done].
    destruct (Qle_bool _ _); [|done].
    assert (timers_inv (clearTimeout id s)) as Hinvc.
    { apply (timers_inv_drop s _ (fun t' => negb (timerId t' =? id))); done. }
    destruct (action t) as [n|n|ref|node]; unfold runCallback.
    + destruct (cleanupNote_queues n _ Hinvc) as [Hinv1 _].
      by apply (unregister_queues n _ Hinv1).
    + set (s1 := match Map_get n (activeNotes (clearTimeout id s)) with
                 | Some _ => _ | None => _ end).
      assert (timers_inv s1) as Hinv1.
      { unfold s1. destruct (Map_get n _); [|done].
        destruct (belowThreshold _ _); [|done]. by apply (cleanupNote_queues n _ Hinvc). }
      by apply (unregister_queues n _ Hinv1).
    + match goal with
      | |- timers_inv ?x =>
          by apply (queues_same (clearTimeout id s) x eq_refl eq_refl eq_refl)
      end.
    + match goal with
      | |- timers_inv ?x =>
          by apply (queues_same (clearTimeout id s) x eq_refl eq_refl eq_refl)
      end.
  - intros [= <-] Hinv Ht.
    split; [by apply (queues_same s (advanceClock dt s) eq_refl eq_refl eq_refl)
           |by apply (tracked_same s)].
  - intros [= <-] Hinv Ht.
    split; [by apply (queues_same s (audioRender live s) eq_refl eq_refl eq_refl)
           |by apply (tracked_same s)].
Qed.

Lemma runEngine_tracked (model : AcousticModel) (ops : list EngineOp) :
  forall s s', runEngine model ops s = Returned s' ->
               timers_inv s -> tracked s -> timers_inv s' /\ tracked s'.
Proof.
  induction ops as [|op ops IH]; intros s s'; simpl; [by intros [= <-]|].
  destruct (runEngineOp model op s) as [s1|] eqn:Hop; simpl; [|done].
  intros Hrun Hinv Ht. destruct (runEngineOp_tracked _ _ _ _ Hop Hinv Ht) as [Hinv1 Ht1].
  by apply (IH s1 s').
Qed.

(** Along every run of the engine, [pendingCleanups] and the timer
    queue agree: a release or decay timer in the queue is the entry of
    its note, every entry names such a timer of its note in the queue,
    and so at most one cleanup is pending per note.  A second [noteOff],
    a cleanup or the callback itself always finds and removes the one
    before. *)
Theorem cleanup_timers_tracked (model : AcousticModel) (capacity : nat)
    (ops : list EngineOp) :
  exists s,
    runEngine model ops (synthWithPool capacity) = Returned s /\
    (forall t noteId, t ∈ timers s -> cleanupTarget (action t) = Some noteId ->
                      Map_get noteId (pendingCleanups s) = Some (timerId t)) /\
    (forall noteId tid, Map_get noteId (pendingCleanups s) = Some tid ->
       exists t, t ∈ timers s /\ timerId t = tid /\
                 cleanupTarget (action t) = Some noteId) /\
    (forall t t' noteId, t ∈ timers s -> t' ∈ timers s ->
       cleanupTarget (action t) = Some noteId ->
       cleanupTarget (action t') = Some noteId -> t = t').
Proof.
  destruct (runEngine_owned model capacity ops _ (proj1 (synthWithPool_owned capacity)))
    as (s & Hrun & _).
  assert (timers_inv (synthWithPool capacity)) as Hinv0
    by apply (synthWithPool_owned capacity).
  assert (tracked (synthWithPool capacity)) as Ht0.
  { split; simpl; [by intros t id Hin%elem_of_nil|done]. }
  destruct (runEngine_tracked model ops _ _ Hrun Hinv0 Ht0) as [Hinv [H1 H2]].
  exists s. split; [done|]. split; [done|]. split; [done|].
  intros t t' id Hin Hin' Htarget Htarget'. apply (timer_by_id s); [done|done|done|].
  pose proof (H1 t id Hin Htarget). pose proof (H1 t' id Hin' Htarget'). congruence.
Qed.

(** ** The piano envelope model and the harmonic balance *)

(** With the built-in decay tables (no settings object on the page)
    the envelope model is monotone: a higher key never decays more slowly
    than a lower one in the same state, and pressing the key or the pedal
    never shortens a decay time nor lowers the resonance. *)
Theorem piano_envelope_monotone (enabled : bool) (log2 : Q -> Q) (f1 f2 : Q) (v1 v2 : Z)
    (pedal pedal' key key' : bool) :
  (f1 <= f2)%Q ->
  (pedal = true -> pedal' = true) ->
  (key = true -> key' = true) ->
  let high := getPianoEnvelopeDecayTimes enabled None log2 f2 v2 pedal key in
  let low := getPianoEnvelopeDecayTimes enabled None log2 f1 v1 pedal' key' in
  (0 < fastDecay high)%Q /\
  (fastDecay high <= fastDecay low)%Q /\
  (fastDecay low < slowDecay high)%Q /\
  (slowDecay high <= slowDecay low)%Q /\
  (resonance high <= resonance low)%Q.
Proof.
  intros Hf Hp Hk. unfold getPianoEnvelopeDecayTimes.
  destruct enabled; cbn [negb].
  2: { cbn [fastDecay slowDecay resonance]. repeat split; lra. }
  destruct (Qltb f1 100) eqn:H1, (Qltb f2 100) eqn:H2,
           (Qltb f1 400) eqn:H3, (Qltb f2 400) eqn:H4;
    try apply Qltb_lt in H1; try apply Qltb_ge in H1;
    try apply Qltb_lt in H2; try apply Qltb_ge in H2;
    try apply Qltb_lt in H3; try apply Qltb_ge in H3;
    try apply Qltb_lt in H4; try apply Qltb_ge in H4;
    try (exfalso; lra);
    destruct pedal, key; try (specialize (Hp eq_refl); subst pedal');
      try (specialize (Hk eq_refl); subst key');
      try destruct pedal'; try destruct key';
      cbn [andb negb fastDecay slowDecay resonance]; repeat split; lra.
Qed.

Lemma piano_envelope_monotone_witness :
  (fastDecay (getPianoEnvelopeDecayTimes true None (fun x => x) 440 100 false true)
   <= fastDecay (getPianoEnvelopeDecayTimes true None (fun x => x) 55 30 true true))%Q.
Proof.
  refine (proj1 (proj2 (piano_envelope_monotone true (fun x => x) 55 440 30 100
                          false true true true _ _ _))); [lra | done | done].
Defined.

Lemma rem2_odd (h : Z) : (0 <= h)%Z -> (Z.rem h 2 =? 1)%Z = Z.odd h.
Proof.
  intros Hh. rewrite Z.rem_mod_nonneg by lia.
  rewrite Zmod_odd. by destruct (Z.odd h).
Qed.

Lemma balance_bounds (settings : option OddEvenSettings) (h : Z) :
  let ob := settingOr settings oddBoost 1.2%Q in
  let ea := settingOr settings evenAttenuation 0.6%Q in
  let mh := settingOr settings maxHarmonic 6%Q in
  let balance := calculateOddEvenHarmonicBalance true settings h in
  (1 <= h)%Z -> (0 <= ob)%Q -> (ea <= 1)%Q ->
  (if Qltb mh (inject_Z h) then balance = 1.0%Q
   else if Z.odd h then (0.85 * ob <= balance)%Q /\ (balance <= ob)%Q
   else (ea <= balance)%Q /\ (balance <= ea + 0.1 * (1 - ea))%Q).
Proof.
  intros ob ea mh balance Hh Hob Hea. subst balance.
  unfold calculateOddEvenHarmonicBalance. cbn [negb].
  fold ob ea mh.
  destruct (Qltb mh (inject_Z h)) eqn:Hmax; [done|].
  apply Qltb_ge in Hmax.
  assert (Hh' : (1 <= inject_Z h)%Q).
  { change 1%Q with (inject_Z 1). by rewrite <- Zle_Qle. }
  assert (Hmh : (0 < mh * 2)%Q) by lra.
  rewrite rem2_odd by lia.
  destruct (h =? 1)%Z eqn:Hone.
  { apply Z.eqb_eq in Hone. subst h. cbn [Z.odd]. split; lra. }
  apply Z.eqb_neq in Hone.
  assert (Hh2 : (2 <= inject_Z h)%Q).
  { change 2%Q with (inject_Z 2). rewrite <- Zle_Qle. lia. }
  clearbody ob ea mh.
  destruct (Z.odd h).
  - set (q := ((inject_Z h - 1) / (mh * 2))%Q).
    assert (Hq0 : (0 <= q)%Q) by (apply Qle_shift_div_l; lra).
    assert (Hq1 : (q <= 1 # 2)%Q) by (apply Qle_shift_div_r; lra).
    clearbody q. split; nra.
  - set (q := ((inject_Z h - 2) / (mh * 2))%Q).
    assert (Hq0 : (0 <= q)%Q) by (apply Qle_shift_div_l; lra).
    assert (Hq1 : (q <= 1 # 2)%Q) by (apply Qle_shift_div_r; lra).
    clearbody q. split; nra.
Qed.

(** Inside the balanced range (1 <= h <= maxHarmonic) an odd harmonic
    keeps between 85% and 100% of the odd boost and an even harmonic gets
    the even attenuation raised by at most a tenth of its distance to 1;
    beyond the range the factor is exactly 1. *)
Theorem odd_even_balance_bounds (settings : option OddEvenSettings) (h : Z) :
  let ob := settingOr settings oddBoost 1.2%Q in
  let ea := settingOr settings evenAttenuation 0.6%Q in
  let mh := settingOr settings maxHarmonic 6%Q in
  let balance := calculateOddEvenHarmonicBalance true settings h in
  (1 <= h)%Z -> (0 <= ob)%Q -> (ea <= 1)%Q ->
  (if Qltb mh (inject_Z h) then balance = 1.0%Q
   else if Z.odd h then (0.85 * ob <= balance)%Q /\ (balance <= ob)%Q
   else (ea <= balance)%Q /\ (balance <= ea + 0.1 * (1 - ea))%Q).
Proof. exact (balance_bounds settings h). Qed.

Lemma odd_even_balance_bounds_witness :
  (0.85 * 1.2 <= calculateOddEvenHarmonicBalance true None 5)%Q.
Proof.
  refine (proj1 (odd_even_balance_bounds None 5 _ _ _)); [lia | done | done].
Defined.

(** The sums of [getOddEvenBalanceRatio] with the built-in settings, as a
    loop invariant: each odd harmonic adds at least 1 and each even one at
    most 1. *)
Lemma balance_default_odd (k : Z) :
  (1 <= k)%Z -> Z.odd k = true -> (1 <= calculateOddEvenHarmonicBalance true None k)%Q.
Proof.
  intros Hk Hodd.
  pose proof (balance_bounds None k Hk) as H. cbn zeta in H.
  unfold settingOr in H. specialize (H ltac:(done) ltac:(done)).
  destruct (Qltb 6 (inject_Z k)); [rewrite H; done|].
  rewrite Hodd in H. lra.
Qed.

Lemma balance_default_even (k : Z) :
  (1 <= k)%Z -> Z.odd k = false ->
  (0.6 <= calculateOddEvenHarmonicBalance true None k <= 1)%Q.
Proof.
  intros Hk Hodd.
  pose proof (balance_bounds None k Hk) as H. cbn zeta in H.
  unfold settingOr in H. specialize (H ltac:(done) ltac:(done)).
  destruct (Qltb 6 (inject_Z k)); [rewrite H; split; done|].
  rewrite Hodd in H. lra.
Qed.

Lemma nat_mod2_odd (k : nat) : (k mod 2 =? 1) = Z.odd (Z.of_nat k).
Proof.
  pose proof (Nat.div_mod_eq k 2) as Hk.
  pose proof (Nat.mod_upper_bound k 2 ltac:(done)) as Hlt.
  rewrite Hk at 2. rewrite Nat2Z.inj_add, Nat2Z.inj_mul, Z.add_comm, Z.odd_add_mul_2.
  destruct (k mod 2) as [|[|r]]; [done|done|lia].
Qed.

Lemma balance_sums (len a : nat) (sums : Q * Q) :
  (1 <= a)%nat ->
  let sums' := fold_left (balanceStep true None) (seq a len) sums in
  (fst sums <= fst sums')%Q /\
  (snd sums <= snd sums')%Q /\
  (fst sums - snd sums - (if Z.odd (Z.of_nat a) then 0 else 1) <= fst sums' - snd sums')%Q /\
  ((2 <= len)%nat \/ ((1 <= len)%nat /\ Z.odd (Z.of_nat a) = false) ->
   (snd sums + 0.6 <= snd sums')%Q).
Proof.
  revert a sums. induction len as [|len IH]; intros a sums Ha.
  { cbn [seq fold_left]. repeat split; try lra; [destruct (Z.odd _); lra | lia]. }
  cbn [seq fold_left].
  specialize (IH (S a) (balanceStep true None sums a) ltac:(lia)).
  cbn zeta in IH. destruct IH as (Ho & He & Hd & Hs).
  set (sums' := fold_left (balanceStep true None) (seq (S a) len) (balanceStep true None sums a)) in *.
  clearbody sums'.
  assert (Hsa : Z.odd (Z.of_nat (S a)) = negb (Z.odd (Z.of_nat a))).
  { rewrite Nat2Z.inj_succ. by rewrite Z.odd_succ, <- Z.negb_odd. }
  rewrite Hsa in Hd, Hs.
  unfold balanceStep in Ho, He, Hd, Hs. rewrite nat_mod2_odd in Ho, He, Hd, Hs.
  destruct (Z.odd (Z.of_nat a)) eqn:Hodd; cbn [fst snd negb] in *.
  - pose proof (balance_default_odd (Z.of_nat a) ltac:(lia) Hodd) as Hb.
    split; [lra|]. split; [lra|]. split; [lra|].
    intros [Hlen|[_ ?]]; [|done]. apply Hs. right. split; [lia|done].
  - pose proof (balance_default_even (Z.of_nat a) ltac:(lia) Hodd) as Hb.
    split; [lra|]. split; [lra|]. split; [lra|]. intros _. lra.
Qed.

(** With the built-in settings the analysis helper always reports the
    odd harmonics ahead: over any range 1..n the odd sum exceeds the even
    sum by at least 0.2 and the reported ratio is above 1, the case of an
    empty even sum (n = 1, divisor replaced by 1) included. *)
Theorem odd_even_ratio_above_one (n : nat) :
  (1 <= n)%nat ->
  let '(oddSum, evenSum, ratio) := getOddEvenBalanceRatio true None n in
  (evenSum + 0.2 <= oddSum)%Q /\ (0 <= evenSum)%Q /\ (1 < ratio)%Q.
Proof.
  intros Hn. unfold getOddEvenBalanceRatio.
  destruct n as [|n]; [lia|]. cbn [seq fold_left].
  pose proof (balance_sums n 2 (balanceStep true None (0%Q, 0%Q) 1) ltac:(lia)) as H.
  cbn zeta in H. destruct H as (Ho & He & Hd & _).
  destruct (fold_left _ _ _) as [oddSum evenSum].
  assert (Hstep : balanceStep true None (0%Q, 0%Q) 1 = ((0 + 1.2)%Q, 0%Q)) by done.
  rewrite Hstep in Ho, He, Hd. cbn [fst snd Z.odd Z.of_nat Pos.of_succ_nat] in Ho, He, Hd.
  change (Z.odd (Z.of_nat 2)) with false in Hd. cbn iota in Hd.
  split; [lra|]. split; [lra|].
  destruct (Qeq_bool evenSum 0) eqn:Hz.
  - apply Qeq_bool_iff in Hz. apply Qlt_shift_div_l; lra.
  - apply Qeq_bool_neq in Hz.
    assert (0 < evenSum)%Q.
    { destruct (Qlt_le_dec 0 evenSum); [done|]. exfalso. apply Hz. lra. }
    apply Qlt_shift_div_l; lra.
Qed.

Lemma odd_even_ratio_above_one_witness :
  (1 < snd (getOddEvenBalanceRatio true None 6))%Q.
Proof.
  pose proof (odd_even_ratio_above_one 6 ltac:(lia)) as H.
  destruct (getOddEvenBalanceRatio true None 6) as [[o e] r]. exact (proj2 (proj2 H)).
Defined.

(** ** The brightness over time *)

Lemma vNorm_range (velocity : Q) :
  (0 <= Qmax 0 (Qmin 127 velocity) / 127.0 <= 1)%Q.
Proof.
  destruct (Q.max_spec 0 (Qmin 127 velocity)) as [[? ->]|[? ->]];
    destruct (Q.min_spec 127 velocity) as [[? Hm]|[? Hm]]; rewrite ?Hm in *;
    split; try (apply Qle_shift_div_l; lra); try (apply Qle_shift_div_r; lra).
Qed.

(** After the attack the brightness boost only fades: the multiplier
    starts at most at 1 + decayBrightness, never grows with the time,
    never drops below 1 and is exactly 1 once the decay time has passed.
    The decay time computed from the velocity, 0.5 + (1 - vNorm) * 2, is
    the shorter the louder the note. *)
Theorem brightness_after_attack (Math_sin : Q -> Q) (Math_PI : Q)
    (getAttackTimeForVelocity : option (Q -> Q)) (settings : option BrightnessSettings)
    (velocity attackTime t1 t2 : Q) :
  let db := match brightnessSetting settings decayBrightness with Some x => x | None => 0.2%Q end in
  let vNorm := (Qmax 0 (Qmin 127 velocity) / 127.0)%Q in
  let d := match brightnessSetting settings brightnessDecayTime with
           | Some d => d
           | None => (0.5 + (1.0 - vNorm) * 2.0)%Q
           end in
  let brightness t :=
    getTimeVaryingBrightness Math_sin Math_PI true getAttackTimeForVelocity settings
      velocity t (Some attackTime) in
  (0 <= db)%Q -> (0 < d)%Q ->
  (attackTime <= t1)%Q -> (t1 <= t2)%Q ->
  (1 <= brightness t2)%Q /\
  (brightness t2 <= brightness t1)%Q /\
  (brightness t1 <= 1 + db)%Q /\
  (brightness attackTime == 1 + db * vNorm)%Q /\
  ((attackTime + d <= t2)%Q -> (brightness t2 == 1)%Q) /\
  (brightnessSetting settings brightnessDecayTime = None -> (0.5 <= d <= 2.5)%Q).
Proof.
  intros db vNorm d brightness Hdb Hd Ht1 Ht2. subst brightness. cbv beta.
  unfold getTimeVaryingBrightness. cbn [negb]. fold vNorm. fold db. fold d.
  pose proof (vNorm_range velocity) as Hv. fold vNorm in Hv.
  assert (Hrange : brightnessSetting settings brightnessDecayTime = None ->
                   (0.5 <= d <= 2.5)%Q).
  { intros Hnone. subst d. rewrite Hnone. clearbody vNorm. lra. }
  clearbody db d vNorm.
  assert (Hge : forall t, (attackTime <= t)%Q -> Qltb t attackTime = false).
  { intros t Ht. by apply Qltb_ge. }
  rewrite (Hge t1 Ht1), (Hge t2) by lra. rewrite (Hge attackTime) by lra.
  set (p1 := ((t1 - attackTime) / d)%Q). set (p2 := ((t2 - attackTime) / d)%Q).
  set (p0 := ((attackTime - attackTime) / d)%Q).
  assert (Hp0 : (p0 == 0)%Q) by (unfold p0; field; lra).
  assert (Hp1 : (0 <= p1)%Q) by (apply Qle_shift_div_l; lra).
  assert (Hp12 : (p1 <= p2)%Q).
  { unfold p1, p2, Qdiv. apply Qmult_le_compat_r; [lra|].
    apply Qlt_le_weak, Qinv_lt_0_compat, Hd. }
  assert (Hp2 : (attackTime + d <= t2 -> 1 <= p2)%Q).
  { intros Hlate. apply Qle_shift_div_l; lra. }
  clearbody p0 p1 p2.
  set (w := (db * vNorm)%Q).
  assert (Hw : (0 <= w <= db)%Q) by (unfold w; split; nra).
  assert (Hboost : forall m, (1.0 + db * (1.0 - m) * vNorm == 1 + w * (1 - m))%Q).
  { intros m. unfold w. ring. }
  rewrite !Hboost. clearbody w.
  assert (Hm1 : (0 <= Qmin 1.0 p1 <= 1)%Q).
  { destruct (Q.min_spec 1.0 p1) as [[? ->]|[? ->]]; lra. }
  assert (Hm12 : (Qmin 1.0 p1 <= Qmin 1.0 p2)%Q).
  { destruct (Q.min_spec 1.0 p1) as [[? ->]|[? ->]];
      destruct (Q.min_spec 1.0 p2) as [[? ->]|[? ->]]; lra. }
  assert (Hm2 : (Qmin 1.0 p2 <= 1)%Q).
  { destruct (Q.min_spec 1.0 p2) as [[? ->]|[? ->]]; lra. }
  assert (Hm0 : (Qmin 1.0 p0 == 0)%Q).
  { destruct (Q.min_spec 1.0 p0) as [[? ->]|[? ->]]; lra. }
  assert (Hlate : (attackTime + d <= t2 -> Qmin 1.0 p2 == 1)%Q).
  { intros Hl. specialize (Hp2 Hl).
    destruct (Q.min_spec 1.0 p2) as [[? ->]|[? ->]]; lra. }
  set (m1 := Qmin 1.0 p1) in *. set (m2 := Qmin 1.0 p2) in *.
  set (m0 := Qmin 1.0 p0) in *. clearbody m0 m1 m2.
  split; [nra|]. split; [nra|]. split; [nra|]. split; [nra|].
  split; [|done]. intros Hl. specialize (Hlate Hl). nra.
Qed.

Lemma brightness_after_attack_witness :
  (getTimeVaryingBrightness (fun _ => 0) 3 true None None 100 1 (Some 0.05)
   <= getTimeVaryingBrightness (fun _ => 0) 3 true None None 100 (1 # 2) (Some 0.05))%Q.
Proof.
  refine (proj1 (proj2 (brightness_after_attack (fun _ => 0%Q) 3%Q None None 100%Q 0.05%Q
                          (1 # 2)%Q 1%Q _ _ _ _))); vm_compute; congruence.
Defined.

Section BrightnessBounds.

Variable Math_sin : Q -> Q.
Variable Math_PI : Q.
Variable Math_exp : Q -> Q.
Hypothesis sin_nonneg : forall x, (0 <= x <= Math_PI)%Q -> (0 <= Math_sin x)%Q.
Hypothesis PI_nonneg : (0 <= Math_PI)%Q.
Hypothesis exp_range : forall x, (x <= 0)%Q -> (0 <= Math_exp x <= 1)%Q.

Lemma getTimeVaryingBrightness_ge_1 (enabled : bool) (gav : option (Q -> Q))
    (settings : option BrightnessSettings) (velocity t : Q) (attackTime : option Q) :
  (0 <= match brightnessSetting settings attackBrightnessPeak with
        | Some x => x | None => 0.3 end)%Q ->
  (0 <= match brightnessSetting settings decayBrightness with
        | Some x => x | None => 0.2 end)%Q ->
  (0 <= t)%Q ->
  (1 <= getTimeVaryingBrightness Math_sin Math_PI enabled gav settings velocity t attackTime)%Q.
Proof.
  intros Hpeak Hdb Ht. unfold getTimeVaryingBrightness.
  destruct enabled; cbn [negb]; [|lra].
  pose proof (vNorm_range velocity) as Hv.
  set (vNorm := (Qmax 0 (Qmin 127 velocity) / 127.0)%Q) in *.
  set (peak := match brightnessSetting settings attackBrightnessPeak with
               | Some x => x | None => 0.3%Q end) in *.
  set (db := match brightnessSetting settings decayBrightness with
             | Some x => x | None => 0.2%Q end) in *.
  set (a := match attackTime with
            | Some a => a
            | None => match gav with
                      | Some f => f velocity
                      | None => (0.01 + (1.0 - vNorm) * 0.19)%Q
                      end
            end).
  set (d := match brightnessSetting settings brightnessDecayTime with
            | Some d => d
            | None => (0.5 + (1.0 - vNorm) * 2.0)%Q
            end).
  clearbody a d peak db vNorm.
  destruct (Qltb t a) eqn:Hatt.
  - apply Qltb_lt in Hatt.
    assert (Hp : (0 <= t / a <= 1)%Q).
    { split; [apply Qle_shift_div_l; lra | apply Qle_shift_div_r; lra]. }
    set (p := (t / a)%Q) in *. clearbody p.
    assert (Hs : (0 <= Math_sin (p * Math_PI))%Q) by (apply sin_nonneg; nra).
    set (sn := Math_sin (p * Math_PI)) in *. clearbody sn.
    assert (0 <= peak * sn)%Q by nra. nra.
  - set (m := Qmin 1.0 ((t - a) / d)%Q).
    assert (Hm : (m <= 1)%Q) by (pose proof (Q.le_min_l 1.0 ((t - a) / d)); unfold m; lra).
    clearbody m. assert (0 <= db * (1.0 - m))%Q by nra. nra.
Qed.

Lemma getSoftNotePunchFactor_range (velocity : Q) (harmonicNumber : Z) (t : Q) :
  (0 <= velocity)%Q -> (0 <= t)%Q ->
  (1 <= getSoftNotePunchFactor Math_exp velocity harmonicNumber t <= 4)%Q.
Proof.
  intros Hv Ht. unfold getSoftNotePunchFactor.
  destruct (Qltb 40 velocity) eqn:Hsoft; [lra|]. apply Qltb_ge in Hsoft.
  set (hpf := if (2 <=? harmonicNumber)%Z && (harmonicNumber <=? 4)%Z then 1.5%Q else 1.0%Q).
  assert (Hh : (1 <= hpf <= 1.5)%Q) by (unfold hpf; destruct (_ && _); lra).
  clearbody hpf.
  set (ib := (1.0 + 2.0 * (40 - velocity) / 40 * hpf - 1.0)%Q).
  assert (Hib : (0 <= ib <= 3)%Q).
  { assert (Hq : (0 <= 2.0 * (40 - velocity) / 40 <= 2)%Q).
    { split; [apply Qle_shift_div_l; lra | apply Qle_shift_div_r; lra]. }
    unfold ib. set (q := (2.0 * (40 - velocity) / 40)%Q) in *. clearbody q. split; nra. }
  clearbody ib.
  set (att := Qmin (t / 0.005)%Q 1.0).
  assert (Hatt : (0 <= att <= 1)%Q).
  { unfold att. destruct (Q.min_spec (t / 0.005) 1.0) as [[? ->]|[? ->]]; [|lra].
    split; [apply Qle_shift_div_l; lra | lra]. }
  clearbody att.
  set (x := (- Qmax 0 (t - 0.005) / (0.03 + velocity / 127 * 0.1))%Q).
  assert (Hx : (x <= 0)%Q).
  { unfold x. apply Qle_shift_div_r.
    - assert (0 <= velocity / 127)%Q by (apply Qle_shift_div_l; lra). lra.
    - pose proof (Q.le_max_l 0 (t - 0.005)). lra. }
  pose proof (exp_range x Hx) as Hs. set (sus := Math_exp x) in *. clearbody sus x.
  assert (0 <= ib * att <= 3)%Q by (split; nra).
  set (ia := (ib * att)%Q) in *. clearbody ia. split; nra.
Qed.

End BrightnessBounds.

(** Whatever the settings with non-negative boosts and, where a decay
    time is set, a positive one (a decay time of 0 makes the code divide
    by zero), a harmonic is never attenuated by the brightness model: for
    a harmonic number of at least 1, a velocity and a time that are not
    negative, [getHarmonicTimeVaryingBrightness] is at least 1, and the
    punch factor of soft notes in it is at most 4 (1 from velocity 40
    on). *)
Theorem harmonic_brightness_at_least_one (Math_sin : Q -> Q) (Math_PI : Q) (Math_exp : Q -> Q)
    (enabled : bool) (getAttackTimeForVelocity : option (Q -> Q))
    (settings : option BrightnessSettings) (harmonicNumber : Z) (velocity t : Q)
    (attackTime : option Q) :
  (forall x, (0 <= x <= Math_PI)%Q -> (0 <= Math_sin x)%Q) ->
  (0 <= Math_PI)%Q ->
  (forall x, (x <= 0)%Q -> (0 <= Math_exp x <= 1)%Q) ->
  (0 <= match brightnessSetting settings attackBrightnessPeak with
        | Some x => x | None => 0.3 end)%Q ->
  (0 <= match brightnessSetting settings decayBrightness with
        | Some x => x | None => 0.2 end)%Q ->
  match brightnessSetting settings brightnessDecayTime with
  | Some d => (0 < d)%Q
  | None => True
  end ->
  (1 <= harmonicNumber)%Z -> (0 <= velocity)%Q -> (0 <= t)%Q ->
  (1 <= getHarmonicTimeVaryingBrightness Math_sin Math_PI Math_exp enabled
          getAttackTimeForVelocity settings harmonicNumber velocity t attackTime)%Q /\
  (1 <= getSoftNotePunchFactor Math_exp velocity harmonicNumber t <= 4)%Q /\
  ((40 < velocity)%Q -> getSoftNotePunchFactor Math_exp velocity harmonicNumber t = 1.0%Q).
Proof.
  intros Hsin Hpi Hexp Hpeak Hdb _ Hh Hv Ht.
  pose proof (getTimeVaryingBrightness_ge_1 Math_sin Math_PI Hsin Hpi enabled
                getAttackTimeForVelocity settings velocity t attackTime Hpeak Hdb Ht) as Hbase.
  pose proof (getSoftNotePunchFactor_range Math_exp Hexp velocity harmonicNumber t Hv Ht)
    as Hpunch.
  split; [|split; [done|]].
  - unfold getHarmonicTimeVaryingBrightness.
    set (base := getTimeVaryingBrightness _ _ _ _ _ _ _ _) in *.
    set (punch := getSoftNotePunchFactor _ _ _ _) in *.
    set (boost := if Qltb t _ then _ else _).
    assert (Hboost : (1 <= boost)%Q).
    { unfold boost. destruct (Qltb t _); [|lra].
      assert (1 <= inject_Z harmonicNumber)%Q.
      { change 1%Q with (inject_Z 1). by rewrite <- Zle_Qle. }
      lra. }
    clearbody base punch boost.
    assert (1 <= base * boost)%Q by nra. nra.
  - intros Hloud. unfold getSoftNotePunchFactor.
    by apply Qltb_lt in Hloud as ->.
Qed.

Lemma harmonic_brightness_at_least_one_witness :
  (1 <= getHarmonicTimeVaryingBrightness (fun _ => 0%Q) 3%Q (fun _ => 1%Q) true None
          (Some (mkBrightnessSettings None (Some 1.5%Q) None)) 3 20%Q 1%Q None)%Q.
Proof.
  refine (proj1 (harmonic_brightness_at_least_one (fun _ => 0%Q) 3%Q (fun _ => 1%Q) true
                   None (Some (mkBrightnessSettings None (Some 1.5%Q) None))
                   3 20%Q 1%Q None _ _ _ _ _ _ _ _ _));
    try (intros x Hx; lra); try lia; vm_compute; congruence.
Defined.

(** ** Ties in the stealing scan *)




(** ** The wiring of the per-note gain nodes *)

Lemma voiceNodes_keys (m : list (nat * Note)) : map fst (voiceNodes m) = map fst m.
Proof. unfold voiceNodes. rewrite map_map. by apply map_ext. Qed.

Lemma voiceNodes_set (k : nat) (v v0 : Note) (m : list (nat * Note)) :
  Map_get k m = Some v0 -> gainNode v = gainNode v0 ->
  voiceNodes (Map_set k v m) = voiceNodes m.
Proof.
  intros Hget Hp. induction m as [|[k' v'] m IH]; simpl in *; [done|].
  destruct (k =? k') eqn:E; simpl.
  - injection Hget as ->. apply Nat.eqb_eq in E as ->. by rewrite Hp.
  - f_equal. by apply IH.
Qed.

Lemma voiceNodes_elem (m : list (nat * Note)) (k a : nat) :
  NoDup (map fst m) -> (k, a) ∈ voiceNodes m ->
  exists v, Map_get k m = Some v /\ gainNode v = a.
Proof.
  intros Hnd Hin. unfold voiceNodes in Hin. change map with (@fmap list _) in Hin.
  apply list_elem_of_fmap in Hin as ([k' v] & [= -> ->] & Hin).
  exists v. split; [|done]. by apply Map_get_NoDup.
Qed.

Lemma voiceNodes_get (m : list (nat * Note)) (k : nat) (v : Note) :
  Map_get k m = Some v -> gainNode v ∈ map snd (voiceNodes m).
Proof.
  intros Hget%Map_get_elem. change map with (@fmap list _). unfold voiceNodes.
  apply list_elem_of_fmap. exists (k, gainNode v). split; [done|].
  apply list_elem_of_fmap. by exists (k, v).
Qed.

Lemma voiceNodes_delete_sub (k : nat) (m : list (nat * Note)) :
  sublist (map snd (voiceNodes (Map_delete k m))) (map snd (voiceNodes m)).
Proof.
  unfold Map_delete. induction m as [|e m IH]; simpl; [done|].
  destruct (negb (k =? fst e)); simpl; [by apply sublist_skip|by apply sublist_cons].
Qed.

(** Deleting a voice takes its gain node out of the list. *)
Lemma voiceNodes_delete_gone (k : nat) (v : Note) (m : list (nat * Note)) :
  NoDup (map snd (voiceNodes m)) -> Map_get k m = Some v ->
  gainNode v ∉ map snd (voiceNodes (Map_delete k m)).
Proof.
  unfold Map_delete. induction m as [|[k' v'] m IH]; simpl; [done|].
  intros Hnd Hget. apply NoDup_cons in Hnd as [Hv' Hnd].
  destruct (k =? k') eqn:E; simpl.
  - injection Hget as ->. intros Hin. apply Hv'.
    eapply elem_of_sublist; [exact Hin|apply (voiceNodes_delete_sub k m)].
  - intros [Heq|Hin]%elem_of_cons; [|by apply IH].
    apply Hv'. rewrite <- Heq. by eapply voiceNodes_get.
Qed.

(** Storing a voice with a gain node that no voice has. *)
Lemma voiceNodes_set_fresh (k : nat) (v : Note) (m : list (nat * Note)) :
  NoDup (map snd (voiceNodes m) ++ [gainNode v]) ->
  NoDup (map snd (voiceNodes (Map_set k v m))) /\
  forall a, a ∈ map snd (voiceNodes (Map_set k v m)) ->
            a ∈ map snd (voiceNodes m) ++ [gainNode v].
Proof.
  induction m as [|[k' v'] m IH]; simpl.
  - intros _. split; [apply NoDup_singleton|done].
  - intros Hnd. apply NoDup_cons in Hnd as [Hv' Hnd].
    destruct (k =? k') eqn:E; simpl.
    + apply NoDup_app in Hnd as (Hm & Hdis & _). split.
      * apply NoDup_cons. split; [|done]. intros Hin. apply (Hdis _ Hin). left.
      * intros a [->|Hin]%elem_of_cons.
        -- right. apply elem_of_app. right. left.
        -- right. apply elem_of_app. by left.
    + destruct (IH Hnd) as [Hnd' Hsub]. split.
      * apply NoDup_cons. split; [|done]. intros Hin. by apply Hv', Hsub.
      * intros a [->|Hin]%elem_of_cons; [left|right; by apply Hsub].
Qed.

Lemma wired_frame (extra : list nat) (s s' : AdditiveSynth) :
  voiceNodes (activeNotes s') = voiceNodes (activeNotes s) ->
  length (gainNodes s') = length (gainNodes s) ->
  (forall a g, a ∈ map snd (voiceNodes (activeNotes s)) ++ extra ->
     gainNodes s !! a = Some g -> gainConnected g = true ->
     exists g', gainNodes s' !! a = Some g' /\ gainConnected g' = true) ->
  (forall t a, t ∈ timers s' -> action t = GainTimeout a ->
     exists t0, t0 ∈ timers s /\ action t0 = GainTimeout a) ->
  wired extra s -> wired extra s'.
Proof.
  intros Hnodes Hlen Hconn Htimers [Hk Hd Hc Hp]. split.
  - by rewrite <- (voiceNodes_keys (activeNotes s')), Hnodes, voiceNodes_keys.
  - by rewrite Hnodes.
  - rewrite Hnodes. intros a Ha. destruct (Hc a Ha) as (g & Hg & Hgc). by eapply Hconn.
  - rewrite Hnodes, Hlen. intros t a Hin Hact.
    destruct (Htimers t a Hin Hact) as (t0 & Hin0 & Hact0). by eapply Hp.
Qed.

Lemma alter_connected (f : GainNode -> GainNode) (node a : nat) (nodes : list GainNode)
    (g : GainNode) :
  (forall g, gainConnected (f g) = gainConnected g) ->
  nodes !! a = Some g ->
  exists g', alter f node nodes !! a = Some g' /\ gainConnected g' = gainConnected g.
Proof.
  intros Hf Hg. destruct (decide (node = a)) as [->|Hne].
  - rewrite list_lookup_alter_eq, Hg. simpl. exists (f g). split; [done|apply Hf].
  - rewrite list_lookup_alter_ne by done. by exists g.
Qed.

(** The steps that leave voices and gain nodes alone and add no
    disconnecting timer. *)
Lemma wired_same (extra : list nat) (s s' : AdditiveSynth) :
  activeNotes s' = activeNotes s -> gainNodes s' = gainNodes s ->
  (forall t a, t ∈ timers s' -> action t = GainTimeout a ->
     exists t0, t0 ∈ timers s /\ action t0 = GainTimeout a) ->
  wired extra s -> wired extra s'.
Proof.
  intros Hn Hg Ht. apply wired_frame; [by rewrite Hn|by rewrite Hg| |done].
  intros a g _ Hl Hc. rewrite Hg. eauto.
Qed.

Lemma wired_updateNoteGain (extra : list nat) (node : nat) (f : GainNode -> GainNode)
    (s : AdditiveSynth) :
  (forall g, gainConnected (f g) = gainConnected g) ->
  wired extra s -> wired extra (updateNoteGain node f s).
Proof.
  intros Hf. apply wired_frame; simpl; [done|by rewrite length_alter| |eauto].
  intros a g _ Hg Hc. destruct (alter_connected f node a _ g Hf Hg) as (g' & ? & ?).
  exists g'. split; [done|congruence].
Qed.

Ltac old_timer :=
  let t := fresh "t" in let a := fresh "a" in
  let Hin := fresh "Hin" in let Hact := fresh "Hact" in
  intros t a Hin Hact; simpl in Hin;
  first
    [ apply elem_of_app in Hin as [Hin|Hin%list_elem_of_singleton];
      [by eauto|subst t; simpl in Hact; discriminate]
    | apply list_elem_of_In, filter_In in Hin as [Hin%list_elem_of_In _]; by eauto
    | by eauto ].

Lemma wired_cancelPendingCleanup (extra : list nat) (noteId : nat) (s : AdditiveSynth) :
  wired extra s -> wired extra (cancelPendingCleanup noteId s).
Proof.
  unfold cancelPendingCleanup. destruct (Map_get _ _); [|done].
  apply wired_same; [reflexivity|reflexivity|]. old_timer.
Qed.

Lemma wired_updatePartial (extra : list nat) (ref : nat) (f : Partial -> Partial)
    (s : AdditiveSynth) :
  wired extra s -> wired extra (updatePartial ref f s).
Proof. apply wired_same; [reflexivity|reflexivity|eauto]. Qed.

Lemma wired_cleanupPartial (extra : list nat) (now : Q) (s : AdditiveSynth) (ref : nat) :
  wired extra s -> wired extra (cleanupPartial now s ref).
Proof.
  unfold cleanupPartial. cbv zeta. destruct (Qltb _ _);
    (apply wired_same; [reflexivity|reflexivity|old_timer]).
Qed.

Lemma wired_releasePartial (extra : list nat) (now safe : Q) (s : AdditiveSynth) (ref : nat) :
  wired extra s -> wired extra (releasePartial now safe s ref).
Proof. apply wired_updatePartial. Qed.

(** Removing a voice: its gain node is disconnected at once or by the
    timer queued for it; the other nodes are not touched. *)
Lemma wired_remove (extra : list nat) (noteId : nat) (note : Note) (s s' : AdditiveSynth) :
  Map_get noteId (activeNotes s) = Some note ->
  activeNotes s' = Map_delete noteId (activeNotes s) ->
  length (gainNodes s') = length (gainNodes s) ->
  (forall a g, a <> gainNode note -> gainNodes s !! a = Some g ->
     exists g', gainNodes s' !! a = Some g' /\ gainConnected g' = gainConnected g) ->
  (forall t a, t ∈ timers s' -> action t = GainTimeout a ->
     a = gainNode note \/ exists t0, t0 ∈ timers s /\ action t0 = GainTimeout a) ->
  wired extra s -> wired extra s'.
Proof.
  intros Hget Hnotes Hlen Hconn Htimers [Hk Hd Hc Hp].
  assert (Hsub : forall a, a ∈ map snd (voiceNodes (Map_delete noteId (activeNotes s))) ++ extra ->
                           a ∈ map snd (voiceNodes (activeNotes s)) ++ extra).
  { intros a [Ha|Ha]%elem_of_app; apply elem_of_app; [left|by right].
    eapply elem_of_sublist; [exact Ha|apply voiceNodes_delete_sub]. }
  assert (Hgone : gainNode note ∉ map snd (voiceNodes (Map_delete noteId (activeNotes s))) ++ extra).
  { apply NoDup_app in Hd as (Hd1 & Hdis & _).
    intros [Ha|Ha]%elem_of_app.
    - by apply (voiceNodes_delete_gone noteId note (activeNotes s)).
    - apply (Hdis (gainNode note)); [by eapply voiceNodes_get|done]. }
  split; rewrite ?Hnotes.
  - by apply Map_delete_NoDup.
  - apply NoDup_app in Hd as (Hd1 & Hdis & Hd2). apply NoDup_app. split; [|split; [|done]].
    + eapply sublist_NoDup; [exact Hd1|apply voiceNodes_delete_sub].
    + intros a Ha. apply Hdis. eapply elem_of_sublist; [exact Ha|apply voiceNodes_delete_sub].
  - intros a Ha. destruct (Hc a (Hsub a Ha)) as (g & Hg & Hgc).
    destruct (Hconn a g) as (g' & Hg' & Hgc'); [|done|exists g'; split; [done|congruence]].
    intros ->. by apply Hgone.
  - rewrite Hlen. intros t a Hin Hact.
    destruct (Htimers t a Hin Hact) as [->|(t0 & Hin0 & Hact0)].
    + split; [|done]. destruct (Hc (gainNode note)) as (g & Hg & _).
      { apply elem_of_app. left. by eapply voiceNodes_get. }
      by eapply lookup_lt_Some.
    + destruct (Hp t0 a Hin0 Hact0) as [Hlt Hnot]. split; [done|].
      intros Ha. by apply Hnot, Hsub.
Qed.

Lemma wired_cleanupNote (extra : list nat) (noteId : nat) (s : AdditiveSynth) :
  wired extra s -> wired extra (cleanupNote noteId s).
Proof.
  intros Hw. unfold cleanupNote.
  destruct (Map_get noteId (activeNotes s)) as [note|] eqn:Hget; [|done].
  cbv zeta. set (s0 := cancelPendingCleanup noteId s).
  set (s1 := fold_left _ (partials note) s0).
  assert (Hw1 : wired extra s1 /\ activeNotes s1 = activeNotes s).
  { unfold s1. apply fold_left_preserves.
    - intros s' ref [Hw' Hn']. split; [by apply wired_cleanupPartial|].
      rewrite <- Hn'. unfold cleanupPartial. cbv zeta. destruct (Qltb _ _); reflexivity.
    - unfold s0. split; [by apply wired_cancelPendingCleanup|].
      exact (proj1 (cancelPendingCleanup_sameVoices noteId s)). }
  destruct Hw1 as [Hw1 Hn1]. clearbody s1 s0.
  assert (Hget1 : Map_get noteId (activeNotes s1) = Some note) by (by rewrite Hn1).
  destruct (gainNodes s1 !! gainNode note) as [g|] eqn:Hg.
  2: { apply (wired_remove extra noteId note s1); [done|done|done|eauto|eauto|done]. }
  destruct (Qltb 0.001 (value (gainParam g))).
  - apply (wired_remove extra noteId note s1); simpl; [done|done| | | |done].
    + by rewrite !length_alter.
    + intros a g0 Hne Hg0. rewrite !list_lookup_alter_ne by done. eauto.
    + intros t a [Hin|Hin%list_elem_of_singleton]%elem_of_app Hact; [by eauto|].
      subst t. simpl in Hact. injection Hact as <-. by left.
  - apply (wired_remove extra noteId note s1); simpl; [done|done| | | |done].
    + by rewrite !length_alter.
    + intros a g0 Hne Hg0. rewrite !list_lookup_alter_ne by done. eauto.
    + eauto.
Qed.

Lemma wired_noteOff (extra : list nat) (noteId : nat) (releaseTime : Q) (immediate : bool)
    (s : AdditiveSynth) :
  wired extra s -> wired extra (noteOff noteId releaseTime immediate s).
Proof.
  intros Hw. unfold noteOff.
  destruct (Map_get noteId (activeNotes s)) as [note|] eqn:Hget; [|done].
  cbv zeta. set (s0 := cancelPendingCleanup noteId s).
  set (s1 := fold_left _ (partials note) s0).
  assert (Hw1 : wired extra s1).
  { unfold s1, s0. apply fold_left_preserves; [intros; by apply wired_releasePartial|].
    by apply wired_cancelPendingCleanup. }
  clearbody s1 s0.
  set (s2 := if Qltb _ 0.99 then _ else s1).
  assert (Hw2 : wired extra s2).
  { unfold s2. destruct (Qltb _ 0.99); [|done]. by apply wired_updateNoteGain. }
  clearbody s2. destruct immediate; [by apply wired_cleanupNote|].
  simpl. revert Hw2. apply wired_same; [reflexivity|reflexivity|old_timer].
Qed.

Lemma wired_steal (extra : list nat) (s : AdditiveSynth) :
  wired extra s -> wired extra (snd (stealVoiceFromQuietestSustainedNote s)).
Proof.
  intros Hw. unfold stealVoiceFromQuietestSustainedNote.
  destruct (quietestSustainedNote s) as [id|]; [|done].
  destruct (Map_get id (activeNotes s)) eqn:Hget; [|done].
  by apply wired_noteOff.
Qed.

Lemma wired_poolAcquire (extra : list nat) (s s' : AdditiveSynth) (r : option nat) :
  poolAcquire s = Returned (r, s') -> wired extra s -> wired extra s'.
Proof.
  unfold poolAcquire. destruct (acquire (partialPool s)) as [[r' pp]|]; simpl; [|done].
  intros [= _ <-]. apply wired_same; [reflexivity|reflexivity|eauto].
Qed.

Lemma wired_acquireLoop (extra : list nat) (configs : list PartialConfig) (vel : Z) (now : Q) :
  forall s acquired amps s' acquired' amps',
  acquireLoop configs vel now s acquired amps = Returned (s', acquired', amps') ->
  wired extra s -> wired extra s'.
Proof.
  induction configs as [|config configs IH]; intros s acquired amps s' acquired' amps'; simpl.
  - by intros [= <- _ _].
  - destruct (Qltb 24000 (freq config)); [apply IH|].
    destruct (poolAcquire s) as [[[p|] s1]|] eqn:Hacq; simpl; [| |done].
    + intros Hloop Hw. eapply IH; [exact Hloop|].
      apply wired_updatePartial. by eapply wired_poolAcquire.
    + pose proof (wired_steal extra s1) as Hst.
      destruct (stealVoiceFromQuietestSustainedNote s1) as [[stolen|] s2]; simpl in *.
      * destruct (poolAcquire s2) as [[[p|] s3]|] eqn:Hacq2; simpl; [| |done].
        -- intros Hloop Hw. eapply IH; [exact Hloop|].
           apply wired_updatePartial. eapply wired_poolAcquire; [exact Hacq2|].
           apply Hst. by eapply wired_poolAcquire.
        -- intros [= <- _ _] Hw. eapply wired_poolAcquire; [exact Hacq2|].
           apply Hst. by eapply wired_poolAcquire.
      * intros [= <- _ _] Hw. apply Hst. by eapply wired_poolAcquire.
Qed.

Lemma wired_noteOn (model : AcousticModel) (noteId : nat) (freq0 : Q) (vel : Z)
    (kd pd : bool) (s s' : AdditiveSynth) (h : nat) :
  noteOn model noteId freq0 vel kd pd s = Returned (h, s') ->
  wired [] s -> wired [] s'.
Proof.
  unfold noteOn. cbv zeta.
  set (s0 := withGainNodes _ s).
  destruct (acquireLoop _ vel _ s0 [] []) as [[[s1 acquired] amps]|] eqn:Hloop; simpl; [|done].
  intros [= _ <-] Hw.
  assert (Hw0 : wired [length (gainNodes s)] s0).
  { destruct Hw as [Hk Hd Hc Hp]. rewrite app_nil_r in *.
    assert (Hlt : forall a, a ∈ map snd (voiceNodes (activeNotes s)) -> a < length (gainNodes s)).
    { intros a Ha. destruct (Hc a Ha) as (g & Hg & _). by eapply lookup_lt_Some. }
    split; simpl.
    - done.
    - apply NoDup_app. split; [done|]. split; [|apply NoDup_singleton].
      intros a Ha ->%list_elem_of_singleton. specialize (Hlt _ Ha). lia.
    - intros a [Ha|Ha%list_elem_of_singleton]%elem_of_app.
      + destruct (Hc a Ha) as (g & Hg & Hgc). exists g. split; [|done].
        by apply lookup_app_l_Some.
      + subst a. eexists. split; [apply list_lookup_middle; done|done].
    - intros t a Hin Hact. destruct (Hp t a Hin Hact) as [Hlt' Hnot].
      rewrite length_app. simpl. split; [lia|].
      intros [Ha|Ha%list_elem_of_singleton]%elem_of_app; [done|lia]. }
  pose proof (wired_acquireLoop _ _ _ _ _ _ _ _ _ _ Hloop Hw0) as [Hk Hd Hc Hp].
  set (note := mkNote acquired (length (gainNodes s)) freq0 vel (currentTime s0) kd pd amps
                      (currentTime s0)).
  destruct (voiceNodes_set_fresh noteId note (activeNotes s1) Hd) as [Hnd Hsub].
  split; simpl; rewrite ?app_nil_r.
  - by apply Map_set_NoDup.
  - done.
  - intros a Ha. apply Hc. by apply Hsub.
  - intros t a Hin Hact. destruct (Hp t a Hin Hact) as [Hlt Hnot]. split; [done|].
    intros Ha. by apply Hnot, Hsub.
Qed.

Lemma wired_updateNoteState (noteId : nat) (kd pd : bool) (s : AdditiveSynth) :
  wired [] s -> wired [] (updateNoteState noteId kd pd s).
Proof.
  unfold updateNoteState. destruct (Map_get noteId (activeNotes s)) as [note|] eqn:E; [|done].
  apply wired_frame; simpl; [by apply (voiceNodes_set noteId _ note)|done|eauto|eauto].
Qed.

Lemma wired_evolveNote (model : AcousticModel) (now : Q) (s : AdditiveSynth)
    (noteId : nat) (note note0 : Note) :
  Map_get noteId (activeNotes s) = Some note0 -> gainNode note0 = gainNode note ->
  wired [] s ->
  wired [] (evolveNote model now s (noteId, note)) /\
  voiceNodes (activeNotes (evolveNote model now s (noteId, note))) = voiceNodes (activeNotes s).
Proof.
  intros Hget Hnode Hw. unfold evolveNote. cbv zeta.
  set (s1 := fold_left _ (imap pair (partials note)) s).
  assert (H1 : wired [] s1 /\ activeNotes s1 = activeNotes s).
  { unfold s1. apply fold_left_preserves; [|done].
    intros s' [i ref] [Hw' Hn']. unfold evolvePartial.
    destruct (initialAmplitudes note !! i); [|done].
    destruct (Qltb 0.05 _); [|done]. split; [by apply wired_updatePartial|done]. }
  destruct H1 as [Hw1 Hn1]. clearbody s1.
  set (s2 := if _ && _ then _ else s1).
  assert (H2 : wired [] s2 /\ activeNotes s2 = activeNotes s).
  { unfold s2. destruct (_ && _); [|done]. destruct (Map_has _ _); [done|].
    simpl. split; [|done]. revert Hw1. apply wired_same; [reflexivity|reflexivity|old_timer]. }
  destruct H2 as [Hw2 Hn2]. clearbody s2.
  assert (Hv : voiceNodes (Map_set noteId
                 (mkNote (partials note) (gainNode note) (frequency note) (velocity note)
                    (startTime note) (keyDown note) (pedalDown note)
                    (initialAmplitudes note) now) (activeNotes s2))
               = voiceNodes (activeNotes s)).
  { rewrite Hn2. by apply (voiceNodes_set noteId _ note0). }
  split; [|exact Hv].
  revert Hw2. apply wired_frame; simpl; [by rewrite Hv, Hn2|done|eauto|eauto].
Qed.

Lemma wired_tick (model : AcousticModel) (s : AdditiveSynth) :
  wired [] s -> wired [] (updateHarmonicEvolution model s).
Proof.
  intros Hw. unfold updateHarmonicEvolution.
  apply (fold_left_preserves_elem
           (fun s' => wired [] s' /\ voiceNodes (activeNotes s') = voiceNodes (activeNotes s)));
    [|done].
  intros s' [k note] Hin [Hw' Hs'].
  assert ((k, gainNode note) ∈ voiceNodes (activeNotes s')) as Hk.
  { rewrite Hs'. unfold voiceNodes. change map with (@fmap list _).
    apply list_elem_of_fmap. by exists (k, note). }
  apply voiceNodes_elem in Hk as (v & Hget & Hv); [|by destruct Hw'].
  destruct (wired_evolveNote model (currentTime s) s' k note v Hget Hv Hw') as [Hw'' Hn''].
  split; [done|congruence].
Qed.

Lemma wired_fireTimer (id : nat) (s : AdditiveSynth) :
  wired [] s -> wired [] (fireTimer id s).
Proof.
  intros Hw. unfold fireTimer.
  destruct (List.find _ (timers s)) as [t|] eqn:Hfind; [|done].
  destruct (Qle_bool _ _); [|done].
  apply find_elem in Hfind as [Hin _].
  assert (Hwc : wired [] (clearTimeout id s)).
  { revert Hw. apply wired_same; [reflexivity|reflexivity|old_timer]. }
  destruct (action t) as [noteId|noteId|ref|node] eqn:Hact; simpl.
  - apply (wired_same [] (cleanupNote noteId (clearTimeout id s))); [reflexivity|reflexivity|eauto|].
    by apply wired_cleanupNote.
  - set (sc := clearTimeout id s) in *.
    match goal with |- wired [] (withPending _ ?x) =>
      assert (Hx : wired [] x);
        [|revert Hx; apply wired_same; [reflexivity|reflexivity|eauto]] end.
    destruct (Map_get noteId _) as [note|]; [|exact Hwc].
    destruct (belowThreshold _ _); [|exact Hwc].
    apply wired_cleanupNote. exact Hwc.
  - revert Hwc. apply wired_same; [reflexivity|reflexivity|eauto].
  - destruct (wired_pending [] s Hw t node Hin Hact) as [_ Hnot].
    revert Hwc. apply wired_frame; simpl; [done|by rewrite length_alter| |eauto].
    intros a g Ha Hg Hgc. rewrite list_lookup_alter_ne; [eauto|].
    intros ->. done.
Qed.

Lemma runEngineOp_wired (model : AcousticModel) (op : EngineOp) (s s' : AdditiveSynth) :
  runEngineOp model op s = Returned s' -> wired [] s -> wired [] s'.
Proof.
  destruct op as [noteId freq0 vel kd pd|noteId releaseTime immediate|noteId kd pd| |id|dt|live];
    simpl.
  - destruct (noteOn model noteId freq0 vel kd pd s) as [[h s1]|] eqn:Hon; simpl; [|done].
    intros [= <-]. by eapply wired_noteOn.
  - intros [= <-]. apply wired_noteOff.
  - intros [= <-]. apply wired_updateNoteState.
  - intros [= <-]. apply wired_tick.
  - intros [= <-]. apply wired_fireTimer.
  - intros [= <-]. apply wired_same; [reflexivity|reflexivity|eauto].
  - intros [= <-]. apply wired_same; [reflexivity|reflexivity|eauto].
Qed.

Lemma runEngine_wired (model : AcousticModel) (ops : list EngineOp) :
  forall s s', runEngine model ops s = Returned s' -> wired [] s -> wired [] s'.
Proof.
  induction ops as [|op ops IH]; intros s s'; simpl; [by intros [= <-]|].
  destruct (runEngineOp model op s) as [s1|] eqn:Hop; simpl; [|done].
  intros Hrun Hw. apply (IH s1 s' Hrun). by eapply runEngineOp_wired.
Qed.

Lemma voiceNodes_inj (m : list (nat * Note)) (k k' : nat) (v v' : Note) :
  NoDup (map snd (voiceNodes m)) -> (k, v) ∈ m -> (k', v') ∈ m ->
  gainNode v = gainNode v' -> k = k'.
Proof.
  assert (Hmem : forall (l : list (nat * Note)) j w,
            (j, w) ∈ l -> gainNode w ∈ map snd (voiceNodes l)).
  { intros l j w Hin. change map with (@fmap list _). unfold voiceNodes.
    apply list_elem_of_fmap. exists (j, gainNode w). split; [done|].
    apply list_elem_of_fmap. by exists (j, w). }
  induction m as [|[k0 v0] m IH]; simpl; intros Hnd Hin Hin' Heq;
    [by apply elem_of_nil in Hin|].
  apply NoDup_cons in Hnd as [Hv0 Hnd].
  apply elem_of_cons in Hin as [[= -> ->]|Hin];
    apply elem_of_cons in Hin' as [[= -> ->]|Hin'].
  - done.
  - exfalso. apply Hv0. rewrite Heq. by eapply Hmem.
  - exfalso. apply Hv0. rewrite <- Heq. by eapply Hmem.
  - by apply IH.
Qed.

(** Along every run of the engine each voice of the table has a gain
    node of its own: the node is connected, no pending timer is going to
    disconnect it, no other voice shares it, and a volume command for
    another voice leaves it untouched.  The timers that disconnect a gain
    node only ever name the node of a voice that has left the table. *)
Theorem voices_keep_their_gain_node (model : AcousticModel) (capacity : nat)
    (ops : list EngineOp) :
  exists s,
    runEngine model ops (synthWithPool capacity) = Returned s /\
    forall id note, Map_get id (activeNotes s) = Some note ->
      (exists g, gainNodes s !! gainNode note = Some g /\ gainConnected g = true) /\
      (forall t, t ∈ timers s -> action t <> GainTimeout (gainNode note)) /\
      (forall id' note', Map_get id' (activeNotes s) = Some note' -> id' <> id ->
                         gainNode note' <> gainNode note) /\
      (forall id' volume, id' <> id ->
         gainNodes (setNoteVolume id' volume s) !! gainNode note
         = gainNodes s !! gainNode note) /\
      (forall id' target duration, id' <> id ->
         gainNodes (rampNoteVolume id' target duration s) !! gainNode note
         = gainNodes s !! gainNode note).
Proof.
  destruct (runEngine_owned model capacity ops _ (proj1 (synthWithPool_owned capacity)))
    as (s & Hrun & _).
  assert (Hw0 : wired [] (synthWithPool capacity)).
  { split; simpl; [apply NoDup_nil_2|apply NoDup_nil_2| |].
    - by intros a Ha%elem_of_nil.
    - by intros t a Ht%elem_of_nil. }
  pose proof (runEngine_wired model ops _ _ Hrun Hw0) as [Hk Hd Hc Hp].
  rewrite app_nil_r in Hd.
  exists s. split; [done|]. intros id note Hget.
  assert (Hdistinct : forall id' note', Map_get id' (activeNotes s) = Some note' -> id' <> id ->
                                        gainNode note' <> gainNode note).
  { intros id' note' Hget' Hne Heq. apply Hne.
    apply (voiceNodes_inj (activeNotes s) id' id note' note Hd); [| |done];
      by apply Map_get_elem. }
  split; [|split; [|split; [done|split]]].
  - apply Hc. rewrite app_nil_r. by eapply voiceNodes_get.
  - intros t Hin Hact. destruct (Hp t _ Hin Hact) as [_ Hnot]. apply Hnot.
    rewrite app_nil_r. by eapply voiceNodes_get.
  - intros id' volume Hne. unfold setNoteVolume.
    destruct (Map_get id' (activeNotes s)) as [note'|] eqn:Hget'; [|done].
    simpl. apply list_lookup_alter_ne. by apply (Hdistinct id' note').
  - intros id' target duration Hne. unfold rampNoteVolume.
    destruct (Map_get id' (activeNotes s)) as [note'|] eqn:Hget'; [|done].
    simpl. apply list_lookup_alter_ne. by apply (Hdistinct id' note').
Qed.

(** ** Instances *)

Lemma getPrimeFactorWeight_range_witness : getPrimeFactorWeight 40 = 0.01%Q.
Proof. apply (proj2 (getPrimeFactorWeight_range 40)). right. lia. Defined.

Lemma applyEnvelope_schedule_witness :
  exists attackTime attackTarget sustainTarget,
    events (applyEnvelope 100 0.3 0 2 (mkParam 1 []))
    = [SetValueAtTime 0.001 2;
       ExponentialRampToValueAtTime attackTarget (2 + attackTime)%Q;
       ExponentialRampToValueAtTime sustainTarget (2 + attackTime + 0.3)%Q;
       SetValueAtTime sustainTarget (2 + attackTime + 0.3)%Q] /\
    (0.01 <= attackTime)%Q /\ (attackTarget <= 1)%Q /\ (sustainTarget <= attackTarget)%Q.
Proof.
  destruct (applyEnvelope_schedule 100 0.3 0 2 (mkParam 1 []))
    as (attackTime & attackTarget & sustainTarget & Hev & _ & _ & _ & _ & Hvel).
  exists attackTime, attackTarget, sustainTarget. split; [exact Hev|].
  apply Hvel. lia.
Defined.


Lemma wrapper_never_leaks_witness :
  exists w,
    runWrapper (flatModel twoPartials) (fun _ _ => 1%Q) playedThroughWrapper
      (PolySynthWrapper_new None) = Returned w /\
    length (available (partialPool (synth w))) = 128.
Proof.
  destruct (wrapper_never_leaks (flatModel twoPartials) (fun _ _ => 1%Q) None
              playedThroughWrapper) as (w & Hrun & _ & _ & Hfree);
    [vm_compute; repeat split|].
  assert (Hdone : match runWrapper (flatModel twoPartials) (fun _ _ => 1%Q)
                          playedThroughWrapper (PolySynthWrapper_new None) with
                  | Returned w' => activeNotes (synth w') = [] /\
                                   pendingReleases (synth w') = []
                  | Threw => True
                  end) by (vm_compute; done).
  rewrite Hrun in Hdone. destruct Hdone as [Hnotes Hpending].
  exists w. split; [exact Hrun|]. by apply Hfree.
Defined.
